(** * Combat and entity-behaviour core of the top-down action game

    A shallow embedding of the simulation core (js/utils.js, js/constants.js,
    js/player.js, js/enemy.js, js/weapons.js, js/dodge.js, js/playerState.js
    and the three ability sets) together with the properties the design
    document states about it.

    Numbers.  Every JavaScript number is modelled as a real number: the
    arithmetic is exact, rounding, NaN and the infinities are not modelled.
    The exception are the fighter's charge time and spin cooldown, sums of
    frame times that decide a tier and a cast at whole seconds: their
    additions and subtractions are rounded by a function [fl] that the
    definitions take as a parameter, so that what is proved of them holds
    for the rounding of the doubles.
    Comparisons are the decidable order of [R], turned into booleans.
    [Math.sqrt], [Math.pow], [Math.sin], [Math.cos] are the functions of
    the real-number library.

    Effects.  Objects that the source mutates in place are records that
    the functions below take and return; where a method mutates a second
    object (an enemy damaging the player, an effect damaging enemies)
    both are threaded.  Calls of a damage mutator that a property counts
    are recorded in an explicit call log. *)

From Stdlib Require Import Reals Lra Lia List Bool Arith ZArith.
Import ListNotations.
Local Open Scope R_scope.

(** ** JavaScript numbers as reals *)

Module Num.

Definition ltb (a b : R) : bool := if Rlt_dec a b then true else false.
Definition leb (a b : R) : bool := if Rle_dec a b then true else false.
Definition eqb (a b : R) : bool := if Req_dec_T a b then true else false.

(** [a !== b] *)
Definition neqb (a b : R) : bool := negb (eqb a b).

(** [Math.max], [Math.min], [Math.abs], [Math.pow] with a positive base. *)
Definition max (a b : R) : R := Rmax a b.
Definition min (a b : R) : R := Rmin a b.
Definition abs (a : R) : R := Rabs a.
Definition pow (b e : R) : R := Rpower b e.

(** [v || d] on numbers: the default replaces a zero. *)
Definition orElse (v d : R) : R := if eqb v 0 then d else v.

End Num.

Infix "<?" := Num.ltb (at level 70, no associativity) : R_scope.
Infix "<=?" := Num.leb (at level 70, no associativity) : R_scope.
Infix "=?" := Num.eqb (at level 70, no associativity) : R_scope.
Notation "a >? b" := (Num.ltb b a)
  (at level 70, no associativity, only parsing) : R_scope.
Notation "a >=? b" := (Num.leb b a)
  (at level 70, no associativity, only parsing) : R_scope.
Notation "a !=? b" := (Num.neqb a b) (at level 70, no associativity) : R_scope.

(** ** js/utils.js *)

Module Utils.

Record Vec := mkVec { vx : R; vy : R }.

(** [distance(a, b)], on the coordinates of the two objects. *)
Definition distance (ax ay bx by_ : R) : R :=
  let dx := ax - bx in
  let dy := ay - by_ in
  sqrt (dx * dx + dy * dy).

Definition normalize (x y : R) : Vec :=
  let len := sqrt (x * x + y * y) in
  if len =? 0 then mkVec 0 0
  else mkVec (x / len) (y / len).

Definition clamp (val lo hi : R) : R := Num.max lo (Num.min hi val).

Definition lerp (a b t : R) : R := a + (b - a) * t.

(** [Math.atan2(y, x)], from its mathematical definition (no signed
    zero). *)
Definition atan2 (y x : R) : R :=
  if 0 <? x then atan (y / x)
  else if x <? 0 then
    (if 0 <=? y then atan (y / x) + PI else atan (y / x) - PI)
  else if 0 <? y then PI / 2
  else if y <? 0 then - (PI / 2)
  else 0.

End Utils.

(** ** js/constants.js *)

Module Constants.

Module WORLD.
Definition WIDTH : R := 3000.
Definition HEIGHT : R := 3000.
End WORLD.

Definition PLAYER_RADIUS : R := 14.

Module MP_CONFIG.
Definition maxMp : R := 5.
Definition mpRegen : R := 1 / 2.
End MP_CONFIG.

Module FIGHTER_ABILITIES.
Module wind.
Definition mpCost : R := 1.
Definition damage : R := 8.
Definition pushForce : R := 300.
Definition range : R := 100.
Definition arc : R := PI / 3.
Definition duration : R := 4 / 10.
End wind.
Module charge.
Module tier1.
Definition time : R := 1.
Definition damage : R := 20.
End tier1.
Module tier2.
Definition time : R := 2.
Definition damage : R := 40.
End tier2.
Module tier3.
Definition time : R := 3.
Definition damage : R := 70.
End tier3.
Definition range : R := 60.
Definition arc : R := PI * 2 / 3.
Definition moveSpeedMult : R := 4 / 10.
End charge.
Module spin.
Definition radius : R := 70.
Definition damage : R := 15.
Definition knockback : R := 250.
Definition cooldown : R := 4.
Definition duration : R := 3 / 10.
End spin.

End FIGHTER_ABILITIES.

Module MAGE_ABILITIES.
Module fireBurst.
Definition damage : R := 35.
Definition radius : R := 60.
Definition expandSpeed : R := 350.
Definition cooldown : R := 15 / 10.
Definition range : R := 150.
End fireBurst.
Module frostRing.
Definition damage : R := 15.
Definition radius : R := 120.
Definition expandSpeed : R := 250.
Definition slowFactor : R := 5 / 10.
Definition slowDuration : R := 3.
Definition cooldown : R := 5.
Definition mpCost : R := 1.
End frostRing.
Module lightningArc.
Definition damage : R := 30.
Definition chainCount : nat := 3.
Definition damageDecay : R := 7 / 10.
Definition range : R := 200.
Definition cooldown : R := 3.
End lightningArc.
Module meteor.
Definition damage : R := 80.
Definition radius : R := 80.
Definition delay : R := 15 / 10.
Definition holdTime : R := 15 / 10.
Definition cooldown : R := 8.
Definition mpCost : R := 2.
End meteor.
End MAGE_ABILITIES.

Module CELESTIAL_ABILITIES.
Module pulse.
Definition damage : R := 25.
Definition radius : R := 100.
Definition expandSpeed : R := 300.
Definition knockback : R := 150.
Definition cooldown : R := 2.
End pulse.
Module minorHeal.
Definition healPercent : R := 20 / 100.
Definition mpCost : R := 2.
Definition cooldown : R := 6.
End minorHeal.
Module fairy.
Definition orbitRadius : R := 40.
Definition orbitSpeed : R := 2.
Definition healThreshold : R := 5 / 10.
Definition healAmount : R := 15.
Definition healCooldown : R := 2.
Definition boltDamage : R := 5.
Definition boltSpeed : R := 300.
Definition boltCooldown : R := 12 / 10.
Definition boltRange : R := 150.
Definition boltRadius : R := 4.
End fairy.
Module spiritDash.
Definition distance : R := 160.
Definition cooldown : R := 3.
Definition iframes : R := 2 / 10.
End spiritDash.

End CELESTIAL_ABILITIES.

Module DODGE.
Module roll.
Definition duration : R := 25 / 100.
Definition speed : R := 500.
Definition cooldown : R := 15 / 10.
Definition iframes : R := 25 / 100.
End roll.
Module blink.
Definition distance : R := 120.
Definition cooldown : R := 2.
Definition iframes : R := 15 / 100.
Definition effectDuration : R := 35 / 100.
End blink.
End DODGE.

Module BACK_JUMP.
Definition distance : R := 75.
Definition speed : R := 600.
Definition duration : R := 12 / 100.
Definition cooldown : R := 2.
Definition iframes : R := 15 / 100.
End BACK_JUMP.

Module JUMP.
Definition initialVelocity : R := 300.
Definition gravity : R := 800.
Definition landSquashDuration : R := 1 / 10.
End JUMP.

(** Enemy type table.  A field a type may leave out is an [option]. *)
Inductive Behavior := Swarm | Melee | Ranged.

Record EnemyDef := mkDef {
  def_radius : R;
  def_hp : R;
  def_speed : R;
  def_damage : R;
  def_behavior : option Behavior;
  def_attackRange : option R;
  def_windupTime : option R;
  def_recoveryTime : option R;
  def_attackCooldown : option R;
  def_preferredRange : option R;
  def_arrowCooldown : option R;
  def_arrowSpeed : option R;
  def_arrowDamage : option R;
  def_arrowRadius : option R;
  def_arrowLifetime : option R
}.

Module ENEMY_TYPES.
Definition shambler : EnemyDef :=
  mkDef 12 30 60 15 (Some Melee) (Some 50) (Some (4 / 10)) (Some (5 / 10))
        (Some (12 / 10)) None None None None None None.
Definition imp : EnemyDef :=
  mkDef 9 15 120 8 (Some Melee) (Some 35) (Some (12 / 100))
        (Some (15 / 100)) (Some (5 / 10)) None None None None None None.
Definition brute : EnemyDef :=
  mkDef 18 80 40 25 (Some Melee) (Some 55) (Some (6 / 10)) (Some (7 / 10))
        (Some 2) None None None None None None.
Definition archer : EnemyDef :=
  mkDef 10 20 80 4 (Some Ranged) None None None None (Some 200) (Some 2)
        (Some 250) (Some 12) (Some 4) (Some 3).
End ENEMY_TYPES.

End Constants.

(** ** js/player.js: the player aggregate's own state and mutators *)

Module Player.

Record Stats := mkStats {
  maxHp : R;
  speed : R;
  damage : R;
  attackSpeed : R;
  defense : R;
  weaponSize : R;
  extraProjectiles : R
}.

Record t := mk {
  x : R;
  y : R;
  radius : R;
  stats : Stats;
  hp : R;
  invulnTimer : R;
  maxMp : R;
  mp : R;
  mpRegenTimer : R;
  moveDir : Utils.Vec;
  facing : Utils.Vec;
  attackDir : Utils.Vec;
  z : R;
  isStrafing : bool
}.

Definition set_x (v : R) (p : t) : t :=
  mk v (y p) (radius p) (stats p) (hp p) (invulnTimer p) (maxMp p) (mp p)
     (mpRegenTimer p) (moveDir p) (facing p) (attackDir p) (z p) (isStrafing p).
Definition set_y (v : R) (p : t) : t :=
  mk (x p) v (radius p) (stats p) (hp p) (invulnTimer p) (maxMp p) (mp p)
     (mpRegenTimer p) (moveDir p) (facing p) (attackDir p) (z p) (isStrafing p).
Definition set_hp (v : R) (p : t) : t :=
  mk (x p) (y p) (radius p) (stats p) v (invulnTimer p) (maxMp p) (mp p)
     (mpRegenTimer p) (moveDir p) (facing p) (attackDir p) (z p) (isStrafing p).
Definition set_invulnTimer (v : R) (p : t) : t :=
  mk (x p) (y p) (radius p) (stats p) (hp p) v (maxMp p) (mp p)
     (mpRegenTimer p) (moveDir p) (facing p) (attackDir p) (z p) (isStrafing p).
Definition set_mp (v : R) (p : t) : t :=
  mk (x p) (y p) (radius p) (stats p) (hp p) (invulnTimer p) (maxMp p) v
     (mpRegenTimer p) (moveDir p) (facing p) (attackDir p) (z p) (isStrafing p).
Definition set_z (v : R) (p : t) : t :=
  mk (x p) (y p) (radius p) (stats p) (hp p) (invulnTimer p) (maxMp p) (mp p)
     (mpRegenTimer p) (moveDir p) (facing p) (attackDir p) v (isStrafing p).

(** The constructor, for a character definition's four numbers. *)
Definition new (defMaxHp defSpeed defDamage defAttackSpeed : R) : t :=
  let st := mkStats defMaxHp defSpeed defDamage defAttackSpeed 0 1 0 in
  mk (Constants.WORLD.WIDTH / 2) (Constants.WORLD.HEIGHT / 2)
     Constants.PLAYER_RADIUS st defMaxHp 0
     Constants.MP_CONFIG.maxMp Constants.MP_CONFIG.maxMp 0
     (Utils.mkVec 0 0) (Utils.mkVec 1 0) (Utils.mkVec 1 0) 0 false.

Definition canSpendMp (cost : R) (p : t) : bool := mp p >=? cost.

(** [spendMp] returns the mutated player and the boolean it returns. *)
Definition spendMp (cost : R) (p : t) : t * bool :=
  if mp p <? cost then (p, false)
  else (set_mp (mp p - cost) p, true).

Definition takeDamage (amount : R) (p : t) : t :=
  if invulnTimer p >? 0 then p
  else
    let reduced := amount * (1 - defense (stats p)) in
    let p := set_hp (hp p - reduced) p in
    let p := set_invulnTimer (3 / 10) p in
    if hp p <? 0 then set_hp 0 p else p.

Definition isDead (p : t) : bool := hp p <=? 0.

Definition set_mpRegenTimer (v : R) (p : t) : t :=
  mk (x p) (y p) (radius p) (stats p) (hp p) (invulnTimer p) (maxMp p) (mp p)
     v (moveDir p) (facing p) (attackDir p) (z p) (isStrafing p).

(** Step 9 of [update], the MP regeneration:
    [this.mpRegenTimer += dt; while (this.mpRegenTimer >= regenInterval) ...].
    The [while] loop runs on fuel; [None] means the fuel ran out. *)
Definition regenInterval : R := 1 / Constants.MP_CONFIG.mpRegen.

Fixpoint regenLoop (fuel : nat) (p : t) : option t :=
  if mpRegenTimer p >=? regenInterval then
    match fuel with
    | O => None
    | S fuel' =>
        let p := set_mpRegenTimer (mpRegenTimer p - regenInterval) p in
        let p := if mp p <? maxMp p
                 then set_mp (Num.min (mp p + 1) (maxMp p)) p
                 else p in
        regenLoop fuel' p
    end
  else Some p.

Definition regenMp (fuel : nat) (dt : R) (p : t) : option t :=
  regenLoop fuel (set_mpRegenTimer (mpRegenTimer p + dt) p).

End Player.

(** ** js/enemy.js *)

Module Enemy.

Import Constants.

Inductive MeleeState := Chase | Windup | Attack | Recovery.

Definition Def := EnemyDef.

(** The record a ranged enemy leaves in [_pendingArrow]. *)
Record ArrowData := mkArrowData {
  a_x : R; a_y : R; a_dx : R; a_dy : R;
  a_speed : R; a_damage : R; a_radius : R; a_lifetime : R
}.

Record t := mk {
  id : nat;
  x : R;
  y : R;
  radius : R;
  speed : R;
  maxHp : R;
  hp : R;
  dead : bool;
  flashTimer : R;
  behavior : Behavior;
  wobblePhase : R;
  wobbleFreq : R;
  meleeState : MeleeState;
  meleeTimer : R;
  damage : R;
  attackRange : R;
  windupTime : R;
  recoveryTime : R;
  attackCooldown : R;
  attackCooldownTimer : R;
  preferredRange : R;
  arrowCooldownTimer : R;
  arrowCooldown : R;
  strafeDir : R;
  strafeTimer : R;
  slowFactor : R;
  slowTimer : R;
  knockbackVx : R;
  knockbackVy : R;
  def : Def;
  _pendingArrow : option ArrowData
}.

Definition set_x (v : R) (e : t) : t :=
  mk (id e) v (y e) (radius e) (speed e) (maxHp e) (hp e) (dead e)
    (flashTimer e) (behavior e) (wobblePhase e) (wobbleFreq e)
    (meleeState e) (meleeTimer e) (damage e) (attackRange e) (windupTime e)
    (recoveryTime e) (attackCooldown e) (attackCooldownTimer e)
    (preferredRange e) (arrowCooldownTimer e) (arrowCooldown e)
    (strafeDir e) (strafeTimer e) (slowFactor e) (slowTimer e)
    (knockbackVx e) (knockbackVy e) (def e) (_pendingArrow e).
Definition set_y (v : R) (e : t) : t :=
  mk (id e) (x e) v (radius e) (speed e) (maxHp e) (hp e) (dead e)
    (flashTimer e) (behavior e) (wobblePhase e) (wobbleFreq e)
    (meleeState e) (meleeTimer e) (damage e) (attackRange e) (windupTime e)
    (recoveryTime e) (attackCooldown e) (attackCooldownTimer e)
    (preferredRange e) (arrowCooldownTimer e) (arrowCooldown e)
    (strafeDir e) (strafeTimer e) (slowFactor e) (slowTimer e)
    (knockbackVx e) (knockbackVy e) (def e) (_pendingArrow e).
Definition set_hp (v : R) (e : t) : t :=
  mk (id e) (x e) (y e) (radius e) (speed e) (maxHp e) v (dead e)
    (flashTimer e) (behavior e) (wobblePhase e) (wobbleFreq e)
    (meleeState e) (meleeTimer e) (damage e) (attackRange e) (windupTime e)
    (recoveryTime e) (attackCooldown e) (attackCooldownTimer e)
    (preferredRange e) (arrowCooldownTimer e) (arrowCooldown e)
    (strafeDir e) (strafeTimer e) (slowFactor e) (slowTimer e)
    (knockbackVx e) (knockbackVy e) (def e) (_pendingArrow e).
Definition set_dead (v : bool) (e : t) : t :=
  mk (id e) (x e) (y e) (radius e) (speed e) (maxHp e) (hp e) v
    (flashTimer e) (behavior e) (wobblePhase e) (wobbleFreq e)
    (meleeState e) (meleeTimer e) (damage e) (attackRange e) (windupTime e)
    (recoveryTime e) (attackCooldown e) (attackCooldownTimer e)
    (preferredRange e) (arrowCooldownTimer e) (arrowCooldown e)
    (strafeDir e) (strafeTimer e) (slowFactor e) (slowTimer e)
    (knockbackVx e) (knockbackVy e) (def e) (_pendingArrow e).
Definition set_flashTimer (v : R) (e : t) : t :=
  mk (id e) (x e) (y e) (radius e) (speed e) (maxHp e) (hp e) (dead e) v
    (behavior e) (wobblePhase e) (wobbleFreq e) (meleeState e)
    (meleeTimer e) (damage e) (attackRange e) (windupTime e)
    (recoveryTime e) (attackCooldown e) (attackCooldownTimer e)
    (preferredRange e) (arrowCooldownTimer e) (arrowCooldown e)
    (strafeDir e) (strafeTimer e) (slowFactor e) (slowTimer e)
    (knockbackVx e) (knockbackVy e) (def e) (_pendingArrow e).
Definition set_wobblePhase (v : R) (e : t) : t :=
  mk (id e) (x e) (y e) (radius e) (speed e) (maxHp e) (hp e) (dead e)
    (flashTimer e) (behavior e) v (wobbleFreq e) (meleeState e)
    (meleeTimer e) (damage e) (attackRange e) (windupTime e)
    (recoveryTime e) (attackCooldown e) (attackCooldownTimer e)
    (preferredRange e) (arrowCooldownTimer e) (arrowCooldown e)
    (strafeDir e) (strafeTimer e) (slowFactor e) (slowTimer e)
    (knockbackVx e) (knockbackVy e) (def e) (_pendingArrow e).
Definition set_meleeState (v : MeleeState) (e : t) : t :=
  mk (id e) (x e) (y e) (radius e) (speed e) (maxHp e) (hp e) (dead e)
    (flashTimer e) (behavior e) (wobblePhase e) (wobbleFreq e) v
    (meleeTimer e) (damage e) (attackRange e) (windupTime e)
    (recoveryTime e) (attackCooldown e) (attackCooldownTimer e)
    (preferredRange e) (arrowCooldownTimer e) (arrowCooldown e)
    (strafeDir e) (strafeTimer e) (slowFactor e) (slowTimer e)
    (knockbackVx e) (knockbackVy e) (def e) (_pendingArrow e).
Definition set_meleeTimer (v : R) (e : t) : t :=
  mk (id e) (x e) (y e) (radius e) (speed e) (maxHp e) (hp e) (dead e)
    (flashTimer e) (behavior e) (wobblePhase e) (wobbleFreq e)
    (meleeState e) v (damage e) (attackRange e) (windupTime e)
    (recoveryTime e) (attackCooldown e) (attackCooldownTimer e)
    (preferredRange e) (arrowCooldownTimer e) (arrowCooldown e)
    (strafeDir e) (strafeTimer e) (slowFactor e) (slowTimer e)
    (knockbackVx e) (knockbackVy e) (def e) (_pendingArrow e).
Definition set_attackCooldownTimer (v : R) (e : t) : t :=
  mk (id e) (x e) (y e) (radius e) (speed e) (maxHp e) (hp e) (dead e)
    (flashTimer e) (behavior e) (wobblePhase e) (wobbleFreq e)
    (meleeState e) (meleeTimer e) (damage e) (attackRange e) (windupTime e)
    (recoveryTime e) (attackCooldown e) v (preferredRange e)
    (arrowCooldownTimer e) (arrowCooldown e) (strafeDir e) (strafeTimer e)
    (slowFactor e) (slowTimer e) (knockbackVx e) (knockbackVy e) (def e)
    (_pendingArrow e).
Definition set_arrowCooldownTimer (v : R) (e : t) : t :=
  mk (id e) (x e) (y e) (radius e) (speed e) (maxHp e) (hp e) (dead e)
    (flashTimer e) (behavior e) (wobblePhase e) (wobbleFreq e)
    (meleeState e) (meleeTimer e) (damage e) (attackRange e) (windupTime e)
    (recoveryTime e) (attackCooldown e) (attackCooldownTimer e)
    (preferredRange e) v (arrowCooldown e) (strafeDir e) (strafeTimer e)
    (slowFactor e) (slowTimer e) (knockbackVx e) (knockbackVy e) (def e)
    (_pendingArrow e).
Definition set_strafeDir (v : R) (e : t) : t :=
  mk (id e) (x e) (y e) (radius e) (speed e) (maxHp e) (hp e) (dead e)
    (flashTimer e) (behavior e) (wobblePhase e) (wobbleFreq e)
    (meleeState e) (meleeTimer e) (damage e) (attackRange e) (windupTime e)
    (recoveryTime e) (attackCooldown e) (attackCooldownTimer e)
    (preferredRange e) (arrowCooldownTimer e) (arrowCooldown e) v
    (strafeTimer e) (slowFactor e) (slowTimer e) (knockbackVx e)
    (knockbackVy e) (def e) (_pendingArrow e).
Definition set_strafeTimer (v : R) (e : t) : t :=
  mk (id e) (x e) (y e) (radius e) (speed e) (maxHp e) (hp e) (dead e)
    (flashTimer e) (behavior e) (wobblePhase e) (wobbleFreq e)
    (meleeState e) (meleeTimer e) (damage e) (attackRange e) (windupTime e)
    (recoveryTime e) (attackCooldown e) (attackCooldownTimer e)
    (preferredRange e) (arrowCooldownTimer e) (arrowCooldown e)
    (strafeDir e) v (slowFactor e) (slowTimer e) (knockbackVx e)
    (knockbackVy e) (def e) (_pendingArrow e).
Definition set_slowFactor (v : R) (e : t) : t :=
  mk (id e) (x e) (y e) (radius e) (speed e) (maxHp e) (hp e) (dead e)
    (flashTimer e) (behavior e) (wobblePhase e) (wobbleFreq e)
    (meleeState e) (meleeTimer e) (damage e) (attackRange e) (windupTime e)
    (recoveryTime e) (attackCooldown e) (attackCooldownTimer e)
    (preferredRange e) (arrowCooldownTimer e) (arrowCooldown e)
    (strafeDir e) (strafeTimer e) v (slowTimer e) (knockbackVx e)
    (knockbackVy e) (def e) (_pendingArrow e).
Definition set_slowTimer (v : R) (e : t) : t :=
  mk (id e) (x e) (y e) (radius e) (speed e) (maxHp e) (hp e) (dead e)
    (flashTimer e) (behavior e) (wobblePhase e) (wobbleFreq e)
    (meleeState e) (meleeTimer e) (damage e) (attackRange e) (windupTime e)
    (recoveryTime e) (attackCooldown e) (attackCooldownTimer e)
    (preferredRange e) (arrowCooldownTimer e) (arrowCooldown e)
    (strafeDir e) (strafeTimer e) (slowFactor e) v (knockbackVx e)
    (knockbackVy e) (def e) (_pendingArrow e).
Definition set_knockbackVx (v : R) (e : t) : t :=
  mk (id e) (x e) (y e) (radius e) (speed e) (maxHp e) (hp e) (dead e)
    (flashTimer e) (behavior e) (wobblePhase e) (wobbleFreq e)
    (meleeState e) (meleeTimer e) (damage e) (attackRange e) (windupTime e)
    (recoveryTime e) (attackCooldown e) (attackCooldownTimer e)
    (preferredRange e) (arrowCooldownTimer e) (arrowCooldown e)
    (strafeDir e) (strafeTimer e) (slowFactor e) (slowTimer e) v
    (knockbackVy e) (def e) (_pendingArrow e).
Definition set_knockbackVy (v : R) (e : t) : t :=
  mk (id e) (x e) (y e) (radius e) (speed e) (maxHp e) (hp e) (dead e)
    (flashTimer e) (behavior e) (wobblePhase e) (wobbleFreq e)
    (meleeState e) (meleeTimer e) (damage e) (attackRange e) (windupTime e)
    (recoveryTime e) (attackCooldown e) (attackCooldownTimer e)
    (preferredRange e) (arrowCooldownTimer e) (arrowCooldown e)
    (strafeDir e) (strafeTimer e) (slowFactor e) (slowTimer e)
    (knockbackVx e) v (def e) (_pendingArrow e).
Definition set__pendingArrow (v : (option ArrowData)) (e : t) : t :=
  mk (id e) (x e) (y e) (radius e) (speed e) (maxHp e) (hp e) (dead e)
    (flashTimer e) (behavior e) (wobblePhase e) (wobbleFreq e)
    (meleeState e) (meleeTimer e) (damage e) (attackRange e) (windupTime e)
    (recoveryTime e) (attackCooldown e) (attackCooldownTimer e)
    (preferredRange e) (arrowCooldownTimer e) (arrowCooldown e)
    (strafeDir e) (strafeTimer e) (slowFactor e) (slowTimer e)
    (knockbackVx e) (knockbackVy e) (def e) v.


(** [o || d] for a field of the type table. *)
Definition optOr (o : option R) (d : R) : R :=
  match o with
  | Some v => Num.orElse v d
  | None => d
  end.

(** The constructor.  [nextId] is the module counter's value; [r1] to
    [r4] are the four [Math.random()] draws, in the order of the source. *)
Definition new (nextId : nat) (d : Def) (x0 y0 level : R) (r1 r2 r3 r4 : R) : t :=
  let mhp := def_hp d * (1 + (level - 1) * (20 / 100)) in
  mk nextId x0 y0 (def_radius d) (def_speed d) mhp mhp false 0
     (match def_behavior d with Some b => b | None => Swarm end)
     (r1 * PI * 2) (2 + r2 * 2)
     Chase 0 (def_damage d * (1 + (level - 1) * (15 / 100)))
     (optOr (def_attackRange d) 30) (optOr (def_windupTime d) (4 / 10))
     (optOr (def_recoveryTime d) (5 / 10))
     (optOr (def_attackCooldown d) (12 / 10)) 0
     (optOr (def_preferredRange d) 200) 0 (optOr (def_arrowCooldown d) 2)
     (if r3 <? 5 / 10 then 1 else -1) (1 + r4 * 2)
     1 0 0 0 d None.

Definition applySlow (factor duration : R) (e : t) : t :=
  set_slowTimer duration (set_slowFactor factor e).

Definition applyKnockback (dx dy force : R) (e : t) : t :=
  let e := set_knockbackVx (knockbackVx e + dx * force) e in
  set_knockbackVy (knockbackVy e + dy * force) e.

Definition takeDamage (amount : R) (e : t) : t :=
  let e := set_hp (hp e - amount) e in
  let e := set_flashTimer (1 / 10) e in
  if hp e <=? 0 then set_dead true e else e.

(** Steering shared by the three behaviours: the unit direction to the
    player bent by a perpendicular wobble of amplitude [amp]. *)
Definition wobbleDir (amp : R) (player : Player.t) (e : t) : Utils.Vec :=
  let dir := Utils.normalize (Player.x player - x e) (Player.y player - y e) in
  let wobble := sin (wobblePhase e) * amp in
  let mx := Utils.vx dir + (- Utils.vy dir) * wobble in
  let my := Utils.vy dir + Utils.vx dir * wobble in
  Utils.normalize mx my.

Definition _updateSwarm (dt : R) (player : Player.t) (e : t) : t :=
  let n := wobbleDir (4 / 10) player e in
  let e := set_x (x e + Utils.vx n * speed e * slowFactor e * dt) e in
  set_y (y e + Utils.vy n * speed e * slowFactor e * dt) e.

(** [_updateMelee] returns the enemy, the player, and the amounts passed
    to [player.takeDamage] during the call, in call order. *)
Definition _updateMelee (dt : R) (player : Player.t) (e : t)
  : t * Player.t * list R :=
  let dist := Utils.distance (x e) (y e) (Player.x player) (Player.y player) in
  let e := set_attackCooldownTimer (Num.max 0 (attackCooldownTimer e - dt)) e in
  let inRange := dist <? attackRange e + Player.radius player + radius e in
  match meleeState e with
  | Chase =>
      let e :=
        if negb inRange then
          let n := wobbleDir (3 / 10) player e in
          let e := set_x (x e + Utils.vx n * speed e * slowFactor e * dt) e in
          set_y (y e + Utils.vy n * speed e * slowFactor e * dt) e
        else e in
      let e :=
        if inRange && (attackCooldownTimer e <=? 0) then
          set_meleeTimer (windupTime e) (set_meleeState Windup e)
        else e in
      (e, player, [])
  | Windup =>
      let e := set_meleeTimer (meleeTimer e - dt) e in
      let e :=
        if meleeTimer e <=? 0 then
          set_meleeTimer (1 / 10) (set_meleeState Attack e)
        else e in
      (e, player, [])
  | Attack =>
      let e := set_meleeTimer (meleeTimer e - dt) e in
      if meleeTimer e <=? 0 then
        let hit :=
          dist <? attackRange e + Player.radius player + radius e + 10 in
        let player := if hit then Player.takeDamage (damage e) player else player in
        let calls := if hit then [damage e] else [] in
        let e := set_meleeState Recovery e in
        let e := set_meleeTimer (recoveryTime e) e in
        let e := set_attackCooldownTimer (attackCooldown e) e in
        (e, player, calls)
      else (e, player, [])
  | Recovery =>
      let e := set_meleeTimer (meleeTimer e - dt) e in
      let e := if meleeTimer e <=? 0 then set_meleeState Chase e else e in
      (e, player, [])
  end.

(** [rnd] is the [Math.random()] draw of the strafe-timer reset. *)
Definition _updateRanged (rnd dt : R) (player : Player.t) (e : t) : t :=
  let dist := Utils.distance (x e) (y e) (Player.x player) (Player.y player) in
  let dir := Utils.normalize (Player.x player - x e) (Player.y player - y e) in
  let e := set_arrowCooldownTimer (Num.max 0 (arrowCooldownTimer e - dt)) e in
  let e := set_strafeTimer (strafeTimer e - dt) e in
  let e :=
    if strafeTimer e <=? 0 then
      set_strafeTimer (15 / 10 + rnd * 2) (set_strafeDir (strafeDir e * -1) e)
    else e in
  let spd := speed e * slowFactor e in
  let e :=
    if dist >? preferredRange e + 40 then
      let n := wobbleDir (3 / 10) player e in
      let e := set_x (x e + Utils.vx n * spd * dt) e in
      set_y (y e + Utils.vy n * spd * dt) e
    else if dist <? preferredRange e - 40 then
      let e := set_x (x e - Utils.vx dir * spd * (7 / 10) * dt) e in
      set_y (y e - Utils.vy dir * spd * (7 / 10) * dt) e
    else
      let perpX := - Utils.vy dir * strafeDir e in
      let perpY := Utils.vx dir * strafeDir e in
      let e := set_x (x e + perpX * spd * (5 / 10) * dt) e in
      set_y (y e + perpY * spd * (5 / 10) * dt) e in
  if (arrowCooldownTimer e <=? 0) && (dist <? preferredRange e + 100) then
    let arrow :=
      mkArrowData (x e) (y e) (Utils.vx dir) (Utils.vy dir)
        (optOr (def_arrowSpeed (def e)) 250)
        (optOr (def_arrowDamage (def e)) 12)
        (optOr (def_arrowRadius (def e)) 4)
        (optOr (def_arrowLifetime (def e)) 3) in
    set_arrowCooldownTimer (arrowCooldown e) (set__pendingArrow (Some arrow) e)
  else e.

(** The "Knockback decay" block of [update]. *)
Definition knockbackDecay (dt : R) (e : t) : t :=
  if (knockbackVx e !=? 0) || (knockbackVy e !=? 0) then
    let e := set_x (x e + knockbackVx e * dt) e in
    let e := set_y (y e + knockbackVy e * dt) e in
    let decay := Num.pow (5 / 100) dt in
    let e := set_knockbackVx (knockbackVx e * decay) e in
    let e := set_knockbackVy (knockbackVy e * decay) e in
    let e := if Num.abs (knockbackVx e) <? 1 then set_knockbackVx 0 e else e in
    if Num.abs (knockbackVy e) <? 1 then set_knockbackVy 0 e else e
  else e.

(** The "Slow debuff tick" block of [update]. *)
Definition slowTick (dt : R) (e : t) : t :=
  if slowTimer e >? 0 then
    let e := set_slowTimer (slowTimer e - dt) e in
    if slowTimer e <=? 0 then set_slowFactor 1 e else e
  else e.

(** What [update] does before it dispatches on the behaviour: the wobble
    phase, the slow debuff and the knockback. *)
Definition preBehavior (dt : R) (e : t) : t :=
  let e := set_wobblePhase (wobblePhase e + wobbleFreq e * dt) e in
  let e := slowTick dt e in
  knockbackDecay dt e.

(** [update(dt, player)]: the enemy, the player, and the amounts passed to
    [player.takeDamage] during the call. *)
Definition update (rnd dt : R) (player : Player.t) (e : t)
  : t * Player.t * list R :=
  if dead e then (e, player, [])
  else
    let e := preBehavior dt e in
    let '(e, player, calls) :=
      match behavior e with
      | Melee => _updateMelee dt player e
      | Ranged => (_updateRanged rnd dt player e, player, [])
      | Swarm => (_updateSwarm dt player e, player, [])
      end in
    let e := if flashTimer e >? 0 then set_flashTimer (flashTimer e - dt) e else e in
    let e := set_x (Utils.clamp (x e) (radius e) (WORLD.WIDTH - radius e)) e in
    let e := set_y (Utils.clamp (y e) (radius e) (WORLD.HEIGHT - radius e)) e in
    (e, player, calls).

End Enemy.

(** ** js/weapons.js: the effects and the effect engine *)

Module Weapons.

(** One call of an enemy's [takeDamage]: the enemy's id and the amount. *)
Definition Call := (nat * R)%type.

(** A [Set] of enemy ids. *)
Definition has (i : nat) (s : list nat) : bool := existsb (Nat.eqb i) s.
Definition add (i : nat) (s : list nat) : list nat :=
  if has i s then s else s ++ [i].

(** [for (const enemy of enemies) body]: the body may mutate the effect
    and the enemy it is given; the calls it makes are collected in order. *)
Fixpoint forEnemies {E : Type}
    (body : E -> Enemy.t -> E * Enemy.t * list Call)
    (eff : E) (enemies : list Enemy.t) : E * list Enemy.t * list Call :=
  match enemies with
  | [] => (eff, [], [])
  | enemy :: rest =>
      let '(eff, enemy, c1) := body eff enemy in
      let '(eff, rest, c2) := forEnemies body eff rest in
      (eff, enemy :: rest, c1 ++ c2)
  end.

Module Projectile.

Record t := mk {
  x : R;
  y : R;
  vx : R;
  vy : R;
  damage : R;
  radius : R;
  lifetime : R;
  maxLifetime : R;
  hitEnemies : list nat;
  alive : bool
}.

Definition set_x (v : R) (e : t) : t :=
  mk v (y e) (vx e) (vy e) (damage e) (radius e) (lifetime e)
    (maxLifetime e) (hitEnemies e) (alive e).
Definition set_y (v : R) (e : t) : t :=
  mk (x e) v (vx e) (vy e) (damage e) (radius e) (lifetime e)
    (maxLifetime e) (hitEnemies e) (alive e).
Definition set_lifetime (v : R) (e : t) : t :=
  mk (x e) (y e) (vx e) (vy e) (damage e) (radius e) v (maxLifetime e)
    (hitEnemies e) (alive e).
Definition set_hitEnemies (v : (list nat)) (e : t) : t :=
  mk (x e) (y e) (vx e) (vy e) (damage e) (radius e) (lifetime e)
    (maxLifetime e) v (alive e).
Definition set_alive (v : bool) (e : t) : t :=
  mk (x e) (y e) (vx e) (vy e) (damage e) (radius e) (lifetime e)
    (maxLifetime e) (hitEnemies e) v.

Definition new (x0 y0 vx0 vy0 damage0 radius0 lifetime0 : R) : t :=
  mk x0 y0 vx0 vy0 damage0 radius0 lifetime0 lifetime0 [] true.

Definition update (dt : R) (e : t) : t :=
  let e := set_x (x e + vx e * dt) e in
  let e := set_y (y e + vy e * dt) e in
  let e := set_lifetime (lifetime e - dt) e in
  if lifetime e <=? 0 then set_alive false e else e.
End Projectile.

(** [FairyBolt] has the fields of [Projectile]; only its constructor and
    its type tag differ. *)
Module FairyBolt.
Definition new (x0 y0 tx ty damage0 speed0 radius0 : R) : Projectile.t :=
  let dir := Utils.normalize (tx - x0) (ty - y0) in
  Projectile.mk x0 y0 (Utils.vx dir * speed0) (Utils.vy dir * speed0)
    damage0 radius0 2 2 [] true.
Definition update := Projectile.update.
End FairyBolt.

Module Swing.

Record t := mk {
  x : R;
  y : R;
  dir : R;
  range : R;
  arc : R;
  damage : R;
  duration : R;
  timer : R;
  hitEnemies : list nat;
  alive : bool
}.

Definition set_timer (v : R) (e : t) : t :=
  mk (x e) (y e) (dir e) (range e) (arc e) (damage e) (duration e) v
    (hitEnemies e) (alive e).
Definition set_hitEnemies (v : (list nat)) (e : t) : t :=
  mk (x e) (y e) (dir e) (range e) (arc e) (damage e) (duration e)
    (timer e) v (alive e).
Definition set_alive (v : bool) (e : t) : t :=
  mk (x e) (y e) (dir e) (range e) (arc e) (damage e) (duration e)
    (timer e) (hitEnemies e) v.

Definition new (x0 y0 dir0 range0 arc0 damage0 duration0 : R) : t :=
  mk x0 y0 dir0 range0 arc0 damage0 duration0 duration0 [] true.

Definition update (dt : R) (e : t) : t :=
  let e := set_timer (timer e - dt) e in
  if timer e <=? 0 then set_alive false e else e.
End Swing.

Module Nova.

Record t := mk {
  x : R;
  y : R;
  damage : R;
  maxRadius : R;
  expandSpeed : R;
  radius : R;
  hitEnemies : list nat;
  alive : bool
}.

Definition set_radius (v : R) (e : t) : t :=
  mk (x e) (y e) (damage e) (maxRadius e) (expandSpeed e) v (hitEnemies e)
    (alive e).
Definition set_hitEnemies (v : (list nat)) (e : t) : t :=
  mk (x e) (y e) (damage e) (maxRadius e) (expandSpeed e) (radius e) v
    (alive e).
Definition set_alive (v : bool) (e : t) : t :=
  mk (x e) (y e) (damage e) (maxRadius e) (expandSpeed e) (radius e)
    (hitEnemies e) v.

Definition new (x0 y0 damage0 maxRadius0 expandSpeed0 : R) : t :=
  mk x0 y0 damage0 maxRadius0 expandSpeed0 10 [] true.

Definition update (dt : R) (e : t) : t :=
  let e := set_radius (radius e + expandSpeed e * dt) e in
  if radius e >=? maxRadius e then set_alive false e else e.
End Nova.

Module Spin.

Record t := mk {
  baseDamage : R;
  orbitRadius : R;
  bladeRadius : R;
  duration : R;
  timer : R;
  bladeCount : nat;
  knockback : R;
  angle : R;
  rotationSpeed : R;
  hitTimers : list (nat * R);
  alive : bool;
  ownerX : R;
  ownerY : R
}.

Definition set_timer (v : R) (e : t) : t :=
  mk (baseDamage e) (orbitRadius e) (bladeRadius e) (duration e) v
    (bladeCount e) (knockback e) (angle e) (rotationSpeed e) (hitTimers e)
    (alive e) (ownerX e) (ownerY e).
Definition set_angle (v : R) (e : t) : t :=
  mk (baseDamage e) (orbitRadius e) (bladeRadius e) (duration e) (timer e)
    (bladeCount e) (knockback e) v (rotationSpeed e) (hitTimers e)
    (alive e) (ownerX e) (ownerY e).
Definition set_hitTimers (v : (list (nat * R))) (e : t) : t :=
  mk (baseDamage e) (orbitRadius e) (bladeRadius e) (duration e) (timer e)
    (bladeCount e) (knockback e) (angle e) (rotationSpeed e) v (alive e)
    (ownerX e) (ownerY e).
Definition set_alive (v : bool) (e : t) : t :=
  mk (baseDamage e) (orbitRadius e) (bladeRadius e) (duration e) (timer e)
    (bladeCount e) (knockback e) (angle e) (rotationSpeed e) (hitTimers e)
    v (ownerX e) (ownerY e).
Definition set_ownerX (v : R) (e : t) : t :=
  mk (baseDamage e) (orbitRadius e) (bladeRadius e) (duration e) (timer e)
    (bladeCount e) (knockback e) (angle e) (rotationSpeed e) (hitTimers e)
    (alive e) v (ownerY e).
Definition set_ownerY (v : R) (e : t) : t :=
  mk (baseDamage e) (orbitRadius e) (bladeRadius e) (duration e) (timer e)
    (bladeCount e) (knockback e) (angle e) (rotationSpeed e) (hitTimers e)
    (alive e) (ownerX e) v.

(** [knockback0] is [None] when the caller leaves the argument out. *)
Definition new (baseDamage0 orbitRadius0 bladeRadius0 duration0 : R)
    (bladeCount0 : nat) (knockback0 : option R) : t :=
  mk baseDamage0 orbitRadius0 bladeRadius0 duration0 duration0 bladeCount0
     (match knockback0 with Some k => Num.orElse k 0 | None => 0 end)
     0 5 [] true 0 0.

Definition update (dt : R) (e : t) : t :=
  let e := set_angle (angle e + rotationSpeed e * dt) e in
  let e := set_timer (timer e - dt) e in
  let e := if timer e <=? 0 then set_alive false e else e in
  set_hitTimers (map (fun kv => (fst kv, snd kv - dt)) (hitTimers e)) e.

(** [hitTimers[key]] and [hitTimers[key] = v]. *)
Fixpoint lookup (key : nat) (m : list (nat * R)) : option R :=
  match m with
  | [] => None
  | (k, v) :: rest => if Nat.eqb k key then Some v else lookup key rest
  end.
Fixpoint store (key : nat) (v : R) (m : list (nat * R)) : list (nat * R) :=
  match m with
  | [] => [(key, v)]
  | (k, w) :: rest =>
      if Nat.eqb k key then (k, v) :: rest else (k, w) :: store key v rest
  end.
End Spin.

Module WindPush.

Record t := mk {
  x : R;
  y : R;
  dir : R;
  range : R;
  arc : R;
  damage : R;
  pushForce : R;
  duration : R;
  timer : R;
  hitEnemies : list nat;
  currentRange : R;
  alive : bool
}.

Definition set_timer (v : R) (e : t) : t :=
  mk (x e) (y e) (dir e) (range e) (arc e) (damage e) (pushForce e)
    (duration e) v (hitEnemies e) (currentRange e) (alive e).
Definition set_hitEnemies (v : (list nat)) (e : t) : t :=
  mk (x e) (y e) (dir e) (range e) (arc e) (damage e) (pushForce e)
    (duration e) (timer e) v (currentRange e) (alive e).
Definition set_currentRange (v : R) (e : t) : t :=
  mk (x e) (y e) (dir e) (range e) (arc e) (damage e) (pushForce e)
    (duration e) (timer e) (hitEnemies e) v (alive e).
Definition set_alive (v : bool) (e : t) : t :=
  mk (x e) (y e) (dir e) (range e) (arc e) (damage e) (pushForce e)
    (duration e) (timer e) (hitEnemies e) (currentRange e) v.

Definition new (x0 y0 dir0 range0 arc0 damage0 pushForce0 duration0 : R) : t :=
  mk x0 y0 dir0 range0 arc0 damage0 pushForce0 duration0 duration0 [] 10 true.

Definition update (dt : R) (e : t) : t :=
  let e := set_timer (timer e - dt) e in
  let e := set_currentRange (currentRange e + (range e / duration e) * dt) e in
  if timer e <=? 0 then set_alive false e else e.
End WindPush.

Module FrostRing.

Record t := mk {
  x : R;
  y : R;
  damage : R;
  maxRadius : R;
  expandSpeed : R;
  slowFactor : R;
  slowDuration : R;
  radius : R;
  hitEnemies : list nat;
  alive : bool
}.

Definition set_radius (v : R) (e : t) : t :=
  mk (x e) (y e) (damage e) (maxRadius e) (expandSpeed e) (slowFactor e)
    (slowDuration e) v (hitEnemies e) (alive e).
Definition set_hitEnemies (v : (list nat)) (e : t) : t :=
  mk (x e) (y e) (damage e) (maxRadius e) (expandSpeed e) (slowFactor e)
    (slowDuration e) (radius e) v (alive e).
Definition set_alive (v : bool) (e : t) : t :=
  mk (x e) (y e) (damage e) (maxRadius e) (expandSpeed e) (slowFactor e)
    (slowDuration e) (radius e) (hitEnemies e) v.

Definition new (x0 y0 damage0 maxRadius0 expandSpeed0 slowFactor0 slowDuration0 : R) : t :=
  mk x0 y0 damage0 maxRadius0 expandSpeed0 slowFactor0 slowDuration0 10 [] true.

Definition update (dt : R) (e : t) : t :=
  let e := set_radius (radius e + expandSpeed e * dt) e in
  if radius e >=? maxRadius e then set_alive false e else e.
End FrostRing.

Module Meteor.
Inductive Phase := Warning | Impact.


Record t := mk {
  x : R;
  y : R;
  damage : R;
  radius : R;
  delay : R;
  timer : R;
  phase : Phase;
  impactTimer : R;
  hitEnemies : list nat;
  alive : bool
}.

Definition set_timer (v : R) (e : t) : t :=
  mk (x e) (y e) (damage e) (radius e) (delay e) v (phase e)
    (impactTimer e) (hitEnemies e) (alive e).
Definition set_phase (v : Phase) (e : t) : t :=
  mk (x e) (y e) (damage e) (radius e) (delay e) (timer e) v
    (impactTimer e) (hitEnemies e) (alive e).
Definition set_hitEnemies (v : (list nat)) (e : t) : t :=
  mk (x e) (y e) (damage e) (radius e) (delay e) (timer e) (phase e)
    (impactTimer e) v (alive e).
Definition set_alive (v : bool) (e : t) : t :=
  mk (x e) (y e) (damage e) (radius e) (delay e) (timer e) (phase e)
    (impactTimer e) (hitEnemies e) v.

Definition new (x0 y0 damage0 radius0 delay0 : R) : t :=
  mk x0 y0 damage0 radius0 delay0 delay0 Warning (3 / 10) [] true.

Definition update (dt : R) (e : t) : t :=
  match phase e with
  | Warning =>
      let e := set_timer (timer e - dt) e in
      if timer e <=? 0 then set_timer (impactTimer e) (set_phase Impact e)
      else e
  | Impact =>
      let e := set_timer (timer e - dt) e in
      if timer e <=? 0 then set_alive false e else e
  end.
End Meteor.

Module Pulse.

Record t := mk {
  x : R;
  y : R;
  damage : R;
  maxRadius : R;
  expandSpeed : R;
  knockback : R;
  radius : R;
  hitEnemies : list nat;
  alive : bool
}.

Definition set_radius (v : R) (e : t) : t :=
  mk (x e) (y e) (damage e) (maxRadius e) (expandSpeed e) (knockback e) v
    (hitEnemies e) (alive e).
Definition set_hitEnemies (v : (list nat)) (e : t) : t :=
  mk (x e) (y e) (damage e) (maxRadius e) (expandSpeed e) (knockback e)
    (radius e) v (alive e).
Definition set_alive (v : bool) (e : t) : t :=
  mk (x e) (y e) (damage e) (maxRadius e) (expandSpeed e) (knockback e)
    (radius e) (hitEnemies e) v.

Definition new (x0 y0 damage0 maxRadius0 expandSpeed0 knockback0 : R) : t :=
  mk x0 y0 damage0 maxRadius0 expandSpeed0 knockback0 10 [] true.

Definition update (dt : R) (e : t) : t :=
  let e := set_radius (radius e + expandSpeed e * dt) e in
  if radius e >=? maxRadius e then set_alive false e else e.
End Pulse.

Module LightningArc.

Record Chain := mkChain { x1 : R; y1 : R; x2 : R; y2 : R; damage : R }.

Record t := mk { alive : bool; timer : R; chains : list Chain }.

(** The variables of [_buildChain]'s loop, the roster it mutates, and
    the calls of [takeDamage] made so far. *)
Record Loop := mkLoop {
  cx : R;
  cy : R;
  dmg : R;
  hitSet : list nat;
  enemies : list Enemy.t;
  built : list Chain;
  calls : list Call
}.

(** The inner [for] of [_buildChain]: scans the roster from position [i]
    on, with the best candidate so far ([nearest], as its position in
    the roster and the enemy) and its distance. *)
Fixpoint scan (cx0 cy0 : R) (hit : list nat) (es : list Enemy.t) (i : nat)
    (nearest : option (nat * Enemy.t)) (nearestDist : R)
  : option (nat * Enemy.t) :=
  match es with
  | [] => nearest
  | enemy :: rest =>
      if Enemy.dead enemy || has (Enemy.id enemy) hit then
        scan cx0 cy0 hit rest (S i) nearest nearestDist
      else
        let d := Utils.distance cx0 cy0 (Enemy.x enemy) (Enemy.y enemy) in
        if d <? nearestDist then scan cx0 cy0 hit rest (S i) (Some (i, enemy)) d
        else scan cx0 cy0 hit rest (S i) nearest nearestDist
  end.

(** The enemy object at position [i] of the roster, mutated in place. *)
Fixpoint mutateAt (i : nat) (f : Enemy.t -> Enemy.t) (es : list Enemy.t)
  : list Enemy.t :=
  match es, i with
  | [], _ => []
  | e :: rest, O => f e :: rest
  | e :: rest, S j => e :: mutateAt j f rest
  end.

(** One iteration of the outer [for]; [None] is the [break]. *)
Definition hop (decay range : R) (s : Loop) : option Loop :=
  match scan (cx s) (cy s) (hitSet s) (enemies s) 0 None range with
  | None => None
  | Some (i, nearest) =>
      Some (mkLoop (Enemy.x nearest) (Enemy.y nearest) (dmg s * decay)
              (add (Enemy.id nearest) (hitSet s))
              (mutateAt i (Enemy.takeDamage (dmg s)) (enemies s))
              (built s ++ [mkChain (cx s) (cy s) (Enemy.x nearest)
                             (Enemy.y nearest) (dmg s)])
              (calls s ++ [(Enemy.id nearest, dmg s)]))
  end.

(** [n] iterations of the outer [for], unless it breaks. *)
Fixpoint hops (n : nat) (decay range : R) (s : Loop) : Loop :=
  match n with
  | O => s
  | S m =>
      match hop decay range s with
      | None => s
      | Some s' => hops m decay range s'
      end
  end.

(** [for (let i = 0; i < maxChains + 1; i++)] *)
Definition _buildChain (startX startY baseDamage : R) (maxChains : nat)
    (decay range : R) (es : list Enemy.t) : Loop :=
  hops (maxChains + 1) decay range
    (mkLoop startX startY baseDamage [] es [] []).

(** The constructor: the effect, the roster after the damage, and the
    calls of [takeDamage] it made. *)
Definition new (x0 y0 damage0 : R) (chainCount : nat)
    (damageDecay range : R) (es : list Enemy.t)
  : t * list Enemy.t * list Call :=
  let s := _buildChain x0 y0 damage0 chainCount damageDecay range es in
  (mk true (4 / 10) (built s), enemies s, calls s).

Definition update (dt : R) (e : t) : t :=
  let e := mk (alive e) (timer e - dt) (chains e) in
  if timer e <=? 0 then mk false (timer e) (chains e) else e.

End LightningArc.

(** The effects as the engine's pool holds them, by their [type] tag. *)
Inductive Effect :=
| projectile (e : Projectile.t)
| fairyBolt (e : Projectile.t)
| swing (e : Swing.t)
| nova (e : Nova.t)
| spin (e : Spin.t)
| windPush (e : WindPush.t)
| frostRing (e : FrostRing.t)
| lightningArc (e : LightningArc.t)
| meteor (e : Meteor.t)
| pulse (e : Pulse.t).

(** [e.alive] *)
Definition alive (e : Effect) : bool :=
  match e with
  | projectile p | fairyBolt p => Projectile.alive p
  | swing s => Swing.alive s
  | nova n => Nova.alive n
  | spin s => Spin.alive s
  | windPush w => WindPush.alive w
  | frostRing f => FrostRing.alive f
  | lightningArc l => LightningArc.alive l
  | meteor m => Meteor.alive m
  | pulse p => Pulse.alive p
  end.

(** [e.update(dt)] *)
Definition updateEffect (dt : R) (e : Effect) : Effect :=
  match e with
  | projectile p => projectile (Projectile.update dt p)
  | fairyBolt p => fairyBolt (FairyBolt.update dt p)
  | swing s => swing (Swing.update dt s)
  | nova n => nova (Nova.update dt n)
  | spin s => spin (Spin.update dt s)
  | windPush w => windPush (WindPush.update dt w)
  | frostRing f => frostRing (FrostRing.update dt f)
  | lightningArc l => lightningArc (LightningArc.update dt l)
  | meteor m => meteor (Meteor.update dt m)
  | pulse p => pulse (Pulse.update dt p)
  end.

(** The two [while] loops that bring an angle difference back towards
    [-PI, PI]; [fuel] bounds the number of iterations. *)
Fixpoint wrapDown (fuel : nat) (a : R) : R :=
  match fuel with
  | O => a
  | S f => if a >? PI then wrapDown f (a - PI * 2) else a
  end.
Fixpoint wrapUp (fuel : nat) (a : R) : R :=
  match fuel with
  | O => a
  | S f => if a <? - PI then wrapUp f (a + PI * 2) else a
  end.
(** Enough iterations for either loop started at [a]. *)
Definition wrapFuel (a : R) : nat := Z.to_nat (up (Rabs a / (PI * 2))).
Definition wrapAngle (a : R) : R :=
  let a := wrapDown (wrapFuel a) a in
  wrapUp (wrapFuel a) a.

Module EffectEngine.

Record t := mk { effects : list Effect }.

Definition addEffect (effect : Effect) (eng : t) : t :=
  mk (effects eng ++ [effect]).

(** [_checkProjectileHit]; the recursion stops at the [break]. *)
Fixpoint projectileLoop (proj : Projectile.t) (enemies : list Enemy.t)
  : Projectile.t * list Enemy.t * list Call :=
  match enemies with
  | [] => (proj, [], [])
  | enemy :: rest =>
      if Enemy.dead enemy
         || has (Enemy.id enemy) (Projectile.hitEnemies proj)
         || negb (Utils.distance (Projectile.x proj) (Projectile.y proj)
                    (Enemy.x enemy) (Enemy.y enemy)
                  <? Projectile.radius proj + Enemy.radius enemy)
      then
        let '(proj, rest, c) := projectileLoop proj rest in
        (proj, enemy :: rest, c)
      else
        let enemy' := Enemy.takeDamage (Projectile.damage proj) enemy in
        let proj :=
          Projectile.set_hitEnemies
            (add (Enemy.id enemy) (Projectile.hitEnemies proj)) proj in
        (Projectile.set_alive false proj, enemy' :: rest,
         [(Enemy.id enemy, Projectile.damage proj)])
  end.

Definition _checkProjectileHit (proj : Projectile.t) (enemies : list Enemy.t)
  : Projectile.t * list Enemy.t * list Call :=
  if negb (Projectile.alive proj) then (proj, enemies, [])
  else projectileLoop proj enemies.

(** Is the bearing from [(ox, oy)] to the enemy within half of [arc]
    around [dir]? *)
Definition inCone (dx dy dir arc : R) : bool :=
  let enemyAngle := Utils.atan2 dy dx in
  let angleDiff := wrapAngle (enemyAngle - dir) in
  Num.abs angleDiff <=? arc / 2.

Definition _checkSwingHit (sw : Swing.t) (enemies : list Enemy.t)
  : Swing.t * list Enemy.t * list Call :=
  if negb (Swing.alive sw) then (sw, enemies, [])
  else
    forEnemies (fun sw enemy =>
      if Enemy.dead enemy then (sw, enemy, [])
      else if has (Enemy.id enemy) (Swing.hitEnemies sw) then (sw, enemy, [])
      else
        let dx := Enemy.x enemy - Swing.x sw in
        let dy := Enemy.y enemy - Swing.y sw in
        let dist := sqrt (dx * dx + dy * dy) in
        if dist >? Swing.range sw + Enemy.radius enemy then (sw, enemy, [])
        else if inCone dx dy (Swing.dir sw) (Swing.arc sw) then
          (Swing.set_hitEnemies (add (Enemy.id enemy) (Swing.hitEnemies sw)) sw,
           Enemy.takeDamage (Swing.damage sw) enemy,
           [(Enemy.id enemy, Swing.damage sw)])
        else (sw, enemy, [])) sw enemies.

(** The body of [_checkNovaHit]'s loop. *)
Definition novaStrike (nv : Nova.t) (enemy : Enemy.t)
  : Nova.t * Enemy.t * list Call :=
  if Enemy.dead enemy then (nv, enemy, [])
  else if has (Enemy.id enemy) (Nova.hitEnemies nv) then (nv, enemy, [])
  else
    let dist := Utils.distance (Nova.x nv) (Nova.y nv)
                  (Enemy.x enemy) (Enemy.y enemy) in
    if (dist <? Nova.radius nv + Enemy.radius enemy)
       && (dist >? Nova.radius nv - 25) then
      (Nova.set_hitEnemies (add (Enemy.id enemy) (Nova.hitEnemies nv)) nv,
       Enemy.takeDamage (Nova.damage nv) enemy,
       [(Enemy.id enemy, Nova.damage nv)])
    else (nv, enemy, []).

Definition _checkNovaHit (nv : Nova.t) (enemies : list Enemy.t)
  : Nova.t * list Enemy.t * list Call :=
  if negb (Nova.alive nv) then (nv, enemies, [])
  else forEnemies novaStrike nv enemies.

(** The body of [_checkSpinHit]'s inner loop for the blade at
    [(bx, by)]. *)
Definition spinBlade (bx by_ : R) (sp : Spin.t) (enemy : Enemy.t)
  : Spin.t * Enemy.t * list Call :=
  if Enemy.dead enemy then (sp, enemy, [])
  else if Utils.distance bx by_ (Enemy.x enemy) (Enemy.y enemy)
          <? Spin.bladeRadius sp + Enemy.radius enemy then
    let key := Enemy.id enemy in
    let ready :=
      match Spin.lookup key (Spin.hitTimers sp) with
      | None => true
      | Some v => (v =? 0) || (v <=? 0)
      end in
    if ready then
      let e1 := Enemy.takeDamage (Spin.baseDamage sp) enemy in
      let sp' := Spin.set_hitTimers (Spin.store key (3 / 10) (Spin.hitTimers sp)) sp in
      let e2 :=
        if Spin.knockback sp !=? 0 then
          let dx := Enemy.x e1 - Spin.ownerX sp in
          let dy := Enemy.y e1 - Spin.ownerY sp in
          let d := Num.orElse (sqrt (dx * dx + dy * dy)) 1 in
          Enemy.applyKnockback (dx / d) (dy / d) (Spin.knockback sp) e1
        else e1 in
      (sp', e2, [(key, Spin.baseDamage sp)])
    else (sp, enemy, [])
  else (sp, enemy, []).

(** The blades [i], [i+1], ... of the outer loop, [n] of them. *)
Fixpoint spinBlades (n i : nat) (sp : Spin.t) (enemies : list Enemy.t)
  : Spin.t * list Enemy.t * list Call :=
  match n with
  | O => (sp, enemies, [])
  | S m =>
      let angle := Spin.angle sp + (INR i * PI * 2 / INR (Spin.bladeCount sp)) in
      let bx := Spin.ownerX sp + cos angle * Spin.orbitRadius sp in
      let by_ := Spin.ownerY sp + sin angle * Spin.orbitRadius sp in
      let '(sp, enemies, c1) := forEnemies (spinBlade bx by_) sp enemies in
      let '(sp, enemies, c2) := spinBlades m (S i) sp enemies in
      (sp, enemies, c1 ++ c2)
  end.

Definition _checkSpinHit (sp : Spin.t) (enemies : list Enemy.t)
  : Spin.t * list Enemy.t * list Call :=
  if negb (Spin.alive sp) then (sp, enemies, [])
  else spinBlades (Spin.bladeCount sp) 0 sp enemies.

Definition _checkWindPushHit (wind : WindPush.t) (enemies : list Enemy.t)
  : WindPush.t * list Enemy.t * list Call :=
  if negb (WindPush.alive wind) then (wind, enemies, [])
  else
    forEnemies (fun wind enemy =>
      if Enemy.dead enemy then (wind, enemy, [])
      else
        let dx := Enemy.x enemy - WindPush.x wind in
        let dy := Enemy.y enemy - WindPush.y wind in
        let dist := sqrt (dx * dx + dy * dy) in
        if dist >? WindPush.currentRange wind + Enemy.radius enemy
        then (wind, enemy, [])
        else if inCone dx dy (WindPush.dir wind) (WindPush.arc wind) then
          let fresh := negb (has (Enemy.id enemy) (WindPush.hitEnemies wind)) in
          let e1 := if fresh then Enemy.takeDamage (WindPush.damage wind) enemy
                    else enemy in
          let wind' :=
            if fresh then
              WindPush.set_hitEnemies
                (add (Enemy.id enemy) (WindPush.hitEnemies wind)) wind
            else wind in
          let n := if dist >? 0 then Utils.mkVec (dx / dist) (dy / dist)
                   else Utils.mkVec 1 0 in
          (wind',
           Enemy.applyKnockback (Utils.vx n) (Utils.vy n) (WindPush.pushForce wind) e1,
           if fresh then [(Enemy.id enemy, WindPush.damage wind)] else [])
        else (wind, enemy, [])) wind enemies.

(** The body of [_checkFrostRingHit]'s loop. *)
Definition frostStrike (frost : FrostRing.t) (enemy : Enemy.t)
  : FrostRing.t * Enemy.t * list Call :=
  if Enemy.dead enemy then (frost, enemy, [])
  else if has (Enemy.id enemy) (FrostRing.hitEnemies frost)
  then (frost, enemy, [])
  else
    let dist := Utils.distance (FrostRing.x frost) (FrostRing.y frost)
                  (Enemy.x enemy) (Enemy.y enemy) in
    if (dist <? FrostRing.radius frost + Enemy.radius enemy)
       && (dist >? FrostRing.radius frost - 25) then
      (FrostRing.set_hitEnemies
         (add (Enemy.id enemy) (FrostRing.hitEnemies frost)) frost,
       Enemy.applySlow (FrostRing.slowFactor frost) (FrostRing.slowDuration frost)
         (Enemy.takeDamage (FrostRing.damage frost) enemy),
       [(Enemy.id enemy, FrostRing.damage frost)])
    else (frost, enemy, []).

Definition _checkFrostRingHit (frost : FrostRing.t) (enemies : list Enemy.t)
  : FrostRing.t * list Enemy.t * list Call :=
  if negb (FrostRing.alive frost) then (frost, enemies, [])
  else forEnemies frostStrike frost enemies.

Definition _checkMeteorHit (m : Meteor.t) (enemies : list Enemy.t)
  : Meteor.t * list Enemy.t * list Call :=
  match Meteor.phase m with
  | Meteor.Warning => (m, enemies, [])
  | Meteor.Impact =>
    forEnemies (fun m enemy =>
      if Enemy.dead enemy then (m, enemy, [])
      else if has (Enemy.id enemy) (Meteor.hitEnemies m) then (m, enemy, [])
      else
        let dist := Utils.distance (Meteor.x m) (Meteor.y m)
                      (Enemy.x enemy) (Enemy.y enemy) in
        if dist <? Meteor.radius m + Enemy.radius enemy then
          (Meteor.set_hitEnemies (add (Enemy.id enemy) (Meteor.hitEnemies m)) m,
           Enemy.takeDamage (Meteor.damage m) enemy,
           [(Enemy.id enemy, Meteor.damage m)])
        else (m, enemy, [])) m enemies
  end.

(** The body of [_checkPulseHit]'s loop. *)
Definition pulseStrike (pl : Pulse.t) (enemy : Enemy.t)
  : Pulse.t * Enemy.t * list Call :=
  if Enemy.dead enemy then (pl, enemy, [])
  else if has (Enemy.id enemy) (Pulse.hitEnemies pl) then (pl, enemy, [])
  else
    let dist := Utils.distance (Pulse.x pl) (Pulse.y pl)
                  (Enemy.x enemy) (Enemy.y enemy) in
    if (dist <? Pulse.radius pl + Enemy.radius enemy)
       && (dist >? Pulse.radius pl - 25) then
      let e1 := Enemy.takeDamage (Pulse.damage pl) enemy in
      let e2 :=
        if Pulse.knockback pl !=? 0 then
          let dx := Enemy.x e1 - Pulse.x pl in
          let dy := Enemy.y e1 - Pulse.y pl in
          let d := Num.orElse (sqrt (dx * dx + dy * dy)) 1 in
          Enemy.applyKnockback (dx / d) (dy / d) (Pulse.knockback pl) e1
        else e1 in
      (Pulse.set_hitEnemies (add (Enemy.id enemy) (Pulse.hitEnemies pl)) pl,
       e2, [(Enemy.id enemy, Pulse.damage pl)])
    else (pl, enemy, []).

Definition _checkPulseHit (pl : Pulse.t) (enemies : list Enemy.t)
  : Pulse.t * list Enemy.t * list Call :=
  if negb (Pulse.alive pl) then (pl, enemies, [])
  else forEnemies pulseStrike pl enemies.

(** The [switch] of [_checkHits] for one effect. *)
Definition checkHit (effect : Effect) (enemies : list Enemy.t)
  : Effect * list Enemy.t * list Call :=
  match effect with
  | projectile p =>
      let '(p, es, c) := _checkProjectileHit p enemies in (projectile p, es, c)
  | fairyBolt p =>
      let '(p, es, c) := _checkProjectileHit p enemies in (fairyBolt p, es, c)
  | swing s =>
      let '(s, es, c) := _checkSwingHit s enemies in (swing s, es, c)
  | nova n =>
      let '(n, es, c) := _checkNovaHit n enemies in (nova n, es, c)
  | spin s =>
      let '(s, es, c) := _checkSpinHit s enemies in (spin s, es, c)
  | windPush w =>
      let '(w, es, c) := _checkWindPushHit w enemies in (windPush w, es, c)
  | frostRing f =>
      let '(f, es, c) := _checkFrostRingHit f enemies in (frostRing f, es, c)
  | lightningArc l => (lightningArc l, enemies, [])
  | meteor m =>
      let '(m, es, c) := _checkMeteorHit m enemies in (meteor m, es, c)
  | pulse p =>
      let '(p, es, c) := _checkPulseHit p enemies in (pulse p, es, c)
  end.

(** [_checkHits]: every effect of the pool in order, against the same
    (mutated) roster. *)
Fixpoint _checkHits (effs : list Effect) (enemies : list Enemy.t)
  : list Effect * list Enemy.t * list Call :=
  match effs with
  | [] => ([], enemies, [])
  | effect :: rest =>
      let '(effect, enemies, c1) := checkHit effect enemies in
      let '(rest, enemies, c2) := _checkHits rest enemies in
      (effect :: rest, enemies, c1 ++ c2)
  end.

(** The first loop of [update]: re-anchor spin effects to the owner,
    then call the effect's own [update]. *)
Definition advance (player : Player.t) (dt : R) (e : Effect) : Effect :=
  let e :=
    match e with
    | spin s => spin (Spin.set_ownerY (Player.y player)
                        (Spin.set_ownerX (Player.x player) s))
    | _ => e
    end in
  updateEffect dt e.

(** [update(dt, enemies)]: the engine, the roster, and the calls of
    [takeDamage] made during the frame. *)
Definition update (player : Player.t) (dt : R) (enemies : list Enemy.t)
    (eng : t) : t * list Enemy.t * list Call :=
  let effs := map (advance player dt) (effects eng) in
  let effs := filter alive effs in
  let '(effs, enemies, c) := _checkHits effs enemies in
  (mk effs, enemies, c).

End EffectEngine.

End Weapons.

(** ** js/dodge.js *)

Module DodgeSystem.

Import Constants.

Inductive EvadeType := roll | blink.

(** A trail dot and a blink ring: cosmetic markers. *)
Record TrailDot := mkDot { t_x : R; t_y : R; t_alpha : R }.
Record BlinkRing := mkRing {
  b_x : R; b_y : R; b_timer : R; b_maxTimer : R; b_radius : R
}.

Record t := mk {
  evadeType : EvadeType;
  cooldown : R;
  maxCooldown : R;
  active : bool;
  timer : R;
  direction : Utils.Vec;
  trail : list TrailDot;
  blinkEffects : list BlinkRing;
  backstepActive : bool;
  backstepTimer : R;
  backstepDir : Utils.Vec;
  backstepTrail : list TrailDot
}.

Definition set_cooldown (v : R) (d : t) : t :=
  mk (evadeType d) v (maxCooldown d) (active d) (timer d) (direction d)
    (trail d) (blinkEffects d) (backstepActive d) (backstepTimer d)
    (backstepDir d) (backstepTrail d).
Definition set_maxCooldown (v : R) (d : t) : t :=
  mk (evadeType d) (cooldown d) v (active d) (timer d) (direction d)
    (trail d) (blinkEffects d) (backstepActive d) (backstepTimer d)
    (backstepDir d) (backstepTrail d).
Definition set_active (v : bool) (d : t) : t :=
  mk (evadeType d) (cooldown d) (maxCooldown d) v (timer d) (direction d)
    (trail d) (blinkEffects d) (backstepActive d) (backstepTimer d)
    (backstepDir d) (backstepTrail d).
Definition set_timer (v : R) (d : t) : t :=
  mk (evadeType d) (cooldown d) (maxCooldown d) (active d) v (direction d)
    (trail d) (blinkEffects d) (backstepActive d) (backstepTimer d)
    (backstepDir d) (backstepTrail d).
Definition set_direction (v : Utils.Vec) (d : t) : t :=
  mk (evadeType d) (cooldown d) (maxCooldown d) (active d) (timer d) v
    (trail d) (blinkEffects d) (backstepActive d) (backstepTimer d)
    (backstepDir d) (backstepTrail d).
Definition set_trail (v : (list TrailDot)) (d : t) : t :=
  mk (evadeType d) (cooldown d) (maxCooldown d) (active d) (timer d)
    (direction d) v (blinkEffects d) (backstepActive d) (backstepTimer d)
    (backstepDir d) (backstepTrail d).
Definition set_blinkEffects (v : (list BlinkRing)) (d : t) : t :=
  mk (evadeType d) (cooldown d) (maxCooldown d) (active d) (timer d)
    (direction d) (trail d) v (backstepActive d) (backstepTimer d)
    (backstepDir d) (backstepTrail d).
Definition set_backstepActive (v : bool) (d : t) : t :=
  mk (evadeType d) (cooldown d) (maxCooldown d) (active d) (timer d)
    (direction d) (trail d) (blinkEffects d) v (backstepTimer d)
    (backstepDir d) (backstepTrail d).
Definition set_backstepTimer (v : R) (d : t) : t :=
  mk (evadeType d) (cooldown d) (maxCooldown d) (active d) (timer d)
    (direction d) (trail d) (blinkEffects d) (backstepActive d) v
    (backstepDir d) (backstepTrail d).
Definition set_backstepDir (v : Utils.Vec) (d : t) : t :=
  mk (evadeType d) (cooldown d) (maxCooldown d) (active d) (timer d)
    (direction d) (trail d) (blinkEffects d) (backstepActive d)
    (backstepTimer d) v (backstepTrail d).
Definition set_backstepTrail (v : (list TrailDot)) (d : t) : t :=
  mk (evadeType d) (cooldown d) (maxCooldown d) (active d) (timer d)
    (direction d) (trail d) (blinkEffects d) (backstepActive d)
    (backstepTimer d) (backstepDir d) v.

Definition new (evadeType0 : EvadeType) : t :=
  mk evadeType0 0 0 false 0 (Utils.mkVec 0 0) [] [] false 0 (Utils.mkVec 0 0) [].

(** Which of the three internals a call of [execute] ran. *)
Inductive Trigger := Roll | Blink | Backstep.

Definition _triggerRoll (dir : Utils.Vec) (d : t) (player : Player.t)
  : t * Player.t :=
  let d := set_direction dir d in
  let d := set_active true d in
  let d := set_timer DODGE.roll.duration d in
  let d := set_cooldown DODGE.roll.cooldown d in
  let d := set_maxCooldown DODGE.roll.cooldown d in
  (d, Player.set_invulnTimer
        (Num.max (Player.invulnTimer player) DODGE.roll.iframes) player).

Definition _triggerBlink (dir : Utils.Vec) (d : t) (player : Player.t)
  : t * Player.t :=
  let d :=
    set_blinkEffects
      (blinkEffects d ++
         [mkRing (Player.x player) (Player.y player) DODGE.blink.effectDuration
            DODGE.blink.effectDuration (Player.radius player)]) d in
  let player :=
    Player.set_x (Player.x player + Utils.vx dir * DODGE.blink.distance) player in
  let player :=
    Player.set_y (Player.y player + Utils.vy dir * DODGE.blink.distance) player in
  let player :=
    Player.set_x (Utils.clamp (Player.x player) (Player.radius player)
                    (WORLD.WIDTH - Player.radius player)) player in
  let player :=
    Player.set_y (Utils.clamp (Player.y player) (Player.radius player)
                    (WORLD.HEIGHT - Player.radius player)) player in
  let d :=
    set_blinkEffects
      (blinkEffects d ++
         [mkRing (Player.x player) (Player.y player) DODGE.blink.effectDuration
            DODGE.blink.effectDuration 4]) d in
  let player :=
    Player.set_invulnTimer
      (Num.max (Player.invulnTimer player) DODGE.blink.iframes) player in
  let d := set_cooldown DODGE.blink.cooldown d in
  let d := set_maxCooldown DODGE.blink.cooldown d in
  (d, player).

Definition _triggerBackstep (dir : Utils.Vec) (d : t) (player : Player.t)
  : t * Player.t :=
  let d := set_backstepDir (Utils.mkVec (Utils.vx dir) (Utils.vy dir)) d in
  let d := set_backstepActive true d in
  let d := set_backstepTimer BACK_JUMP.duration d in
  let d := set_cooldown BACK_JUMP.cooldown d in
  let d := set_maxCooldown BACK_JUMP.cooldown d in
  (d, Player.set_invulnTimer
        (Num.max (Player.invulnTimer player) BACK_JUMP.iframes) player).

(** [execute(moveDir, facingDir)]: the dodge system, the player, and the
    internal it ran, if any. *)
Definition execute (moveDir facingDir : Utils.Vec) (d : t) (player : Player.t)
  : t * Player.t * option Trigger :=
  if (cooldown d >? 0) || active d || backstepActive d then (d, player, None)
  else
    let hasInput := (Utils.vx moveDir !=? 0) || (Utils.vy moveDir !=? 0) in
    if hasInput then
      let dir := Utils.normalize (Utils.vx moveDir) (Utils.vy moveDir) in
      if (Utils.vx dir =? 0) && (Utils.vy dir =? 0) then (d, player, None)
      else
        match evadeType d with
        | blink =>
            let '(d, player) := _triggerBlink dir d player in
            (d, player, Some Blink)
        | roll =>
            let '(d, player) := _triggerRoll dir d player in
            (d, player, Some Roll)
        end
    else
      let dir := Utils.normalize (Utils.vx facingDir) (Utils.vy facingDir) in
      if (Utils.vx dir =? 0) && (Utils.vy dir =? 0) then (d, player, None)
      else
        let '(d, player) :=
          _triggerBackstep (Utils.mkVec (- Utils.vx dir) (- Utils.vy dir)) d player in
        (d, player, Some Backstep).

(** [arr.push(v); if (arr.length > n) arr.shift()] *)
Definition pushCapped (n : nat) (v : TrailDot) (arr : list TrailDot)
  : list TrailDot :=
  let arr := arr ++ [v] in
  if Nat.ltb n (length arr) then tl arr else arr.

Definition fade (rate dt : R) (arr : list TrailDot) : list TrailDot :=
  filter (fun t => t_alpha t >? 0)
    (map (fun t => mkDot (t_x t) (t_y t) (t_alpha t - dt * rate)) arr).

Definition update (dt : R) (d : t) (player : Player.t) : t * Player.t :=
  let d := if cooldown d >? 0 then set_cooldown (cooldown d - dt) d else d in
  let '(d, player) :=
    if active d then
      let spd := DODGE.roll.speed in
      let player :=
        Player.set_x (Player.x player + Utils.vx (direction d) * spd * dt) player in
      let player :=
        Player.set_y (Player.y player + Utils.vy (direction d) * spd * dt) player in
      let d := set_timer (timer d - dt) d in
      let d :=
        set_trail
          (pushCapped 6 (mkDot (Player.x player) (Player.y player) (6 / 10))
             (trail d)) d in
      let d := if timer d <=? 0 then set_active false d else d in
      (d, player)
    else (d, player) in
  let '(d, player) :=
    if backstepActive d then
      let spd := BACK_JUMP.speed in
      let player :=
        Player.set_x (Player.x player + Utils.vx (backstepDir d) * spd * dt) player in
      let player :=
        Player.set_y (Player.y player + Utils.vy (backstepDir d) * spd * dt) player in
      let d := set_backstepTimer (backstepTimer d - dt) d in
      let d :=
        set_backstepTrail
          (pushCapped 4 (mkDot (Player.x player) (Player.y player) (5 / 10))
             (backstepTrail d)) d in
      let d := if backstepTimer d <=? 0 then set_backstepActive false d else d in
      (d, player)
    else (d, player) in
  let d := set_trail (fade 3 dt (trail d)) d in
  let d := set_backstepTrail (fade 4 dt (backstepTrail d)) d in
  let d :=
    set_blinkEffects
      (filter (fun e => b_timer e >? 0)
         (map (fun e => mkRing (b_x e) (b_y e) (b_timer e - dt) (b_maxTimer e)
                          (b_radius e + dt * 80))
            (blinkEffects d))) d in
  (d, player).

Definition isRolling (d : t) : bool := active d.
Definition isMovementLocked (d : t) : bool := active d || backstepActive d.
Definition isReady (d : t) : bool :=
  (cooldown d <=? 0) && negb (active d) && negb (backstepActive d).
Definition getCooldownPercent (d : t) : R :=
  if maxCooldown d <=? 0 then 0
  else Num.max 0 (cooldown d / maxCooldown d).

End DodgeSystem.

(** ** js/playerState.js *)

Module PlayerStateMachine.

Import Constants.

Inductive State := idle | moving | strafing | jumping | hanging | falling.

(** A climbable vine, as [checkVineGrab] returns it. *)
Record Vine := mkVine { grabHeight : R }.

(** The world oracle: the two queries the state machine makes.
    [checkGap] is only tested for a result, so it is a boolean. *)
Record World := mkWorld {
  checkGap : R -> R -> R -> bool;
  checkVineGrab : R -> R -> R -> R -> option Vine
}.

Record t := mk {
  state : State;
  z : R;
  vz : R;
  landSquash : R;
  hangTarget : option Vine;
  hangTimer : R;
  hangLerpTarget : R;
  lastSafeX : R;
  lastSafeY : R;
  gapFallTimer : R;
  gapFalling : bool;
  gapFallAlpha : R;
  fallStartZ : R
}.

Definition set_state (v : State) (s : t) : t :=
  mk v (z s) (vz s) (landSquash s) (hangTarget s) (hangTimer s)
    (hangLerpTarget s) (lastSafeX s) (lastSafeY s) (gapFallTimer s)
    (gapFalling s) (gapFallAlpha s) (fallStartZ s).
Definition set_z (v : R) (s : t) : t :=
  mk (state s) v (vz s) (landSquash s) (hangTarget s) (hangTimer s)
    (hangLerpTarget s) (lastSafeX s) (lastSafeY s) (gapFallTimer s)
    (gapFalling s) (gapFallAlpha s) (fallStartZ s).
Definition set_vz (v : R) (s : t) : t :=
  mk (state s) (z s) v (landSquash s) (hangTarget s) (hangTimer s)
    (hangLerpTarget s) (lastSafeX s) (lastSafeY s) (gapFallTimer s)
    (gapFalling s) (gapFallAlpha s) (fallStartZ s).
Definition set_landSquash (v : R) (s : t) : t :=
  mk (state s) (z s) (vz s) v (hangTarget s) (hangTimer s)
    (hangLerpTarget s) (lastSafeX s) (lastSafeY s) (gapFallTimer s)
    (gapFalling s) (gapFallAlpha s) (fallStartZ s).
Definition set_hangTarget (v : (option Vine)) (s : t) : t :=
  mk (state s) (z s) (vz s) (landSquash s) v (hangTimer s)
    (hangLerpTarget s) (lastSafeX s) (lastSafeY s) (gapFallTimer s)
    (gapFalling s) (gapFallAlpha s) (fallStartZ s).
Definition set_hangTimer (v : R) (s : t) : t :=
  mk (state s) (z s) (vz s) (landSquash s) (hangTarget s) v
    (hangLerpTarget s) (lastSafeX s) (lastSafeY s) (gapFallTimer s)
    (gapFalling s) (gapFallAlpha s) (fallStartZ s).
Definition set_hangLerpTarget (v : R) (s : t) : t :=
  mk (state s) (z s) (vz s) (landSquash s) (hangTarget s) (hangTimer s) v
    (lastSafeX s) (lastSafeY s) (gapFallTimer s) (gapFalling s)
    (gapFallAlpha s) (fallStartZ s).
Definition set_lastSafeX (v : R) (s : t) : t :=
  mk (state s) (z s) (vz s) (landSquash s) (hangTarget s) (hangTimer s)
    (hangLerpTarget s) v (lastSafeY s) (gapFallTimer s) (gapFalling s)
    (gapFallAlpha s) (fallStartZ s).
Definition set_lastSafeY (v : R) (s : t) : t :=
  mk (state s) (z s) (vz s) (landSquash s) (hangTarget s) (hangTimer s)
    (hangLerpTarget s) (lastSafeX s) v (gapFallTimer s) (gapFalling s)
    (gapFallAlpha s) (fallStartZ s).
Definition set_gapFallTimer (v : R) (s : t) : t :=
  mk (state s) (z s) (vz s) (landSquash s) (hangTarget s) (hangTimer s)
    (hangLerpTarget s) (lastSafeX s) (lastSafeY s) v (gapFalling s)
    (gapFallAlpha s) (fallStartZ s).
Definition set_gapFalling (v : bool) (s : t) : t :=
  mk (state s) (z s) (vz s) (landSquash s) (hangTarget s) (hangTimer s)
    (hangLerpTarget s) (lastSafeX s) (lastSafeY s) (gapFallTimer s) v
    (gapFallAlpha s) (fallStartZ s).
Definition set_gapFallAlpha (v : R) (s : t) : t :=
  mk (state s) (z s) (vz s) (landSquash s) (hangTarget s) (hangTimer s)
    (hangLerpTarget s) (lastSafeX s) (lastSafeY s) (gapFallTimer s)
    (gapFalling s) v (fallStartZ s).
Definition set_fallStartZ (v : R) (s : t) : t :=
  mk (state s) (z s) (vz s) (landSquash s) (hangTarget s) (hangTimer s)
    (hangLerpTarget s) (lastSafeX s) (lastSafeY s) (gapFallTimer s)
    (gapFalling s) (gapFallAlpha s) v.

Definition new (player : Player.t) : t :=
  mk idle 0 0 0 None 0 0 (Player.x player) (Player.y player) 0 false 1 0.

Definition isGrounded (s : t) : bool :=
  match state s with
  | idle | moving | strafing => true
  | _ => false
  end.

Definition isAirborne (s : t) : bool :=
  match state s with
  | jumping | falling => true
  | _ => false
  end.

Definition canDodge (s : t) : bool := isGrounded s.
Definition canMove (s : t) : bool := isGrounded s.
Definition canUseAbility (s : t) : bool :=
  match state s with
  | hanging | falling => false
  | _ => true
  end.

Definition requestJump (s : t) : t * bool :=
  if negb (isGrounded s) then (s, false)
  else
    let s := set_vz JUMP.initialVelocity s in
    let s := set_state jumping s in
    (set_fallStartZ 0 s, true).

Definition dismountVine (s : t) : t :=
  match state s with
  | hanging =>
      let s := set_vz (JUMP.initialVelocity * (5 / 10)) s in
      let s := set_state jumping s in
      let s := set_fallStartZ (z s) s in
      let s := set_hangTarget None s in
      set_hangTimer 0 s
  | _ => s
  end.

Definition enterFalling (isGapFall : bool) (s : t) : t :=
  if isAirborne s then s
  else
    let s := set_vz 0 s in
    let s := set_state falling s in
    let s := set_fallStartZ (z s) s in
    if isGapFall then
      set_gapFallAlpha 1 (set_gapFallTimer (5 / 10) (set_gapFalling true s))
    else s.

Definition enterHanging (vine : Vine) (s : t) : t :=
  let s := set_state hanging s in
  let s := set_hangTarget (Some vine) s in
  let s := set_hangTimer 3 s in
  let s := set_hangLerpTarget (grabHeight vine) s in
  set_vz 0 s.

(** The "Hanging" block of [update]: lerp to the grab height, bob, time
    out.  [None] is the exception of reading [grabHeight] of a null
    [hangTarget]; [now] is [performance.now()]. *)
Definition hangStep (now dt : R) (s : t) : option t :=
  match state s with
  | hanging =>
      let diff := hangLerpTarget s - z s in
      let lerped :=
        if Num.abs diff >? 5 / 10 then Some (set_z (z s + diff * 15 * dt) s)
        else
          match hangTarget s with
          | Some v => Some (set_z (grabHeight v + sin (now / 300) * 2) s)
          | None => None
          end in
      match lerped with
      | Some s =>
          let s := set_hangTimer (hangTimer s - dt) s in
          if hangTimer s <=? 0 then
            let s := set_fallStartZ (z s) s in
            let s := set_hangTarget None s in
            let s := set_state falling s in
            Some (set_vz 0 s)
          else Some s
      | None => None
      end
  | _ => Some s
  end.

(** "Landing squash decay". *)
Definition squashDecay (dt : R) (s : t) : t :=
  if landSquash s >? 0 then
    let s := set_landSquash (landSquash s - dt) s in
    if landSquash s <? 0 then set_landSquash 0 s else s
  else s.

(** The tail of [update]: the hanging block, the landing-squash decay and
    the height sync. *)
Definition finish (now dt : R) (s : t) (player : Player.t)
  : option (t * Player.t) :=
  match hangStep now dt s with
  | Some s =>
      let s := squashDecay dt s in
      Some (s, Player.set_z (z s) player)
  | None => None
  end.

(** The height physics of one airborne frame: gravity, the terminal
    velocity cap, the height, and the peak tracked for fall damage. *)
Definition integrate (dt : R) (s : t) : t :=
  let s := set_vz (vz s - JUMP.gravity * dt) s in
  let s := set_vz (Num.max (vz s) (-600)) s in
  let s := set_z (z s + vz s * dt) s in
  match state s with
  | jumping =>
      if (vz s <? 0) && (z s >? fallStartZ s) then set_fallStartZ (z s) s
      else s
  | _ => s
  end.

(** The vine the airborne player grabs this frame, if any: asked of the
    world only while descending. *)
Definition vineGrab (world : option World) (s : t) (player : Player.t)
  : option Vine :=
  match world with
  | Some w =>
      if vz s <=? 0 then
        checkVineGrab w (Player.x player) (Player.y player)
          (Player.radius player) (z s)
      else None
  | None => None
  end.

(** "Track last safe position while grounded and not over a gap". *)
Definition trackSafe (world : option World) (s : t) (player : Player.t) : t :=
  match world with
  | Some w =>
      if isGrounded s then
        if negb (checkGap w (Player.x player) (Player.y player)
                   (Player.radius player))
        then set_lastSafeY (Player.y player) (set_lastSafeX (Player.x player) s)
        else s
      else s
  | None => s
  end.

(** "Update ground state based on movement". *)
Definition groundState (moveInput : Utils.Vec) (isStrafing : bool) (s : t) : t :=
  if isGrounded s then
    let hasInput := (Utils.vx moveInput !=? 0) || (Utils.vy moveInput !=? 0) in
    if hasInput then set_state (if isStrafing then strafing else moving) s
    else set_state idle s
  else s.

(** [update(dt, moveInput, isStrafing, world)]; the state machine holds
    a reference to the player and mutates it, so both are returned. *)
Definition update (now dt : R) (moveInput : Utils.Vec) (isStrafing : bool)
    (world : option World) (s : t) (player : Player.t)
  : option (t * Player.t) :=
  let s := trackSafe world s player in
  let s := groundState moveInput isStrafing s in
  if isAirborne s then
    if gapFalling s then
      let s := set_gapFallTimer (gapFallTimer s - dt) s in
      let s := set_gapFallAlpha (Num.max 0 (gapFallTimer s / (5 / 10))) s in
      if gapFallTimer s <=? 0 then
        let player := Player.set_x (lastSafeX s) player in
        let player := Player.set_y (lastSafeY s) player in
        let player := Player.takeDamage 15 player in
        let player := Player.set_invulnTimer 1 player in
        let s := set_z 0 s in
        let s := set_vz 0 s in
        let s := set_gapFalling false s in
        let s := set_gapFallAlpha 1 s in
        let s := set_state idle s in
        Some (s, Player.set_z (z s) player)
      else Some (s, Player.set_z (z s) player)
    else
      let s := integrate dt s in
      match vineGrab world s player with
      | Some v => Some (enterHanging v s, player)
      | None =>
          if z s <=? 0 then
            let s := set_z 0 s in
            let s := set_vz 0 s in
            let s := set_landSquash JUMP.landSquashDuration s in
            let player :=
              if fallStartZ s >? 80 then
                let dmg := (fallStartZ s - 80) * (3 / 10) in
                Player.takeDamage dmg player
              else player in
            let s := set_fallStartZ 0 s in
            let s := set_state idle s in
            finish now dt s player
          else finish now dt s player
      end
  else finish now dt s player.

End PlayerStateMachine.

(** ** The per-class ability sets

    js/abilities/FighterAbilities.js, MageAbilities.js and
    CelestialAbilities.js.  An ability set holds references to the player
    and to the effect engine and mutates both, so its methods take and
    return the three of them. *)

Inductive Action := attack | magic | ability.

Module FighterAbilities.

Import Constants Weapons.

Record t := mk {
  charging : bool;
  chargeTime : R;
  chargeTier : nat;
  spinCooldown : R
}.

Definition new : t := mk false 0 0 0.

Definition _castWind (a : t) (p : Player.t) (eng : EffectEngine.t)
  : t * Player.t * EffectEngine.t :=
  if negb (Player.canSpendMp FIGHTER_ABILITIES.wind.mpCost p) then (a, p, eng)
  else
    let p := fst (Player.spendMp FIGHTER_ABILITIES.wind.mpCost p) in
    let angle := Utils.atan2 (Utils.vy (Player.attackDir p))
                   (Utils.vx (Player.attackDir p)) in
    let dmg := FIGHTER_ABILITIES.wind.damage * Player.damage (Player.stats p) in
    (a, p,
     EffectEngine.addEffect
       (windPush
          (WindPush.new (Player.x p) (Player.y p) angle
             (FIGHTER_ABILITIES.wind.range * Player.weaponSize (Player.stats p))
             FIGHTER_ABILITIES.wind.arc dmg FIGHTER_ABILITIES.wind.pushForce
             FIGHTER_ABILITIES.wind.duration)) eng).

Definition _updateChargeTier (a : t) : t :=
  let t := chargeTime a in
  let tier :=
    if t >=? FIGHTER_ABILITIES.charge.tier3.time then 3%nat
    else if t >=? FIGHTER_ABILITIES.charge.tier2.time then 2%nat
    else if t >=? FIGHTER_ABILITIES.charge.tier1.time then 1%nat
    else 0%nat in
  mk (charging a) (chargeTime a) tier (spinCooldown a).

(** [_releaseCharge].  The player has no [_screenShake] method, so the
    guarded call for tier 3 is never made. *)
Definition _releaseCharge (a : t) (p : Player.t) (eng : EffectEngine.t)
  : t * Player.t * EffectEngine.t :=
  let a := mk false (chargeTime a) (chargeTier a) (spinCooldown a) in
  let angle := Utils.atan2 (Utils.vy (Player.attackDir p))
                 (Utils.vx (Player.attackDir p)) in
  let dmg :=
    if (3 <=? chargeTier a)%nat then FIGHTER_ABILITIES.charge.tier3.damage
    else if (2 <=? chargeTier a)%nat then FIGHTER_ABILITIES.charge.tier2.damage
    else if (1 <=? chargeTier a)%nat then FIGHTER_ABILITIES.charge.tier1.damage
    else FIGHTER_ABILITIES.charge.tier1.damage in
  let dmg := dmg * Player.damage (Player.stats p) in
  let range := FIGHTER_ABILITIES.charge.range * Player.weaponSize (Player.stats p) in
  let duration := 2 / 10 + (if (3 <=? chargeTier a)%nat then 15 / 100 else 0) in
  let eng :=
    EffectEngine.addEffect
      (swing
         (Swing.new (Player.x p) (Player.y p) angle range
            FIGHTER_ABILITIES.charge.arc dmg duration)) eng in
  (mk (charging a) 0 0 (spinCooldown a), p, eng).

Definition _castSpin (a : t) (p : Player.t) (eng : EffectEngine.t)
  : t * Player.t * EffectEngine.t :=
  if spinCooldown a >? 0 then (a, p, eng)
  else
    let a := mk (charging a) (chargeTime a) (chargeTier a)
               FIGHTER_ABILITIES.spin.cooldown in
    let dmg := FIGHTER_ABILITIES.spin.damage * Player.damage (Player.stats p) in
    let radius := FIGHTER_ABILITIES.spin.radius * Player.weaponSize (Player.stats p) in
    (a, p,
     EffectEngine.addEffect
       (spin
          (Spin.new dmg radius 16 FIGHTER_ABILITIES.spin.duration 4
             (Some FIGHTER_ABILITIES.spin.knockback))) eng).

Definition onActionPressed (action : Action) (a : t) (p : Player.t)
    (eng : EffectEngine.t) : t * Player.t * EffectEngine.t :=
  match action with
  | attack => (mk true 0 0 (spinCooldown a), p, eng)
  | magic => _castWind a p eng
  | ability => _castSpin a p eng
  end.

Definition onActionReleased (action : Action) (a : t) (p : Player.t)
    (eng : EffectEngine.t) : t * Player.t * EffectEngine.t :=
  match action with
  | attack => if charging a then _releaseCharge a p eng else (a, p, eng)
  | _ => (a, p, eng)
  end.

(** [chargeTime] and [spinCooldown] are sums of frame times that are
    compared with whole numbers of seconds, which the exact sums of the
    game's frames hit (60 frames of 0.05 s are 3 s) and the sums of
    doubles miss.  The two are therefore kept as the code computes them:
    [fl] is the rounding of the exact result of an addition or a
    subtraction to the double that the code stores. *)
Definition onActionHeld (fl : R -> R) (action : Action) (dt : R) (a : t) : t :=
  match action with
  | attack =>
      if charging a then
        _updateChargeTier
          (mk (charging a) (fl (chargeTime a + dt)) (chargeTier a)
             (spinCooldown a))
      else a
  | _ => a
  end.

Definition update (fl : R -> R) (dt : R) (a : t) : t :=
  if spinCooldown a >? 0
  then mk (charging a) (chargeTime a) (chargeTier a) (fl (spinCooldown a - dt))
  else a.

Definition getChargeSpeedMult (a : t) : R :=
  if charging a then FIGHTER_ABILITIES.charge.moveSpeedMult else 1.

Definition isCharging (a : t) : bool := charging a.

(** [onDodge(moveDir)]: the shield bash; the boolean is the value
    returned. *)
Definition onDodge (moveDir : Utils.Vec) (a : t) (p : Player.t)
    (eng : EffectEngine.t) : t * Player.t * EffectEngine.t * bool :=
  if negb (charging a) then (a, p, eng, false)
  else if (Utils.vx moveDir =? 0) && (Utils.vy moveDir =? 0)
  then (a, p, eng, false)
  else
    let angle := Utils.atan2 (Utils.vy moveDir) (Utils.vx moveDir) in
    let dmg := 15 * Player.damage (Player.stats p) in
    let range := 45 * Player.weaponSize (Player.stats p) in
    let eng :=
      EffectEngine.addEffect
        (swing (Swing.new (Player.x p) (Player.y p) angle range (PI / 2) dmg
                  (15 / 100))) eng in
    let dashDist := 50 in
    let dir := sqrt (Utils.vx moveDir * Utils.vx moveDir
                     + Utils.vy moveDir * Utils.vy moveDir) in
    let p := Player.set_x (Player.x p + (Utils.vx moveDir / dir) * dashDist) p in
    let p := Player.set_y (Player.y p + (Utils.vy moveDir / dir) * dashDist) p in
    let p := Player.set_invulnTimer (Num.max (Player.invulnTimer p) (1 / 10)) p in
    (mk false 0 0 (spinCooldown a), p, eng, true).

End FighterAbilities.

Module MageAbilities.

Import Constants Weapons.

Record t := mk {
  fireBurstCooldown : R;
  frostRingCooldown : R;
  lightningCooldown : R;
  meteorCooldown : R;
  holdTime : R;
  holdingAttack : bool;
  meteorCast : bool
}.

Definition new : t := mk 0 0 0 0 0 false false.

Definition _castFireBurst (a : t) (p : Player.t) (eng : EffectEngine.t)
  : t * Player.t * EffectEngine.t :=
  if fireBurstCooldown a >? 0 then (a, p, eng)
  else
    let a := mk MAGE_ABILITIES.fireBurst.cooldown (frostRingCooldown a)
               (lightningCooldown a) (meteorCooldown a) (holdTime a)
               (holdingAttack a) (meteorCast a) in
    let tx := Player.x p + Utils.vx (Player.attackDir p) * MAGE_ABILITIES.fireBurst.range in
    let ty := Player.y p + Utils.vy (Player.attackDir p) * MAGE_ABILITIES.fireBurst.range in
    let dmg := MAGE_ABILITIES.fireBurst.damage * Player.damage (Player.stats p) in
    let radius := MAGE_ABILITIES.fireBurst.radius * Player.weaponSize (Player.stats p) in
    (a, p,
     EffectEngine.addEffect
       (nova (Nova.new tx ty dmg radius MAGE_ABILITIES.fireBurst.expandSpeed)) eng).

Definition _castFrostRing (a : t) (p : Player.t) (eng : EffectEngine.t)
  : t * Player.t * EffectEngine.t :=
  if frostRingCooldown a >? 0 then (a, p, eng)
  else if negb (Player.canSpendMp MAGE_ABILITIES.frostRing.mpCost p) then (a, p, eng)
  else
    let p := fst (Player.spendMp MAGE_ABILITIES.frostRing.mpCost p) in
    let a := mk (fireBurstCooldown a) MAGE_ABILITIES.frostRing.cooldown
               (lightningCooldown a) (meteorCooldown a) (holdTime a)
               (holdingAttack a) (meteorCast a) in
    let dmg := MAGE_ABILITIES.frostRing.damage * Player.damage (Player.stats p) in
    let radius := MAGE_ABILITIES.frostRing.radius * Player.weaponSize (Player.stats p) in
    (a, p,
     EffectEngine.addEffect
       (frostRing
          (FrostRing.new (Player.x p) (Player.y p) dmg radius
             MAGE_ABILITIES.frostRing.expandSpeed MAGE_ABILITIES.frostRing.slowFactor
             MAGE_ABILITIES.frostRing.slowDuration)) eng).

(** [_enemies] is the roster reference stored by the last [update]
    ([None] before the first one); the chain damages the enemies of that
    roster, which is returned. *)
Definition _castLightningArc (a : t) (p : Player.t) (eng : EffectEngine.t)
    (_enemies : option (list Enemy.t))
  : t * EffectEngine.t * option (list Enemy.t) * list Call :=
  if lightningCooldown a >? 0 then (a, eng, _enemies, [])
  else
    let a := mk (fireBurstCooldown a) (frostRingCooldown a)
               MAGE_ABILITIES.lightningArc.cooldown (meteorCooldown a) (holdTime a)
               (holdingAttack a) (meteorCast a) in
    let dmg := MAGE_ABILITIES.lightningArc.damage * Player.damage (Player.stats p) in
    let enemies := match _enemies with Some es => es | None => [] end in
    let '(arc, enemies, calls) :=
      LightningArc.new (Player.x p) (Player.y p) dmg
        MAGE_ABILITIES.lightningArc.chainCount
        MAGE_ABILITIES.lightningArc.damageDecay
        MAGE_ABILITIES.lightningArc.range enemies in
    (a, EffectEngine.addEffect (lightningArc arc) eng,
     match _enemies with Some _ => Some enemies | None => None end, calls).

Definition _castMeteor (a : t) (p : Player.t) (eng : EffectEngine.t)
  : t * Player.t * EffectEngine.t :=
  if meteorCooldown a >? 0 then (a, p, eng)
  else if negb (Player.canSpendMp MAGE_ABILITIES.meteor.mpCost p) then (a, p, eng)
  else
    let p := fst (Player.spendMp MAGE_ABILITIES.meteor.mpCost p) in
    let a := mk (fireBurstCooldown a) (frostRingCooldown a)
               (lightningCooldown a) MAGE_ABILITIES.meteor.cooldown (holdTime a)
               (holdingAttack a) true in
    let range := 150 in
    let tx := Player.x p + Utils.vx (Player.attackDir p) * range in
    let ty := Player.y p + Utils.vy (Player.attackDir p) * range in
    let dmg := MAGE_ABILITIES.meteor.damage * Player.damage (Player.stats p) in
    let radius := MAGE_ABILITIES.meteor.radius * Player.weaponSize (Player.stats p) in
    (a, p,
     EffectEngine.addEffect
       (meteor (Meteor.new tx ty dmg radius MAGE_ABILITIES.meteor.delay)) eng).

(** [onActionHeld('attack', dt)], the only way to [_castMeteor]. *)
Definition onAttackHeld (dt : R) (a : t) (p : Player.t) (eng : EffectEngine.t)
  : t * Player.t * EffectEngine.t :=
  if holdingAttack a then
    let a := mk (fireBurstCooldown a) (frostRingCooldown a)
               (lightningCooldown a) (meteorCooldown a) (holdTime a + dt)
               (holdingAttack a) (meteorCast a) in
    if negb (meteorCast a) && (holdTime a >=? MAGE_ABILITIES.meteor.holdTime)
    then _castMeteor a p eng
    else (a, p, eng)
  else (a, p, eng).

(** [onActionPressed(action)]; the calls are those of a lightning arc. *)
Definition onActionPressed (action : Action) (a : t) (p : Player.t)
    (eng : EffectEngine.t) (_enemies : option (list Enemy.t))
  : t * Player.t * EffectEngine.t * option (list Enemy.t) * list Call :=
  match action with
  | attack =>
      (mk (fireBurstCooldown a) (frostRingCooldown a) (lightningCooldown a)
          (meteorCooldown a) 0 true false, p, eng, _enemies, [])
  | magic =>
      let '(a, p, eng) := _castFrostRing a p eng in (a, p, eng, _enemies, [])
  | ability =>
      let '(a, eng, _enemies, calls) := _castLightningArc a p eng _enemies in
      (a, p, eng, _enemies, calls)
  end.

Definition onActionReleased (action : Action) (a : t) (p : Player.t)
    (eng : EffectEngine.t) : t * Player.t * EffectEngine.t :=
  match action with
  | attack =>
      if holdingAttack a then
        let '(a, p, eng) :=
          if negb (meteorCast a) then _castFireBurst a p eng else (a, p, eng) in
        (mk (fireBurstCooldown a) (frostRingCooldown a) (lightningCooldown a)
            (meteorCooldown a) 0 false (meteorCast a), p, eng)
      else (a, p, eng)
  | _ => (a, p, eng)
  end.

Definition onActionHeld (action : Action) (dt : R) (a : t) (p : Player.t)
    (eng : EffectEngine.t) : t * Player.t * EffectEngine.t :=
  match action with
  | attack => onAttackHeld dt a p eng
  | _ => (a, p, eng)
  end.

(** [update(dt, enemies)]: the cooldowns tick and the roster reference is
    stored for the lightning. *)
Definition update (dt : R) (enemies : list Enemy.t) (a : t)
  : t * option (list Enemy.t) :=
  let cool (c : R) := if c >? 0 then c - dt else c in
  (mk (cool (fireBurstCooldown a)) (cool (frostRingCooldown a))
      (cool (lightningCooldown a)) (cool (meteorCooldown a)) (holdTime a)
      (holdingAttack a) (meteorCast a), Some enemies).

End MageAbilities.

Module CelestialAbilities.

Import Constants Weapons.

Record t := mk {
  pulseCooldown : R;
  healCooldown : R;
  dashCooldown : R
}.

Definition new : t := mk 0 0 0.

Definition _castPulse (a : t) (p : Player.t) (eng : EffectEngine.t)
  : t * Player.t * EffectEngine.t :=
  if pulseCooldown a >? 0 then (a, p, eng)
  else
    let a := mk CELESTIAL_ABILITIES.pulse.cooldown (healCooldown a) (dashCooldown a) in
    let dmg := CELESTIAL_ABILITIES.pulse.damage * Player.damage (Player.stats p) in
    let radius := CELESTIAL_ABILITIES.pulse.radius * Player.weaponSize (Player.stats p) in
    (a, p,
     EffectEngine.addEffect
       (pulse
          (Pulse.new (Player.x p) (Player.y p) dmg radius
             CELESTIAL_ABILITIES.pulse.expandSpeed
             CELESTIAL_ABILITIES.pulse.knockback)) eng).

Definition _castMinorHeal (a : t) (p : Player.t) (eng : EffectEngine.t)
  : t * Player.t * EffectEngine.t :=
  if healCooldown a >? 0 then (a, p, eng)
  else if negb (Player.canSpendMp CELESTIAL_ABILITIES.minorHeal.mpCost p)
  then (a, p, eng)
  else
    let p := fst (Player.spendMp CELESTIAL_ABILITIES.minorHeal.mpCost p) in
    let a := mk (pulseCooldown a) CELESTIAL_ABILITIES.minorHeal.cooldown
               (dashCooldown a) in
    let healAmt := Player.maxHp (Player.stats p) * CELESTIAL_ABILITIES.minorHeal.healPercent in
    (a, Player.set_hp (Num.min (Player.hp p + healAmt) (Player.maxHp (Player.stats p))) p,
     eng).

(** A dot of a trail: [{ x, y, alpha }]. *)
Record Dot := mkDot {
  dot_x : R;
  dot_y : R;
  dot_alpha : R
}.

(** [for (const t of trail) t.alpha -= dt * k; trail = trail.filter(t =>
    t.alpha > 0)] *)
Definition fadeTrail (k dt : R) (trail : list Dot) : list Dot :=
  filter (fun d => dot_alpha d >? 0)
    (map (fun d => mkDot (dot_x d) (dot_y d) (dot_alpha d - dt * k)) trail).

(** The class [FairyCompanion] of the same file. *)
Module FairyCompanion.

Inductive FairyState := orbit | heal | attack.

Record t := mk {
  x : R;
  y : R;
  orbitAngle : R;
  state : FairyState;
  healCooldown : R;
  boltCooldown : R;
  trail : list Dot
}.

Definition new (p : Player.t) : t :=
  mk (Player.x p + CELESTIAL_ABILITIES.fairy.orbitRadius) (Player.y p) 0 orbit
     0 0 [].

(** [p.hp / p.stats.maxHp < threshold]: a division by zero gives an
    infinity of the sign of the hp, and NaN for 0 / 0, which is below
    nothing (no signed zero). *)
Definition hpBelow (hp maxHp threshold : R) : bool :=
  if maxHp =? 0 then hp <? 0 else hp / maxHp <? threshold.

(** The search for the nearest enemy in bolt range. *)
Fixpoint nearestLoop (p : Player.t) (enemies : list Enemy.t)
    (nearestEnemy : option Enemy.t) (nearestDist : R) : option Enemy.t :=
  match enemies with
  | [] => nearestEnemy
  | enemy :: rest =>
      if Enemy.dead enemy then nearestLoop p rest nearestEnemy nearestDist
      else
        let d := Utils.distance (Player.x p) (Player.y p)
                   (Enemy.x enemy) (Enemy.y enemy) in
        if d <? nearestDist then nearestLoop p rest (Some enemy) d
        else nearestLoop p rest nearestEnemy nearestDist
  end.

Definition _doHeal (f : t) (p : Player.t) : t * Player.t :=
  let p := Player.set_hp
             (Num.min (Player.hp p + CELESTIAL_ABILITIES.fairy.healAmount)
                (Player.maxHp (Player.stats p))) p in
  (mk (x f) (y f) (orbitAngle f) orbit CELESTIAL_ABILITIES.fairy.healCooldown
      (boltCooldown f) (trail f), p).

Definition _fireAt (enemy : Enemy.t) (f : t) (eng : EffectEngine.t)
  : t * EffectEngine.t :=
  (mk (x f) (y f) (orbitAngle f) (state f) (healCooldown f)
      CELESTIAL_ABILITIES.fairy.boltCooldown (trail f),
   EffectEngine.addEffect
     (fairyBolt
        (FairyBolt.new (x f) (y f) (Enemy.x enemy) (Enemy.y enemy)
           CELESTIAL_ABILITIES.fairy.boltDamage
           CELESTIAL_ABILITIES.fairy.boltSpeed
           CELESTIAL_ABILITIES.fairy.boltRadius)) eng).

Definition set_state (s : FairyState) (f : t) : t :=
  mk (x f) (y f) (orbitAngle f) s (healCooldown f) (boltCooldown f) (trail f).

Definition update (dt : R) (enemies : list Enemy.t) (f : t) (p : Player.t)
    (eng : EffectEngine.t) : t * Player.t * EffectEngine.t :=
  (* Cooldowns *)
  let f := mk (x f) (y f) (orbitAngle f) (state f)
             (if healCooldown f >? 0 then healCooldown f - dt else healCooldown f)
             (if boltCooldown f >? 0 then boltCooldown f - dt else boltCooldown f)
             (trail f) in
  (* Determine state *)
  let '(f, eng) :=
    if hpBelow (Player.hp p) (Player.maxHp (Player.stats p))
         CELESTIAL_ABILITIES.fairy.healThreshold
       && (healCooldown f <=? 0)
    then (set_state heal f, eng)
    else
      match nearestLoop p enemies None CELESTIAL_ABILITIES.fairy.boltRange with
      | Some nearestEnemy =>
          if boltCooldown f <=? 0
          then _fireAt nearestEnemy (set_state attack f) eng
          else (set_state orbit f, eng)
      | None => (set_state orbit f, eng)
      end in
  (* Execute state *)
  let '(f, p) :=
    match state f with
    | heal => _doHeal f p
    | _ => (f, p)
    end in
  (* Movement: orbit around player smoothly *)
  let orbitAngle' := orbitAngle f + CELESTIAL_ABILITIES.fairy.orbitSpeed * dt in
  let targetX := Player.x p + cos orbitAngle' * CELESTIAL_ABILITIES.fairy.orbitRadius in
  let targetY := Player.y p + sin orbitAngle' * CELESTIAL_ABILITIES.fairy.orbitRadius in
  let lerpSpeed := 8 in
  let x' := x f + (targetX - x f) * lerpSpeed * dt in
  let y' := y f + (targetY - y f) * lerpSpeed * dt in
  (* Trail *)
  let trail' := trail f ++ [mkDot x' y' (4 / 10)] in
  let trail' := if (5 <? length trail')%nat then tl trail' else trail' in
  let trail' := fadeTrail 3 dt trail' in
  (mk x' y' orbitAngle' (state f) (healCooldown f) (boltCooldown f) trail',
   p, eng).

End FairyCompanion.

(** The ability set with its fairy and the trail of the spirit dash. *)
Record Companion := mkCompanion {
  fairy : FairyCompanion.t;
  dashTrail : list Dot
}.

Definition newCompanion (p : Player.t) : Companion :=
  mkCompanion (FairyCompanion.new p) [].

Definition _castSpiritDash (a : t) (c : Companion) (p : Player.t)
  : t * Companion * Player.t :=
  if dashCooldown a >? 0 then (a, c, p)
  else
    let a := mk (pulseCooldown a) (healCooldown a)
               CELESTIAL_ABILITIES.spiritDash.cooldown in
    (* Save afterimage *)
    let trail := dashTrail c ++ [mkDot (Player.x p) (Player.y p) (6 / 10)] in
    (* Teleport *)
    let dist := CELESTIAL_ABILITIES.spiritDash.distance in
    let p := Player.set_x (Player.x p + Utils.vx (Player.facing p) * dist) p in
    let p := Player.set_y (Player.y p + Utils.vy (Player.facing p) * dist) p in
    (* Clamp to world *)
    let WORLD_W := 3000 in
    let WORLD_H := 3000 in
    let p := Player.set_x
               (Num.max (Player.radius p)
                  (Num.min (WORLD_W - Player.radius p) (Player.x p))) p in
    let p := Player.set_y
               (Num.max (Player.radius p)
                  (Num.min (WORLD_H - Player.radius p) (Player.y p))) p in
    (* Add destination afterimage *)
    let trail := trail ++ [mkDot (Player.x p) (Player.y p) (4 / 10)] in
    (* I-frames *)
    let p := Player.set_invulnTimer
               (Num.max (Player.invulnTimer p)
                  CELESTIAL_ABILITIES.spiritDash.iframes) p in
    (a, mkCompanion (fairy c) trail, p).

Definition onActionPressed (action : Action) (a : t) (c : Companion)
    (p : Player.t) (eng : EffectEngine.t)
  : t * Companion * Player.t * EffectEngine.t :=
  match action with
  | attack => let '(a, p, eng) := _castPulse a p eng in (a, c, p, eng)
  | magic => let '(a, p, eng) := _castMinorHeal a p eng in (a, c, p, eng)
  | ability => let '(a, c, p) := _castSpiritDash a c p in (a, c, p, eng)
  end.

Definition update (dt : R) (enemies : list Enemy.t) (a : t) (c : Companion)
    (p : Player.t) (eng : EffectEngine.t)
  : t * Companion * Player.t * EffectEngine.t :=
  let cool (v : R) := if v >? 0 then v - dt else v in
  let a := mk (cool (pulseCooldown a)) (cool (healCooldown a))
             (cool (dashCooldown a)) in
  (* Fairy AI *)
  let '(f, p, eng) := FairyCompanion.update dt enemies (fairy c) p eng in
  (* Dash trail fade *)
  (a, mkCompanion f (fadeTrail 4 dt (dashTrail c)), p, eng).

End CelestialAbilities.

(** ** js/enemy.js: arrows and the enemy manager *)

Module Arrow.

Import Constants.

Record t := mk {
  x : R;
  y : R;
  dx : R;
  dy : R;
  speed : R;
  damage : R;
  radius : R;
  lifetime : R;
  dead : bool
}.

Definition set_dead (v : bool) (a : t) : t :=
  mk (x a) (y a) (dx a) (dy a) (speed a) (damage a) (radius a) (lifetime a) v.

(** The constructor, from the record a ranged enemy left. *)
Definition new (data : Enemy.ArrowData) : t :=
  mk (Enemy.a_x data) (Enemy.a_y data) (Enemy.a_dx data) (Enemy.a_dy data)
     (Enemy.a_speed data) (Enemy.a_damage data) (Enemy.a_radius data)
     (Enemy.a_lifetime data) false.

Definition update (dt : R) (a : t) : t :=
  let a := mk (x a + dx a * speed a * dt) (y a + dy a * speed a * dt)
              (dx a) (dy a) (speed a) (damage a) (radius a)
              (lifetime a - dt) (dead a) in
  let a := if lifetime a <=? 0 then set_dead true a else a in
  if (x a <? 0) || (x a >? WORLD.WIDTH) || (y a <? 0) || (y a >? WORLD.HEIGHT)
  then set_dead true a else a.

End Arrow.

Module EnemyManager.

Record t := mk {
  enemies : list Enemy.t;
  projectiles : list Arrow.t
}.

Definition new : t := mk [] [].

(** [spawn(type, x, y, level)], for the entry [d] of the type table.
    [nextId] is the module counter, which the constructor reads and
    increments; [r1] to [r4] are its random draws. *)
Definition spawn (nextId : nat) (d : Enemy.Def) (x0 y0 level : R)
    (r1 r2 r3 r4 : R) (m : t) : t * nat :=
  (mk (enemies m ++ [Enemy.new nextId d x0 y0 level r1 r2 r3 r4]) (projectiles m),
   S nextId).

(** The first loop of [update], from the enemy at position [k] of the
    roster on: the roster, the player, the arrows and the amounts passed
    to [player.takeDamage], in call order.  [rnd k] is the random draw of
    the [k]-th enemy's update, if it makes one. *)
Fixpoint enemyLoop (rnd : nat -> R) (dt : R) (k : nat) (player : Player.t)
    (arrows : list Arrow.t) (es : list Enemy.t)
  : list Enemy.t * Player.t * list Arrow.t * list R :=
  match es with
  | [] => ([], player, arrows, [])
  | enemy :: rest =>
      let '(enemy, player, c1) := Enemy.update (rnd k) dt player enemy in
      let '(enemy, arrows) :=
        match Enemy._pendingArrow enemy with
        | Some data =>
            (Enemy.set__pendingArrow None enemy, arrows ++ [Arrow.new data])
        | None => (enemy, arrows)
        end in
      let contact :=
        negb (Enemy.dead enemy)
        && match Enemy.behavior enemy with
           | Constants.Swarm => true
           | _ => false
           end
        && (Utils.distance (Enemy.x enemy) (Enemy.y enemy)
              (Player.x player) (Player.y player)
            <? Enemy.radius enemy + Player.radius player) in
      let c2 := if contact then [Enemy.damage enemy * dt] else [] in
      let player :=
        if contact then Player.takeDamage (Enemy.damage enemy * dt) player
        else player in
      let '(rest, player, arrows, c3) :=
        enemyLoop rnd dt (S k) player arrows rest in
      (enemy :: rest, player, arrows, c1 ++ c2 ++ c3)
  end.

(** The second loop of [update]. *)
Fixpoint arrowLoop (dt : R) (player : Player.t) (arrows : list Arrow.t)
  : list Arrow.t * Player.t * list R :=
  match arrows with
  | [] => ([], player, [])
  | arrow :: rest =>
      let arrow := Arrow.update dt arrow in
      let hit :=
        negb (Arrow.dead arrow)
        && (Utils.distance (Arrow.x arrow) (Arrow.y arrow)
              (Player.x player) (Player.y player)
            <? Arrow.radius arrow + Player.radius player) in
      let c1 := if hit then [Arrow.damage arrow] else [] in
      let player :=
        if hit then Player.takeDamage (Arrow.damage arrow) player else player in
      let arrow := if hit then Arrow.set_dead true arrow else arrow in
      let '(rest, player, c2) := arrowLoop dt player rest in
      (arrow :: rest, player, c1 ++ c2)
  end.

(** [update(dt, player)]: the manager, the player, and the amounts passed
    to [player.takeDamage] during the frame. *)
Definition update (rnd : nat -> R) (dt : R) (player : Player.t) (m : t)
  : t * Player.t * list R :=
  let '(es, player, arrows, c1) :=
    enemyLoop rnd dt 0 player (projectiles m) (enemies m) in
  let '(arrows, player, c2) := arrowLoop dt player arrows in
  (mk (filter (fun e => negb (Enemy.dead e)) es)
      (filter (fun a => negb (Arrow.dead a)) arrows),
   player, c1 ++ c2).

Definition getEnemies (m : t) : list Enemy.t := enemies m.

Definition clear (m : t) : t := mk [] [].

End EnemyManager.

(** ** js/camera.js *)

Module Camera.

Import Constants.

Record t := mk { x : R; y : R; width : R; height : R }.

Definition new (viewWidth viewHeight : R) : t := mk 0 0 viewWidth viewHeight.

(** [follow(target)], on the target's position. *)
Definition follow (targetX targetY : R) (c : t) : t :=
  mk (Utils.clamp (targetX - width c / 2) 0 (WORLD.WIDTH - width c))
     (Utils.clamp (targetY - height c / 2) 0 (WORLD.HEIGHT - height c))
     (width c) (height c).

Definition worldToScreen (wx wy : R) (c : t) : Utils.Vec :=
  Utils.mkVec (wx - x c) (wy - y c).

(** [isVisible(wx, wy, margin = 50)]; [None] is the argument left out. *)
Definition isVisible (wx wy : R) (margin : option R) (c : t) : bool :=
  let margin := match margin with Some m => m | None => 50 end in
  (wx >? x c - margin) && (wx <? x c + width c + margin)
  && (wy >? y c - margin) && (wy <? y c + height c + margin).

End Camera.

(** ** js/lockon.js *)

Module LockOnSystem.

Definition ACQUIRE_RANGE : R := 400.
Definition BREAK_RANGE : R := 600.

(** The lock holds a reference to an enemy of the roster, or [null]. *)
Record t := mk { target : option Enemy.t }.

Definition new : t := mk None.

(** The loop of [_findNearest], with the best candidate so far. *)
Fixpoint nearestLoop (px py : R) (es : list Enemy.t)
    (best : option Enemy.t) (bestDist : R) : option Enemy.t :=
  match es with
  | [] => best
  | e :: rest =>
      if Enemy.dead e then nearestLoop px py rest best bestDist
      else
        let d := Utils.distance px py (Enemy.x e) (Enemy.y e) in
        if d <? bestDist then nearestLoop px py rest (Some e) d
        else nearestLoop px py rest best bestDist
  end.

Definition _findNearest (player : Player.t) (enemies : list Enemy.t)
  : option Enemy.t :=
  nearestLoop (Player.x player) (Player.y player) enemies None ACQUIRE_RANGE.

Definition toggle (player : Player.t) (enemies : list Enemy.t) (l : t) : t :=
  match target l with
  | Some _ => mk None
  | None => mk (_findNearest player enemies)
  end.

Definition isLocked (l : t) : bool :=
  match target l with Some _ => true | None => false end.

End LockOnSystem.

(** ** js/upgrade.js *)

Module UpgradeSystem.

(** The keys of [player.stats] an upgrade may name. *)
Inductive StatKey :=
| maxHp | speed | damage | attackSpeed | defense | weaponSize | extraProjectiles.

Inductive Special := heal.

(** An entry of the [UPGRADES] table; a field the entry leaves out is
    [None]. *)
Record Upgrade := mkUpgrade {
  special : option Special;
  stat : option StatKey;
  value : option R;
  multiplier : option R
}.

Definition UPGRADES : list Upgrade :=
  [ mkUpgrade None (Some maxHp) (Some 25) None;
    mkUpgrade None (Some speed) None (Some (112 / 100));
    mkUpgrade None (Some damage) None (Some (115 / 100));
    mkUpgrade None (Some attackSpeed) None (Some (120 / 100));
    mkUpgrade None (Some weaponSize) None (Some (115 / 100));
    mkUpgrade (Some heal) None (Some (4 / 10)) None;
    mkUpgrade None (Some defense) (Some (1 / 10)) None;
    mkUpgrade None (Some extraProjectiles) (Some 1) None ].

(** [stats[key]] and [stats[key] = v]. *)
Definition getStat (key : StatKey) (s : Player.Stats) : R :=
  match key with
  | maxHp => Player.maxHp s
  | speed => Player.speed s
  | damage => Player.damage s
  | attackSpeed => Player.attackSpeed s
  | defense => Player.defense s
  | weaponSize => Player.weaponSize s
  | extraProjectiles => Player.extraProjectiles s
  end.

Definition setStat (key : StatKey) (v : R) (s : Player.Stats) : Player.Stats :=
  match key with
  | maxHp =>
      Player.mkStats v (Player.speed s) (Player.damage s) (Player.attackSpeed s)
        (Player.defense s) (Player.weaponSize s) (Player.extraProjectiles s)
  | speed =>
      Player.mkStats (Player.maxHp s) v (Player.damage s) (Player.attackSpeed s)
        (Player.defense s) (Player.weaponSize s) (Player.extraProjectiles s)
  | damage =>
      Player.mkStats (Player.maxHp s) (Player.speed s) v (Player.attackSpeed s)
        (Player.defense s) (Player.weaponSize s) (Player.extraProjectiles s)
  | attackSpeed =>
      Player.mkStats (Player.maxHp s) (Player.speed s) (Player.damage s) v
        (Player.defense s) (Player.weaponSize s) (Player.extraProjectiles s)
  | defense =>
      Player.mkStats (Player.maxHp s) (Player.speed s) (Player.damage s)
        (Player.attackSpeed s) v (Player.weaponSize s) (Player.extraProjectiles s)
  | weaponSize =>
      Player.mkStats (Player.maxHp s) (Player.speed s) (Player.damage s)
        (Player.attackSpeed s) (Player.defense s) v (Player.extraProjectiles s)
  | extraProjectiles =>
      Player.mkStats (Player.maxHp s) (Player.speed s) (Player.damage s)
        (Player.attackSpeed s) (Player.defense s) (Player.weaponSize s) v
  end.

Definition set_stats (v : Player.Stats) (p : Player.t) : Player.t :=
  Player.mk (Player.x p) (Player.y p) (Player.radius p) v (Player.hp p)
    (Player.invulnTimer p) (Player.maxMp p) (Player.mp p)
    (Player.mpRegenTimer p) (Player.moveDir p) (Player.facing p)
    (Player.attackDir p) (Player.z p) (Player.isStrafing p).

(** [player.stats[upgrade.stat] = f(player.stats[upgrade.stat])].  With
    no [stat] the assignment goes to the key ["undefined"], which nothing
    reads. *)
Definition onStat (key : option StatKey) (f : R -> R) (p : Player.t) : Player.t :=
  match key with
  | Some k => set_stats (setStat k (f (getStat k (Player.stats p))) (Player.stats p)) p
  | None => p
  end.

(** [_apply(player, upgrade)].  [None] stands for the player whose hp has
    become NaN: arithmetic on a [value] the entry leaves out. *)
Definition _apply (player : Player.t) (upgrade : Upgrade) : option Player.t :=
  match special upgrade with
  | Some heal =>
      match value upgrade with
      | Some v =>
          Some (Player.set_hp
                  (Num.min (Player.maxHp (Player.stats player))
                     (Player.hp player + Player.maxHp (Player.stats player) * v))
                  player)
      | None => None
      end
  | None =>
      let player :=
        match multiplier upgrade with
        | Some m =>
            if m !=? 0 then onStat (stat upgrade) (fun s => s * m) player
            else
              match value upgrade with
              | Some v => onStat (stat upgrade) (fun s => s + v) player
              | None => player
              end
        | None =>
            match value upgrade with
            | Some v => onStat (stat upgrade) (fun s => s + v) player
            | None => player
            end
        end in
      match stat upgrade with
      | Some maxHp =>
          match value upgrade with
          | Some v => Some (Player.set_hp (Player.hp player + v) player)
          | None => None
          end
      | _ => Some player
      end
  end.

End UpgradeSystem.

(** ** js/world.js: the collision queries *)

Module WorldManager.

(** The [type] tags of the obstacles the map is built from. *)
Inductive ObsType :=
| tree | wall | rock | well | fairyTree | caveRock | caveDark | bridge
| barricade | glow | gap | vine.

(** [shape: 'circle'] with its radius, or [shape: 'rect'] with its width
    and height. *)
Inductive Shape :=
| circle (radius : R)
| rect (w h : R).

Record Obstacle := mkObstacle {
  shape : Shape;
  type : ObsType;
  x : R;
  y : R;
  grabHeight : option R
}.

Record t := mk { obstacles : list Obstacle }.

(** [_circle] and [_rect]. *)
Definition _circle (ty : ObsType) (x0 y0 radius0 : R) (m : t) : t :=
  mk (obstacles m ++ [mkObstacle (circle radius0) ty x0 y0 None]).
Definition _rect (ty : ObsType) (x0 y0 w0 h0 : R) (m : t) : t :=
  mk (obstacles m ++ [mkObstacle (rect w0 h0) ty x0 y0 None]).

Definition isGap (o : Obstacle) : bool :=
  match type o with gap => true | _ => false end.
Definition isVine (o : Obstacle) : bool :=
  match type o with vine => true | _ => false end.

(** [_pushFromCircle], for a circular obstacle of radius [radius0]. *)
Definition _pushFromCircle (px py pr : R) (ox oy radius0 : R)
  : option Utils.Vec :=
  let dx := px - ox in
  let dy := py - oy in
  let dist := sqrt (dx * dx + dy * dy) in
  let minDist := pr + radius0 in
  if (dist <? minDist) && (dist >? 1 / 1000) then
    let push := minDist - dist in
    Some (Utils.mkVec (px + (dx / dist) * push) (py + (dy / dist) * push))
  else None.

(** [_pushFromRect], for a rectangle at [(ox, oy)] of size [w0] by [h0]. *)
Definition _pushFromRect (px py pr : R) (ox oy w0 h0 : R) : option Utils.Vec :=
  let nx := Utils.clamp px ox (ox + w0) in
  let ny := Utils.clamp py oy (oy + h0) in
  let dx := px - nx in
  let dy := py - ny in
  let dist := sqrt (dx * dx + dy * dy) in
  if dist <? pr then
    if dist >? 1 / 1000 then
      let push := pr - dist in
      Some (Utils.mkVec (px + (dx / dist) * push) (py + (dy / dist) * push))
    else
      let dl := px - ox in
      let dr := (ox + w0) - px in
      let dt := py - oy in
      let db := (oy + h0) - py in
      let min := Num.min (Num.min (Num.min dl dr) dt) db in
      if min =? dl then Some (Utils.mkVec (ox - pr) py)
      else if min =? dr then Some (Utils.mkVec (ox + w0 + pr) py)
      else if min =? dt then Some (Utils.mkVec px (oy - pr))
      else Some (Utils.mkVec px (oy + h0 + pr))
  else None.

(** The push of one obstacle, by its shape. *)
Definition pushFrom (px py pr : R) (obs : Obstacle) : option Utils.Vec :=
  match shape obs with
  | circle radius0 => _pushFromCircle px py pr (x obs) (y obs) radius0
  | rect w0 h0 => _pushFromRect px py pr (x obs) (y obs) w0 h0
  end.

(** The loop of [resolveCollision]. *)
Fixpoint resolveLoop (px py pr : R) (isAirborne : bool) (obs : list Obstacle)
  : Utils.Vec :=
  match obs with
  | [] => Utils.mkVec px py
  | o :: rest =>
      if isGap o && isAirborne then resolveLoop px py pr isAirborne rest
      else if isVine o then resolveLoop px py pr isAirborne rest
      else if isGap o then resolveLoop px py pr isAirborne rest
      else
        match pushFrom px py pr o with
        | Some r => resolveLoop (Utils.vx r) (Utils.vy r) pr isAirborne rest
        | None => resolveLoop px py pr isAirborne rest
        end
  end.

(** [resolveCollision(px, py, pr, isAirborne = false)] *)
Definition resolveCollision (px py pr : R) (isAirborne : option bool) (m : t)
  : Utils.Vec :=
  resolveLoop px py pr (match isAirborne with Some b => b | None => false end)
    (obstacles m).

(** The circle-rectangle overlap test of [checkGap] and [checkVineGrab].
    An obstacle of circle shape has no [w] and [h]: the test is then made
    on NaN and fails. *)
Definition overlaps (px py pr : R) (obs : Obstacle) : bool :=
  match shape obs with
  | rect w0 h0 =>
      let nx := Num.max (x obs) (Num.min px (x obs + w0)) in
      let ny := Num.max (y obs) (Num.min py (y obs + h0)) in
      let dx := px - nx in
      let dy := py - ny in
      dx * dx + dy * dy <? pr * pr
  | circle _ => false
  end.

Fixpoint gapLoop (px py pr : R) (obs : list Obstacle) : option Obstacle :=
  match obs with
  | [] => None
  | o :: rest =>
      if negb (isGap o) then gapLoop px py pr rest
      else if overlaps px py pr o then Some o
      else gapLoop px py pr rest
  end.

Definition checkGap (px py pr : R) (m : t) : option Obstacle :=
  gapLoop px py pr (obstacles m).

Fixpoint vineLoop (px py pr z : R) (obs : list Obstacle) : option Obstacle :=
  match obs with
  | [] => None
  | o :: rest =>
      if negb (isVine o) then vineLoop px py pr z rest
      else if overlaps px py pr o
              && match grabHeight o with
                 | Some h => z >=? h
                 | None => false
                 end
      then Some o
      else vineLoop px py pr z rest
  end.

Definition checkVineGrab (px py pr z : R) (m : t) : option Obstacle :=
  vineLoop px py pr z (obstacles m).

End WorldManager.

(** * Properties *)

(** ** Comparisons of reals as booleans *)

Module NumFacts.

Lemma ltb_true_iff (a b : R) : (a <? b) = true <-> a < b.
Proof. unfold Num.ltb; destruct (Rlt_dec a b); split; intros; try lra; discriminate. Qed.

Lemma ltb_false_iff (a b : R) : (a <? b) = false <-> b <= a.
Proof. unfold Num.ltb; destruct (Rlt_dec a b); split; intros; try lra; discriminate. Qed.

Lemma leb_true_iff (a b : R) : (a <=? b) = true <-> a <= b.
Proof. unfold Num.leb; destruct (Rle_dec a b); split; intros; try lra; discriminate. Qed.

Lemma leb_false_iff (a b : R) : (a <=? b) = false <-> b < a.
Proof. unfold Num.leb; destruct (Rle_dec a b); split; intros; try lra; discriminate. Qed.

Lemma eqb_true_iff (a b : R) : (a =? b) = true <-> a = b.
Proof. unfold Num.eqb; destruct (Req_dec_T a b); split; intros; try lra; discriminate. Qed.

Lemma eqb_false_iff (a b : R) : (a =? b) = false <-> a <> b.
Proof.
  unfold Num.eqb; destruct (Req_dec_T a b); split; intros;
    try discriminate; try contradiction; try assumption; reflexivity.
Qed.

Lemma neqb_true_iff (a b : R) : (a !=? b) = true <-> a <> b.
Proof. unfold Num.neqb; rewrite negb_true_iff; apply eqb_false_iff. Qed.

Lemma neqb_false_iff (a b : R) : (a !=? b) = false <-> a = b.
Proof. unfold Num.neqb; rewrite negb_false_iff; apply eqb_true_iff. Qed.

Lemma ltb_true (a b : R) : a < b -> (a <? b) = true.
Proof. apply ltb_true_iff. Qed.
Lemma ltb_false (a b : R) : b <= a -> (a <? b) = false.
Proof. apply ltb_false_iff. Qed.
Lemma leb_true (a b : R) : a <= b -> (a <=? b) = true.
Proof. apply leb_true_iff. Qed.
Lemma leb_false (a b : R) : b < a -> (a <=? b) = false.
Proof. apply leb_false_iff. Qed.
Lemma eqb_true (a b : R) : a = b -> (a =? b) = true.
Proof. apply eqb_true_iff. Qed.
Lemma eqb_false (a b : R) : a <> b -> (a =? b) = false.
Proof. apply eqb_false_iff. Qed.

End NumFacts.

(** [cmp_step]: split on one comparison of the goal, with the fact it
    decides as a hypothesis; [cmp_cases] does so for all of them. *)
Ltac cmp_step :=
  match goal with
  | |- context [Num.ltb ?a ?b] =>
      let H := fresh "Hc" in
      destruct (Num.ltb a b) eqn:H;
      [ apply NumFacts.ltb_true_iff in H | apply NumFacts.ltb_false_iff in H ]
  | |- context [Num.leb ?a ?b] =>
      let H := fresh "Hc" in
      destruct (Num.leb a b) eqn:H;
      [ apply NumFacts.leb_true_iff in H | apply NumFacts.leb_false_iff in H ]
  | |- context [Num.neqb ?a ?b] =>
      let H := fresh "Hc" in
      destruct (Num.neqb a b) eqn:H;
      [ apply NumFacts.neqb_true_iff in H | apply NumFacts.neqb_false_iff in H ]
  | |- context [Num.eqb ?a ?b] =>
      let H := fresh "Hc" in
      destruct (Num.eqb a b) eqn:H;
      [ apply NumFacts.eqb_true_iff in H | apply NumFacts.eqb_false_iff in H ]
  end.
Ltac cmp_cases := repeat cmp_step.

(** [cmp_eval]: decide every comparison of the goal that linear arithmetic
    decides from the context. *)
Ltac cmp_eval :=
  repeat match goal with
  | |- context [Num.ltb ?a ?b] =>
      first [ rewrite (NumFacts.ltb_true a b) by lra
            | rewrite (NumFacts.ltb_false a b) by lra ]
  | |- context [Num.leb ?a ?b] =>
      first [ rewrite (NumFacts.leb_true a b) by lra
            | rewrite (NumFacts.leb_false a b) by lra ]
  | |- context [Num.eqb ?a ?b] =>
      first [ rewrite (NumFacts.eqb_true a b) by lra
            | rewrite (NumFacts.eqb_false a b) by lra ]
  end.

(** ** The player's damage and mana mutators *)

Module PlayerFacts.

Import Player.

Lemma takeDamage_invulnerable (amount : R) (p : t) :
  invulnTimer p > 0 -> takeDamage amount p = p.
Proof.
  intros H. unfold takeDamage. rewrite NumFacts.ltb_true by exact H. reflexivity.
Qed.

Lemma takeDamage_vulnerable (amount : R) (p : t) :
  invulnTimer p <= 0 ->
  takeDamage amount p =
  set_invulnTimer (3 / 10)
    (set_hp (Rmax 0 (hp p - amount * (1 - defense (stats p)))) p).
Proof.
  intros H. unfold takeDamage. rewrite NumFacts.ltb_false by exact H.
  cbn [set_hp set_invulnTimer hp x y radius stats invulnTimer maxMp mp
       mpRegenTimer moveDir facing attackDir z isStrafing].
  cmp_cases.
  - rewrite Rmax_left by lra. reflexivity.
  - rewrite Rmax_right by lra. reflexivity.
Qed.

Lemma takeDamage_hp_nonneg (amount : R) (p : t) :
  0 <= hp p -> 0 <= hp (takeDamage amount p).
Proof.
  intros H. destruct (Rlt_dec 0 (invulnTimer p)) as [Hi | Hi].
  - rewrite takeDamage_invulnerable by exact Hi. exact H.
  - rewrite takeDamage_vulnerable by lra. cbn. apply Rmax_l.
Qed.

(** C10.  A call of [takeDamage] during the invulnerability window
    ([invulnTimer > 0]) changes nothing of the player.  Outside it, hp drops
    by [amount * (1 - defense)], is clamped below at 0, the invulnerability
    timer restarts at 0.3 and nothing else changes.  Hence hp never becomes
    negative, and hp is never lowered during i-frames. *)
Theorem takeDamage_iframes_and_clamp (amount : R) (p : t) :
  (invulnTimer p > 0 -> takeDamage amount p = p) /\
  (invulnTimer p <= 0 ->
     takeDamage amount p =
     set_invulnTimer (3 / 10)
       (set_hp (Rmax 0 (hp p - amount * (1 - defense (stats p)))) p)) /\
  (invulnTimer p <= 0 ->
     hp (takeDamage amount p) = Rmax 0 (hp p - amount * (1 - defense (stats p))) /\
     invulnTimer (takeDamage amount p) = 3 / 10) /\
  (0 <= hp p -> 0 <= hp (takeDamage amount p)).
Proof.
  split; [ apply takeDamage_invulnerable | ].
  split; [ apply takeDamage_vulnerable | ].
  split; [ | apply takeDamage_hp_nonneg ].
  intros H. rewrite takeDamage_vulnerable by exact H. cbn. split; reflexivity.
Qed.

(** The test "player: takeDamage + isDead" and "player: defense
    reduction" of the repository, on the fighter. *)
Example takeDamage_fighter_50 :
  hp (takeDamage 50 (new 120 150 1 1)) = 70.
Proof.
  rewrite takeDamage_vulnerable by (cbn; lra). cbn.
  rewrite Rmax_right by lra. lra.
Qed.

Lemma canSpendMp_iff (cost : R) (p : t) :
  canSpendMp cost p = true <-> cost <= mp p.
Proof. unfold canSpendMp. apply NumFacts.leb_true_iff. Qed.

Lemma spendMp_short (cost : R) (p : t) :
  mp p < cost -> spendMp cost p = (p, false).
Proof. intros H. unfold spendMp. rewrite NumFacts.ltb_true by exact H. reflexivity. Qed.

Lemma spendMp_enough (cost : R) (p : t) :
  cost <= mp p -> spendMp cost p = (set_mp (mp p - cost) p, true).
Proof. intros H. unfold spendMp. rewrite NumFacts.ltb_false by exact H. reflexivity. Qed.

End PlayerFacts.

(** ** Resource-gated abilities *)

Module AbilityFacts.

Import Constants Weapons.

(** The effects an engine holds after a cast that submitted [e]. *)
Definition submitted (e : Effect) (eng eng' : EffectEngine.t) : Prop :=
  EffectEngine.effects eng' = EffectEngine.effects eng ++ [e].

Lemma castWind_short (a : FighterAbilities.t) (p : Player.t) (eng : EffectEngine.t) :
  Player.mp p < FIGHTER_ABILITIES.wind.mpCost ->
  FighterAbilities._castWind a p eng = (a, p, eng).
Proof.
  intros H. unfold FighterAbilities._castWind, Player.canSpendMp.
  rewrite NumFacts.leb_false by exact H. reflexivity.
Qed.

Lemma castWind_enough (a : FighterAbilities.t) (p : Player.t) (eng : EffectEngine.t) :
  FIGHTER_ABILITIES.wind.mpCost <= Player.mp p ->
  exists w eng',
    FighterAbilities._castWind a p eng =
      (a, Player.set_mp (Player.mp p - FIGHTER_ABILITIES.wind.mpCost) p, eng') /\
    submitted (windPush w) eng eng'.
Proof.
  intros H. unfold FighterAbilities._castWind, Player.canSpendMp.
  rewrite NumFacts.leb_true by exact H. cbn [negb].
  rewrite PlayerFacts.spendMp_enough by exact H. cbn [fst].
  eexists. eexists. split; [ reflexivity | ]. reflexivity.
Qed.

Lemma castFrostRing_blocked (a : MageAbilities.t) (p : Player.t) (eng : EffectEngine.t) :
  MageAbilities.frostRingCooldown a > 0 \/
  Player.mp p < MAGE_ABILITIES.frostRing.mpCost ->
  MageAbilities._castFrostRing a p eng = (a, p, eng).
Proof.
  intros H. unfold MageAbilities._castFrostRing, Player.canSpendMp.
  destruct (Rlt_dec 0 (MageAbilities.frostRingCooldown a)) as [Hc | Hc].
  - rewrite NumFacts.ltb_true by exact Hc. reflexivity.
  - rewrite NumFacts.ltb_false by lra.
    rewrite NumFacts.leb_false by lra. reflexivity.
Qed.

Lemma castFrostRing_cast (a : MageAbilities.t) (p : Player.t) (eng : EffectEngine.t) :
  MageAbilities.frostRingCooldown a <= 0 ->
  MAGE_ABILITIES.frostRing.mpCost <= Player.mp p ->
  exists a' f eng',
    MageAbilities._castFrostRing a p eng =
      (a', Player.set_mp (Player.mp p - MAGE_ABILITIES.frostRing.mpCost) p, eng') /\
    MageAbilities.frostRingCooldown a' = MAGE_ABILITIES.frostRing.cooldown /\
    submitted (frostRing f) eng eng'.
Proof.
  intros Hc H. unfold MageAbilities._castFrostRing, Player.canSpendMp.
  rewrite NumFacts.ltb_false by exact Hc.
  rewrite NumFacts.leb_true by exact H. cbn [negb].
  rewrite PlayerFacts.spendMp_enough by exact H. cbn [fst].
  do 3 eexists. split; [ reflexivity | ]. split; reflexivity.
Qed.

Lemma castMeteor_blocked (a : MageAbilities.t) (p : Player.t) (eng : EffectEngine.t) :
  MageAbilities.meteorCooldown a > 0 \/
  Player.mp p < MAGE_ABILITIES.meteor.mpCost ->
  MageAbilities._castMeteor a p eng = (a, p, eng).
Proof.
  intros H. unfold MageAbilities._castMeteor, Player.canSpendMp.
  destruct (Rlt_dec 0 (MageAbilities.meteorCooldown a)) as [Hc | Hc].
  - rewrite NumFacts.ltb_true by exact Hc. reflexivity.
  - rewrite NumFacts.ltb_false by lra.
    rewrite NumFacts.leb_false by lra. reflexivity.
Qed.

Lemma castMeteor_cast (a : MageAbilities.t) (p : Player.t) (eng : EffectEngine.t) :
  MageAbilities.meteorCooldown a <= 0 ->
  MAGE_ABILITIES.meteor.mpCost <= Player.mp p ->
  exists a' m eng',
    MageAbilities._castMeteor a p eng =
      (a', Player.set_mp (Player.mp p - MAGE_ABILITIES.meteor.mpCost) p, eng') /\
    MageAbilities.meteorCooldown a' = MAGE_ABILITIES.meteor.cooldown /\
    MageAbilities.meteorCast a' = true /\
    submitted (meteor m) eng eng'.
Proof.
  intros Hc H. unfold MageAbilities._castMeteor, Player.canSpendMp.
  rewrite NumFacts.ltb_false by exact Hc.
  rewrite NumFacts.leb_true by exact H. cbn [negb].
  rewrite PlayerFacts.spendMp_enough by exact H. cbn [fst].
  do 3 eexists. split; [ reflexivity | ]. repeat split; reflexivity.
Qed.

Lemma castMinorHeal_blocked (a : CelestialAbilities.t) (p : Player.t)
    (eng : EffectEngine.t) :
  CelestialAbilities.healCooldown a > 0 \/
  Player.mp p < CELESTIAL_ABILITIES.minorHeal.mpCost ->
  CelestialAbilities._castMinorHeal a p eng = (a, p, eng).
Proof.
  intros H. unfold CelestialAbilities._castMinorHeal, Player.canSpendMp.
  destruct (Rlt_dec 0 (CelestialAbilities.healCooldown a)) as [Hc | Hc].
  - rewrite NumFacts.ltb_true by exact Hc. reflexivity.
  - rewrite NumFacts.ltb_false by lra.
    rewrite NumFacts.leb_false by lra. reflexivity.
Qed.

Lemma castMinorHeal_cast (a : CelestialAbilities.t) (p : Player.t)
    (eng : EffectEngine.t) :
  CelestialAbilities.healCooldown a <= 0 ->
  CELESTIAL_ABILITIES.minorHeal.mpCost <= Player.mp p ->
  exists a' p',
    CelestialAbilities._castMinorHeal a p eng = (a', p', eng) /\
    CelestialAbilities.healCooldown a' = CELESTIAL_ABILITIES.minorHeal.cooldown /\
    Player.mp p' = Player.mp p - CELESTIAL_ABILITIES.minorHeal.mpCost.
Proof.
  intros Hc H. unfold CelestialAbilities._castMinorHeal, Player.canSpendMp.
  rewrite NumFacts.ltb_false by exact Hc.
  rewrite NumFacts.leb_true by exact H. cbn [negb].
  rewrite PlayerFacts.spendMp_enough by exact H. cbn [fst].
  do 2 eexists. split; [ reflexivity | ]. split; reflexivity.
Qed.

(** The player after each of the four casts. *)
Definition afterWind (a : FighterAbilities.t) (p : Player.t) (eng : EffectEngine.t) :=
  snd (fst (FighterAbilities._castWind a p eng)).
Definition afterFrostRing (a : MageAbilities.t) (p : Player.t) (eng : EffectEngine.t) :=
  snd (fst (MageAbilities._castFrostRing a p eng)).
Definition afterMeteor (a : MageAbilities.t) (p : Player.t) (eng : EffectEngine.t) :=
  snd (fst (MageAbilities._castMeteor a p eng)).
Definition afterMinorHeal (a : CelestialAbilities.t) (p : Player.t) (eng : EffectEngine.t) :=
  snd (fst (CelestialAbilities._castMinorHeal a p eng)).

Lemma casts_keep_mana_nonneg (p : Player.t) (eng : EffectEngine.t) :
  0 <= Player.mp p ->
  (forall a, 0 <= Player.mp (afterWind a p eng)) /\
  (forall a, 0 <= Player.mp (afterFrostRing a p eng)) /\
  (forall a, 0 <= Player.mp (afterMeteor a p eng)) /\
  (forall a, 0 <= Player.mp (afterMinorHeal a p eng)).
Proof.
  intros Hp. repeat split; intros a.
  - unfold afterWind.
    destruct (Rlt_dec (Player.mp p) FIGHTER_ABILITIES.wind.mpCost) as [H | H].
    + rewrite castWind_short by exact H. exact Hp.
    + destruct (castWind_enough a p eng) as (w & eng' & E & _); [ lra | ].
      rewrite E. cbn. lra.
  - unfold afterFrostRing.
    destruct (Rlt_dec 0 (MageAbilities.frostRingCooldown a)) as [Hc | Hc];
      [ rewrite castFrostRing_blocked by (left; exact Hc); exact Hp | ].
    destruct (Rlt_dec (Player.mp p) MAGE_ABILITIES.frostRing.mpCost) as [H | H];
      [ rewrite castFrostRing_blocked by (right; exact H); exact Hp | ].
    destruct (castFrostRing_cast a p eng) as (a' & f & eng' & E & _); [ lra | lra | ].
    rewrite E. cbn. lra.
  - unfold afterMeteor.
    destruct (Rlt_dec 0 (MageAbilities.meteorCooldown a)) as [Hc | Hc];
      [ rewrite castMeteor_blocked by (left; exact Hc); exact Hp | ].
    destruct (Rlt_dec (Player.mp p) MAGE_ABILITIES.meteor.mpCost) as [H | H];
      [ rewrite castMeteor_blocked by (right; exact H); exact Hp | ].
    destruct (castMeteor_cast a p eng) as (a' & f & eng' & E & _); [ lra | lra | ].
    rewrite E. cbn. lra.
  - unfold afterMinorHeal.
    destruct (Rlt_dec 0 (CelestialAbilities.healCooldown a)) as [Hc | Hc];
      [ rewrite castMinorHeal_blocked by (left; exact Hc); exact Hp | ].
    destruct (Rlt_dec (Player.mp p) CELESTIAL_ABILITIES.minorHeal.mpCost) as [H | H];
      [ rewrite castMinorHeal_blocked by (right; exact H); exact Hp | ].
    destruct (castMinorHeal_cast a p eng) as (a' & p' & E & _ & Hm); [ lra | lra | ].
    rewrite E. cbn. rewrite Hm. lra.
Qed.

(** C2, as the code has it.  Every resource-gated cast checks, then
    deducts: with less mana than the cost the cast changes neither the
    player nor the ability set nor the engine; the wind spell, which has no
    cooldown, deducts exactly its cost and submits one effect whenever the
    mana suffices; frost ring, meteor and minor heal do so when, in addition,
    their cooldown has elapsed, and do nothing at all while it runs, however
    much mana there is.  Mana that is not negative stays so. *)
Theorem resource_gate_check_then_deduct (p : Player.t) (eng : EffectEngine.t) :
  (forall a, Player.mp p < FIGHTER_ABILITIES.wind.mpCost ->
     FighterAbilities._castWind a p eng = (a, p, eng)) /\
  (forall a, FIGHTER_ABILITIES.wind.mpCost <= Player.mp p ->
     exists w eng',
       FighterAbilities._castWind a p eng =
         (a, Player.set_mp (Player.mp p - FIGHTER_ABILITIES.wind.mpCost) p, eng') /\
       submitted (windPush w) eng eng') /\
  (forall a, MageAbilities.frostRingCooldown a > 0 \/
             Player.mp p < MAGE_ABILITIES.frostRing.mpCost ->
     MageAbilities._castFrostRing a p eng = (a, p, eng)) /\
  (forall a, MageAbilities.frostRingCooldown a <= 0 ->
     MAGE_ABILITIES.frostRing.mpCost <= Player.mp p ->
     exists a' f eng',
       MageAbilities._castFrostRing a p eng =
         (a', Player.set_mp (Player.mp p - MAGE_ABILITIES.frostRing.mpCost) p, eng') /\
       MageAbilities.frostRingCooldown a' = MAGE_ABILITIES.frostRing.cooldown /\
       submitted (frostRing f) eng eng') /\
  (forall a, MageAbilities.meteorCooldown a > 0 \/
             Player.mp p < MAGE_ABILITIES.meteor.mpCost ->
     MageAbilities._castMeteor a p eng = (a, p, eng)) /\
  (forall a, MageAbilities.meteorCooldown a <= 0 ->
     MAGE_ABILITIES.meteor.mpCost <= Player.mp p ->
     exists a' m eng',
       MageAbilities._castMeteor a p eng =
         (a', Player.set_mp (Player.mp p - MAGE_ABILITIES.meteor.mpCost) p, eng') /\
       MageAbilities.meteorCooldown a' = MAGE_ABILITIES.meteor.cooldown /\
       MageAbilities.meteorCast a' = true /\
       submitted (meteor m) eng eng') /\
  (forall a, CelestialAbilities.healCooldown a > 0 \/
             Player.mp p < CELESTIAL_ABILITIES.minorHeal.mpCost ->
     CelestialAbilities._castMinorHeal a p eng = (a, p, eng)) /\
  (forall a, CelestialAbilities.healCooldown a <= 0 ->
     CELESTIAL_ABILITIES.minorHeal.mpCost <= Player.mp p ->
     exists a' p',
       CelestialAbilities._castMinorHeal a p eng = (a', p', eng) /\
       CelestialAbilities.healCooldown a' = CELESTIAL_ABILITIES.minorHeal.cooldown /\
       Player.mp p' = Player.mp p - CELESTIAL_ABILITIES.minorHeal.mpCost) /\
  (0 <= Player.mp p ->
     (forall a, 0 <= Player.mp (afterWind a p eng)) /\
     (forall a, 0 <= Player.mp (afterFrostRing a p eng)) /\
     (forall a, 0 <= Player.mp (afterMeteor a p eng)) /\
     (forall a, 0 <= Player.mp (afterMinorHeal a p eng))).
Proof.
  split; [ intros a; apply castWind_short | ].
  split; [ intros a; apply castWind_enough | ].
  split; [ intros a; apply castFrostRing_blocked | ].
  split; [ intros a; apply castFrostRing_cast | ].
  split; [ intros a; apply castMeteor_blocked | ].
  split; [ intros a; apply castMeteor_cast | ].
  split; [ intros a; apply castMinorHeal_blocked | ].
  split; [ intros a; apply castMinorHeal_cast | ].
  apply casts_keep_mana_nonneg.
Qed.

(** The mage of the character table, with full mana. *)
Definition mage : Player.t := Player.new 80 180 (12 / 10) (8 / 10).

(** C2 as stated fails: a frost ring cast right after a frost ring finds
    4 mana, which is at least the cost 1, and deducts nothing, because the
    cooldown the first cast started is still running. *)
Lemma frostRing_twice_deducts_once :
  let '(a1, p1, eng1) :=
    MageAbilities._castFrostRing MageAbilities.new mage (EffectEngine.mk []) in
  let '(a2, p2, eng2) := MageAbilities._castFrostRing a1 p1 eng1 in
  Player.mp p1 = 4 /\
  MAGE_ABILITIES.frostRing.mpCost <= Player.mp p1 /\
  Player.mp p2 = Player.mp p1 /\
  Player.mp p2 <> Player.mp p1 - MAGE_ABILITIES.frostRing.mpCost /\
  length (EffectEngine.effects eng2) = length (EffectEngine.effects eng1).
Proof.
  destruct (castFrostRing_cast MageAbilities.new mage (EffectEngine.mk []))
    as (a1 & f & eng1 & E & Hcd & Hs).
  { cbn. lra. }
  { cbn. unfold MAGE_ABILITIES.frostRing.mpCost, MP_CONFIG.maxMp. lra. }
  rewrite E.
  rewrite castFrostRing_blocked.
  2:{ left. rewrite Hcd. unfold MAGE_ABILITIES.frostRing.cooldown. lra. }
  cbn. unfold MAGE_ABILITIES.frostRing.mpCost, MP_CONFIG.maxMp.
  repeat split; try lra.
Qed.

End AbilityFacts.

(** ** The vertical state machine: pit-fall and landing *)

Module StateFacts.

Import Constants PlayerStateMachine.

Lemma airborne_not_grounded (s : t) : isAirborne s = true -> isGrounded s = false.
Proof. unfold isAirborne, isGrounded. destruct (state s); intros; congruence. Qed.

Lemma trackSafe_airborne world s p : isAirborne s = true -> trackSafe world s p = s.
Proof.
  intros H. unfold trackSafe. rewrite (airborne_not_grounded s H). destruct world; reflexivity.
Qed.

Lemma groundState_airborne mv strafe s : isAirborne s = true -> groundState mv strafe s = s.
Proof. intros H. unfold groundState. rewrite (airborne_not_grounded s H). reflexivity. Qed.

Lemma takeDamage_x amount p : Player.x (Player.takeDamage amount p) = Player.x p.
Proof.
  destruct (Rlt_dec 0 (Player.invulnTimer p)).
  - rewrite PlayerFacts.takeDamage_invulnerable by assumption. reflexivity.
  - rewrite PlayerFacts.takeDamage_vulnerable by lra. reflexivity.
Qed.

Lemma takeDamage_y amount p : Player.y (Player.takeDamage amount p) = Player.y p.
Proof.
  destruct (Rlt_dec 0 (Player.invulnTimer p)).
  - rewrite PlayerFacts.takeDamage_invulnerable by assumption. reflexivity.
  - rewrite PlayerFacts.takeDamage_vulnerable by lra. reflexivity.
Qed.

(** The player a finished pit-fall leaves. *)
Definition respawned (s : t) (p : Player.t) : Player.t :=
  Player.set_z 0
    (Player.set_invulnTimer 1
       (Player.takeDamage 15
          (Player.set_y (lastSafeY s) (Player.set_x (lastSafeX s) p)))).

(** The state machine a finished pit-fall leaves. *)
Definition recovered (dt : R) (s : t) : t :=
  set_state idle
    (set_gapFallAlpha 1
       (set_gapFalling false
          (set_vz 0
             (set_z 0
                (set_gapFallAlpha (Num.max 0 ((gapFallTimer s - dt) / (5 / 10)))
                   (set_gapFallTimer (gapFallTimer s - dt) s)))))).

Lemma update_pitfall_end (now dt : R) (mv : Utils.Vec) (strafe : bool)
    (world : option World) (s : t) (p : Player.t) :
  isAirborne s = true ->
  gapFalling s = true ->
  gapFallTimer s - dt <= 0 ->
  update now dt mv strafe world s p = Some (recovered dt s, respawned s p).
Proof.
  intros Ha Hg Ht.
  unfold update.
  rewrite (trackSafe_airborne world s p Ha), (groundState_airborne mv strafe s Ha).
  rewrite Ha, Hg.
  cbn [gapFallTimer set_gapFallTimer set_gapFallAlpha].
  rewrite NumFacts.leb_true by exact Ht.
  reflexivity.
Qed.

Lemma update_pitfall_fading (now dt : R) (mv : Utils.Vec) (strafe : bool)
    (world : option World) (s : t) (p : Player.t) :
  isAirborne s = true ->
  gapFalling s = true ->
  0 < gapFallTimer s - dt ->
  update now dt mv strafe world s p =
  Some (set_gapFallAlpha (Num.max 0 ((gapFallTimer s - dt) / (5 / 10)))
          (set_gapFallTimer (gapFallTimer s - dt) s),
        Player.set_z (z s) p).
Proof.
  intros Ha Hg Ht.
  unfold update.
  rewrite (trackSafe_airborne world s p Ha), (groundState_airborne mv strafe s Ha).
  rewrite Ha, Hg.
  cbn [gapFallTimer set_gapFallTimer set_gapFallAlpha].
  rewrite NumFacts.leb_false by exact Ht.
  reflexivity.
Qed.

(** C7, as the code has it.  In the frame in which the pit-fall fade timer
    reaches zero the player is put back at the last recorded safe position,
    [takeDamage(15)] is called on the player, the invulnerability timer is
    then set to 1 second, height and vertical velocity are reset to zero and
    the state machine returns to [idle].  The penalty goes through
    [takeDamage]: a player outside the i-frames loses [15 * (1 - defense)] hp
    (clamped at 0), a player inside them loses nothing. *)
Theorem pitfall_recovery (now dt : R) (mv : Utils.Vec) (strafe : bool)
    (world : option World) (s : t) (p : Player.t) :
  isAirborne s = true ->
  gapFalling s = true ->
  gapFallTimer s - dt <= 0 ->
  exists s',
    update now dt mv strafe world s p = Some (s', respawned s p) /\
    state s' = idle /\ z s' = 0 /\ vz s' = 0 /\ gapFalling s' = false /\
    Player.x (respawned s p) = lastSafeX s /\
    Player.y (respawned s p) = lastSafeY s /\
    Player.invulnTimer (respawned s p) = 1 /\
    (Player.invulnTimer p > 0 -> Player.hp (respawned s p) = Player.hp p) /\
    (Player.invulnTimer p <= 0 ->
       Player.hp (respawned s p) =
       Rmax 0 (Player.hp p - 15 * (1 - Player.defense (Player.stats p)))).
Proof.
  intros Ha Hg Ht.
  exists (recovered dt s).
  split; [ apply update_pitfall_end; assumption | ].
  cbn.
  repeat split.
  - apply takeDamage_x.
  - apply takeDamage_y.
  - intros Hi. rewrite PlayerFacts.takeDamage_invulnerable by exact Hi. reflexivity.
  - intros Hi. rewrite PlayerFacts.takeDamage_vulnerable by exact Hi. reflexivity.
Qed.


(** The fighter of the character table. *)
Definition fighter : Player.t := Player.new 120 150 1 1.

(** A pit-fall 0.04 s before its fade ends. *)
Definition fadingOut (p : Player.t) : t :=
  set_gapFallTimer (4 / 100) (enterFalling true (new p)).

Lemma pitfall_recovery_witness :
  exists s',
    update 0 (5 / 100) (Utils.mkVec 0 0) false None (fadingOut fighter) fighter
      = Some (s', respawned (fadingOut fighter) fighter) /\
    state s' = idle /\
    Player.hp (respawned (fadingOut fighter) fighter) = 105.
Proof.
  destruct (pitfall_recovery 0 (5 / 100) (Utils.mkVec 0 0) false None
              (fadingOut fighter) fighter)
    as (s' & E & Hst & _ & _ & _ & _ & _ & _ & _ & Hhp).
  - reflexivity.
  - reflexivity.
  - cbn. lra.
  - exists s'. split; [ exact E | ]. split; [ exact Hst | ].
    rewrite Hhp by (cbn; lra). cbn. rewrite Rmax_right by lra. lra.
Defined.

(** C7 as stated fails: the fighter, hit by an arrow for 12 while falling
    into a pit (hp 108, i-frames 0.3 s), reaches the end of the fade with the
    i-frames still running, and the penalty of 15 is not taken from hp. *)
Lemma pitfall_penalty_skipped_during_iframes :
  let p := Player.takeDamage 12 fighter in
  exists s' p',
    update 0 (5 / 100) (Utils.mkVec 0 0) false None (fadingOut p) p = Some (s', p') /\
    gapFallTimer (fadingOut p) - 5 / 100 <= 0 /\
    state s' = idle /\
    Player.hp p = 108 /\
    Player.hp p' = 108.
Proof.
  cbv zeta.
  assert (Hp : Player.takeDamage 12 fighter =
               Player.set_invulnTimer (3 / 10) (Player.set_hp 108 fighter)).
  { rewrite PlayerFacts.takeDamage_vulnerable by (cbn; lra). cbn.
    rewrite Rmax_right by lra. do 2 f_equal. lra. }
  rewrite Hp.
  set (p := Player.set_invulnTimer (3 / 10) (Player.set_hp 108 fighter)).
  exists (recovered (5 / 100) (fadingOut p)), (respawned (fadingOut p) p).
  split.
  { apply update_pitfall_end; [ reflexivity | reflexivity | cbn; lra ]. }
  split; [ cbn; lra | ]. split; [ reflexivity | ]. split; [ reflexivity | ].
  unfold respawned.
  rewrite PlayerFacts.takeDamage_invulnerable by (cbn; lra). reflexivity.
Qed.


(** The state machine is in [falling] for the whole of a pit-fall. *)
Definition gapInv (s : t) : Prop := gapFalling s = true -> state s = falling.

Ltac break_ifs :=
  repeat match goal with
  | |- context [if ?b then _ else _] => destruct b eqn:?
  | |- context [match ?x with _ => _ end] => destruct x eqn:?
  end.

Lemma hangStep_gapFalling now dt s s' :
  hangStep now dt s = Some s' -> gapFalling s' = gapFalling s.
Proof.
  unfold hangStep.
  destruct (state s); try (intros H; injection H as <-; reflexivity).
  destruct (5 / 10 <? Num.abs (hangLerpTarget s - z s)).
  - cbn. break_ifs; intros H; injection H as <-; reflexivity.
  - destruct (hangTarget s); [ | discriminate ].
    cbn. break_ifs; intros H; injection H as <-; reflexivity.
Qed.

Lemma squashDecay_gapFalling dt s : gapFalling (squashDecay dt s) = gapFalling s.
Proof. unfold squashDecay. break_ifs; reflexivity. Qed.

Lemma finish_gapFalling now dt s p s' p' :
  finish now dt s p = Some (s', p') -> gapFalling s' = gapFalling s.
Proof.
  unfold finish. destruct (hangStep now dt s) as [s1 | ] eqn:E; [ | discriminate ].
  intros H. injection H as <- <-.
  rewrite squashDecay_gapFalling. apply (hangStep_gapFalling _ _ _ _ E).
Qed.

Lemma new_gapInv p : gapInv (new p).
Proof. unfold gapInv. cbn. discriminate. Qed.

Lemma requestJump_gapInv s : gapInv s -> gapInv (fst (requestJump s)).
Proof.
  unfold gapInv, requestJump, isGrounded. intros H.
  destruct (state s) eqn:Es; cbn; intros Hg; try (rewrite Es; auto);
    specialize (H Hg); congruence.
Qed.

Lemma dismountVine_gapInv s : gapInv s -> gapInv (dismountVine s).
Proof.
  unfold gapInv, dismountVine. intros H.
  destruct (state s) eqn:Es; cbn; intros Hg; try (rewrite Es; auto);
    specialize (H Hg); congruence.
Qed.

Lemma enterFalling_gapInv b s : gapInv s -> gapInv (enterFalling b s).
Proof.
  unfold gapInv, enterFalling, isAirborne. intros H.
  destruct (state s) eqn:Es; destruct b; cbn; intros Hg; try reflexivity;
    try (rewrite Es; auto).
Qed.

Lemma integrate_gapFalling dt s : gapFalling (integrate dt s) = gapFalling s.
Proof. unfold integrate. cbn. break_ifs; reflexivity. Qed.

Lemma integrate_state dt s : state (integrate dt s) = state s.
Proof. unfold integrate. cbn. break_ifs; cbn; congruence. Qed.

Lemma trackSafe_gapFalling w s p :
  gapFalling (trackSafe w s p) = gapFalling s /\ state (trackSafe w s p) = state s.
Proof. unfold trackSafe. break_ifs; split; reflexivity. Qed.

Lemma groundState_gapFalling mv st s : gapFalling (groundState mv st s) = gapFalling s.
Proof. unfold groundState. break_ifs; reflexivity. Qed.

Lemma update_gapInv now dt mv strafe world s p s' p' :
  gapInv s ->
  update now dt mv strafe world s p = Some (s', p') ->
  gapInv s'.
Proof.
  intros Hinv H. unfold gapInv in *.
  destruct (gapFalling s) eqn:Hg.
  - specialize (Hinv eq_refl).
    assert (Ha : isAirborne s = true) by (unfold isAirborne; rewrite Hinv; reflexivity).
    destruct (Rle_dec (gapFallTimer s - dt) 0) as [Ht | Ht].
    + rewrite update_pitfall_end in H by assumption.
      injection H as <- <-. cbn. discriminate.
    + rewrite update_pitfall_fading in H by (try assumption; lra).
      injection H as <- <-. cbn. intros _. exact Hinv.
  - assert (gapFalling s' = false); [ | congruence ].
    revert H. unfold update.
    pose proof (trackSafe_gapFalling world s p) as [G1 _].
    pose proof (groundState_gapFalling mv strafe (trackSafe world s p)) as G2.
    set (s1 := groundState mv strafe (trackSafe world s p)) in *.
    assert (G : gapFalling s1 = false) by congruence.
    rewrite G.
    destruct (isAirborne s1).
    + pose proof (integrate_gapFalling dt s1) as G3.
      set (s2 := integrate dt s1) in *.
      destruct (vineGrab world s2 p).
      * intros H. injection H as <- <-. cbn. congruence.
      * destruct (z s2 <=? 0).
        -- intros H. apply finish_gapFalling in H.
           rewrite H. cbn. congruence.
        -- intros H. apply finish_gapFalling in H. congruence.
    + intros H. apply finish_gapFalling in H. congruence.
Qed.


(** *** Landing *)

(** What [update] does to the player on landing with tracked peak [peak]. *)
Definition fallDamage (peak : R) (p : Player.t) : Player.t :=
  if peak >? 80 then Player.takeDamage ((peak - 80) * (3 / 10)) p else p.

(** The state machine after the landing block and the tail of [update]. *)
Definition touchdown (dt : R) (s : t) : t :=
  squashDecay dt
    (set_state idle
       (set_fallStartZ 0
          (set_landSquash JUMP.landSquashDuration
             (set_vz 0 (set_z 0 (integrate dt s)))))).

Lemma squashDecay_fields dt s :
  state (squashDecay dt s) = state s /\ z (squashDecay dt s) = z s /\
  vz (squashDecay dt s) = vz s /\ fallStartZ (squashDecay dt s) = fallStartZ s.
Proof. unfold squashDecay. break_ifs; repeat split; reflexivity. Qed.

Lemma update_landing (now dt : R) (mv : Utils.Vec) (strafe : bool)
    (world : option World) (s : t) (p : Player.t) :
  isAirborne s = true ->
  gapFalling s = false ->
  z (integrate dt s) <= 0 ->
  vineGrab world (integrate dt s) p = None ->
  update now dt mv strafe world s p =
  Some (touchdown dt s,
        Player.set_z 0 (fallDamage (fallStartZ (integrate dt s)) p)).
Proof.
  intros Ha Hg Hz Hv.
  unfold update.
  rewrite (trackSafe_airborne world s p Ha), (groundState_airborne mv strafe s Ha).
  rewrite Ha, Hg, Hv.
  rewrite NumFacts.leb_true by exact Hz.
  unfold finish, hangStep.
  cbn [state set_state].
  unfold touchdown, fallDamage.
  cbn [fallStartZ set_z set_vz set_landSquash].
  destruct (squashDecay_fields dt
    (set_state idle
       (set_fallStartZ 0
          (set_landSquash JUMP.landSquashDuration
             (set_vz 0 (set_z 0 (integrate dt s))))))) as (_ & Hz' & _).
  rewrite Hz'. reflexivity.
Qed.

(** The peak a landing reads is the one tracked before the frame: the
    tracking of the landing frame itself cannot raise it. *)
Lemma landing_reads_tracked_peak (dt : R) (s : t) :
  0 <= fallStartZ s ->
  z (integrate dt s) <= 0 ->
  fallStartZ (integrate dt s) = fallStartZ s.
Proof.
  unfold integrate. cbn.
  intros H0. destruct (state s); cbn; try reflexivity.
  destruct (Num.max (vz s - JUMP.gravity * dt) (-600) <? 0); cbn [andb].
  - cmp_cases; cbn; intros Hz; [ lra | reflexivity ].
  - reflexivity.
Qed.

(** C8, as the code has it.  On landing, that is when the height computed
    for an airborne (jumping or falling) frame is at or below 0 and no vine
    is grabbed, the height and the vertical velocity are set to zero and the
    state returns to [idle].  With a tracked peak at or below 80 the player
    is left as it is (no fall damage); with a peak above 80 [takeDamage] is
    called with [(peak - 80) * 0.3], which is [100 * 0.3] for a peak of 180.
    The damage goes through [takeDamage]: a player outside the i-frames
    loses [(peak - 80) * 0.3 * (1 - defense)] hp (clamped at 0) and gets 0.3
    s of invulnerability, a player inside them is left as it is. *)
Theorem landing_fall_damage (now dt : R) (mv : Utils.Vec) (strafe : bool)
    (world : option World) (s : t) (p : Player.t) :
  isAirborne s = true ->
  gapFalling s = false ->
  z (integrate dt s) <= 0 ->
  vineGrab world (integrate dt s) p = None ->
  let peak := fallStartZ (integrate dt s) in
  exists s' p',
    update now dt mv strafe world s p = Some (s', p') /\
    state s' = idle /\ z s' = 0 /\ vz s' = 0 /\ fallStartZ s' = 0 /\
    Player.z p' = 0 /\
    (peak <= 80 -> p' = Player.set_z 0 p) /\
    (peak > 80 ->
       p' = Player.set_z 0 (Player.takeDamage ((peak - 80) * (3 / 10)) p) /\
       (Player.invulnTimer p > 0 -> p' = Player.set_z 0 p) /\
       (Player.invulnTimer p <= 0 ->
          Player.hp p' =
          Rmax 0 (Player.hp p
                  - (peak - 80) * (3 / 10) * (1 - Player.defense (Player.stats p))) /\
          Player.invulnTimer p' = 3 / 10)) /\
    (peak = 80 + 100 ->
       p' = Player.set_z 0 (Player.takeDamage (100 * (3 / 10)) p)).
Proof.
  intros Ha Hg Hz Hv peak.
  exists (touchdown dt s), (Player.set_z 0 (fallDamage peak p)).
  split; [ apply update_landing; assumption | ].
  unfold touchdown.
  match goal with |- context [squashDecay dt ?s0] =>
    destruct (squashDecay_fields dt s0) as (E1 & E2 & E3 & E4) end.
  rewrite E1, E2, E3, E4. cbn.
  repeat split; unfold fallDamage.
  - intros H. rewrite NumFacts.ltb_false by exact H. reflexivity.
  - rewrite NumFacts.ltb_true by assumption. reflexivity.
  - intros Hi. rewrite NumFacts.ltb_true by assumption.
    rewrite PlayerFacts.takeDamage_invulnerable by exact Hi. reflexivity.
  - rewrite NumFacts.ltb_true by assumption.
    rewrite PlayerFacts.takeDamage_vulnerable by assumption. reflexivity.
  - rewrite NumFacts.ltb_true by assumption.
    rewrite PlayerFacts.takeDamage_vulnerable by assumption. reflexivity.
  - intros H. rewrite NumFacts.ltb_true by lra. rewrite H.
    do 2 f_equal. lra.
Qed.

(** A jump that comes down from a tracked peak of 180 (a drop from a
    vine), 5 units above the ground. *)
Definition comingDown : t :=
  mk jumping 5 (-300) 0 None 0 0 0 0 0 false 1 180.

Lemma integrate_comingDown :
  integrate (5 / 100) comingDown =
  mk jumping (5 + -340 * (5 / 100)) (-340) 0 None 0 0 0 0 0 false 1 180.
Proof.
  assert (Hvz : Num.max (-300 - JUMP.gravity * (5 / 100)) (-600) = -340).
  { unfold Num.max, JUMP.gravity. rewrite Rmax_left by lra. lra. }
  unfold integrate, comingDown. cbn. rewrite Hvz.
  rewrite NumFacts.ltb_true by lra.
  rewrite (NumFacts.ltb_false 180) by lra. reflexivity.
Qed.

Lemma landing_fall_damage_witness :
  exists s' p',
    update 0 (5 / 100) (Utils.mkVec 0 0) false None comingDown fighter
      = Some (s', p') /\
    state s' = idle /\ z s' = 0 /\ Player.hp p' = 90.
Proof.
  pose proof integrate_comingDown as Hi.
  destruct (landing_fall_damage 0 (5 / 100) (Utils.mkVec 0 0) false None
              comingDown fighter)
    as (s' & p' & E & Hst & Hz & _ & _ & _ & _ & Hd & _).
  - reflexivity.
  - reflexivity.
  - rewrite Hi. cbn. lra.
  - reflexivity.
  - exists s', p'. split; [ exact E | ]. split; [ exact Hst | ]. split; [ exact Hz | ].
    destruct Hd as (_ & _ & Hhp); [ rewrite Hi; cbn; lra | ].
    destruct Hhp as [Hhp _]; [ cbn; lra | ].
    rewrite Hhp, Hi. cbn. rewrite Rmax_right by lra. lra.
Defined.

(** C8 as stated fails: the fighter, hit by an arrow for 12 on the way down
    (hp 108, i-frames 0.3 s), lands from a tracked peak of 180 with the
    i-frames still running, and the fall damage of [100 * 0.3] is not taken
    from hp. *)
Lemma landing_damage_skipped_during_iframes :
  let p := Player.takeDamage 12 fighter in
  exists s' p',
    update 0 (5 / 100) (Utils.mkVec 0 0) false None comingDown p = Some (s', p') /\
    z (integrate (5 / 100) comingDown) <= 0 /\
    fallStartZ (integrate (5 / 100) comingDown) = 80 + 100 /\
    state s' = idle /\
    Player.hp p = 108 /\
    Player.hp p' = 108.
Proof.
  cbv zeta.
  assert (Hp : Player.takeDamage 12 fighter =
               Player.set_invulnTimer (3 / 10) (Player.set_hp 108 fighter)).
  { rewrite PlayerFacts.takeDamage_vulnerable by (cbn; lra). cbn.
    rewrite Rmax_right by lra. do 2 f_equal. lra. }
  rewrite Hp.
  set (p := Player.set_invulnTimer (3 / 10) (Player.set_hp 108 fighter)).
  pose proof integrate_comingDown as Hi.
  exists (touchdown (5 / 100) comingDown),
         (Player.set_z 0 (fallDamage (fallStartZ (integrate (5 / 100) comingDown)) p)).
  split.
  { apply update_landing; [ reflexivity | reflexivity | rewrite Hi; cbn; lra
                          | reflexivity ]. }
  rewrite Hi. cbn [z fallStartZ].
  split; [ lra | ]. split; [ lra | ].
  split.
  { unfold touchdown.
    match goal with |- context [squashDecay ?d ?s0] =>
      destruct (squashDecay_fields d s0) as (E1 & _) end.
    rewrite E1. reflexivity. }
  split; [ reflexivity | ].
  unfold fallDamage. rewrite NumFacts.ltb_true by lra.
  rewrite PlayerFacts.takeDamage_invulnerable by (cbn; lra). reflexivity.
Qed.

End StateFacts.

(** ** Geometry *)

Module UtilsFacts.

Import Utils.

Lemma sumsq_pos (x y : R) : x <> 0 \/ y <> 0 -> 0 < x * x + y * y.
Proof. intros [H | H]; nra. Qed.

Lemma normalize_zero : normalize 0 0 = mkVec 0 0.
Proof.
  unfold normalize. replace (0 * 0 + 0 * 0) with 0 by ring.
  rewrite sqrt_0. rewrite NumFacts.eqb_true by reflexivity. reflexivity.
Qed.

Lemma normalize_nonzero (x y : R) :
  x <> 0 \/ y <> 0 ->
  vx (normalize x y) <> 0 \/ vy (normalize x y) <> 0.
Proof.
  intros H. unfold normalize.
  pose proof (sqrt_lt_R0 _ (sumsq_pos x y H)) as Hl.
  rewrite NumFacts.eqb_false by lra. cbn.
  destruct H as [H | H]; [ left | right ]; intros E;
    apply H; unfold Rdiv in E;
    apply Rmult_integral in E; destruct E as [E | E]; try assumption;
    exfalso; apply (Rinv_neq_0_compat (sqrt (x * x + y * y))); lra.
Qed.

Lemma distance_nonneg (ax ay bx by_ : R) : 0 <= distance ax ay bx by_.
Proof. unfold distance. apply sqrt_pos. Qed.

(** The distance along a horizontal line. *)
Lemma distance_horizontal (ax ay bx : R) :
  bx <= ax -> distance ax ay bx ay = ax - bx.
Proof.
  intros H. unfold distance.
  replace ((ax - bx) * (ax - bx) + (ay - ay) * (ay - ay)) with (Rsqr (ax - bx))
    by (unfold Rsqr; ring).
  apply sqrt_Rsqr. lra.
Qed.

Lemma distance_sym (ax ay bx by_ : R) : distance ax ay bx by_ = distance bx by_ ax ay.
Proof. unfold distance. f_equal. ring. Qed.

End UtilsFacts.

(** ** The dodge system *)

Module DodgeFacts.

Import Constants DodgeSystem.


(** The i-frame window and the cooldown of each of the three internals. *)
Definition iframesOf (k : Trigger) : R :=
  match k with
  | Roll => DODGE.roll.iframes
  | Blink => DODGE.blink.iframes
  | Backstep => BACK_JUMP.iframes
  end.
Definition cooldownOf (k : Trigger) : R :=
  match k with
  | Roll => DODGE.roll.cooldown
  | Blink => DODGE.blink.cooldown
  | Backstep => BACK_JUMP.cooldown
  end.

Lemma cooldownOf_pos (k : Trigger) : 0 < cooldownOf k.
Proof.
  destruct k; cbn;
    unfold DODGE.roll.cooldown, DODGE.blink.cooldown, BACK_JUMP.cooldown; lra.
Qed.

Lemma execute_blocked (mv fd : Utils.Vec) (d : t) (p : Player.t) :
  cooldown d > 0 \/ active d = true \/ backstepActive d = true ->
  execute mv fd d p = (d, p, None).
Proof.
  intros H. unfold execute.
  assert (E : (cooldown d >? 0) || active d || backstepActive d = true).
  { destruct H as [H | [H | H]].
    - rewrite NumFacts.ltb_true by exact H. reflexivity.
    - rewrite H. apply orb_true_iff. left. apply orb_true_r.
    - rewrite H. apply orb_true_r. }
  rewrite E. reflexivity.
Qed.

Lemma isReady_iff (d : t) :
  isReady d = true <-> cooldown d <= 0 /\ active d = false /\ backstepActive d = false.
Proof.
  unfold isReady. rewrite !andb_true_iff, !negb_true_iff, NumFacts.leb_true_iff.
  tauto.
Qed.

Lemma zero_test (v : Utils.Vec) :
  Utils.vx v <> 0 \/ Utils.vy v <> 0 ->
  (Utils.vx v =? 0) && (Utils.vy v =? 0) = false.
Proof.
  intros [H | H]; apply andb_false_iff; [ left | right ];
    apply NumFacts.eqb_false; exact H.
Qed.

Lemma hasInput_iff (v : Utils.Vec) :
  (Utils.vx v !=? 0) || (Utils.vy v !=? 0) = true <->
  Utils.vx v <> 0 \/ Utils.vy v <> 0.
Proof. rewrite orb_true_iff, !NumFacts.neqb_true_iff. tauto. Qed.

(** A call made while ready with a direction to dodge in runs exactly one
    of the three internals. *)
Lemma execute_ready (mv fd : Utils.Vec) (d : t) (p : Player.t) :
  isReady d = true ->
  (Utils.vx mv <> 0 \/ Utils.vy mv <> 0) \/ (Utils.vx fd <> 0 \/ Utils.vy fd <> 0) ->
  exists d1 p1 k,
    execute mv fd d p = (d1, p1, Some k) /\
    cooldown d1 = cooldownOf k /\
    Player.invulnTimer p1 = Rmax (Player.invulnTimer p) (iframesOf k) /\
    (k = Roll -> active d1 = true /\ backstepActive d1 = false) /\
    (k = Backstep -> backstepActive d1 = true /\ active d1 = false) /\
    (k = Blink -> active d1 = false /\ backstepActive d1 = false).
Proof.
  intros Hr Hdir. apply isReady_iff in Hr. destruct Hr as (Hc & Ha & Hb).
  unfold execute.
  rewrite NumFacts.ltb_false by exact Hc. rewrite Ha, Hb. cbn [orb].
  destruct ((Utils.vx mv !=? 0) || (Utils.vy mv !=? 0)) eqn:Hin.
  - apply hasInput_iff in Hin.
    rewrite (zero_test _ (UtilsFacts.normalize_nonzero _ _ Hin)).
    destruct (evadeType d) eqn:Et.
    + eexists _, _, Roll. split; [ reflexivity | ]. cbn.
      repeat split; try discriminate; try exact Hb.
    + eexists _, _, Blink. split; [ reflexivity | ]. cbn.
      repeat split; try discriminate; assumption.
  - assert (Hfd : Utils.vx fd <> 0 \/ Utils.vy fd <> 0).
    { destruct Hdir as [Hm | Hf]; [ | exact Hf ].
      apply hasInput_iff in Hm. congruence. }
    rewrite (zero_test _ (UtilsFacts.normalize_nonzero _ _ Hfd)).
    eexists _, _, Backstep. split; [ reflexivity | ]. cbn.
    repeat split; try discriminate; assumption.
Qed.






(** The fighter rolls to the right, and asks again at once. *)
Example roll_then_nothing :
  let p := Player.new 120 150 1 1 in
  exists d1 p1,
    execute (Utils.mkVec 1 0) (Utils.mkVec 1 0) (new roll) p = (d1, p1, Some Roll) /\
    execute (Utils.mkVec 1 0) (Utils.mkVec 1 0) d1 p1 = (d1, p1, None) /\
    active d1 = true /\ Player.invulnTimer p1 = 25 / 100.
Proof.
  cbv zeta.
  destruct (execute_ready (Utils.mkVec 1 0) (Utils.mkVec 1 0) (new roll)
              (Player.new 120 150 1 1))
    as (d1 & p1 & k & E & Hc & Hi & Hroll & _).
  - apply isReady_iff. cbn. repeat split; try reflexivity; lra.
  - left. left. cbn. lra.
  - assert (k = Roll).
    { revert E. unfold execute. cbn [new cooldown active backstepActive evadeType].
      rewrite NumFacts.ltb_false by lra. cbn [orb].
      destruct ((Utils.vx (Utils.mkVec 1 0) !=? 0) || (Utils.vy (Utils.mkVec 1 0) !=? 0)) eqn:Hin.
      - destruct (_ && _); intros E; [ discriminate | ].
        injection E as _ _ <-. reflexivity.
      - exfalso. apply orb_false_iff in Hin. destruct Hin as [Hin _].
        apply NumFacts.neqb_false_iff in Hin. cbn in Hin. lra. }
    subst k. exists d1, p1. split; [ exact E | ].
    split.
    + apply execute_blocked. left. rewrite Hc. apply cooldownOf_pos.
    + split; [ apply Hroll; reflexivity | ].
      rewrite Hi. cbn. unfold DODGE.roll.iframes. rewrite Rmax_right by lra. reflexivity.
Qed.

End DodgeFacts.

(** ** Enemies: knockback and the melee cycle *)

Module EnemyFacts.

Import Enemy.

(** "Snapping to zero below a small epsilon". *)
Definition snap (v : R) : R := if Num.abs v <? 1 then 0 else v.

(** The decay factor of one unit of time. *)
Definition decayBase : R := 5 / 100.

Lemma snap_small (v : R) : Rabs v < 1 -> snap v = 0.
Proof. intros H. unfold snap, Num.abs. rewrite NumFacts.ltb_true by exact H. reflexivity. Qed.

Lemma snap_large (v : R) : 1 <= Rabs v -> snap v = v.
Proof. intros H. unfold snap, Num.abs. rewrite NumFacts.ltb_false by exact H. reflexivity. Qed.

Lemma snap_zero_or_large (v : R) : snap v = 0 \/ 1 <= Rabs (snap v).
Proof.
  destruct (Rlt_dec (Rabs v) 1) as [H | H].
  - left. apply snap_small. exact H.
  - right. rewrite snap_large by lra. lra.
Qed.

Lemma applyKnockback_adds (dx dy force : R) (e : t) :
  knockbackVx (applyKnockback dx dy force e) = knockbackVx e + dx * force /\
  knockbackVy (applyKnockback dx dy force e) = knockbackVy e + dy * force.
Proof. split; reflexivity. Qed.

Lemma knockbackDecay_velocity (dt : R) (e : t) :
  knockbackVx (knockbackDecay dt e) = snap (knockbackVx e * Rpower decayBase dt) /\
  knockbackVy (knockbackDecay dt e) = snap (knockbackVy e * Rpower decayBase dt).
Proof.
  unfold knockbackDecay.
  destruct ((knockbackVx e !=? 0) || (knockbackVy e !=? 0)) eqn:Hnz.
  - unfold snap, Num.pow, decayBase.
    repeat (cbn; cmp_step); cbn in *; split; try reflexivity; unfold Num.abs in *; lra.
  - apply orb_false_iff in Hnz. destruct Hnz as [Hx Hy].
    apply NumFacts.neqb_false_iff in Hx, Hy. rewrite Hx, Hy, Rmult_0_l.
    rewrite snap_small by (rewrite Rabs_R0; lra). split; reflexivity.
Qed.

Lemma slowTick_velocity (dt : R) (e : t) :
  knockbackVx (slowTick dt e) = knockbackVx e /\
  knockbackVy (slowTick dt e) = knockbackVy e.
Proof. unfold slowTick. cbn. cmp_cases; split; reflexivity. Qed.

Lemma updateSwarm_velocity (dt : R) (pl : Player.t) (e : t) :
  knockbackVx (_updateSwarm dt pl e) = knockbackVx e /\
  knockbackVy (_updateSwarm dt pl e) = knockbackVy e.
Proof. split; reflexivity. Qed.

Lemma updateRanged_velocity (rnd dt : R) (pl : Player.t) (e : t) :
  knockbackVx (_updateRanged rnd dt pl e) = knockbackVx e /\
  knockbackVy (_updateRanged rnd dt pl e) = knockbackVy e.
Proof.
  unfold _updateRanged. cbn.
  repeat match goal with
  | |- context [if ?b then _ else _] => destruct b; cbn
  end; split; reflexivity.
Qed.

Lemma updateMelee_velocity (dt : R) (pl : Player.t) (e : t) :
  knockbackVx (fst (fst (_updateMelee dt pl e))) = knockbackVx e /\
  knockbackVy (fst (fst (_updateMelee dt pl e))) = knockbackVy e.
Proof.
  unfold _updateMelee. cbn.
  destruct (meleeState e); cbn;
  repeat match goal with
  | |- context [if ?b then _ else _] => destruct b; cbn
  end; split; reflexivity.
Qed.

Lemma update_velocity (rnd dt : R) (pl : Player.t) (e : t) :
  dead e = false ->
  knockbackVx (fst (fst (update rnd dt pl e))) = snap (knockbackVx e * Rpower decayBase dt) /\
  knockbackVy (fst (fst (update rnd dt pl e))) = snap (knockbackVy e * Rpower decayBase dt).
Proof.
  intros Hd. unfold update. rewrite Hd.
  assert (Hpre : knockbackVx (preBehavior dt e) = snap (knockbackVx e * Rpower decayBase dt) /\
                 knockbackVy (preBehavior dt e) = snap (knockbackVy e * Rpower decayBase dt)).
  { unfold preBehavior.
    destruct (knockbackDecay_velocity dt
                (slowTick dt (set_wobblePhase (wobblePhase e + wobbleFreq e * dt) e)))
      as [Hx Hy].
    destruct (slowTick_velocity dt (set_wobblePhase (wobblePhase e + wobbleFreq e * dt) e))
      as [Sx Sy].
    rewrite Hx, Hy, Sx, Sy. split; reflexivity. }
  destruct Hpre as [Hx Hy]. rewrite <- Hx, <- Hy.
  set (e1 := preBehavior dt e).
  destruct (behavior e1).
  - destruct (updateSwarm_velocity dt pl e1) as [Bx By].
    cbn. repeat match goal with
    | |- context [if ?b then _ else _] => destruct b; cbn
    end; split; reflexivity.
  - destruct (updateMelee_velocity dt pl e1) as [Bx By].
    destruct (_updateMelee dt pl e1) as [[e2 pl2] c2]. cbn in Bx, By. cbn.
    repeat match goal with
    | |- context [if ?b then _ else _] => destruct b; cbn
    end; split; assumption.
  - destruct (updateRanged_velocity rnd dt pl e1) as [Bx By].
    cbn. repeat match goal with
    | |- context [if ?b then _ else _] => destruct b; cbn
    end; split; assumption.
Qed.


Ltac split_ifs :=
  repeat (cbn; match goal with
          | |- context [if ?b then _ else _] => destruct b
          end); cbn.

Lemma updateMelee_dead (dt : R) (pl : Player.t) (e : t) :
  dead (fst (fst (_updateMelee dt pl e))) = dead e.
Proof. unfold _updateMelee. cbn. destruct (meleeState e); split_ifs; reflexivity. Qed.

Lemma updateRanged_dead (rnd dt : R) (pl : Player.t) (e : t) :
  dead (_updateRanged rnd dt pl e) = dead e.
Proof. unfold _updateRanged. split_ifs; reflexivity. Qed.

Lemma preBehavior_dead (dt : R) (e : t) : dead (preBehavior dt e) = dead e.
Proof. unfold preBehavior, knockbackDecay, slowTick. split_ifs; reflexivity. Qed.

Lemma update_dead (rnd dt : R) (pl : Player.t) (e : t) :
  dead (fst (fst (update rnd dt pl e))) = dead e.
Proof.
  unfold update. destruct (dead e) eqn:Hd; [ exact Hd | ].
  pose proof (preBehavior_dead dt e) as Hpre. rewrite Hd in Hpre.
  set (e1 := preBehavior dt e) in *.
  destruct (behavior e1).
  - split_ifs; exact Hpre.
  - pose proof (updateMelee_dead dt pl e1) as Hm.
    destruct (_updateMelee dt pl e1) as [[e2 pl2] c2]. cbn in Hm.
    split_ifs; congruence.
  - pose proof (updateRanged_dead rnd dt pl e1) as Hm.
    split_ifs; congruence.
Qed.

(** One simulated frame of an enemy: the random draw, the frame time and
    the player it is updated against. *)
Record Frame := mkFrame { f_rnd : R; f_dt : R; f_player : Player.t }.

Definition step (f : Frame) (e : t) : t :=
  fst (fst (update (f_rnd f) (f_dt f) (f_player f) e)).

Fixpoint run (frames : list Frame) (e : t) : t :=
  match frames with
  | [] => e
  | f :: rest => run rest (step f e)
  end.

(** The time the frames add up to. *)
Fixpoint elapsed (frames : list Frame) : R :=
  match frames with
  | [] => 0
  | f :: rest => f_dt f + elapsed rest
  end.

Lemma elapsed_nonneg (frames : list Frame) :
  Forall (fun f => 0 <= f_dt f) frames -> 0 <= elapsed frames.
Proof. induction 1; cbn; lra. Qed.

Lemma decay_pos (t : R) : 0 < Rpower decayBase t.
Proof. unfold Rpower. apply exp_pos. Qed.

Lemma decay_le_1 (t : R) : 0 <= t -> Rpower decayBase t <= 1.
Proof.
  intros Ht. unfold Rpower.
  assert (Hln : ln decayBase < 0).
  { rewrite <- ln_1. apply ln_increasing; unfold decayBase; lra. }
  destruct (Req_dec t 0) as [-> | Hne].
  - rewrite Rmult_0_l, exp_0. lra.
  - left. rewrite <- exp_0. apply exp_increasing. nra.
Qed.

Lemma decay_zero : Rpower decayBase 0 = 1.
Proof. apply Rpower_O. unfold decayBase. lra. Qed.

(** A component that is still at or above the threshold after the whole
    time was so after every frame, and decayed by exactly [0.05 ^ T]. *)
Lemma component_composes (sel : t -> R)
    (Hstep : forall f e, dead e = false ->
               sel (step f e) = snap (sel e * Rpower decayBase (f_dt f)))
    (frames : list Frame) :
  forall e,
    dead e = false ->
    Forall (fun f => 0 <= f_dt f) frames ->
    1 <= Rabs (sel e * Rpower decayBase (elapsed frames)) ->
    sel (run frames e) = sel e * Rpower decayBase (elapsed frames).
Proof.
  induction frames as [ | f rest IH ]; intros e Hd Hdt Habove.
  - cbn. rewrite decay_zero. ring.
  - inversion Hdt as [ | ? ? Hf Hrest ]; subst.
    cbn [run elapsed] in *.
    rewrite Rpower_plus, <- Rmult_assoc in Habove.
    rewrite Rabs_mult, (Rabs_pos_eq (Rpower decayBase (elapsed rest))) in Habove
      by (left; apply decay_pos).
    pose proof (decay_le_1 (elapsed rest) (elapsed_nonneg rest Hrest)) as Hle.
    pose proof (decay_pos (elapsed rest)) as Hpos.
    pose proof (Rabs_pos (sel e * Rpower decayBase (f_dt f))) as Habs.
    assert (Hbig : 1 <= Rabs (sel e * Rpower decayBase (f_dt f))) by nra.
    assert (Hs : sel (step f e) = sel e * Rpower decayBase (f_dt f)).
    { rewrite Hstep by exact Hd. apply snap_large. exact Hbig. }
    rewrite IH.
    + rewrite Hs, Rpower_plus. ring.
    + unfold step. rewrite update_dead. exact Hd.
    + exact Hrest.
    + rewrite Hs, Rabs_mult, (Rabs_pos_eq (Rpower decayBase (elapsed rest)))
        by (left; apply decay_pos).
      exact Habove.
Qed.

(** C9.  [applyKnockback] adds its impulse to the knockback velocity.  An
    update of a live enemy multiplies each component by [0.05 ^ dt] and then
    sets it to exactly zero if its magnitude is below 1.  So a component
    whose magnitude is still at least 1 after a total time [T] has decayed by
    exactly [0.05 ^ T], into whatever frames of whatever lengths [T] was
    split; and after an update every component is zero or of magnitude at
    least 1. *)
Theorem knockback_sums_and_decays :
  (forall dx dy force e,
     knockbackVx (applyKnockback dx dy force e) = knockbackVx e + dx * force /\
     knockbackVy (applyKnockback dx dy force e) = knockbackVy e + dy * force) /\
  (forall rnd dt pl e,
     dead e = false ->
     knockbackVx (fst (fst (update rnd dt pl e)))
       = snap (knockbackVx e * Rpower (5 / 100) dt) /\
     knockbackVy (fst (fst (update rnd dt pl e)))
       = snap (knockbackVy e * Rpower (5 / 100) dt)) /\
  (forall frames e,
     dead e = false ->
     Forall (fun f => 0 <= f_dt f) frames ->
     (1 <= Rabs (knockbackVx e * Rpower (5 / 100) (elapsed frames)) ->
      knockbackVx (run frames e) = knockbackVx e * Rpower (5 / 100) (elapsed frames)) /\
     (1 <= Rabs (knockbackVy e * Rpower (5 / 100) (elapsed frames)) ->
      knockbackVy (run frames e) = knockbackVy e * Rpower (5 / 100) (elapsed frames))) /\
  (forall v, (Rabs v < 1 -> snap v = 0) /\ (1 <= Rabs v -> snap v = v) /\
             (snap v = 0 \/ 1 <= Rabs (snap v))).
Proof.
  split; [ exact applyKnockback_adds | ].
  split; [ exact update_velocity | ].
  split.
  - intros frames e Hd Hdt. split; intros Habove.
    + apply (component_composes knockbackVx); try assumption.
      intros f e0 H0. apply update_velocity. exact H0.
    + apply (component_composes knockbackVy); try assumption.
      intros f e0 H0. apply update_velocity. exact H0.
  - intros v. split; [ apply snap_small | ]. split; [ apply snap_large | ].
    apply snap_zero_or_large.
Qed.


(** *** The melee cycle *)

(** The successor of a state in chase, windup, attack, recovery, chase. *)
Definition next (s : MeleeState) : MeleeState :=
  match s with
  | Chase => Windup
  | Windup => Attack
  | Attack => Recovery
  | Recovery => Chase
  end.

Definition stateEqb (a b : MeleeState) : bool :=
  match a, b with
  | Chase, Chase | Windup, Windup | Attack, Attack | Recovery, Recovery => true
  | _, _ => false
  end.

(** The player is within the attack range plus the tolerance of 10. *)
Definition inReach (pl : Player.t) (e : t) : Prop :=
  Utils.distance (x e) (y e) (Player.x pl) (Player.y pl)
  < attackRange e + Player.radius pl + radius e + 10.

(** One call of [_updateMelee]. *)
Lemma updateMelee_step (dt : R) (pl : Player.t) (e : t) :
  forall e' pl' calls,
    _updateMelee dt pl e = (e', pl', calls) ->
    (meleeState e' = meleeState e \/ meleeState e' = next (meleeState e)) /\
    (meleeState e <> Attack -> calls = [] /\ pl' = pl) /\
    (meleeState e = Attack ->
       (meleeTimer e - dt <= 0 /\ meleeState e' = Recovery /\
        ((inReach pl e /\ calls = [damage e] /\ pl' = Player.takeDamage (damage e) pl) \/
         (~ inReach pl e /\ calls = [] /\ pl' = pl))) \/
       (0 < meleeTimer e - dt /\ meleeState e' = Attack /\ calls = [] /\ pl' = pl)).
Proof.
  intros e' pl' calls. unfold _updateMelee, inReach. cbn.
  destruct (meleeState e) eqn:Es; cbn.
  - repeat (cbn; cmp_step); cbn; intros H; injection H as <- <- <-; cbn;
      (split; [ rewrite ?Es; auto | split; [ auto | discriminate ] ]).
  - repeat (cbn; cmp_step); cbn; intros H; injection H as <- <- <-; cbn;
      (split; [ rewrite ?Es; auto | split; [ auto | discriminate ] ]).
  - repeat (cbn; cmp_step); cbn in *; intros H; injection H as <- <- <-; cbn;
      (split; [ rewrite ?Es; auto | split; [ congruence | intros _ ] ]);
      first
        [ solve [ left; split; [ lra | ]; split; [ reflexivity | ]; left; auto ]
        | solve [ left; split; [ lra | ]; split; [ reflexivity | ]; right;
                  split; [ lra | auto ] ]
        | solve [ right; rewrite ?Es; repeat split; auto; lra ] ].
  - repeat (cbn; cmp_step); cbn; intros H; injection H as <- <- <-; cbn;
      (split; [ rewrite ?Es; auto | split; [ auto | discriminate ] ]).
Qed.


Lemma preBehavior_melee_fields (dt : R) (e : t) :
  meleeState (preBehavior dt e) = meleeState e /\
  damage (preBehavior dt e) = damage e /\
  behavior (preBehavior dt e) = behavior e.
Proof.
  unfold preBehavior, knockbackDecay, slowTick. split_ifs; repeat split; reflexivity.
Qed.

Lemma updateRanged_meleeState (rnd dt : R) (pl : Player.t) (e : t) :
  meleeState (_updateRanged rnd dt pl e) = meleeState e.
Proof. unfold _updateRanged. split_ifs; reflexivity. Qed.

(** One call of [update], seen from the melee cycle. *)
Lemma update_step (rnd dt : R) (pl : Player.t) (e : t) :
  forall e' pl' calls,
    update rnd dt pl e = (e', pl', calls) ->
    (meleeState e' = meleeState e \/ meleeState e' = next (meleeState e)) /\
    ((calls = [] /\ pl' = pl) \/
     (calls = [damage e] /\ pl' = Player.takeDamage (damage e) pl /\
      meleeState e = Attack /\ meleeState e' = Recovery /\
      inReach pl (preBehavior dt e))) /\
    (meleeState e = Attack -> meleeState e' = Recovery ->
     inReach pl (preBehavior dt e) -> calls = [damage e]).
Proof.
  intros e' pl' calls. unfold update.
  destruct (dead e).
  { intros H. injection H as <- <- <-. split; [ auto | ]. split; [ auto | ].
    intros H1 H2. congruence. }
  destruct (preBehavior_melee_fields dt e) as (Hs & Hdm & Hb).
  set (e1 := preBehavior dt e) in *.
  destruct (behavior e1).
  - split_ifs; intros H; injection H as <- <- <-; cbn; rewrite Hs;
      (split; [ auto | split; [ auto | intros; congruence ] ]).
  - destruct (_updateMelee dt pl e1) as [[e2 pl2] c2] eqn:Em.
    destruct (updateMelee_step dt pl e1 e2 pl2 c2 Em) as (Hn & Hother & Hatt).
    rewrite Hs, Hdm in *.
    assert (Hfin : forall e3,
              (let e := if 0 <? flashTimer e2
                        then set_flashTimer (flashTimer e2 - dt) e2 else e2 in
               let e := set_x (Utils.clamp (x e) (radius e)
                                 (Constants.WORLD.WIDTH - radius e)) e in
               set_y (Utils.clamp (y e) (radius e)
                        (Constants.WORLD.HEIGHT - radius e)) e) = e3 ->
              meleeState e3 = meleeState e2).
    { intros e3 <-. split_ifs; reflexivity. }
    cbv zeta in Hfin. cbv zeta.
    intros H. injection H as He <- <-. apply Hfin in He. rewrite He.
    split; [ exact Hn | ].
    destruct (stateEqb (meleeState e) Attack) eqn:Ea.
    + assert (Hst : meleeState e = Attack) by (destruct (meleeState e); cbn in Ea; congruence).
      destruct (Hatt Hst) as [(Ht & Hr & [(Hin & Hc & Hp) | (Hout & Hc & Hp)]) | (Ht & Hr & Hc & Hp)].
      * split; [ right; auto 6 | auto ].
      * split; [ left; auto | intros _ _ Hin; contradiction ].
      * split; [ left; auto | intros _ Hrec; congruence ].
    + assert (Hst : meleeState e <> Attack) by (destruct (meleeState e); cbn in Ea; congruence).
      destruct (Hother Hst) as [Hc Hp].
      split; [ left; auto | intros Hat; contradiction ].
  - pose proof (updateRanged_meleeState rnd dt pl e1) as Hr.
    split_ifs; intros H; injection H as <- <- <-; cbn; rewrite Hr, Hs;
      (split; [ auto | split; [ auto | intros; congruence ] ]).
Qed.


(** The amounts passed to [player.takeDamage] over a run of frames. *)
Fixpoint callsOf (frames : list Frame) (e : t) : list R :=
  match frames with
  | [] => []
  | f :: rest =>
      snd (update (f_rnd f) (f_dt f) (f_player f) e) ++ callsOf rest (step f e)
  end.

(** The number of frames of a run in which the enemy goes from state
    [from] to state [to]. *)
Fixpoint transitions (from to : MeleeState) (frames : list Frame) (e : t) : nat :=
  match frames with
  | [] => O
  | f :: rest =>
      (if stateEqb (meleeState e) from && stateEqb (meleeState (step f e)) to
       then 1 else 0)%nat
      + transitions from to rest (step f e)
  end.

(** In every frame that ends an attack, the player is within reach. *)
Fixpoint reachAtResolutions (frames : list Frame) (e : t) : Prop :=
  match frames with
  | [] => True
  | f :: rest =>
      (meleeState e = Attack -> meleeState (step f e) = Recovery ->
       inReach (f_player f) (preBehavior (f_dt f) e)) /\
      reachAtResolutions rest (step f e)
  end.

(** 1 between the end of an attack and the return to chase. *)
Definition rank (s : MeleeState) : nat :=
  match s with
  | Recovery => 1
  | _ => 0
  end.

Lemma frame_step (f : Frame) (e : t) :
  (meleeState (step f e) = meleeState e \/
   meleeState (step f e) = next (meleeState e)) /\
  (snd (update (f_rnd f) (f_dt f) (f_player f) e) = [] \/
   (snd (update (f_rnd f) (f_dt f) (f_player f) e) = [damage e] /\
    meleeState e = Attack /\ meleeState (step f e) = Recovery)) /\
  (meleeState e = Attack -> meleeState (step f e) = Recovery ->
   inReach (f_player f) (preBehavior (f_dt f) e) ->
   snd (update (f_rnd f) (f_dt f) (f_player f) e) = [damage e]).
Proof.
  unfold step.
  destruct (update (f_rnd f) (f_dt f) (f_player f) e) as [[e' pl'] c] eqn:E.
  destruct (update_step _ _ _ _ _ _ _ E) as (H1 & H2 & H3). cbn.
  split; [ exact H1 | ]. split; [ | exact H3 ].
  destruct H2 as [[Hc _] | (Hc & _ & Ha & Hr & _)]; auto.
Qed.

Lemma calls_le_resolutions (frames : list Frame) :
  forall e, (length (callsOf frames e) <= transitions Attack Recovery frames e)%nat.
Proof.
  induction frames as [ | f rest IH ]; intros e; cbn; [ lia | ].
  rewrite length_app. specialize (IH (step f e)).
  destruct (frame_step f e) as (_ & [Hc | (Hc & Ha & Hr)] & _); rewrite Hc; cbn.
  - lia.
  - rewrite Ha, Hr. cbn. lia.
Qed.

Lemma calls_eq_resolutions (frames : list Frame) :
  forall e,
    reachAtResolutions frames e ->
    length (callsOf frames e) = transitions Attack Recovery frames e.
Proof.
  induction frames as [ | f rest IH ]; intros e; cbn; [ reflexivity | ].
  intros [Hreach Hrest]. rewrite length_app, (IH _ Hrest).
  destruct (frame_step f e) as (_ & Hcalls & Hhit).
  destruct (stateEqb (meleeState e) Attack && stateEqb (meleeState (step f e)) Recovery)
    eqn:Hres.
  - apply andb_true_iff in Hres. destruct Hres as [Ha Hr].
    assert (Ha' : meleeState e = Attack) by (destruct (meleeState e); cbn in Ha; congruence).
    assert (Hr' : meleeState (step f e) = Recovery)
      by (destruct (meleeState (step f e)); cbn in Hr; congruence).
    rewrite (Hhit Ha' Hr' (Hreach Ha' Hr')). reflexivity.
  - destruct Hcalls as [Hc | (Hc & Ha & Hr)].
    + rewrite Hc. reflexivity.
    + rewrite Ha, Hr in Hres. discriminate.
Qed.

(** Attacks resolved and cycles closed keep step: the former are ahead by
    one exactly while the enemy is recovering. *)
Lemma cycle_balance (frames : list Frame) :
  forall e,
    (transitions Attack Recovery frames e + rank (meleeState e)
     = transitions Recovery Chase frames e + rank (meleeState (run frames e)))%nat.
Proof.
  induction frames as [ | f rest IH ]; intros e; cbn; [ reflexivity | ].
  specialize (IH (step f e)).
  destruct (frame_step f e) as ([Hn | Hn] & _).
  - rewrite Hn in *. destruct (meleeState e); cbn in *; lia.
  - rewrite Hn in *. destruct (meleeState e); cbn in *; lia.
Qed.

(** The player is within the attack range. *)
Definition inRange (pl : Player.t) (e : t) : Prop :=
  Utils.distance (x e) (y e) (Player.x pl) (Player.y pl)
  < attackRange e + Player.radius pl + radius e.

(** When [_updateMelee] moves on to the next state, and with which timer. *)
Lemma updateMelee_advance (dt : R) (pl : Player.t) (e : t) :
  forall e' pl' calls,
    _updateMelee dt pl e = (e', pl', calls) ->
    (meleeState e = Chase ->
       (meleeState e' = Windup <-> inRange pl e /\ attackCooldownTimer e - dt <= 0) /\
       (meleeState e' = Windup -> meleeTimer e' = windupTime e)) /\
    (meleeState e = Windup ->
       (meleeState e' = Attack <-> meleeTimer e - dt <= 0) /\
       (meleeState e' = Attack -> meleeTimer e' = 1 / 10) /\
       (meleeState e' = Windup -> meleeTimer e' = meleeTimer e - dt)) /\
    (meleeState e = Attack ->
       (meleeState e' = Recovery <-> meleeTimer e - dt <= 0) /\
       (meleeState e' = Recovery ->
          meleeTimer e' = recoveryTime e /\
          attackCooldownTimer e' = attackCooldown e) /\
       (meleeState e' = Attack -> meleeTimer e' = meleeTimer e - dt)) /\
    (meleeState e = Recovery ->
       (meleeState e' = Chase <-> meleeTimer e - dt <= 0) /\
       (meleeState e' = Recovery -> meleeTimer e' = meleeTimer e - dt)).
Proof.
  intros e' pl' calls. unfold _updateMelee, inRange. cbn.
  destruct (meleeState e) eqn:Es; cbn.
  - destruct (_ <? _) eqn:Hr; cbn [negb andb].
    + apply NumFacts.ltb_true_iff in Hr.
      cmp_step.
      * intros H. injection H as <- <- <-. cbn.
        split; [ intros _ | repeat split; discriminate ].
        split; [ | reflexivity ].
        split; [ intros _ | reflexivity ].
        split; [ exact Hr | ]. cbn in Hc. unfold Num.max in Hc.
        pose proof (Rmax_r 0 (attackCooldownTimer e - dt)). lra.
      * intros H. injection H as <- <- <-. cbn.
        rewrite Es.
        split; [ intros _ | repeat split; discriminate ].
        split; [ | discriminate ].
        split; [ discriminate | ].
        intros [_ H]. cbn in Hc. unfold Num.max in Hc.
        rewrite Rmax_left in Hc by lra. lra.
    + apply NumFacts.ltb_false_iff in Hr.
      intros H. injection H as <- <- <-. cbn. rewrite Es.
      split; [ intros _ | repeat split; discriminate ].
      split; [ | discriminate ].
      split; [ discriminate | intros [H _]; lra ].
  - cmp_step; intros H; injection H as <- <- <-; cbn; rewrite ?Es;
      (split; [ discriminate | ]); (split; [ intros _ | repeat split; discriminate ]).
    + split; [ split; [ intros _; exact Hc | reflexivity ] | ].
      split; [ reflexivity | discriminate ].
    + split; [ split; [ discriminate | intros H; lra ] | ].
      split; [ discriminate | reflexivity ].
  - cmp_step; cmp_step; intros H; injection H as <- <- <-; cbn; rewrite ?Es;
      (split; [ discriminate | ]); (split; [ discriminate | ]);
      (split; [ intros _ | discriminate ]);
      first
        [ solve [ split; [ split; [ intros _; assumption | reflexivity ] | ];
                  split; [ intros _; split; reflexivity | discriminate ] ]
        | solve [ split; [ split; [ discriminate | intros H; lra ] | ];
                  split; [ discriminate | reflexivity ] ] ].
  - cmp_step; intros H; injection H as <- <- <-; cbn; rewrite ?Es;
      (split; [ discriminate | ]); (split; [ discriminate | ]);
      (split; [ discriminate | intros _ ]).
    + split; [ split; [ intros _; exact Hc | reflexivity ] | discriminate ].
    + split; [ split; [ discriminate | intros H; lra ] | reflexivity ].
Qed.

(** The end of [update], after the behaviour: the flash timer and the
    world bounds. *)
Definition settle (dt : R) (e : t) : t :=
  let e := if flashTimer e >? 0 then set_flashTimer (flashTimer e - dt) e else e in
  let e := set_x (Utils.clamp (x e) (radius e) (Constants.WORLD.WIDTH - radius e)) e in
  set_y (Utils.clamp (y e) (radius e) (Constants.WORLD.HEIGHT - radius e)) e.

(** The fields of the melee cycle. *)
Record sameCycle (e e' : t) : Prop := mkSameCycle {
  cyc_state : meleeState e' = meleeState e;
  cyc_timer : meleeTimer e' = meleeTimer e;
  cyc_cooldown : attackCooldownTimer e' = attackCooldownTimer e
}.

(** The parameters of a melee enemy. *)
Record sameKind (e e' : t) : Prop := mkSameKind {
  kind_dead : dead e' = dead e;
  kind_behavior : behavior e' = behavior e;
  kind_damage : damage e' = damage e;
  kind_windup : windupTime e' = windupTime e;
  kind_recovery : recoveryTime e' = recoveryTime e;
  kind_cooldown : attackCooldown e' = attackCooldown e;
  kind_radius : radius e' = radius e;
  kind_range : attackRange e' = attackRange e
}.

Lemma sameKind_trans (a b c : t) : sameKind a b -> sameKind b c -> sameKind a c.
Proof. intros [] []. constructor; congruence. Qed.

Lemma settle_fields (dt : R) (e : t) :
  sameCycle e (settle dt e) /\ sameKind e (settle dt e).
Proof. unfold settle. split; constructor; split_ifs; reflexivity. Qed.

Lemma preBehavior_fields (dt : R) (e : t) :
  sameCycle e (preBehavior dt e) /\ sameKind e (preBehavior dt e).
Proof.
  unfold preBehavior, knockbackDecay, slowTick.
  split; constructor; split_ifs; reflexivity.
Qed.

Lemma updateMelee_kind (dt : R) (pl : Player.t) (e : t) :
  sameKind e (fst (fst (_updateMelee dt pl e))).
Proof.
  unfold _updateMelee. cbn.
  constructor; destruct (meleeState e); split_ifs; reflexivity.
Qed.

Lemma update_melee (rnd dt : R) (pl : Player.t) (e : t) :
  dead e = false -> behavior e = Constants.Melee ->
  update rnd dt pl e =
  (settle dt (fst (fst (_updateMelee dt pl (preBehavior dt e)))),
   snd (fst (_updateMelee dt pl (preBehavior dt e))),
   snd (_updateMelee dt pl (preBehavior dt e))).
Proof.
  intros Hd Hb. unfold update. rewrite Hd.
  destruct (preBehavior_fields dt e) as [_ [_ Hb1 _ _ _ _ _ _]].
  rewrite Hb1, Hb.
  destruct (_updateMelee dt pl (preBehavior dt e)) as [[e2 pl2] c2].
  reflexivity.
Qed.

(** One frame of a live melee enemy: when it moves on, with which timer,
    and what it calls. *)
Lemma melee_frame (f : Frame) (e : t) :
  dead e = false -> behavior e = Constants.Melee ->
  let dt := f_dt f in
  let pl := f_player f in
  let e1 := preBehavior dt e in
  let e' := step f e in
  let c := snd (update (f_rnd f) dt pl e) in
  sameKind e e' /\
  (meleeState e = Chase ->
     c = [] /\
     (inRange pl e1 -> attackCooldownTimer e - dt <= 0 ->
      meleeState e' = Windup /\ meleeTimer e' = windupTime e)) /\
  (meleeState e = Windup ->
     c = [] /\
     (meleeTimer e - dt <= 0 -> meleeState e' = Attack /\ meleeTimer e' = 1 / 10) /\
     (0 < meleeTimer e - dt ->
      meleeState e' = Windup /\ meleeTimer e' = meleeTimer e - dt)) /\
  (meleeState e = Attack ->
     (meleeTimer e - dt <= 0 ->
      meleeState e' = Recovery /\ meleeTimer e' = recoveryTime e /\
      (inReach pl e1 -> c = [damage e]) /\ (~ inReach pl e1 -> c = [])) /\
     (0 < meleeTimer e - dt ->
      meleeState e' = Attack /\ meleeTimer e' = meleeTimer e - dt /\ c = [])) /\
  (meleeState e = Recovery ->
     c = [] /\
     (meleeTimer e - dt <= 0 -> meleeState e' = Chase) /\
     (0 < meleeTimer e - dt ->
      meleeState e' = Recovery /\ meleeTimer e' = meleeTimer e - dt)).
Proof.
  intros Hd Hb. cbn zeta. unfold step.
  rewrite (update_melee _ _ _ _ Hd Hb). cbn [fst snd].
  destruct (preBehavior_fields (f_dt f) e) as [[Ps Pt Pc] Pk].
  set (e1 := preBehavior (f_dt f) e) in *.
  pose proof (updateMelee_kind (f_dt f) (f_player f) e1) as Hk.
  destruct (_updateMelee (f_dt f) (f_player f) e1) as [[e2 pl2] c2] eqn:Em.
  cbn [fst snd] in *.
  destruct (updateMelee_step _ _ _ _ _ _ Em) as (_ & Hother & Hatt).
  destruct (updateMelee_advance _ _ _ _ _ _ Em) as (Ac & Aw & Aa & Ar).
  destruct (settle_fields (f_dt f) e2) as [[Ss St Sc] Sk].
  rewrite Ss, St. rewrite Ps, Pt, Pc in *.
  destruct Pk as [_ _ Pd Pw Pr _ _ _]. rewrite Pd, Pw, Pr in *.
  split.
  { eapply sameKind_trans; [ apply preBehavior_fields | ].
    eapply sameKind_trans; [ exact Hk | exact Sk ]. }
  split; [ | split; [ | split ] ].
  - intros Es. destruct (Ac Es) as [Hiff Htim].
    split; [ apply Hother; congruence | ].
    intros Hin Hcd.
    assert (Hw : meleeState e2 = Windup) by (apply Hiff; split; assumption).
    split; [ exact Hw | apply Htim, Hw ].
  - intros Es. destruct (Aw Es) as (Hiff & Hgo & Hstay).
    split; [ apply Hother; congruence | ].
    split.
    + intros Ht. assert (Hs : meleeState e2 = Attack) by (apply Hiff, Ht).
      split; [ exact Hs | apply Hgo, Hs ].
    + intros Ht.
      destruct (updateMelee_step _ _ _ _ _ _ Em) as ([Hsame | Hnext] & _).
      * rewrite Ps, Es in Hsame. split; [ exact Hsame | apply Hstay, Hsame ].
      * rewrite Ps, Es in Hnext. cbn in Hnext. apply Hiff in Hnext. lra.
  - intros Es. destruct (Aa Es) as (Hiff & Hgo & Hstay).
    destruct (Hatt Es) as [(Ht & Hr & Hcall) | (Ht & Hs & Hc & _)].
    + split; [ intros _ | intros H; lra ].
      split; [ exact Hr | ]. split; [ apply Hgo, Hr | ].
      destruct Hcall as [(Hin & Hc & _) | (Hout & Hc & _)].
      * split; [ intros _; exact Hc | intros H; contradiction ].
      * split; [ intros H; contradiction | intros _; exact Hc ].
    + split; [ intros H; lra | intros _ ].
      split; [ exact Hs | ]. split; [ apply Hstay, Hs | exact Hc ].
  - intros Es. destruct (Ar Es) as (Hiff & Hstay).
    split; [ apply Hother; congruence | ].
    split.
    + intros Ht. apply Hiff, Ht.
    + intros Ht.
      destruct (updateMelee_step _ _ _ _ _ _ Em) as ([Hsame | Hnext] & _).
      * rewrite Ps, Es in Hsame. split; [ exact Hsame | apply Hstay, Hsame ].
      * rewrite Ps, Es in Hnext. cbn in Hnext. apply Hiff in Hnext. lra.
Qed.

(** An enemy that nothing pushes: no knockback, and inside the bounds of
    the world. *)
Record calm (e : t) : Prop := mkCalm {
  calm_vx : knockbackVx e = 0;
  calm_vy : knockbackVy e = 0;
  calm_x : radius e <= x e <= Constants.WORLD.WIDTH - radius e;
  calm_y : radius e <= y e <= Constants.WORLD.HEIGHT - radius e
}.

Lemma clamp_within (v lo hi : R) : lo <= v <= hi -> Utils.clamp v lo hi = v.
Proof.
  intros H. unfold Utils.clamp, Num.max, Num.min, Rmax, Rmin.
  destruct (Rle_dec hi v), (Rle_dec lo _); lra.
Qed.

Lemma preBehavior_calm (dt : R) (e : t) :
  calm e ->
  x (preBehavior dt e) = x e /\ y (preBehavior dt e) = y e /\
  calm (preBehavior dt e).
Proof.
  intros [Hvx Hvy Hx Hy]. unfold preBehavior, knockbackDecay, slowTick.
  repeat (cbn; cmp_step); cbn in *; try contradiction;
    (split; [ reflexivity | split; [ reflexivity | constructor; cbn; assumption ] ]).
Qed.

(** A calm enemy that is winding up, attacking or recovering, or that has
    the player in range, stays where it is. *)
Lemma melee_stands (f : Frame) (e : t) :
  dead e = false -> behavior e = Constants.Melee -> calm e ->
  meleeState e <> Chase \/ inRange (f_player f) (preBehavior (f_dt f) e) ->
  x (step f e) = x e /\ y (step f e) = y e /\ calm (step f e).
Proof.
  intros Hd Hb Hc Hst. unfold step.
  rewrite (update_melee _ _ _ _ Hd Hb). cbn [fst].
  destruct (preBehavior_calm (f_dt f) e Hc) as (Px & Py & [Cvx Cvy Cx Cy]).
  destruct (preBehavior_fields (f_dt f) e) as [[Ps _ _] _].
  unfold inRange in Hst. rewrite <- Ps in Hst.
  set (e1 := preBehavior (f_dt f) e) in *.
  assert (Hm : let e2 := fst (fst (_updateMelee (f_dt f) (f_player f) e1)) in
               x e2 = x e1 /\ y e2 = y e1 /\ radius e2 = radius e1 /\
               knockbackVx e2 = knockbackVx e1 /\ knockbackVy e2 = knockbackVy e1).
  { unfold _updateMelee. cbn.
    destruct (meleeState e1) eqn:Es.
    - destruct Hst as [Hst | Hst]; [ congruence | ].
      rewrite NumFacts.ltb_true by exact Hst. cbn.
      destruct (_ <=? 0); cbn; repeat split; reflexivity.
    - split_ifs; repeat split; reflexivity.
    - destruct (_ <=? 0); cbn; repeat split; reflexivity.
    - split_ifs; repeat split; reflexivity. }
  cbn zeta in Hm.
  set (e2 := fst (fst (_updateMelee (f_dt f) (f_player f) e1))) in *.
  destruct Hm as (Mx & My & Mr & Mvx & Mvy).
  assert (Hs : x (settle (f_dt f) e2) = x e2 /\ y (settle (f_dt f) e2) = y e2 /\
               radius (settle (f_dt f) e2) = radius e2 /\
               knockbackVx (settle (f_dt f) e2) = knockbackVx e2 /\
               knockbackVy (settle (f_dt f) e2) = knockbackVy e2).
  { unfold settle.
    destruct (0 <? flashTimer e2); cbn;
      rewrite !clamp_within by (rewrite ?Mx, ?My, ?Mr; assumption);
      repeat split; reflexivity. }
  destruct Hs as (Sx & Sy & Sr & Svx & Svy).
  split; [ congruence | ]. split; [ congruence | ].
  constructor; rewrite ?Sx, ?Sy, ?Sr, ?Svx, ?Svy, ?Mx, ?My, ?Mr, ?Mvx, ?Mvy;
    assumption.
Qed.

Lemma run_app (l1 l2 : list Frame) (e : t) :
  run (l1 ++ l2) e = run l2 (run l1 e).
Proof. revert e. induction l1 as [| f l1 IH]; intros e; cbn; [ reflexivity | apply IH ]. Qed.

Lemma callsOf_app (l1 l2 : list Frame) (e : t) :
  callsOf (l1 ++ l2) e = callsOf l1 e ++ callsOf l2 (run l1 e).
Proof.
  revert e. induction l1 as [| f l1 IH]; intros e; cbn; [ reflexivity | ].
  rewrite IH, app_assoc. reflexivity.
Qed.

(** While its timer has not run out, an enemy that is winding up,
    attacking or recovering stays in that state, counts the time down and
    makes no call. *)
Lemma melee_waits (l : list Frame) :
  forall e,
    dead e = false -> behavior e = Constants.Melee -> meleeState e <> Chase ->
    Forall (fun f => 0 <= f_dt f) l ->
    elapsed l < meleeTimer e ->
    sameKind e (run l e) /\
    meleeState (run l e) = meleeState e /\
    meleeTimer (run l e) = meleeTimer e - elapsed l /\
    callsOf l e = [] /\
    (calm e -> x (run l e) = x e /\ y (run l e) = y e /\ calm (run l e)).
Proof.
  induction l as [| f rest IH]; intros e Hd Hb Hs Hf Ht.
  - cbn. split; [ constructor; reflexivity | ]. split; [ reflexivity | ].
    split; [ lra | ]. split; [ reflexivity | ]. intros Hc. repeat split; apply Hc.
  - inversion Hf as [| f' rest' Hdt Hrest]; subst. cbn [elapsed] in Ht.
    pose proof (elapsed_nonneg rest Hrest) as H0.
    assert (Hpos : 0 < meleeTimer e - f_dt f) by lra.
    destruct (melee_frame f e Hd Hb) as (Hk & Hc & Hw & Ha & Hr).
    assert (Hstep : meleeState (step f e) = meleeState e /\
                    meleeTimer (step f e) = meleeTimer e - f_dt f /\
                    snd (update (f_rnd f) (f_dt f) (f_player f) e) = []).
    { destruct (meleeState e) eqn:Es; [ congruence | | | ].
      - destruct (Hw eq_refl) as (Hcalls & _ & Hstay).
        destruct (Hstay Hpos). repeat split; assumption.
      - destruct (Ha eq_refl) as (_ & Hstay). destruct (Hstay Hpos) as (? & ? & ?).
        repeat split; assumption.
      - destruct (Hr eq_refl) as (Hcalls & _ & Hstay).
        destruct (Hstay Hpos). repeat split; assumption. }
    destruct Hstep as (Es' & Et' & Ec').
    destruct (IH (step f e)) as (Ik & Is & It & Ic & Icalm).
    + rewrite (kind_dead _ _ Hk). exact Hd.
    + rewrite (kind_behavior _ _ Hk). exact Hb.
    + rewrite Es'. exact Hs.
    + exact Hrest.
    + rewrite Et'. lra.
    + cbn [run callsOf elapsed].
      split; [ eapply sameKind_trans; eassumption | ].
      split; [ congruence | ]. split; [ rewrite It, Et'; lra | ].
      split; [ rewrite Ec', Ic; reflexivity | ].
      intros Hcalm.
      destruct (melee_stands f e Hd Hb Hcalm (or_introl Hs)) as (Sx & Sy & Sc).
      destruct (Icalm Sc) as (Rx & Ry & Rc).
      split; [ congruence | ]. split; [ congruence | exact Rc ].
Qed.

(** The player stands at the same place, with the same radius, in every
    frame. *)
Definition standing (pl : Player.t) (l : list Frame) : Prop :=
  Forall (fun f => Player.x (f_player f) = Player.x pl /\
                   Player.y (f_player f) = Player.y pl /\
                   Player.radius (f_player f) = Player.radius pl) l.

(** One whole cycle.  A live melee enemy in chase, with the player in
    range and the attack cooldown over in the frame [f0], winds up in that
    frame; the windup lasts for the frames [w] and ends in the frame [wl]
    in which the time since its start exceeds [windupTime]; the attack
    lasts for the frames [a] and ends in the frame [al] in which it
    exceeds 0.1 s; the recovery lasts for the frames [r] and ends in the
    frame [rl] in which it exceeds [recoveryTime], back in chase.  The
    only call of [takeDamage] is made in the frame [al], if the player is
    then within reach. *)
Lemma melee_cycle (e : t) (f0 wl al rl : Frame) (w a r : list Frame) :
  dead e = false -> behavior e = Constants.Melee -> meleeState e = Chase ->
  inRange (f_player f0) (preBehavior (f_dt f0) e) ->
  attackCooldownTimer e - f_dt f0 <= 0 ->
  Forall (fun f => 0 <= f_dt f) (w ++ a ++ r) ->
  elapsed w < windupTime e < elapsed w + f_dt wl ->
  elapsed a < 1 / 10 < elapsed a + f_dt al ->
  elapsed r < recoveryTime e < elapsed r + f_dt rl ->
  let e1 := step f0 e in
  let e2 := step wl (run w e1) in
  let eA := run a e2 in
  let e3 := step al eA in
  let e4 := step rl (run r e3) in
  let frames := f0 :: w ++ wl :: a ++ al :: r ++ [rl] in
  meleeState e1 = Windup /\ meleeState (run w e1) = Windup /\
  meleeState e2 = Attack /\ meleeState eA = Attack /\
  meleeState e3 = Recovery /\ meleeState (run r e3) = Recovery /\
  meleeState e4 = Chase /\
  run frames e = e4 /\
  callsOf (f0 :: w ++ wl :: a) e = [] /\
  callsOf (r ++ [rl]) e3 = [] /\
  (inReach (f_player al) (preBehavior (f_dt al) eA) ->
   callsOf frames e = [damage e]) /\
  (~ inReach (f_player al) (preBehavior (f_dt al) eA) ->
   callsOf frames e = []) /\
  (calm e -> standing (f_player f0) (w ++ wl :: a ++ al :: r ++ [rl]) ->
   callsOf frames e = [damage e] /\ x e4 = x e /\ y e4 = y e).
Proof.
  intros Hd Hb Hs Hin Hcd Hf Hw Ha Hr. cbn zeta.
  apply Forall_app in Hf. destruct Hf as [Hfw Hf].
  apply Forall_app in Hf. destruct Hf as [Hfa Hfr].
  (* the chase frame *)
  destruct (melee_frame f0 e Hd Hb) as (K1 & Hc & _).
  destruct (Hc Hs) as (C0 & Hgo). destruct (Hgo Hin Hcd) as (S1 & T1).
  set (e1 := step f0 e) in *.
  assert (D1 : dead e1 = false) by (rewrite (kind_dead _ _ K1); exact Hd).
  assert (B1 : behavior e1 = Constants.Melee) by (rewrite (kind_behavior _ _ K1); exact Hb).
  (* the windup *)
  destruct (melee_waits w e1 D1 B1) as (Kw & Sw & Tw & Cw & Calmw);
    [ congruence | exact Hfw | rewrite T1; lra | ].
  set (ew := run w e1) in *.
  assert (Dw : dead ew = false) by (rewrite (kind_dead _ _ Kw); exact D1).
  assert (Bw : behavior ew = Constants.Melee) by (rewrite (kind_behavior _ _ Kw); exact B1).
  destruct (melee_frame wl ew Dw Bw) as (K2 & _ & Hwind & _).
  destruct Hwind as (C2 & Hgo2 & _); [ congruence | ].
  destruct Hgo2 as (S2 & T2); [ rewrite Tw, T1; lra | ].
  set (e2 := step wl ew) in *.
  assert (D2 : dead e2 = false) by (rewrite (kind_dead _ _ K2); exact Dw).
  assert (B2 : behavior e2 = Constants.Melee) by (rewrite (kind_behavior _ _ K2); exact Bw).
  (* the attack *)
  destruct (melee_waits a e2 D2 B2) as (Ka & Sa & Ta & Ca & Calma);
    [ congruence | exact Hfa | rewrite T2; lra | ].
  set (eA := run a e2) in *.
  assert (DA : dead eA = false) by (rewrite (kind_dead _ _ Ka); exact D2).
  assert (BA : behavior eA = Constants.Melee) by (rewrite (kind_behavior _ _ Ka); exact B2).
  destruct (melee_frame al eA DA BA) as (K3 & _ & _ & Hatt & _).
  destruct Hatt as (Hgo3 & _); [ congruence | ].
  destruct Hgo3 as (S3 & T3 & Hhit & Hmiss); [ rewrite Ta, T2; lra | ].
  set (e3 := step al eA) in *.
  assert (D3 : dead e3 = false) by (rewrite (kind_dead _ _ K3); exact DA).
  assert (B3 : behavior e3 = Constants.Melee) by (rewrite (kind_behavior _ _ K3); exact BA).
  assert (KA : sameKind e eA).
  { eapply sameKind_trans; [ exact K1 | ].
    eapply sameKind_trans; [ exact Kw | ].
    eapply sameKind_trans; [ exact K2 | exact Ka ]. }
  assert (K03 : sameKind e e3) by (eapply sameKind_trans; [ exact KA | exact K3 ]).
  (* the recovery *)
  destruct (melee_waits r e3 D3 B3) as (Kr & Sr & Tr & Cr & Calmr);
    [ congruence | exact Hfr
    | rewrite T3, (kind_recovery _ _ KA); lra | ].
  set (er := run r e3) in *.
  assert (Dr : dead er = false) by (rewrite (kind_dead _ _ Kr); exact D3).
  assert (Br : behavior er = Constants.Melee) by (rewrite (kind_behavior _ _ Kr); exact B3).
  destruct (melee_frame rl er Dr Br) as (K4 & _ & _ & _ & Hrec).
  destruct Hrec as (C4 & Hgo4 & _); [ congruence | ].
  assert (S4 : meleeState (step rl er) = Chase).
  { apply Hgo4. rewrite Tr, T3, (kind_recovery _ _ KA). lra. }
  (* the run as a whole *)
  assert (Erun : run (f0 :: w ++ wl :: a ++ al :: r ++ [rl]) e = step rl er).
  { cbn [run]. fold e1. rewrite run_app. fold ew. cbn [run]. fold e2.
    rewrite run_app. fold eA. cbn [run]. fold e3.
    rewrite run_app. fold er. reflexivity. }
  assert (Ehead : callsOf (f0 :: w ++ wl :: a) e = []).
  { cbn [callsOf]. fold e1. rewrite C0. cbn [app].
    rewrite callsOf_app. fold ew. rewrite Cw. cbn [app callsOf].
    fold e2. rewrite C2, Ca. reflexivity. }
  assert (Etail : callsOf (r ++ [rl]) e3 = []).
  { rewrite callsOf_app. fold er. rewrite Cr. cbn [app callsOf].
    rewrite C4. reflexivity. }
  assert (Ecalls : callsOf (f0 :: w ++ wl :: a ++ al :: r ++ [rl]) e
                   = snd (update (f_rnd al) (f_dt al) (f_player al) eA)).
  { replace (f0 :: w ++ wl :: a ++ al :: r ++ [rl])
      with ((f0 :: w ++ wl :: a) ++ al :: (r ++ [rl]))
      by (cbn [app]; rewrite <- app_assoc; reflexivity).
    rewrite callsOf_app, Ehead. cbn [app callsOf].
    assert (Ehere : run (f0 :: w ++ wl :: a) e = eA).
    { cbn [run]. fold e1. rewrite run_app. fold ew. cbn [run]. fold e2.
      reflexivity. }
    rewrite Ehere. fold e3. rewrite Etail. apply app_nil_r. }
  split; [ exact S1 | ]. split; [ congruence | ]. split; [ exact S2 | ].
  split; [ congruence | ]. split; [ exact S3 | ]. split; [ congruence | ].
  split; [ exact S4 | ]. split; [ exact Erun | ].
  split; [ exact Ehead | ]. split; [ exact Etail | ].
  split; [ intros Hreach; rewrite Ecalls, (Hhit Hreach);
           rewrite (kind_damage _ _ KA); reflexivity | ].
  split; [ intros Hfar; rewrite Ecalls; apply Hmiss, Hfar | ].
  (* a calm enemy and a standing player *)
  intros Hcalm Hstand.
  unfold standing in Hstand.
  apply Forall_app in Hstand. destruct Hstand as [_ Hstand].
  apply Forall_cons_iff in Hstand. destruct Hstand as [_ Hstand].
  apply Forall_app in Hstand. destruct Hstand as [_ Hstand].
  apply Forall_cons_iff in Hstand. destruct Hstand as [(Px & Py & Pr) _].
  assert (H1 : x e1 = x e /\ y e1 = y e /\ calm e1)
    by (apply melee_stands; [ exact Hd | exact Hb | exact Hcalm | right; exact Hin ]).
  destruct H1 as (X1 & Y1 & Calm1).
  destruct (Calmw Calm1) as (Xw & Yw & Calmw').
  assert (H2 : x e2 = x ew /\ y e2 = y ew /\ calm e2)
    by (apply melee_stands; [ exact Dw | exact Bw | exact Calmw' | left; congruence ]).
  destruct H2 as (X2 & Y2 & Calm2).
  destruct (Calma Calm2) as (XA & YA & CalmA).
  assert (H3 : x e3 = x eA /\ y e3 = y eA /\ calm e3)
    by (apply melee_stands; [ exact DA | exact BA | exact CalmA | left; congruence ]).
  destruct H3 as (X3 & Y3 & Calm3).
  destruct (Calmr Calm3) as (Xr & Yr & Calmr').
  assert (H4 : x (step rl er) = x er /\ y (step rl er) = y er /\ calm (step rl er))
    by (apply melee_stands; [ exact Dr | exact Br | exact Calmr' | left; congruence ]).
  destruct H4 as (X4 & Y4 & _).
  assert (Hreach : inReach (f_player al) (preBehavior (f_dt al) eA)).
  { destruct (preBehavior_calm (f_dt al) eA CalmA) as (Qx & Qy & _).
    destruct (preBehavior_fields (f_dt al) eA) as [_ Qk].
    destruct (preBehavior_calm (f_dt f0) e Hcalm) as (Q0x & Q0y & _).
    destruct (preBehavior_fields (f_dt f0) e) as [_ Q0k].
    unfold inReach, inRange in *.
    rewrite Qx, Qy, (kind_radius _ _ Qk), (kind_range _ _ Qk), Px, Py, Pr.
    rewrite Q0x, Q0y, (kind_radius _ _ Q0k), (kind_range _ _ Q0k) in Hin.
    rewrite (kind_radius _ _ KA), (kind_range _ _ KA).
    replace (x eA) with (x e) by congruence.
    replace (y eA) with (y e) by congruence.
    lra. }
  split; [ rewrite Ecalls, (Hhit Hreach), (kind_damage _ _ KA); reflexivity | ].
  split; congruence.
Qed.

(** C5.  A call of [_updateMelee] leaves the state where it is or moves it
    one step along chase, windup, attack, recovery, chase.  It moves from
    chase to windup exactly when the player is in range and the attack
    cooldown is over, and from windup to attack, from attack to recovery
    and from recovery to chase exactly when the state's timer runs out in
    this frame.  It calls [player.takeDamage] only from the attack state,
    in the frame in which the attack timer runs out, and then once, with
    the enemy's damage, if the player is within the attack range plus 10;
    that frame takes the enemy to recovery.  In chase, windup and recovery
    the player is not touched.  Hence over any run of updates that starts
    in chase and ends in chase, the calls are at most one per completed
    cycle, and exactly one per cycle when the player is within reach
    whenever an attack ends.  And the cycle is gone through: a live melee
    enemy in chase with the player in range and its cooldown over winds up
    in that frame, attacks from the frame on in which more than the windup
    time has passed, recovers from the frame on in which more than 0.1 s
    of attack have passed, and is back in chase in the frame in which more
    than the recovery time has passed; the frame that ends the attack
    makes the one call of the cycle if the player is then within reach, as
    it is when the player stands still and nothing pushes the enemy. *)
Theorem melee_discrete_damage :
  (forall dt pl e e' pl' calls,
     _updateMelee dt pl e = (e', pl', calls) ->
     (meleeState e' = meleeState e \/ meleeState e' = next (meleeState e)) /\
     (meleeState e <> Attack -> calls = [] /\ pl' = pl) /\
     (meleeState e = Attack ->
        (meleeTimer e - dt <= 0 /\ meleeState e' = Recovery /\
         ((inReach pl e /\ calls = [damage e] /\
           pl' = Player.takeDamage (damage e) pl) \/
          (~ inReach pl e /\ calls = [] /\ pl' = pl))) \/
        (0 < meleeTimer e - dt /\ meleeState e' = Attack /\
         calls = [] /\ pl' = pl))) /\
  (forall dt pl e e' pl' calls,
     _updateMelee dt pl e = (e', pl', calls) ->
     (meleeState e = Chase ->
        (meleeState e' = Windup <->
         inRange pl e /\ attackCooldownTimer e - dt <= 0) /\
        (meleeState e' = Windup -> meleeTimer e' = windupTime e)) /\
     (meleeState e = Windup ->
        (meleeState e' = Attack <-> meleeTimer e - dt <= 0) /\
        (meleeState e' = Attack -> meleeTimer e' = 1 / 10) /\
        (meleeState e' = Windup -> meleeTimer e' = meleeTimer e - dt)) /\
     (meleeState e = Attack ->
        (meleeState e' = Recovery <-> meleeTimer e - dt <= 0) /\
        (meleeState e' = Recovery ->
           meleeTimer e' = recoveryTime e /\
           attackCooldownTimer e' = attackCooldown e) /\
        (meleeState e' = Attack -> meleeTimer e' = meleeTimer e - dt)) /\
     (meleeState e = Recovery ->
        (meleeState e' = Chase <-> meleeTimer e - dt <= 0) /\
        (meleeState e' = Recovery -> meleeTimer e' = meleeTimer e - dt))) /\
  (forall frames e,
     meleeState e = Chase ->
     meleeState (run frames e) = Chase ->
     transitions Attack Recovery frames e = transitions Recovery Chase frames e /\
     (length (callsOf frames e) <= transitions Recovery Chase frames e)%nat /\
     (reachAtResolutions frames e ->
      length (callsOf frames e) = transitions Recovery Chase frames e)) /\
  (forall e f0 wl al rl w a r,
     dead e = false -> behavior e = Constants.Melee -> meleeState e = Chase ->
     inRange (f_player f0) (preBehavior (f_dt f0) e) ->
     attackCooldownTimer e - f_dt f0 <= 0 ->
     Forall (fun f => 0 <= f_dt f) (w ++ a ++ r) ->
     elapsed w < windupTime e < elapsed w + f_dt wl ->
     elapsed a < 1 / 10 < elapsed a + f_dt al ->
     elapsed r < recoveryTime e < elapsed r + f_dt rl ->
     let e1 := step f0 e in
     let e2 := step wl (run w e1) in
     let eA := run a e2 in
     let e3 := step al eA in
     let e4 := step rl (run r e3) in
     let frames := f0 :: w ++ wl :: a ++ al :: r ++ [rl] in
     meleeState e1 = Windup /\ meleeState (run w e1) = Windup /\
     meleeState e2 = Attack /\ meleeState eA = Attack /\
     meleeState e3 = Recovery /\ meleeState (run r e3) = Recovery /\
     meleeState e4 = Chase /\
     run frames e = e4 /\
     callsOf (f0 :: w ++ wl :: a) e = [] /\
     callsOf (r ++ [rl]) e3 = [] /\
     (inReach (f_player al) (preBehavior (f_dt al) eA) ->
      callsOf frames e = [damage e]) /\
     (~ inReach (f_player al) (preBehavior (f_dt al) eA) ->
      callsOf frames e = []) /\
     (calm e -> standing (f_player f0) (w ++ wl :: a ++ al :: r ++ [rl]) ->
      callsOf frames e = [damage e] /\ x e4 = x e /\ y e4 = y e)).
Proof.
  split; [ exact updateMelee_step | ].
  split; [ exact updateMelee_advance | ].
  split; [ | intros e f0 wl al rl w a r; apply melee_cycle ].
  intros frames e Hs He.
  pose proof (cycle_balance frames e) as Hb. rewrite Hs, He in Hb. cbn in Hb.
  assert (Heq : transitions Attack Recovery frames e = transitions Recovery Chase frames e)
    by lia.
  split; [ exact Heq | ]. rewrite <- Heq.
  split; [ apply calls_le_resolutions | apply calls_eq_resolutions ].
Qed.

(** A level-1 shambler 40 units to the left of the fighter, which stands
    in the middle of the world, at frames of 0.045 s: the chase frame, 9
    frames of windup, 3 of attack and 12 of recovery. *)
Definition lurker : t :=
  Enemy.new 0 Constants.ENEMY_TYPES.shambler 1460 1500 1 0 0 0 0.

Definition tickFrame : Frame := mkFrame 0 (45 / 1000) StateFacts.fighter.

Definition oneCycle : list Frame :=
  tickFrame :: repeat tickFrame 8 ++ tickFrame :: repeat tickFrame 2
    ++ tickFrame :: repeat tickFrame 11 ++ [tickFrame].

Lemma lurker_calm : calm lurker.
Proof.
  constructor; cbn; unfold Constants.WORLD.WIDTH, Constants.WORLD.HEIGHT;
    try reflexivity; lra.
Qed.

Lemma melee_discrete_damage_witness :
  meleeState lurker = Chase /\
  meleeState (run oneCycle lurker) = Chase /\
  callsOf oneCycle lurker = [15] /\
  x (run oneCycle lurker) = 1460 /\ y (run oneCycle lurker) = 1500.
Proof.
  destruct (proj2 (proj2 (proj2 melee_discrete_damage))
              lurker tickFrame tickFrame tickFrame tickFrame
              (repeat tickFrame 8) (repeat tickFrame 2) (repeat tickFrame 11))
    as (_ & _ & _ & _ & _ & _ & S4 & Erun & _ & _ & _ & _ & Hcalm).
  - reflexivity.
  - reflexivity.
  - reflexivity.
  - destruct (preBehavior_calm (f_dt tickFrame) lurker lurker_calm) as (Ex & Ey & _).
    destruct (preBehavior_fields (f_dt tickFrame) lurker) as [_ K].
    unfold inRange.
    rewrite Ex, Ey, (kind_range _ _ K), (kind_radius _ _ K).
    cbn.
    unfold Constants.WORLD.WIDTH, Constants.WORLD.HEIGHT, Constants.PLAYER_RADIUS.
    replace (3000 / 2) with 1500 by lra.
    rewrite UtilsFacts.distance_sym, UtilsFacts.distance_horizontal by lra.
    unfold optOr, Num.orElse. cmp_eval. lra.
  - cbn. lra.
  - cbn. repeat constructor; cbn; lra.
  - cbn. unfold optOr, Num.orElse. cmp_eval. lra.
  - cbn. lra.
  - cbn. unfold optOr, Num.orElse. cmp_eval. lra.
  - destruct Hcalm as (Hcalls & Hx & Hy).
    + exact lurker_calm.
    + unfold standing. repeat constructor.
    + fold oneCycle in Erun, Hcalls. rewrite Erun.
      split; [ reflexivity | ]. split; [ exact S4 | ].
      split; [ rewrite Hcalls; cbn; f_equal; lra | ].
      split; [ exact Hx | exact Hy ].
Defined.

End EnemyFacts.

(** ** The lightning chain *)

Module ChainFacts.

Import Weapons LightningArc.

(** An enemy the inner loop does not skip. *)
Definition eligible (hit : list nat) (en : Enemy.t) : Prop :=
  Enemy.dead en = false /\ has (Enemy.id en) hit = false.

(** The distance of an enemy from the current end of the chain. *)
Definition from (cx0 cy0 : R) (en : Enemy.t) : R :=
  Utils.distance cx0 cy0 (Enemy.x en) (Enemy.y en).

Lemma eligible_dec (hit : list nat) (en : Enemy.t) :
  Enemy.dead en || has (Enemy.id en) hit = false <-> eligible hit en.
Proof. unfold eligible. rewrite orb_false_iff. tauto. Qed.

(** The inner loop returns the best candidate it was given, if no eligible
    enemy of the rest is strictly nearer than [bd]; otherwise an eligible
    enemy of the rest that is strictly nearer than [bd], at least as near
    as every other eligible one, and strictly nearer than the eligible ones
    before it in the roster: of equally near enemies the first wins. *)
Lemma scan_spec (cx0 cy0 : R) (hit : list nat) (es : list Enemy.t) :
  forall i best bd,
    (scan cx0 cy0 hit es i best bd = best /\
     forall en, In en es -> eligible hit en -> bd <= from cx0 cy0 en) \/
    (exists j en,
       scan cx0 cy0 hit es i best bd = Some ((i + j)%nat, en) /\
       nth_error es j = Some en /\ eligible hit en /\
       from cx0 cy0 en < bd /\
       (forall en', In en' es -> eligible hit en' ->
          from cx0 cy0 en <= from cx0 cy0 en') /\
       (forall j' en', (j' < j)%nat -> nth_error es j' = Some en' ->
          eligible hit en' -> from cx0 cy0 en < from cx0 cy0 en')).
Proof.
  induction es as [ | e rest IH ]; intros i best bd; cbn [scan].
  - left. split; [ reflexivity | ]. intros en [].
  - destruct (Enemy.dead e || has (Enemy.id e) hit) eqn:Hel.
    + destruct (IH (S i) best bd)
        as [[E Hall] | (j & en & E & Hn & Hel' & Hlt & Hmin & Hfirst)].
      * left. split; [ exact E | ].
        intros en [<- | Hin] Helig; [ | apply Hall; assumption ].
        apply eligible_dec in Helig. congruence.
      * right. exists (S j), en. rewrite E. split; [ f_equal; f_equal; lia | ].
        split; [ exact Hn | ]. split; [ exact Hel' | ]. split; [ exact Hlt | ].
        split.
        -- intros en' [<- | Hin] Helig; [ | apply Hmin; assumption ].
           apply eligible_dec in Helig. congruence.
        -- intros [ | j'] en' Hj Hn' Helig; cbn [nth_error] in Hn'.
           ++ injection Hn' as <-. apply eligible_dec in Helig. congruence.
           ++ apply (Hfirst j'); [ lia | exact Hn' | exact Helig ].
    + apply eligible_dec in Hel. fold (from cx0 cy0 e).
      destruct (from cx0 cy0 e <? bd) eqn:Hcmp.
      * apply NumFacts.ltb_true_iff in Hcmp.
        destruct (IH (S i) (Some (i, e)) (from cx0 cy0 e))
          as [[E Hall] | (j & en & E & Hn & Hel' & Hlt & Hmin & Hfirst)].
        -- right. exists O, e. rewrite E. split; [ f_equal; f_equal; lia | ].
           split; [ reflexivity | ]. split; [ exact Hel | ]. split; [ exact Hcmp | ].
           split.
           ++ intros en' [<- | Hin] Helig; [ lra | apply Hall; assumption ].
           ++ intros j' en' Hj. lia.
        -- right. exists (S j), en. rewrite E. split; [ f_equal; f_equal; lia | ].
           split; [ exact Hn | ]. split; [ exact Hel' | ]. split; [ lra | ].
           split.
           ++ intros en' [<- | Hin] Helig; [ lra | apply Hmin; assumption ].
           ++ intros [ | j'] en' Hj Hn' Helig; cbn [nth_error] in Hn'.
              ** injection Hn' as <-. exact Hlt.
              ** apply (Hfirst j'); [ lia | exact Hn' | exact Helig ].
      * apply NumFacts.ltb_false_iff in Hcmp.
        destruct (IH (S i) best bd)
          as [[E Hall] | (j & en & E & Hn & Hel' & Hlt & Hmin & Hfirst)].
        -- left. split; [ exact E | ].
           intros en [<- | Hin] Helig; [ exact Hcmp | apply Hall; assumption ].
        -- right. exists (S j), en. rewrite E. split; [ f_equal; f_equal; lia | ].
           split; [ exact Hn | ]. split; [ exact Hel' | ]. split; [ exact Hlt | ].
           split.
           ++ intros en' [<- | Hin] Helig; [ lra | apply Hmin; assumption ].
           ++ intros [ | j'] en' Hj Hn' Helig; cbn [nth_error] in Hn'.
              ** injection Hn' as <-. lra.
              ** apply (Hfirst j'); [ lia | exact Hn' | exact Helig ].
Qed.

(** What one iteration of the outer loop does. *)
Lemma hop_some (decay range : R) (s s' : Loop) :
  hop decay range s = Some s' ->
  exists i target,
    nth_error (enemies s) i = Some target /\
    eligible (hitSet s) target /\
    from (cx s) (cy s) target < range /\
    (forall en, In en (enemies s) -> eligible (hitSet s) en ->
       from (cx s) (cy s) target <= from (cx s) (cy s) en) /\
    (forall i' en, (i' < i)%nat -> nth_error (enemies s) i' = Some en ->
       eligible (hitSet s) en ->
       from (cx s) (cy s) target < from (cx s) (cy s) en) /\
    s' = mkLoop (Enemy.x target) (Enemy.y target) (dmg s * decay)
           (add (Enemy.id target) (hitSet s))
           (mutateAt i (Enemy.takeDamage (dmg s)) (enemies s))
           (built s ++ [mkChain (cx s) (cy s) (Enemy.x target) (Enemy.y target) (dmg s)])
           (calls s ++ [(Enemy.id target, dmg s)]).
Proof.
  unfold hop.
  destruct (scan_spec (cx s) (cy s) (hitSet s) (enemies s) 0 None range)
    as [[E _] | (j & en & E & Hn & Hel & Hlt & Hmin & Hfirst)]; rewrite E.
  - discriminate.
  - cbn [Nat.add]. intros H. injection H as <-.
    exists j, en. repeat split; try assumption; apply Hel.
Qed.

(** The loop breaks exactly when no live, not yet hit enemy is within
    range of the current end of the chain. *)
Lemma hop_none (decay range : R) (s : Loop) :
  hop decay range s = None <->
  forall en, In en (enemies s) -> eligible (hitSet s) en ->
             range <= from (cx s) (cy s) en.
Proof.
  unfold hop.
  destruct (scan_spec (cx s) (cy s) (hitSet s) (enemies s) 0 None range)
    as [[E Hall] | (j & en & E & Hn & Hel & Hlt & Hmin & _)]; rewrite E.
  - split; [ intros _; exact Hall | reflexivity ].
  - split; [ discriminate | ].
    intros Hall. exfalso.
    pose proof (Hall en (nth_error_In _ _ Hn) Hel). lra.
Qed.

(** [k] iterations that did not break. *)
Inductive Hops (decay range : R) : nat -> Loop -> Loop -> Prop :=
| Hops_O : forall s, Hops decay range O s s
| Hops_S : forall k s s1 s2,
    hop decay range s = Some s1 ->
    Hops decay range k s1 s2 ->
    Hops decay range (S k) s s2.

Lemma hops_run (decay range : R) (n : nat) :
  forall s,
    exists k,
      (k <= n)%nat /\
      Hops decay range k s (hops n decay range s) /\
      (k = n \/ hop decay range (hops n decay range s) = None).
Proof.
  induction n as [ | n IH ]; intros s; cbn [hops].
  - exists O. split; [ lia | ]. split; [ constructor | left; reflexivity ].
  - destruct (hop decay range s) as [s1 | ] eqn:E.
    + destruct (IH s1) as (k & Hk & Hh & Hend).
      exists (S k). split; [ lia | ]. split; [ econstructor; eassumption | ].
      destruct Hend as [-> | Hend]; [ left; reflexivity | right; exact Hend ].
    + exists O. split; [ lia | ]. split; [ constructor | right; exact E ].
Qed.

(** The damages [d, d * decay, ..., d * decay ^ (k - 1)]. *)
Fixpoint decayed (d decay : R) (k : nat) : list R :=
  match k with
  | O => []
  | S k' => d :: decayed (d * decay) decay k'
  end.

Lemma decayed_nth (d decay : R) (k : nat) :
  forall i, (i < k)%nat -> nth i (decayed d decay k) 0 = d * decay ^ i.
Proof.
  revert d. induction k as [ | k IH ]; intros d i Hi; [ lia | ].
  destruct i as [ | i ]; cbn.
  - ring.
  - rewrite IH by lia. ring.
Qed.

Lemma decayed_length (d decay : R) (k : nat) : length (decayed d decay k) = k.
Proof. revert d. induction k; intros d; cbn; [ reflexivity | f_equal; apply IHk ]. Qed.

Lemma Hops_built (decay range : R) (k : nat) :
  forall s s',
    Hops decay range k s s' ->
    map damage (built s') = map damage (built s) ++ decayed (dmg s) decay k /\
    map snd (calls s') = map snd (calls s) ++ decayed (dmg s) decay k /\
    dmg s' = dmg s * decay ^ k.
Proof.
  induction k as [ | k IH ]; intros s s' H; inversion H; subst.
  - cbn. rewrite !app_nil_r. repeat split. ring.
  - destruct (hop_some _ _ _ _ H1) as (i & target & _ & _ & _ & _ & _ & ->).
    destruct (IH _ _ H2) as (Hb & Hc & Hd). cbn in Hb, Hc, Hd.
    rewrite Hb, Hc, Hd.
    rewrite !map_app, <- !app_assoc. cbn.
    repeat split. ring.
Qed.

(** Each recorded damage is below the one before it. *)
Definition strictlyDecreasing (l : list R) : Prop :=
  forall i, (S i < length l)%nat -> nth (S i) l 0 < nth i l 0.

Lemma decayed_decreasing (d decay : R) (k : nat) :
  0 < d -> 0 < decay < 1 -> strictlyDecreasing (decayed d decay k).
Proof.
  intros Hd Hdec i Hi. rewrite decayed_length in Hi.
  rewrite !decayed_nth by lia. cbn [pow].
  assert (Hp : 0 < decay ^ i) by (apply pow_lt; lra).
  assert (Hq : 0 < d * decay ^ i) by (apply Rmult_lt_0_compat; assumption).
  replace (d * (decay * decay ^ i)) with (decay * (d * decay ^ i)) by ring.
  nra.
Qed.

(** The chain has no hit-test in the engine, and its update only runs the
    visual timer. *)
Lemma arc_inert (l : LightningArc.t) (es : list Enemy.t) :
  EffectEngine.checkHit (lightningArc l) es = (lightningArc l, es, []).
Proof. reflexivity. Qed.

Lemma arc_update_chains (dt : R) (l : LightningArc.t) :
  chains (LightningArc.update dt l) = chains l.
Proof. unfold LightningArc.update. cbn. cmp_cases; reflexivity. Qed.

(** C4, as the code has it.  The constructor resolves the chain eagerly.
    One hop goes to a live, not yet hit enemy that is strictly within [range]
    of the current end of the chain, at least as near as every other such
    enemy and strictly nearer than those before it in the roster (so that
    of equally near enemies the first in roster order is taken), calls its
    [takeDamage] with the current damage, records the segment with that
    damage, and multiplies the damage by [decay].  The
    chain makes [k] hops, with [k] at most [chainCount + 1] (the first
    strike and [chainCount] jumps), and stops before that only when no live,
    not yet hit enemy is within range.  The recorded damages are
    [damage * decay ^ i] for hop [i], strictly decreasing when the damage is
    positive and the decay is between 0 and 1, and the calls made are these
    same amounts.  Once constructed the effect is never hit-tested and its
    update leaves the chain as it is. *)
Theorem lightning_chain_resolved_eagerly (x0 y0 damage0 : R) (chainCount : nat)
    (decay range : R) (es : list Enemy.t) :
  let init := mkLoop x0 y0 damage0 [] es [] [] in
  let final := _buildChain x0 y0 damage0 chainCount decay range es in
  LightningArc.new x0 y0 damage0 chainCount decay range es
    = (mk true (4 / 10) (built final), enemies final, calls final) /\
  (exists k,
     (k <= chainCount + 1)%nat /\
     Hops decay range k init final /\
     (k = (chainCount + 1)%nat \/
      forall en, In en (enemies final) -> eligible (hitSet final) en ->
                 range <= from (cx final) (cy final) en) /\
     length (built final) = k /\
     (forall i, (i < k)%nat ->
        damage (nth i (built final) (mkChain 0 0 0 0 0)) = damage0 * decay ^ i) /\
     map snd (calls final) = map damage (built final) /\
     (0 < damage0 -> 0 < decay < 1 ->
        strictlyDecreasing (map damage (built final)))) /\
  (forall s s',
     hop decay range s = Some s' ->
     exists i target,
       nth_error (enemies s) i = Some target /\
       eligible (hitSet s) target /\
       from (cx s) (cy s) target < range /\
       (forall en, In en (enemies s) -> eligible (hitSet s) en ->
          from (cx s) (cy s) target <= from (cx s) (cy s) en) /\
       (forall i' en, (i' < i)%nat -> nth_error (enemies s) i' = Some en ->
          eligible (hitSet s) en ->
          from (cx s) (cy s) target < from (cx s) (cy s) en) /\
       s' = mkLoop (Enemy.x target) (Enemy.y target) (dmg s * decay)
              (add (Enemy.id target) (hitSet s))
              (mutateAt i (Enemy.takeDamage (dmg s)) (enemies s))
              (built s ++ [mkChain (cx s) (cy s) (Enemy.x target)
                             (Enemy.y target) (dmg s)])
              (calls s ++ [(Enemy.id target, dmg s)])) /\
  (forall l enemies0 dt,
     EffectEngine.checkHit (lightningArc l) enemies0 = (lightningArc l, enemies0, []) /\
     chains (LightningArc.update dt l) = chains l).
Proof.
  cbv zeta. split; [ reflexivity | ].
  split.
  - unfold _buildChain.
    destruct (hops_run decay range (chainCount + 1)
                (mkLoop x0 y0 damage0 [] es [] [])) as (k & Hk & Hh & Hend).
    set (final := hops (chainCount + 1) decay range (mkLoop x0 y0 damage0 [] es [] [])) in *.
    destruct (Hops_built _ _ _ _ _ Hh) as (Hb & Hc & _). cbn in Hb, Hc.
    exists k. split; [ exact Hk | ]. split; [ exact Hh | ].
    split.
    { destruct Hend as [-> | Hend]; [ left; reflexivity | right ].
      exact (proj1 (hop_none decay range final) Hend). }
    assert (Hlen : length (built final) = k).
    { rewrite <- (length_map damage), Hb. apply decayed_length. }
    split; [ exact Hlen | ].
    split.
    { intros i Hi.
      change (damage (nth i (built final) (mkChain 0 0 0 0 0)))
        with ((fun c => damage c) (nth i (built final) (mkChain 0 0 0 0 0))).
      rewrite <- (map_nth damage). cbn [damage]. rewrite Hb. apply decayed_nth. exact Hi. }
    split; [ congruence | ].
    intros Hd Hdec. rewrite Hb. apply decayed_decreasing; assumption.
  - split; [ intros s s'; apply hop_some | ].
    intros l enemies0 dt. split; [ apply arc_inert | apply arc_update_chains ].
Qed.


(** *** A chain with more enemies than hops *)

Lemma distance_right (ax ay bx : R) :
  ax <= bx -> Utils.distance ax ay bx ay = bx - ax.
Proof.
  intros H. rewrite UtilsFacts.distance_sym.
  apply UtilsFacts.distance_horizontal. exact H.
Qed.

Lemma takeDamage_survives (amount : R) (e : Enemy.t) :
  amount < Enemy.hp e ->
  Enemy.takeDamage amount e =
  Enemy.set_flashTimer (1 / 10) (Enemy.set_hp (Enemy.hp e - amount) e).
Proof.
  intros H. unfold Enemy.takeDamage. cbn.
  rewrite NumFacts.leb_false by lra. reflexivity.
Qed.

(** A level-1 brute with id [i] at [(x0, 0)]. *)
Definition brute (i : nat) (x0 : R) : Enemy.t :=
  Enemy.new i Constants.ENEMY_TYPES.brute x0 0 1 0 0 0 0.

(** Four brutes in a row, 50 apart. *)
Definition row : list Enemy.t :=
  [brute 0 50; brute 1 100; brute 2 150; brute 3 200].

Ltac eval_chain :=
  unfold hop; cbn;
  repeat first
    [ rewrite distance_right by lra
    | rewrite takeDamage_survives by (cbn; lra)
    | progress cmp_eval
    | progress cbn ].

(** C4 as stated fails: with the mage's [chainCount] of 3, a chain cast at
    the origin next to four brutes in a row hits all four of them. *)
Lemma chain_of_three_makes_four_hops :
  let '(arc, roster, calls) :=
    LightningArc.new 0 0 30 Constants.MAGE_ABILITIES.lightningArc.chainCount
      Constants.MAGE_ABILITIES.lightningArc.damageDecay
      Constants.MAGE_ABILITIES.lightningArc.range row in
  Constants.MAGE_ABILITIES.lightningArc.chainCount = 3%nat /\
  length (chains arc) = 4%nat /\
  map fst calls = [0; 1; 2; 3]%nat.
Proof.
  unfold LightningArc.new, _buildChain,
    Constants.MAGE_ABILITIES.lightningArc.chainCount,
    Constants.MAGE_ABILITIES.lightningArc.damageDecay,
    Constants.MAGE_ABILITIES.lightningArc.range, row.
  cbn [Nat.add hops].
  eval_chain.
  repeat split.
Qed.

End ChainFacts.

(** ** The effect engine *)

Module EngineFacts.

Import Weapons EffectEngine.

Lemma checkHits_length (effs : list Effect) :
  forall es, length (fst (fst (_checkHits effs es))) = length effs.
Proof.
  induction effs as [ | e rest IH ]; intros es; cbn; [ reflexivity | ].
  destruct (checkHit e es) as [[e' es'] c1].
  specialize (IH es'). destruct (_checkHits rest es') as [[rest' es''] c2].
  cbn in *. f_equal. exact IH.
Qed.

Lemma survivors_of_survivors (pl : Player.t) (dt : R) (effs : list Effect) :
  filter alive (map (advance pl dt)
                  (filter (fun e => alive (advance pl dt e)) effs))
  = filter alive (map (advance pl dt) effs).
Proof.
  induction effs as [ | e rest IH ]; cbn; [ reflexivity | ].
  destruct (alive (advance pl dt e)) eqn:Ha; cbn; rewrite ?Ha, IH; reflexivity.
Qed.

(** C3, as the code has it.  One call of [update] (a) advances every
    effect, (c) drops the effects whose alive flag is then false, and only
    then (b) runs the hit-tests, on the effects that are left.  So an effect
    whose alive flag turns false in step (a) is removed without a hit-test in
    that frame: the frame is the same as if the effect had not been in the
    pool, and a pool of one such effect makes no call and leaves the roster
    as it is.  The pool after the frame holds the survivors of step (a), in
    order, as their hit-tests leave them. *)
Theorem update_culls_before_hit_testing (pl : Player.t) (dt : R)
    (enemies : list Enemy.t) (eng : EffectEngine.t) :
  let survivors := filter alive (map (advance pl dt) (effects eng)) in
  update pl dt enemies eng
    = (mk (fst (fst (_checkHits survivors enemies))),
       snd (fst (_checkHits survivors enemies)),
       snd (_checkHits survivors enemies)) /\
  update pl dt enemies eng
    = update pl dt enemies
        (mk (filter (fun e => alive (advance pl dt e)) (effects eng))) /\
  length (effects (fst (fst (update pl dt enemies eng)))) = length survivors /\
  (forall e, effects eng = [e] -> alive (advance pl dt e) = false ->
     update pl dt enemies eng = (mk [], enemies, [])).
Proof.
  cbv zeta. unfold update.
  split.
  { destruct (_checkHits _ enemies) as [[effs es] c]. reflexivity. }
  split.
  { cbn [effects]. rewrite survivors_of_survivors. reflexivity. }
  split.
  { pose proof (checkHits_length
                  (filter alive (map (advance pl dt) (effects eng))) enemies) as H.
    destruct (_checkHits _ enemies) as [[effs es] c]. exact H. }
  intros e He Hdead. rewrite He. cbn [map filter]. rewrite Hdead. reflexivity.
Qed.

(** A meteor 0.05 s before the end of its impact, and a shambler that has
    just walked into the blast radius. *)
Definition fadingMeteor : Meteor.t :=
  Meteor.mk 0 0 80 80 (15 / 10) (5 / 100) Meteor.Impact (3 / 10) [] true.
Definition latecomer : Enemy.t :=
  Enemy.new 7 Constants.ENEMY_TYPES.shambler 50 0 1 0 0 0 0.

(** C3 as stated fails: in the frame in which the meteor's timer runs
    out, step (a) turns its alive flag false and the engine removes it
    without a hit-test, although the hit-test, had it been run on the
    advanced meteor, would have struck the shambler. *)
Lemma expired_effect_is_not_hit_tested :
  let advanced := Meteor.update (5 / 100) fadingMeteor in
  Meteor.alive advanced = false /\
  snd (_checkMeteorHit advanced [latecomer]) = [(7%nat, 80)] /\
  update AbilityFacts.mage (5 / 100) [latecomer] (mk [meteor fadingMeteor])
    = (mk [], [latecomer], []).
Proof.
  cbv zeta.
  assert (Hadv : Meteor.update (5 / 100) fadingMeteor
                 = Meteor.mk 0 0 80 80 (15 / 10) (5 / 100 - 5 / 100) Meteor.Impact
                     (3 / 10) [] false).
  { unfold Meteor.update, fadingMeteor. cbn.
    rewrite NumFacts.leb_true by lra. reflexivity. }
  rewrite Hadv.
  split; [ reflexivity | ].
  split.
  - unfold _checkMeteorHit, latecomer. cbn.
    rewrite ChainFacts.distance_right by lra.
    rewrite NumFacts.ltb_true by lra. reflexivity.
  - unfold update. cbn [effects map advance updateEffect]. rewrite Hadv. reflexivity.
Qed.


(** *** Runs of the engine and the calls on one enemy *)

(** The engine advanced over a list of frames, each with the player as the
    frame finds it and the frame time; the calls are collected in order. *)
Fixpoint runEngine (frames : list (Player.t * R)) (enemies : list Enemy.t)
    (eng : EffectEngine.t) : EffectEngine.t * list Enemy.t * list Call :=
  match frames with
  | [] => (eng, enemies, [])
  | (pl, dt) :: rest =>
      let '(eng, enemies, c1) := update pl dt enemies eng in
      let '(eng, enemies, c2) := runEngine rest enemies eng in
      (eng, enemies, c1 ++ c2)
  end.

(** The amounts of the calls of [takeDamage] on the enemy with id [i]. *)
Definition callsFor (i : nat) (calls : list Call) : list R :=
  map snd (filter (fun c => Nat.eqb (fst c) i) calls).

Lemma callsFor_app (i : nat) (a b : list Call) :
  callsFor i (a ++ b) = callsFor i a ++ callsFor i b.
Proof. unfold callsFor. rewrite filter_app, map_app. reflexivity. Qed.

(** The time a list of frames adds up to. *)
Fixpoint total (frames : list (Player.t * R)) : R :=
  match frames with
  | [] => 0
  | (_, dt) :: rest => dt + total rest
  end.

Lemma has_add_same (i : nat) (s : list nat) : has i (add i s) = true.
Proof.
  unfold add. destruct (has i s) eqn:H; [ exact H | ].
  unfold has. rewrite existsb_app. cbn. rewrite Nat.eqb_refl.
  rewrite orb_true_r. reflexivity.
Qed.

Lemma has_add_other (i j : nat) (s : list nat) :
  i <> j -> has i (add j s) = has i s.
Proof.
  intros Hne. unfold add. destruct (has j s); [ reflexivity | ].
  unfold has. rewrite existsb_app. cbn.
  rewrite (proj2 (Nat.eqb_neq i j) Hne). cbn. rewrite orb_false_r. reflexivity.
Qed.

Lemma has_add_mono (i j : nat) (s : list nat) :
  has i s = true -> has i (add j s) = true.
Proof.
  intros H. unfold add. destruct (has j s); [ exact H | ].
  unfold has in *. rewrite existsb_app, H. reflexivity.
Qed.

Lemma forEnemies_app {E : Type} (body : E -> Enemy.t -> E * Enemy.t * list Call)
    (a b : list Enemy.t) :
  forall r,
    forEnemies body r (a ++ b) =
    let '(r1, a', c1) := forEnemies body r a in
    let '(r2, b', c2) := forEnemies body r1 b in
    (r2, a' ++ b', c1 ++ c2).
Proof.
  induction a as [ | e rest IH ]; intros r; cbn.
  - destruct (forEnemies body r b) as [[r2 b'] c2]. reflexivity.
  - destruct (body r e) as [[r0 e'] c0].
    rewrite IH.
    destruct (forEnemies body r0 rest) as [[r1 a'] c1].
    destruct (forEnemies body r1 b) as [[r2 b'] c2].
    rewrite app_assoc. reflexivity.
Qed.


Lemma runEngine_empty (frames : list (Player.t * R)) :
  forall es, runEngine frames es (mk []) = (mk [], es, []).
Proof.
  induction frames as [ | [pl dt] rest IH ]; intros es; cbn; [ reflexivity | ].
  rewrite IH. reflexivity.
Qed.

(** *** Expanding rings

    The three ring classes differ in what a hit does to the enemy besides
    the damage.  What they share is stated once, for a class [E] given by
    its fields, its update and the body of its hit-test loop. *)

Section RingFamily.

Variable E : Type.
Variables rx ry rdamage rmax rspeed rradius : E -> R.
Variable rhits : E -> list nat.
Variable ralive : E -> bool.
Variable inj : E -> Effect.
Variable upd : R -> E -> E.
Variable body : E -> Enemy.t -> E * Enemy.t * list Call.

(** The annulus test of the hit-test. *)
Definition annulus (r : E) (en : Enemy.t) : bool :=
  let dist := Utils.distance (rx r) (ry r) (Enemy.x en) (Enemy.y en) in
  (dist <? rradius r + Enemy.radius en) && (dist >? rradius r - 25).

(** The loop body strikes: the enemy is live, not yet hit, in the annulus. *)
Definition struck (r : E) (en : Enemy.t) : bool :=
  negb (Enemy.dead en) && negb (has (Enemy.id en) (rhits r)) && annulus r en.

(** The ring but for its hit set; the enemy's identity and geometry. *)
Definition sameRing (a b : E) : Prop :=
  rx a = rx b /\ ry a = ry b /\ rdamage a = rdamage b /\ rmax a = rmax b /\
  rspeed a = rspeed b /\ rradius a = rradius b /\ ralive a = ralive b.
Definition sameBody (a b : Enemy.t) : Prop :=
  Enemy.id a = Enemy.id b /\ Enemy.x a = Enemy.x b /\ Enemy.y a = Enemy.y b /\
  Enemy.radius a = Enemy.radius b.

Hypothesis body_hit : forall r en,
  struck r en = true ->
  exists r' en',
    body r en = (r', en', [(Enemy.id en, rdamage r)]) /\
    sameRing r r' /\ rhits r' = add (Enemy.id en) (rhits r) /\ sameBody en en'.
Hypothesis body_miss : forall r en,
  struck r en = false -> body r en = (r, en, []).
Hypothesis upd_spec : forall dt r,
  rx (upd dt r) = rx r /\ ry (upd dt r) = ry r /\
  rdamage (upd dt r) = rdamage r /\ rmax (upd dt r) = rmax r /\
  rspeed (upd dt r) = rspeed r /\ rhits (upd dt r) = rhits r /\
  rradius (upd dt r) = rradius r + rspeed r * dt /\
  ralive (upd dt r) =
    (if rradius r + rspeed r * dt >=? rmax r then false else ralive r).
Hypothesis advance_inj : forall pl dt r, advance pl dt (inj r) = inj (upd dt r).
Hypothesis alive_inj : forall r, alive (inj r) = ralive r.
Hypothesis check_inj : forall r es,
  checkHit (inj r) es =
  let '(r', es', c) :=
    if negb (ralive r) then (r, es, []) else forEnemies body r es in
  (inj r', es', c).

Lemma sameRing_refl (r : E) : sameRing r r.
Proof. unfold sameRing. tauto. Qed.

Lemma sameRing_trans (a b c : E) : sameRing a b -> sameRing b c -> sameRing a c.
Proof. unfold sameRing. intuition congruence. Qed.

Lemma annulus_sameRing (a b : E) (en : Enemy.t) :
  sameRing a b -> annulus a en = annulus b en.
Proof.
  intros (Hx & Hy & _ & _ & _ & Hr & _). unfold annulus. rewrite Hx, Hy, Hr. reflexivity.
Qed.

(** The enemy whose calls are counted: its id. *)
Variable i : nat.

Lemma callsFor_other (j : nat) (a : R) (c : list Call) :
  j <> i -> callsFor i ((j, a) :: c) = callsFor i c.
Proof.
  intros H. unfold callsFor. cbn. rewrite (proj2 (Nat.eqb_neq j i) H). reflexivity.
Qed.

Lemma callsFor_self (a : R) (c : list Call) :
  callsFor i ((i, a) :: c) = a :: callsFor i c.
Proof. unfold callsFor. cbn. rewrite Nat.eqb_refl. reflexivity. Qed.

(** The loop over enemies none of which has id [i]. *)
Lemma scan_others (es : list Enemy.t) :
  forall r,
    ~ In i (map Enemy.id es) ->
    forall r' es' c,
      forEnemies body r es = (r', es', c) ->
      callsFor i c = [] /\ has i (rhits r') = has i (rhits r) /\
      sameRing r r' /\ map Enemy.id es' = map Enemy.id es.
Proof.
  induction es as [ | e rest IH ]; intros r Hni r' es' c; cbn.
  - intros H. injection H as <- <- <-.
    split; [ reflexivity | split; [ reflexivity | split; [ apply sameRing_refl | reflexivity ] ] ].
  - assert (Hne : Enemy.id e <> i) by (intros Heq; apply Hni; left; exact Heq).
    assert (Hrest : ~ In i (map Enemy.id rest)) by (intros Hin; apply Hni; right; exact Hin).
    destruct (struck r e) eqn:Hs.
    + destruct (body_hit r e Hs) as (r1 & e1 & Eb & Hsame & Hh & Hbody).
      rewrite Eb.
      destruct (forEnemies body r1 rest) as [[r2 rest'] c2] eqn:Er.
      destruct (IH r1 Hrest _ _ _ Er) as (Hc & Hhas & Hsame2 & Hids).
      intros H. injection H as <- <- <-.
      cbn [app]. rewrite callsFor_other, Hc by exact Hne.
      split; [ reflexivity | ].
      split; [ rewrite Hhas, Hh; apply has_add_other; congruence | ].
      split; [ eapply sameRing_trans; eassumption | ].
      cbn. rewrite Hids. f_equal. symmetry. apply Hbody.
    + rewrite (body_miss r e Hs).
      destruct (forEnemies body r rest) as [[r2 rest'] c2] eqn:Er.
      destruct (IH r Hrest _ _ _ Er) as (Hc & Hhas & Hsame2 & Hids).
      intros H. injection H as <- <- <-.
      cbn. rewrite Hids.
      split; [ exact Hc | split; [ exact Hhas | split; [ exact Hsame2 | reflexivity ] ] ].
Qed.

(** The loop once [i] is in the hit set: no more call on [i]. *)
Lemma scan_after (es : list Enemy.t) :
  forall r,
    has i (rhits r) = true ->
    forall r' es' c,
      forEnemies body r es = (r', es', c) ->
      callsFor i c = [] /\ has i (rhits r') = true /\ sameRing r r'.
Proof.
  induction es as [ | e rest IH ]; intros r Hin r' es' c; cbn.
  - intros H. injection H as <- <- <-.
    split; [ reflexivity | split; [ exact Hin | apply sameRing_refl ] ].
  - destruct (struck r e) eqn:Hs.
    + assert (Hne : Enemy.id e <> i).
      { intros Heq. unfold struck in Hs. rewrite Heq, Hin in Hs.
        rewrite andb_false_r in Hs. discriminate. }
      destruct (body_hit r e Hs) as (r1 & e1 & Eb & Hsame & Hh & Hbody).
      rewrite Eb.
      destruct (forEnemies body r1 rest) as [[r2 rest'] c2] eqn:Er.
      assert (Hin1 : has i (rhits r1) = true) by (rewrite Hh; apply has_add_mono; exact Hin).
      destruct (IH r1 Hin1 _ _ _ Er) as (Hc & Hhas & Hsame2).
      intros H. injection H as <- <- <-.
      cbn [app]. rewrite callsFor_other, Hc by exact Hne.
      split; [ reflexivity | split; [ exact Hhas | ] ].
      eapply sameRing_trans; eassumption.
    + rewrite (body_miss r e Hs).
      destruct (forEnemies body r rest) as [[r2 rest'] c2] eqn:Er.
      destruct (IH r Hin _ _ _ Er) as (Hc & Hhas & Hsame2).
      intros H. injection H as <- <- <-.
      split; [ exact Hc | split; [ exact Hhas | exact Hsame2 ] ].
Qed.

(** The enemy whose calls are counted, and where it stands in a roster. *)
Variable en : Enemy.t.
Hypothesis en_id : Enemy.id en = i.
Hypothesis en_live : Enemy.dead en = false.

Definition holds (es : list Enemy.t) : Prop :=
  exists pre post,
    es = pre ++ en :: post /\
    ~ In i (map Enemy.id pre) /\ ~ In i (map Enemy.id post).

(** The loop over a roster that holds the enemy, not yet hit. *)
Lemma scan_tracked (es : list Enemy.t) (r : E) :
  holds es ->
  has i (rhits r) = false ->
  forall r' es' c,
    forEnemies body r es = (r', es', c) ->
    sameRing r r' /\
    (annulus r en = true -> callsFor i c = [rdamage r] /\ has i (rhits r') = true) /\
    (annulus r en = false ->
       callsFor i c = [] /\ has i (rhits r') = false /\ holds es').
Proof.
  intros (pre & post & -> & Hpre & Hpost) Hfresh r' es' c.
  rewrite forEnemies_app.
  destruct (forEnemies body r pre) as [[r1 pre'] c1] eqn:E1.
  destruct (scan_others pre r Hpre _ _ _ E1) as (Hc1 & Hh1 & Hs1 & Hid1).
  cbn [forEnemies].
  assert (Hfresh1 : has i (rhits r1) = false) by congruence.
  assert (Hstruck : struck r1 en = annulus r en).
  { unfold struck. rewrite en_live, en_id, Hfresh1. cbn.
    symmetry. apply annulus_sameRing. exact Hs1. }
  destruct (annulus r en) eqn:Hann.
  - destruct (body_hit r1 en Hstruck) as (r2 & en2 & Eb & Hs2 & Hh2 & Hbody).
    rewrite Eb.
    destruct (forEnemies body r2 post) as [[r3 post'] c3] eqn:E3.
    destruct (scan_others post r2 Hpost _ _ _ E3) as (Hc3 & Hh3 & Hs3 & Hid3).
    intros H. injection H as <- <- <-.
    split; [ eapply sameRing_trans; [ exact Hs1 | eapply sameRing_trans; eassumption ] | ].
    split; [ | discriminate ].
    intros _. cbn [app]. rewrite callsFor_app, Hc1, en_id, callsFor_self, Hc3. cbn.
    split.
    + f_equal. symmetry. apply Hs1.
    + rewrite Hh3, Hh2, en_id. apply has_add_same.
  - rewrite (body_miss r1 en Hstruck).
    destruct (forEnemies body r1 post) as [[r3 post'] c3] eqn:E3.
    destruct (scan_others post r1 Hpost _ _ _ E3) as (Hc3 & Hh3 & Hs3 & Hid3).
    intros H. injection H as <- <- <-.
    split; [ eapply sameRing_trans; eassumption | ].
    split; [ discriminate | ].
    intros _. rewrite !callsFor_app, Hc1, Hc3. cbn.
    split; [ reflexivity | ]. split; [ congruence | ].
    exists pre', post'. split; [ reflexivity | ].
    rewrite Hid1, Hid3. split; assumption.
Qed.

(** One frame of an engine whose pool is one ring. *)
Lemma frame_expires (pl : Player.t) (dt : R) (es : list Enemy.t) (r : E) :
  rmax r <= rradius r + rspeed r * dt ->
  update pl dt es (mk [inj r]) = (mk [], es, []).
Proof.
  intros H. unfold update. cbn [effects map filter].
  rewrite advance_inj, alive_inj.
  destruct (upd_spec dt r) as (_ & _ & _ & _ & _ & _ & _ & Ha).
  rewrite Ha, NumFacts.leb_true by exact H. reflexivity.
Qed.

Lemma frame_survives (pl : Player.t) (dt : R) (es : list Enemy.t) (r : E) :
  ralive r = true ->
  rradius r + rspeed r * dt < rmax r ->
  ralive (upd dt r) = true /\
  update pl dt es (mk [inj r]) =
  let '(r', es', c) := forEnemies body (upd dt r) es in (mk [inj r'], es', c).
Proof.
  intros Hal H.
  destruct (upd_spec dt r) as (_ & _ & _ & _ & _ & _ & _ & Ha).
  rewrite NumFacts.leb_false in Ha by exact H. rewrite Hal in Ha.
  split; [ exact Ha | ].
  unfold update. cbn [effects map filter].
  rewrite advance_inj, alive_inj, Ha. cbn [_checkHits].
  rewrite check_inj, Ha. cbn [negb].
  destruct (forEnemies body (upd dt r) es) as [[r' es'] c].
  rewrite app_nil_r. reflexivity.
Qed.

(** After the hit: no further call on [i], whatever the frames. *)
Lemma run_after (frames : list (Player.t * R)) :
  forall r es,
    ralive r = true ->
    has i (rhits r) = true ->
    callsFor i (snd (runEngine frames es (mk [inj r]))) = [].
Proof.
  induction frames as [ | [pl dt] rest IH ]; intros r es Hal Hin; [ reflexivity | ].
  cbn [runEngine].
  destruct (Rlt_dec (rradius r + rspeed r * dt) (rmax r)) as [Hlt | Hge].
  - destruct (frame_survives pl dt es r Hal Hlt) as [Hal1 ->].
    destruct (upd_spec dt r) as (_ & _ & _ & _ & _ & Hh & _).
    destruct (forEnemies body (upd dt r) es) as [[r' es'] c] eqn:Es.
    destruct (scan_after es (upd dt r) ltac:(congruence) _ _ _ Es) as (Hc & Hin' & Hs).
    assert (Hal' : ralive r' = true).
    { destruct Hs as (_ & _ & _ & _ & _ & _ & <-). exact Hal1. }
    specialize (IH r' es' Hal' Hin').
    destruct (runEngine rest es' (mk [inj r'])) as [[eng2 es2] c2].
    cbn [snd] in *. rewrite callsFor_app, Hc, IH. reflexivity.
  - rewrite frame_expires by lra. rewrite runEngine_empty. reflexivity.
Qed.

(** The ring's parameters, and the distance of the enemy from its origin. *)
Variables X Y D M S : R.

Definition ringOf (r : E) : Prop :=
  rx r = X /\ ry r = Y /\ rdamage r = D /\ rmax r = M /\ rspeed r = S.

Definition dist0 : R := Utils.distance X Y (Enemy.x en) (Enemy.y en).

Hypothesis ring_expands : 10 < M.
Hypothesis within : 10 <= dist0 <= M.

(** A frame step is small: the ring grows by less than the enemy's
    radius, than the depth of the annulus behind the edge, and than the
    whole growth of the ring. *)
Definition small (f : Player.t * R) : Prop :=
  S * snd f < Enemy.radius en /\ S * snd f < 25 /\ S * snd f < M - 10.

(** Before the hit: the edge has not reached the enemy. *)
Definition notYet (r : E) : Prop :=
  rradius r < M /\ (rradius r = 10 \/ rradius r <= dist0 - Enemy.radius en).

Lemma run_before (frames : list (Player.t * R)) :
  forall r es,
    ringOf r ->
    ralive r = true ->
    has i (rhits r) = false ->
    holds es ->
    notYet r ->
    Forall small frames ->
    M <= rradius r + S * total frames ->
    callsFor i (snd (runEngine frames es (mk [inj r]))) = [D].
Proof.
  induction frames as [ | [pl dt] rest IH ];
    intros r es Hring Hal Hfresh Hholds (Hlt & Hpos) Hsmall Hlife.
  - cbn in Hlife. lra.
  - inversion Hsmall as [ | ? ? (Hs1 & Hs2 & Hs3) Hrest ]; subst. cbn in Hs1, Hs2, Hs3.
    destruct Hring as (Hx & Hy & Hd & Hm & Hsp).
    destruct within as [Hw1 Hw2].
    assert (Hnew : rradius r + rspeed r * dt < rmax r).
    { rewrite Hsp, Hm. destruct Hpos as [-> | Hle]; lra. }
    cbn [runEngine].
    destruct (frame_survives pl dt es r Hal Hnew) as [Hal1 ->].
    destruct (upd_spec dt r) as (Ux & Uy & Ud & Um & Usp & Uh & Ur & _).
    destruct (forEnemies body (upd dt r) es) as [[r' es'] c] eqn:Es.
    destruct (scan_tracked es (upd dt r) Hholds ltac:(congruence) _ _ _ Es)
      as (Hsame & Hhit & Hmiss).
    assert (Hal' : ralive r' = true).
    { destruct Hsame as (_ & _ & _ & _ & _ & _ & <-). exact Hal1. }
    assert (Hann : annulus (upd dt r) en
                   = (dist0 <? rradius r + S * dt + Enemy.radius en)).
    { unfold annulus. rewrite Ux, Uy, Ur, Hx, Hy, Hsp. fold dist0.
      rewrite (NumFacts.ltb_true (rradius r + S * dt - 25)).
      - apply andb_true_r.
      - destruct Hpos as [-> | Hle]; lra. }
    destruct (dist0 <? rradius r + S * dt + Enemy.radius en) eqn:Hreach.
    + destruct (Hhit Hann) as [Hc Hin].
      pose proof (run_after rest r' es' Hal' Hin) as Hafter.
      destruct (runEngine rest es' (mk [inj r'])) as [[eng2 es2] c2].
      cbn [snd] in *. rewrite callsFor_app, Hc, Hafter. cbn. f_equal. congruence.
    + apply NumFacts.ltb_false_iff in Hreach.
      destruct (Hmiss Hann) as (Hc & Hfresh' & Hholds').
      destruct Hsame as (Sx & Sy & Sd & Sm & Ssp & Sr & _).
      assert (Hr' : rradius r' = rradius r + S * dt) by congruence.
      specialize (IH r' es').
      rewrite Hr' in IH.
      assert (Hgo : callsFor i (snd (runEngine rest es' (mk [inj r']))) = [D]).
      { apply IH; try assumption.
        - unfold ringOf. repeat split; congruence.
        - unfold notYet. rewrite Hr'. split; [ lra | right; lra ].
        - cbn in Hlife. lra. }
      destruct (runEngine rest es' (mk [inj r'])) as [[eng2 es2] c2].
      cbn [snd] in *. rewrite callsFor_app, Hc, Hgo. reflexivity.
Qed.

End RingFamily.

(** *** The three ring classes *)

Lemma takeDamage_body (amount : R) (e : Enemy.t) :
  sameBody e (Enemy.takeDamage amount e).
Proof.
  unfold sameBody, Enemy.takeDamage. cbn. cmp_cases; cbn; repeat split; reflexivity.
Qed.

Ltac strike_cases :=
  repeat match goal with
  | |- context [if ?b then _ else _] => destruct b eqn:?; cbn
  end.

Lemma nova_hit (r : Nova.t) (en : Enemy.t) :
  struck Nova.t Nova.x Nova.y Nova.radius Nova.hitEnemies r en = true ->
  exists r' en',
    novaStrike r en = (r', en', [(Enemy.id en, Nova.damage r)]) /\
    sameRing Nova.t Nova.x Nova.y Nova.damage Nova.maxRadius Nova.expandSpeed
      Nova.radius Nova.alive r r' /\
    Nova.hitEnemies r' = add (Enemy.id en) (Nova.hitEnemies r) /\
    sameBody en en'.
Proof.
  unfold struck, annulus, novaStrike. intros H.
  destruct (Enemy.dead en); [ discriminate | ].
  destruct (has (Enemy.id en) (Nova.hitEnemies r)); [ discriminate | ].
  cbn [negb andb] in H. rewrite H.
  do 2 eexists. split; [ reflexivity | ].
  split; [ unfold sameRing; cbn; tauto | ].
  split; [ reflexivity | apply takeDamage_body ].
Qed.

Lemma nova_miss (r : Nova.t) (en : Enemy.t) :
  struck Nova.t Nova.x Nova.y Nova.radius Nova.hitEnemies r en = false ->
  novaStrike r en = (r, en, []).
Proof.
  unfold struck, annulus, novaStrike. intros H.
  destruct (Enemy.dead en); [ reflexivity | ].
  destruct (has (Enemy.id en) (Nova.hitEnemies r)); [ reflexivity | ].
  cbn [negb andb] in H. rewrite H. reflexivity.
Qed.

Lemma nova_update (dt : R) (r : Nova.t) :
  Nova.x (Nova.update dt r) = Nova.x r /\ Nova.y (Nova.update dt r) = Nova.y r /\
  Nova.damage (Nova.update dt r) = Nova.damage r /\
  Nova.maxRadius (Nova.update dt r) = Nova.maxRadius r /\
  Nova.expandSpeed (Nova.update dt r) = Nova.expandSpeed r /\
  Nova.hitEnemies (Nova.update dt r) = Nova.hitEnemies r /\
  Nova.radius (Nova.update dt r) = Nova.radius r + Nova.expandSpeed r * dt /\
  Nova.alive (Nova.update dt r) =
    (if Nova.radius r + Nova.expandSpeed r * dt >=? Nova.maxRadius r
     then false else Nova.alive r).
Proof. unfold Nova.update. cbn. cmp_cases; cbn; repeat split; reflexivity. Qed.

Lemma frost_hit (r : FrostRing.t) (en : Enemy.t) :
  struck FrostRing.t FrostRing.x FrostRing.y FrostRing.radius
    FrostRing.hitEnemies r en = true ->
  exists r' en',
    frostStrike r en = (r', en', [(Enemy.id en, FrostRing.damage r)]) /\
    sameRing FrostRing.t FrostRing.x FrostRing.y FrostRing.damage
      FrostRing.maxRadius FrostRing.expandSpeed FrostRing.radius
      FrostRing.alive r r' /\
    FrostRing.hitEnemies r' = add (Enemy.id en) (FrostRing.hitEnemies r) /\
    sameBody en en'.
Proof.
  unfold struck, annulus, frostStrike. intros H.
  destruct (Enemy.dead en); [ discriminate | ].
  destruct (has (Enemy.id en) (FrostRing.hitEnemies r)); [ discriminate | ].
  cbn [negb andb] in H. rewrite H.
  do 2 eexists. split; [ reflexivity | ].
  split; [ unfold sameRing; cbn; tauto | ].
  split; [ reflexivity | ].
  destruct (takeDamage_body (FrostRing.damage r) en) as (H1 & H2 & H3 & H4).
  unfold sameBody. cbn. tauto.
Qed.

Lemma frost_miss (r : FrostRing.t) (en : Enemy.t) :
  struck FrostRing.t FrostRing.x FrostRing.y FrostRing.radius
    FrostRing.hitEnemies r en = false ->
  frostStrike r en = (r, en, []).
Proof.
  unfold struck, annulus, frostStrike. intros H.
  destruct (Enemy.dead en); [ reflexivity | ].
  destruct (has (Enemy.id en) (FrostRing.hitEnemies r)); [ reflexivity | ].
  cbn [negb andb] in H. rewrite H. reflexivity.
Qed.

Lemma frost_update (dt : R) (r : FrostRing.t) :
  FrostRing.x (FrostRing.update dt r) = FrostRing.x r /\
  FrostRing.y (FrostRing.update dt r) = FrostRing.y r /\
  FrostRing.damage (FrostRing.update dt r) = FrostRing.damage r /\
  FrostRing.maxRadius (FrostRing.update dt r) = FrostRing.maxRadius r /\
  FrostRing.expandSpeed (FrostRing.update dt r) = FrostRing.expandSpeed r /\
  FrostRing.hitEnemies (FrostRing.update dt r) = FrostRing.hitEnemies r /\
  FrostRing.radius (FrostRing.update dt r)
    = FrostRing.radius r + FrostRing.expandSpeed r * dt /\
  FrostRing.alive (FrostRing.update dt r) =
    (if FrostRing.radius r + FrostRing.expandSpeed r * dt >=? FrostRing.maxRadius r
     then false else FrostRing.alive r).
Proof. unfold FrostRing.update. cbn. cmp_cases; cbn; repeat split; reflexivity. Qed.

Lemma pulse_hit (r : Pulse.t) (en : Enemy.t) :
  struck Pulse.t Pulse.x Pulse.y Pulse.radius Pulse.hitEnemies r en = true ->
  exists r' en',
    pulseStrike r en = (r', en', [(Enemy.id en, Pulse.damage r)]) /\
    sameRing Pulse.t Pulse.x Pulse.y Pulse.damage Pulse.maxRadius
      Pulse.expandSpeed Pulse.radius Pulse.alive r r' /\
    Pulse.hitEnemies r' = add (Enemy.id en) (Pulse.hitEnemies r) /\
    sameBody en en'.
Proof.
  unfold struck, annulus, pulseStrike. intros H.
  destruct (Enemy.dead en); [ discriminate | ].
  destruct (has (Enemy.id en) (Pulse.hitEnemies r)); [ discriminate | ].
  cbn [negb andb] in H. rewrite H.
  do 2 eexists. split; [ reflexivity | ].
  split; [ unfold sameRing; cbn; tauto | ].
  split; [ reflexivity | ].
  destruct (takeDamage_body (Pulse.damage r) en) as (H1 & H2 & H3 & H4).
  unfold sameBody. destruct (Pulse.knockback r !=? 0); cbn; tauto.
Qed.

Lemma pulse_miss (r : Pulse.t) (en : Enemy.t) :
  struck Pulse.t Pulse.x Pulse.y Pulse.radius Pulse.hitEnemies r en = false ->
  pulseStrike r en = (r, en, []).
Proof.
  unfold struck, annulus, pulseStrike. intros H.
  destruct (Enemy.dead en); [ reflexivity | ].
  destruct (has (Enemy.id en) (Pulse.hitEnemies r)); [ reflexivity | ].
  cbn [negb andb] in H. rewrite H. reflexivity.
Qed.

Lemma pulse_update (dt : R) (r : Pulse.t) :
  Pulse.x (Pulse.update dt r) = Pulse.x r /\ Pulse.y (Pulse.update dt r) = Pulse.y r /\
  Pulse.damage (Pulse.update dt r) = Pulse.damage r /\
  Pulse.maxRadius (Pulse.update dt r) = Pulse.maxRadius r /\
  Pulse.expandSpeed (Pulse.update dt r) = Pulse.expandSpeed r /\
  Pulse.hitEnemies (Pulse.update dt r) = Pulse.hitEnemies r /\
  Pulse.radius (Pulse.update dt r) = Pulse.radius r + Pulse.expandSpeed r * dt /\
  Pulse.alive (Pulse.update dt r) =
    (if Pulse.radius r + Pulse.expandSpeed r * dt >=? Pulse.maxRadius r
     then false else Pulse.alive r).
Proof. unfold Pulse.update. cbn. cmp_cases; cbn; repeat split; reflexivity. Qed.

(** A ring effect as its constructor leaves it, with its origin, damage,
    maximum radius and expansion speed. *)
Inductive FreshRing (x0 y0 damage0 maxRadius0 expandSpeed0 : R) : Effect -> Prop :=
| fresh_nova :
    FreshRing x0 y0 damage0 maxRadius0 expandSpeed0
      (nova (Nova.new x0 y0 damage0 maxRadius0 expandSpeed0))
| fresh_frostRing : forall slowFactor0 slowDuration0,
    FreshRing x0 y0 damage0 maxRadius0 expandSpeed0
      (frostRing (FrostRing.new x0 y0 damage0 maxRadius0 expandSpeed0
                    slowFactor0 slowDuration0))
| fresh_pulse : forall knockback0,
    FreshRing x0 y0 damage0 maxRadius0 expandSpeed0
      (pulse (Pulse.new x0 y0 damage0 maxRadius0 expandSpeed0 knockback0)).

Lemma roster_holds (enemies : list Enemy.t) (en : Enemy.t) :
  NoDup (map Enemy.id enemies) ->
  In en enemies ->
  holds (Enemy.id en) en enemies.
Proof.
  intros Hnd Hin. destruct (in_split _ _ Hin) as (pre & post & ->).
  exists pre, post. split; [ reflexivity | ].
  rewrite map_app in Hnd. cbn in Hnd.
  apply NoDup_remove_2 in Hnd.
  split; intros H; apply Hnd; apply in_or_app; [ left | right ]; exact H.
Qed.

(** C1.  Take a ring effect (nova, frost ring or pulse) as its constructor
    leaves it, alone in the engine's pool, and a roster with distinct ids
    that holds a live enemy whose distance from the ring's origin lies
    between the starting radius 10 and the maximum radius.  Advance the engine
    over frames so small that the ring grows per frame by less than the
    enemy's radius, than 25, and than the ring's whole growth, and long
    enough for the ring to reach its maximum radius.  Then the enemy's
    [takeDamage] is called exactly once, with the ring's damage. *)
Theorem ring_hits_exactly_once (x0 y0 damage0 maxRadius0 expandSpeed0 : R)
    (ring : Effect) (enemies : list Enemy.t) (en : Enemy.t)
    (frames : list (Player.t * R)) :
  FreshRing x0 y0 damage0 maxRadius0 expandSpeed0 ring ->
  NoDup (map Enemy.id enemies) ->
  In en enemies ->
  Enemy.dead en = false ->
  10 < maxRadius0 ->
  10 <= Utils.distance x0 y0 (Enemy.x en) (Enemy.y en) <= maxRadius0 ->
  Forall (fun f => expandSpeed0 * snd f < Enemy.radius en /\
                   expandSpeed0 * snd f < 25 /\
                   expandSpeed0 * snd f < maxRadius0 - 10) frames ->
  maxRadius0 <= 10 + expandSpeed0 * total frames ->
  callsFor (Enemy.id en) (snd (runEngine frames enemies (mk [ring]))) = [damage0].
Proof.
  intros Hring Hnd Hin Hlive Hexp Hdist Hsmall Hlife.
  pose proof (roster_holds enemies en Hnd Hin) as Hholds.
  destruct Hring as [ | sf sd | kb ].
  - apply (run_before Nova.t Nova.x Nova.y Nova.damage Nova.maxRadius
             Nova.expandSpeed Nova.radius Nova.hitEnemies Nova.alive nova
             Nova.update novaStrike nova_hit nova_miss nova_update
             (fun _ _ _ => eq_refl) (fun _ => eq_refl) (fun _ _ => eq_refl)
             (Enemy.id en) en eq_refl Hlive x0 y0 damage0 maxRadius0 expandSpeed0
             Hdist frames);
      try assumption; try reflexivity.
    + unfold ringOf. cbn. tauto.
    + unfold notYet. cbn. split; [ lra | left; reflexivity ].
  - apply (run_before FrostRing.t FrostRing.x FrostRing.y FrostRing.damage
             FrostRing.maxRadius FrostRing.expandSpeed FrostRing.radius
             FrostRing.hitEnemies FrostRing.alive frostRing
             FrostRing.update frostStrike frost_hit frost_miss frost_update
             (fun _ _ _ => eq_refl) (fun _ => eq_refl) (fun _ _ => eq_refl)
             (Enemy.id en) en eq_refl Hlive x0 y0 damage0 maxRadius0 expandSpeed0
             Hdist frames);
      try assumption; try reflexivity.
    + unfold ringOf. cbn. tauto.
    + unfold notYet. cbn. split; [ lra | left; reflexivity ].
  - apply (run_before Pulse.t Pulse.x Pulse.y Pulse.damage
             Pulse.maxRadius Pulse.expandSpeed Pulse.radius
             Pulse.hitEnemies Pulse.alive pulse
             Pulse.update pulseStrike pulse_hit pulse_miss pulse_update
             (fun _ _ _ => eq_refl) (fun _ => eq_refl) (fun _ _ => eq_refl)
             (Enemy.id en) en eq_refl Hlive x0 y0 damage0 maxRadius0 expandSpeed0
             Hdist frames);
      try assumption; try reflexivity.
    + unfold ringOf. cbn. tauto.
    + unfold notYet. cbn. split; [ lra | left; reflexivity ].
Qed.

(** A fire burst at the origin and a shambler 40 away, over five frames of
    30 ms: the ring passes the shambler in the second frame. *)
Definition bystander : Enemy.t :=
  Enemy.new 0 Constants.ENEMY_TYPES.shambler 40 0 1 0 0 0 0.
Definition fiveFrames : list (Player.t * R) :=
  repeat (AbilityFacts.mage, 3 / 100) 5.

Lemma ring_hits_exactly_once_witness :
  callsFor 0
    (snd (runEngine fiveFrames [bystander] (mk [nova (Nova.new 0 0 35 60 350)])))
    = [35].
Proof.
  apply (ring_hits_exactly_once 0 0 35 60 350 _ [bystander] bystander fiveFrames).
  - constructor.
  - cbn. constructor; [ intros [] | constructor ].
  - left. reflexivity.
  - reflexivity.
  - lra.
  - cbn [bystander Enemy.new Enemy.x Enemy.y].
    rewrite ChainFacts.distance_right by lra. lra.
  - unfold fiveFrames. cbn [repeat].
    repeat constructor; cbn; lra.
  - unfold fiveFrames. cbn. lra.
Defined.

End EngineFacts.

(** ** What the effect engine does to the roster *)

Module RosterFacts.

Import Weapons EffectEngine.

(** What a hit-test may do to an enemy: it keeps the enemy's id, position
    and radius, and leaves a dead enemy exactly as it is. *)
Definition spared (e e' : Enemy.t) : Prop :=
  EngineFacts.sameBody e e' /\ (Enemy.dead e = true -> e' = e).

(** The calls go to enemies of the roster that are not dead. *)
Definition toLive (es : list Enemy.t) (c : list Call) : Prop :=
  forall call, In call c ->
    exists e, In e es /\ Enemy.id e = fst call /\ Enemy.dead e = false.

Definition bodyOK {E : Type} (body : E -> Enemy.t -> E * Enemy.t * list Call)
  : Prop :=
  forall r en,
    spared en (snd (fst (body r en))) /\
    (forall call, In call (snd (body r en)) ->
       fst call = Enemy.id en /\ Enemy.dead en = false).

Lemma spared_refl (e : Enemy.t) : spared e e.
Proof. unfold spared, EngineFacts.sameBody. tauto. Qed.

Lemma spared_trans (a b c : Enemy.t) : spared a b -> spared b c -> spared a c.
Proof.
  unfold spared, EngineFacts.sameBody.
  intros ((H1 & H2 & H3 & H4) & Hd) ((K1 & K2 & K3 & K4) & Kd).
  split; [ repeat split; congruence | ].
  intros Hdead. pose proof (Hd Hdead) as Hb. subst b. apply Kd. exact Hdead.
Qed.

Lemma spared_live (a b : Enemy.t) :
  spared a b -> Enemy.dead b = false -> Enemy.dead a = false.
Proof.
  intros [_ Hd] Hb. destruct (Enemy.dead a) eqn:Ha; [ | reflexivity ].
  rewrite (Hd eq_refl) in Hb. congruence.
Qed.

Lemma Forall2_spared_refl (es : list Enemy.t) : Forall2 spared es es.
Proof. induction es; constructor; [ apply spared_refl | assumption ]. Qed.

Lemma Forall2_spared_trans (a : list Enemy.t) :
  forall b c, Forall2 spared a b -> Forall2 spared b c -> Forall2 spared a c.
Proof.
  induction a as [ | x a IH ]; intros b c Hab Hbc.
  - inversion Hab; subst. inversion Hbc; subst. constructor.
  - inversion Hab; subst. inversion Hbc; subst. constructor.
    + eapply spared_trans; eassumption.
    + eapply IH; eassumption.
Qed.

(** Calls to the live enemies of a later roster are calls to live enemies
    of the earlier one. *)
Lemma toLive_back (a : list Enemy.t) :
  forall b c, Forall2 spared a b -> toLive b c -> toLive a c.
Proof.
  intros b c Hab Hc call Hin. destruct (Hc call Hin) as (e & He & Hid & Hlive).
  clear Hc Hin. induction Hab as [ | x y a b Hxy Hab IH ]; [ destruct He | ].
  destruct He as [<- | He].
  - exists x. split; [ left; reflexivity | ]. split.
    + destruct Hxy as [(Hi & _) _]. congruence.
    + eapply spared_live; eassumption.
  - destruct (IH He) as (e' & He' & Hid' & Hl'). exists e'.
    split; [ right; exact He' | split; assumption ].
Qed.

Lemma toLive_app (es : list Enemy.t) (c1 c2 : list Call) :
  toLive es c1 -> toLive es c2 -> toLive es (c1 ++ c2).
Proof.
  intros H1 H2 call Hin. apply in_app_or in Hin. destruct Hin; auto.
Qed.

Lemma toLive_nil (es : list Enemy.t) : toLive es [].
Proof. intros call []. Qed.

Lemma takeDamage_spared (amount : R) (e : Enemy.t) :
  Enemy.dead e = false -> spared e (Enemy.takeDamage amount e).
Proof.
  intros Hl. split; [ apply EngineFacts.takeDamage_body | congruence ].
Qed.

Lemma applySlow_spared (f d : R) (a b : Enemy.t) :
  Enemy.dead a = false -> spared a b -> spared a (Enemy.applySlow f d b).
Proof.
  intros Hl [(H1 & H2 & H3 & H4) _]. split; [ | congruence ].
  unfold EngineFacts.sameBody. cbn. tauto.
Qed.

Lemma applyKnockback_spared (dx dy f : R) (a b : Enemy.t) :
  Enemy.dead a = false -> spared a b -> spared a (Enemy.applyKnockback dx dy f b).
Proof.
  intros Hl [(H1 & H2 & H3 & H4) _]. split; [ | congruence ].
  unfold EngineFacts.sameBody. cbn. tauto.
Qed.

Lemma forEnemies_spared {E : Type}
    (body : E -> Enemy.t -> E * Enemy.t * list Call) :
  bodyOK body ->
  forall es r,
    Forall2 spared es (snd (fst (forEnemies body r es))) /\
    toLive es (snd (forEnemies body r es)).
Proof.
  intros Hb. induction es as [ | en rest IH ]; intros r; cbn.
  - split; [ constructor | apply toLive_nil ].
  - destruct (Hb r en) as [Hs Hc].
    destruct (body r en) as [[r1 en1] c1]. cbn in Hs, Hc.
    destruct (IH r1) as [Hs2 Hc2].
    destruct (forEnemies body r1 rest) as [[r2 rest2] c2]. cbn in *.
    split; [ constructor; assumption | ].
    intros call Hin. apply in_app_or in Hin. destruct Hin as [Hin | Hin].
    + destruct (Hc call Hin) as [Hid Hl]. exists en.
      split; [ left; reflexivity | split; [ symmetry; exact Hid | exact Hl ] ].
    + destruct (Hc2 call Hin) as (e & He & Hid & Hl). exists e.
      split; [ right; exact He | split; assumption ].
Qed.

Ltac body_cases :=
  let r := fresh "r" in intros r en; cbn;
  destruct (Enemy.dead en) eqn:Hdead; cbn;
  [ split; [ apply spared_refl | intros call [] ] | ];
  repeat match goal with
  | |- context [if ?b then _ else _] => destruct b; cbn
  end;
  (split;
   [ first [ apply spared_refl
           | repeat first [ apply applySlow_spared; [ exact Hdead | ]
                          | apply applyKnockback_spared; [ exact Hdead | ]
                          | apply takeDamage_spared; exact Hdead
                          | apply spared_refl ] ]
   | intros call Hin; cbn in Hin;
     first [ destruct Hin as [<- | []]; split; [ reflexivity | first [ reflexivity | exact Hdead ] ]
           | destruct Hin ] ]).

Lemma novaStrike_ok : bodyOK novaStrike.
Proof. unfold bodyOK, novaStrike. body_cases. Qed.

Lemma frostStrike_ok : bodyOK frostStrike.
Proof. unfold bodyOK, frostStrike. body_cases. Qed.

Lemma pulseStrike_ok : bodyOK pulseStrike.
Proof. unfold bodyOK, pulseStrike. body_cases. Qed.

Lemma spinBlade_ok (bx by_ : R) : bodyOK (spinBlade bx by_).
Proof.
  unfold bodyOK, spinBlade. intros r en; cbn.
  destruct (Enemy.dead en) eqn:Hdead; cbn;
    [ split; [ apply spared_refl | intros call [] ] | ].
  destruct (_ <? _); cbn; [ | split; [ apply spared_refl | intros call [] ] ].
  destruct (match Spin.lookup (Enemy.id en) (Spin.hitTimers r) with
            | Some v => _ | None => true end); cbn;
    [ | split; [ apply spared_refl | intros call [] ] ].
  split.
  - destruct (_ !=? _);
      [ apply applyKnockback_spared; [ exact Hdead | ] | ];
      apply takeDamage_spared; exact Hdead.
  - intros call [<- | []]. split; reflexivity.
Qed.

Definition checkOK {E : Type}
    (check : E -> list Enemy.t -> E * list Enemy.t * list Call) : Prop :=
  forall r es,
    Forall2 spared es (snd (fst (check r es))) /\ toLive es (snd (check r es)).

Ltac idle_case :=
  cbn; split; [ apply Forall2_spared_refl | apply toLive_nil ].

Lemma checkNova_ok : checkOK _checkNovaHit.
Proof.
  intros r es. unfold _checkNovaHit. destruct (negb (Nova.alive r)); [ idle_case | ].
  apply forEnemies_spared, novaStrike_ok.
Qed.

Lemma checkFrostRing_ok : checkOK _checkFrostRingHit.
Proof.
  intros r es. unfold _checkFrostRingHit.
  destruct (negb (FrostRing.alive r)); [ idle_case | ].
  apply forEnemies_spared, frostStrike_ok.
Qed.

Lemma checkPulse_ok : checkOK _checkPulseHit.
Proof.
  intros r es. unfold _checkPulseHit. destruct (negb (Pulse.alive r)); [ idle_case | ].
  apply forEnemies_spared, pulseStrike_ok.
Qed.

Lemma checkSwing_ok : checkOK _checkSwingHit.
Proof.
  intros r es. unfold _checkSwingHit. destruct (negb (Swing.alive r)); [ idle_case | ].
  apply forEnemies_spared. unfold bodyOK. body_cases.
Qed.

Lemma checkWindPush_ok : checkOK _checkWindPushHit.
Proof.
  intros r es. unfold _checkWindPushHit.
  destruct (negb (WindPush.alive r)); [ idle_case | ].
  apply forEnemies_spared. unfold bodyOK. body_cases.
Qed.

Lemma checkMeteor_ok : checkOK _checkMeteorHit.
Proof.
  intros r es. unfold _checkMeteorHit. destruct (Meteor.phase r); [ idle_case | ].
  apply forEnemies_spared. unfold bodyOK. body_cases.
Qed.

Lemma projectileLoop_ok : checkOK projectileLoop.
Proof.
  intros r es. induction es as [ | en rest IH ]; [ idle_case | ].
  cbn [projectileLoop].
  destruct (Enemy.dead en) eqn:Hdead; cbn [orb].
  - destruct (projectileLoop r rest) as [[r1 rest1] c1]. cbn in *.
    destruct IH as [Hs Hc]. split; [ constructor; [ apply spared_refl | exact Hs ] | ].
    intros call Hin. destruct (Hc call Hin) as (e & He & Hid & Hl).
    exists e. split; [ right; exact He | split; assumption ].
  - destruct (has _ _ || negb _).
    + destruct (projectileLoop r rest) as [[r1 rest1] c1]. cbn in *.
      destruct IH as [Hs Hc]. split; [ constructor; [ apply spared_refl | exact Hs ] | ].
      intros call Hin. destruct (Hc call Hin) as (e & He & Hid & Hl).
      exists e. split; [ right; exact He | split; assumption ].
    + cbn. split.
      * constructor; [ apply takeDamage_spared; exact Hdead | apply Forall2_spared_refl ].
      * intros call [<- | []]. exists en.
        split; [ left; reflexivity | split; [ reflexivity | exact Hdead ] ].
Qed.

Lemma checkProjectile_ok : checkOK _checkProjectileHit.
Proof.
  intros r es. unfold _checkProjectileHit.
  destruct (negb (Projectile.alive r)); [ idle_case | ].
  apply projectileLoop_ok.
Qed.

Lemma spinBlades_ok (n : nat) : forall i, checkOK (spinBlades n i).
Proof.
  induction n as [ | m IH ]; intros i r es; [ idle_case | ].
  cbn [spinBlades].
  set (bx := Spin.ownerX r + _). set (by_ := Spin.ownerY r + _).
  destruct (forEnemies_spared _ (spinBlade_ok bx by_) es r) as [Hs1 Hc1].
  destruct (forEnemies (spinBlade bx by_) r es) as [[r1 es1] c1].
  destruct (IH (S i) r1 es1) as [Hs2 Hc2].
  destruct (spinBlades m (S i) r1 es1) as [[r2 es2] c2]. cbn in *.
  split; [ eapply Forall2_spared_trans; eassumption | ].
  apply toLive_app; [ exact Hc1 | ]. eapply toLive_back; eassumption.
Qed.

Lemma checkSpin_ok : checkOK _checkSpinHit.
Proof.
  intros r es. unfold _checkSpinHit. destruct (negb (Spin.alive r)); [ idle_case | ].
  apply spinBlades_ok.
Qed.

Lemma checkHit_ok : checkOK checkHit.
Proof.
  intros eff es. destruct eff as [p | p | s | n | s | w | f | l | m | p]; cbn [checkHit].
  - pose proof (checkProjectile_ok p es) as H.
    destruct (_checkProjectileHit p es) as [[r' es'] c]. exact H.
  - pose proof (checkProjectile_ok p es) as H.
    destruct (_checkProjectileHit p es) as [[r' es'] c]. exact H.
  - pose proof (checkSwing_ok s es) as H.
    destruct (_checkSwingHit s es) as [[r' es'] c]. exact H.
  - pose proof (checkNova_ok n es) as H.
    destruct (_checkNovaHit n es) as [[r' es'] c]. exact H.
  - pose proof (checkSpin_ok s es) as H.
    destruct (_checkSpinHit s es) as [[r' es'] c]. exact H.
  - pose proof (checkWindPush_ok w es) as H.
    destruct (_checkWindPushHit w es) as [[r' es'] c]. exact H.
  - pose proof (checkFrostRing_ok f es) as H.
    destruct (_checkFrostRingHit f es) as [[r' es'] c]. exact H.
  - idle_case.
  - pose proof (checkMeteor_ok m es) as H.
    destruct (_checkMeteorHit m es) as [[r' es'] c]. exact H.
  - pose proof (checkPulse_ok p es) as H.
    destruct (_checkPulseHit p es) as [[r' es'] c]. exact H.
Qed.

Lemma checkHits_ok : checkOK _checkHits.
Proof.
  intros effs. induction effs as [ | eff rest IH ]; intros es; [ idle_case | ].
  cbn [_checkHits].
  destruct (checkHit_ok eff es) as [Hs1 Hc1].
  destruct (checkHit eff es) as [[eff1 es1] c1].
  destruct (IH es1) as [Hs2 Hc2].
  destruct (_checkHits rest es1) as [[rest2 es2] c2]. cbn in *.
  split; [ eapply Forall2_spared_trans; eassumption | ].
  apply toLive_app; [ exact Hc1 | ]. eapply toLive_back; eassumption.
Qed.

Lemma spared_roster (a b : list Enemy.t) :
  Forall2 spared a b ->
  length b = length a /\
  map Enemy.id b = map Enemy.id a /\
  map Enemy.x b = map Enemy.x a /\
  map Enemy.y b = map Enemy.y a /\
  map Enemy.radius b = map Enemy.radius a /\
  (forall n e, nth_error a n = Some e -> Enemy.dead e = true ->
     nth_error b n = Some e).
Proof.
  induction 1 as [ | x y la lb Hxy Hl IH ].
  - repeat split; try reflexivity. intros n e Hn. destruct n; discriminate.
  - destruct IH as (H1 & H2 & H3 & H4 & H5 & H6).
    destruct Hxy as [(K1 & K2 & K3 & K4) Kd]. cbn.
    rewrite H1, H2, H3, H4, H5, K1, K2, K3, K4.
    repeat split; try reflexivity.
    intros n e Hn Hd. destruct n as [ | n ]; cbn in *.
    + injection Hn as ->. rewrite (Kd Hd). reflexivity.
    + apply H6; assumption.
Qed.

(** X1.  Whatever the pool holds, one frame of the effect engine returns
    the roster it was given enemy for enemy: in the same order, each enemy
    with the id, the position and the radius it had, a dead enemy exactly
    as it was; and every call of [takeDamage] it makes goes to an enemy of
    the roster that was not dead when the frame began. *)
Theorem effects_spare_the_dead_and_move_nobody (pl : Player.t) (dt : R)
    (enemies : list Enemy.t) (eng : EffectEngine.t) :
  let roster := snd (fst (update pl dt enemies eng)) in
  let calls := snd (update pl dt enemies eng) in
  length roster = length enemies /\
  map Enemy.id roster = map Enemy.id enemies /\
  map Enemy.x roster = map Enemy.x enemies /\
  map Enemy.y roster = map Enemy.y enemies /\
  map Enemy.radius roster = map Enemy.radius enemies /\
  (forall n e, nth_error enemies n = Some e -> Enemy.dead e = true ->
     nth_error roster n = Some e) /\
  (forall i amount, In (i, amount) calls ->
     exists e, In e enemies /\ Enemy.id e = i /\ Enemy.dead e = false).
Proof.
  cbn zeta. unfold update.
  destruct (checkHits_ok (filter alive (map (advance pl dt) (effects eng))) enemies)
    as [Hs Hc].
  destruct (_checkHits _ enemies) as [[effs roster] calls]. cbn [fst snd] in *.
  destruct (spared_roster _ _ Hs) as (H1 & H2 & H3 & H4 & H5 & H6).
  repeat (split; [ assumption | ]).
  intros i amount Hin. destruct (Hc (i, amount) Hin) as (e & He & Hid & Hl).
  exists e. split; [ exact He | split; [ exact Hid | exact Hl ] ].
Qed.

End RosterFacts.

(** ** Effects that strike an enemy at most once *)

Module OnceFacts.

Import Weapons EffectEngine.
Import EngineFacts.

(** One unit for an id that is not yet in a hit set. *)
Definition open (i : nat) (hits : list nat) : nat :=
  if has i hits then 0%nat else 1%nat.

(** A hit-test body keeps its effect's hit set, or it strikes an enemy
    whose id was not in the set and adds it. *)
Definition strikesFresh {E : Type} (hits : E -> list nat)
    (body : E -> Enemy.t -> E * Enemy.t * list Call) : Prop :=
  forall r en,
    (snd (body r en) = [] /\ hits (fst (fst (body r en))) = hits r) \/
    (has (Enemy.id en) (hits r) = false /\
     exists d, snd (body r en) = [(Enemy.id en, d)] /\
               hits (fst (fst (body r en))) = add (Enemy.id en) (hits r)).

Lemma callsFor_nil (i : nat) : callsFor i [] = [].
Proof. reflexivity. Qed.

Lemma callsFor_one (i j : nat) (d : R) :
  length (callsFor i [(j, d)]) = if Nat.eqb j i then 1%nat else 0%nat.
Proof. unfold callsFor. cbn. destruct (Nat.eqb j i); reflexivity. Qed.

Lemma strike_budget {E : Type} (hits : E -> list nat)
    (body : E -> Enemy.t -> E * Enemy.t * list Call) (i : nat) :
  strikesFresh hits body ->
  forall r en,
    (length (callsFor i (snd (body r en)))
     + open i (hits (fst (fst (body r en)))) <= open i (hits r))%nat.
Proof.
  intros Hb r en. destruct (Hb r en) as [[Hc Hh] | (Hf & d & Hc & Hh)];
    rewrite Hc, Hh.
  - cbn. lia.
  - rewrite callsFor_one. unfold open.
    destruct (Nat.eqb (Enemy.id en) i) eqn:Hi.
    + apply Nat.eqb_eq in Hi. subst i. rewrite has_add_same, Hf. lia.
    + apply Nat.eqb_neq in Hi.
      rewrite has_add_other by (intros ->; apply Hi; reflexivity). cbn. lia.
Qed.

Lemma forEnemies_budget {E : Type} (hits : E -> list nat)
    (body : E -> Enemy.t -> E * Enemy.t * list Call) (i : nat) :
  strikesFresh hits body ->
  forall es r,
    (length (callsFor i (snd (forEnemies body r es)))
     + open i (hits (fst (fst (forEnemies body r es)))) <= open i (hits r))%nat.
Proof.
  intros Hb. induction es as [ | en rest IH ]; intros r; cbn [forEnemies];
    [ cbn; lia | ].
  pose proof (strike_budget hits body i Hb r en) as H1.
  destruct (body r en) as [[r1 en1] c1]. cbn [fst snd] in H1.
  specialize (IH r1).
  destruct (forEnemies body r1 rest) as [[r2 rest2] c2]. cbn [fst snd] in *.
  rewrite callsFor_app, length_app. lia.
Qed.

Ltac fresh_cases :=
  let r := fresh "r" in
  intros r en; cbn;
  repeat match goal with
  | |- context [if ?b then _ else _] => destruct b eqn:?; cbn
  end;
  first [ left; split; reflexivity
        | right; split;
          [ first [ reflexivity | assumption | apply negb_true_iff; assumption ]
          | eexists; split; reflexivity ] ].

Lemma novaStrike_fresh : strikesFresh Nova.hitEnemies novaStrike.
Proof. unfold strikesFresh, novaStrike. fresh_cases. Qed.

Lemma frostStrike_fresh : strikesFresh FrostRing.hitEnemies frostStrike.
Proof. unfold strikesFresh, frostStrike. fresh_cases. Qed.

Lemma pulseStrike_fresh : strikesFresh Pulse.hitEnemies pulseStrike.
Proof. unfold strikesFresh, pulseStrike. fresh_cases. Qed.

(** The slots of an effect for the id [i]: one while it may still strike
    [i], none once [i] is in its hit set.  A lightning arc strikes nobody
    after its construction. *)
Definition slot (i : nat) (eff : Effect) : nat :=
  match eff with
  | projectile p | fairyBolt p => open i (Projectile.hitEnemies p)
  | swing s => open i (Swing.hitEnemies s)
  | nova n => open i (Nova.hitEnemies n)
  | spin _ => 0%nat
  | windPush w => open i (WindPush.hitEnemies w)
  | frostRing f => open i (FrostRing.hitEnemies f)
  | lightningArc _ => 0%nat
  | meteor m => open i (Meteor.hitEnemies m)
  | pulse p => open i (Pulse.hitEnemies p)
  end.

Definition slots (i : nat) (effs : list Effect) : nat :=
  list_sum (map (slot i) effs).

Definition notSpin (eff : Effect) : Prop :=
  match eff with spin _ => False | _ => True end.

Lemma projectileLoop_budget (i : nat) (es : list Enemy.t) :
  forall p,
    (length (callsFor i (snd (projectileLoop p es)))
     + open i (Projectile.hitEnemies (fst (fst (projectileLoop p es))))
     <= open i (Projectile.hitEnemies p))%nat.
Proof.
  induction es as [ | en rest IH ]; intros p; cbn [projectileLoop]; [ cbn; lia | ].
  destruct (Enemy.dead en || has (Enemy.id en) (Projectile.hitEnemies p) || _) eqn:Hskip.
  - specialize (IH p). destruct (projectileLoop p rest) as [[p1 rest1] c1].
    cbn in *. exact IH.
  - apply orb_false_iff in Hskip. destruct Hskip as [Hskip _].
    apply orb_false_iff in Hskip. destruct Hskip as [_ Hf].
    cbn [fst snd]. rewrite callsFor_one.
    cbn [Projectile.hitEnemies Projectile.set_alive Projectile.set_hitEnemies].
    unfold open.
    destruct (Nat.eqb (Enemy.id en) i) eqn:Hi.
    + apply Nat.eqb_eq in Hi. subst i. rewrite has_add_same, Hf. lia.
    + apply Nat.eqb_neq in Hi.
      rewrite has_add_other by (intros ->; apply Hi; reflexivity). lia.
Qed.

Lemma checkHit_budget (i : nat) (eff : Effect) (es : list Enemy.t) :
  notSpin eff ->
  (length (callsFor i (snd (checkHit eff es)))
   + slot i (fst (fst (checkHit eff es))) <= slot i eff)%nat /\
  notSpin (fst (fst (checkHit eff es))).
Proof.
  intros Hn.
  destruct eff as [p | p | s | n | s | w | f | l | m | p]; cbn [checkHit];
    try (destruct Hn; fail).
  - unfold _checkProjectileHit. destruct (negb (Projectile.alive p));
      [ cbn; split; [ lia | exact I ] | ].
    pose proof (projectileLoop_budget i es p) as H.
    destruct (projectileLoop p es) as [[p1 es1] c1]. cbn in *. split; [ exact H | exact I ].
  - unfold _checkProjectileHit. destruct (negb (Projectile.alive p));
      [ cbn; split; [ lia | exact I ] | ].
    pose proof (projectileLoop_budget i es p) as H.
    destruct (projectileLoop p es) as [[p1 es1] c1]. cbn in *. split; [ exact H | exact I ].
  - unfold _checkSwingHit. destruct (negb (Swing.alive s));
      [ cbn; split; [ lia | exact I ] | ].
    match goal with |- context [forEnemies ?b s es] =>
      pose proof (forEnemies_budget Swing.hitEnemies b i
                    ltac:(unfold strikesFresh; fresh_cases) es s) as H;
      destruct (forEnemies b s es) as [[s1 es1] c1] end.
    cbn in *. split; [ exact H | exact I ].
  - unfold _checkNovaHit. destruct (negb (Nova.alive n));
      [ cbn; split; [ lia | exact I ] | ].
    pose proof (forEnemies_budget Nova.hitEnemies novaStrike i novaStrike_fresh es n) as H.
    destruct (forEnemies novaStrike n es) as [[s1 es1] c1].
    cbn in *. split; [ exact H | exact I ].
  - unfold _checkWindPushHit. destruct (negb (WindPush.alive w));
      [ cbn; split; [ lia | exact I ] | ].
    match goal with |- context [forEnemies ?b w es] =>
      pose proof (forEnemies_budget WindPush.hitEnemies b i
                    ltac:(unfold strikesFresh; fresh_cases) es w) as H;
      destruct (forEnemies b w es) as [[s1 es1] c1] end.
    cbn in *. split; [ exact H | exact I ].
  - unfold _checkFrostRingHit. destruct (negb (FrostRing.alive f));
      [ cbn; split; [ lia | exact I ] | ].
    pose proof (forEnemies_budget FrostRing.hitEnemies frostStrike i
                  frostStrike_fresh es f) as H.
    destruct (forEnemies frostStrike f es) as [[s1 es1] c1].
    cbn in *. split; [ exact H | exact I ].
  - cbn. split; [ lia | exact I ].
  - unfold _checkMeteorHit. destruct (Meteor.phase m);
      [ cbn; split; [ lia | exact I ] | ].
    match goal with |- context [forEnemies ?b m es] =>
      pose proof (forEnemies_budget Meteor.hitEnemies b i
                    ltac:(unfold strikesFresh; fresh_cases) es m) as H;
      destruct (forEnemies b m es) as [[s1 es1] c1] end.
    cbn in *. split; [ exact H | exact I ].
  - unfold _checkPulseHit. destruct (negb (Pulse.alive p));
      [ cbn; split; [ lia | exact I ] | ].
    pose proof (forEnemies_budget Pulse.hitEnemies pulseStrike i
                  pulseStrike_fresh es p) as H.
    destruct (forEnemies pulseStrike p es) as [[s1 es1] c1].
    cbn in *. split; [ exact H | exact I ].
Qed.

Lemma checkHits_budget (i : nat) (effs : list Effect) :
  forall es,
    Forall notSpin effs ->
    (length (callsFor i (snd (_checkHits effs es)))
     + slots i (fst (fst (_checkHits effs es))) <= slots i effs)%nat /\
    Forall notSpin (fst (fst (_checkHits effs es))).
Proof.
  induction effs as [ | eff rest IH ]; intros es Hn; cbn [_checkHits].
  - cbn. split; [ lia | constructor ].
  - inversion Hn as [ | ? ? Hn1 Hn2 ]; subst.
    destruct (checkHit_budget i eff es Hn1) as [H1 K1].
    destruct (checkHit eff es) as [[eff1 es1] c1]. cbn [fst snd] in *.
    destruct (IH es1 Hn2) as [H2 K2].
    destruct (_checkHits rest es1) as [[rest2 es2] c2]. cbn [fst snd] in *.
    split; [ | constructor; assumption ].
    rewrite callsFor_app, length_app. unfold slots, list_sum in *. cbn [map fold_right] in *. lia.
Qed.

Lemma advance_slot (i : nat) (pl : Player.t) (dt : R) (eff : Effect) :
  slot i (advance pl dt eff) = slot i eff /\
  (notSpin eff -> notSpin (advance pl dt eff)).
Proof.
  destruct eff as [p | p | s | n | s | w | f | l | m | p]; cbn;
    unfold FairyBolt.update, Projectile.update, Swing.update, Nova.update,
      WindPush.update, FrostRing.update, LightningArc.update, Meteor.update,
      Pulse.update; cbn;
    repeat match goal with
    | |- context [match Meteor.phase ?m with _ => _ end] =>
        destruct (Meteor.phase m); cbn
    | |- context [if ?b then _ else _] => destruct b; cbn
    end; tauto.
Qed.

Lemma survivors_slots (i : nat) (pl : Player.t) (dt : R) (effs : list Effect) :
  Forall notSpin effs ->
  (slots i (filter alive (map (advance pl dt) effs)) <= slots i effs)%nat /\
  Forall notSpin (filter alive (map (advance pl dt) effs)) /\
  (length (filter alive (map (advance pl dt) effs)) <= length effs)%nat.
Proof.
  unfold slots, list_sum.
  induction effs as [ | eff rest IH ]; intros Hn; cbn [map filter fold_right length].
  - split; [ lia | split; [ constructor | lia ] ].
  - inversion Hn as [ | ? ? Hn1 Hn2 ]; subst.
    destruct (IH Hn2) as (H1 & H2 & H3).
    destruct (advance_slot i pl dt eff) as [Hs Hk].
    destruct (alive (advance pl dt eff)); cbn [map fold_right length].
    + rewrite Hs. split; [ lia | split; [ constructor; auto | lia ] ].
    + split; [ lia | split; [ exact H2 | lia ] ].
Qed.

Lemma slots_le_length (i : nat) (effs : list Effect) :
  (slots i effs <= length effs)%nat.
Proof.
  unfold slots, list_sum.
  induction effs as [ | eff rest IH ]; cbn [map fold_right length]; [ lia | ].
  assert (slot i eff <= 1)%nat.
  { destruct eff; cbn; unfold open; try lia;
      match goal with |- context [has ?a ?b] => destruct (has a b) end; lia. }
  lia.
Qed.

Lemma run_budget (i : nat) (frames : list (Player.t * R)) :
  forall es eng,
    Forall notSpin (effects eng) ->
    (length (callsFor i (snd (runEngine frames es eng))) <= slots i (effects eng))%nat.
Proof.
  induction frames as [ | [pl dt] rest IH ]; intros es eng Hn; cbn [runEngine].
  - cbn. lia.
  - unfold update.
    destruct (survivors_slots i pl dt (effects eng) Hn) as (H1 & H2 & _).
    destruct (checkHits_budget i _ es H2) as [H3 H4].
    destruct (_checkHits (filter alive (map (advance pl dt) (effects eng))) es)
      as [[effs1 es1] c1]. cbn [fst snd] in *.
    specialize (IH es1 (mk effs1) H4).
    destruct (runEngine rest es1 (mk effs1)) as [[eng2 es2] c2]. cbn [fst snd effects] in *.
    rewrite callsFor_app, length_app. lia.
Qed.

(** X2.  A pool without spin effects (swings, novas, wind pushes, frost
    rings, meteors, pulses, projectiles, fairy bolts, lightning arcs)
    strikes an enemy id at most once per effect, however many frames the
    effects live and however the time is cut into frames: over any run of
    the engine the calls of [takeDamage] on one id are at most as many as
    the effects of the pool whose hit set does not hold that id yet. *)
Theorem each_effect_strikes_an_enemy_at_most_once (frames : list (Player.t * R))
    (enemies : list Enemy.t) (eng : EffectEngine.t) (i : nat) :
  Forall notSpin (effects eng) ->
  (length (callsFor i (snd (runEngine frames enemies eng))) <= slots i (effects eng))%nat /\
  (slots i (effects eng) <= length (effects eng))%nat.
Proof.
  intros Hn. split; [ apply run_budget; exact Hn | apply slots_le_length ].
Qed.

(** *** Projectiles do not pierce *)

Definition isShot (eff : Effect) : Prop :=
  match eff with projectile _ | fairyBolt _ => True | _ => False end.

Lemma projectileLoop_one (es : list Enemy.t) :
  forall p,
    (snd (projectileLoop p es) = [] /\
     Projectile.alive (fst (fst (projectileLoop p es))) = Projectile.alive p) \/
    (length (snd (projectileLoop p es)) = 1%nat /\
     Projectile.alive (fst (fst (projectileLoop p es))) = false).
Proof.
  induction es as [ | en rest IH ]; intros p; cbn [projectileLoop].
  - left. split; reflexivity.
  - destruct (Enemy.dead en || has (Enemy.id en) (Projectile.hitEnemies p) || _).
    + specialize (IH p). destruct (projectileLoop p rest) as [[p1 rest1] c1].
      cbn [fst snd] in *. exact IH.
    + right. split; reflexivity.
Qed.

Definition live (effs : list Effect) : nat := length (filter alive effs).

Lemma checkProjectile_one (p : Projectile.t) (es : list Enemy.t) :
  (length (snd (_checkProjectileHit p es))
   + (if Projectile.alive (fst (fst (_checkProjectileHit p es))) then 1 else 0)
   <= (if Projectile.alive p then 1 else 0))%nat.
Proof.
  unfold _checkProjectileHit. destruct (Projectile.alive p) eqn:Hal; cbn [negb].
  - destruct (projectileLoop_one es p) as [[Hc Ha] | [Hc Ha]];
      rewrite Ha, Hc, ?Hal; cbn; lia.
  - cbn. rewrite Hal. lia.
Qed.

Lemma checkHit_shot (eff : Effect) (es : list Enemy.t) :
  isShot eff ->
  (length (snd (checkHit eff es))
   + (if alive (fst (fst (checkHit eff es))) then 1 else 0)
   <= (if alive eff then 1 else 0))%nat /\
  isShot (fst (fst (checkHit eff es))).
Proof.
  intros Hn.
  destruct eff as [p | p | s | n | s | w | f | l | m | p];
    try (destruct Hn; fail); cbn [checkHit alive];
    pose proof (checkProjectile_one p es) as H;
    destruct (_checkProjectileHit p es) as [[p1 es1] c1]; cbn [fst snd alive] in *;
    (split; [ exact H | exact I ]).
Qed.

Lemma checkHits_shots (effs : list Effect) :
  forall es,
    Forall isShot effs ->
    (length (snd (_checkHits effs es)) + live (fst (fst (_checkHits effs es)))
     <= live effs)%nat /\
    Forall isShot (fst (fst (_checkHits effs es))).
Proof.
  unfold live.
  induction effs as [ | eff rest IH ]; intros es Hn; cbn [_checkHits].
  - cbn. split; [ lia | constructor ].
  - inversion Hn as [ | ? ? Hn1 Hn2 ]; subst.
    destruct (checkHit_shot eff es Hn1) as [H1 K1].
    destruct (checkHit eff es) as [[eff1 es1] c1]. cbn [fst snd] in *.
    destruct (IH es1 Hn2) as [H2 K2].
    destruct (_checkHits rest es1) as [[rest2 es2] c2]. cbn [fst snd] in *.
    split; [ | constructor; assumption ].
    rewrite length_app. cbn [filter].
    destruct (alive eff1), (alive eff); cbn [length] in *; lia.
Qed.

Lemma survivors_shots (pl : Player.t) (dt : R) (effs : list Effect) :
  Forall isShot effs ->
  (live (filter alive (map (advance pl dt) effs)) <= live effs)%nat /\
  Forall isShot (filter alive (map (advance pl dt) effs)).
Proof.
  unfold live.
  induction effs as [ | eff rest IH ]; intros Hn; cbn [map filter length].
  - split; [ lia | constructor ].
  - inversion Hn as [ | ? ? Hn1 Hn2 ]; subst.
    destruct (IH Hn2) as (H1 & H2).
    assert (Ha : alive (advance pl dt eff) = true -> alive eff = true).
    { destruct eff as [p | p | s | n | s | w | f | l | m | p];
        try (destruct Hn1; fail); cbn;
        unfold FairyBolt.update, Projectile.update; cbn;
        destruct (_ <=? _); cbn; congruence. }
    assert (Hk : isShot (advance pl dt eff)).
    { destruct eff; try (destruct Hn1; fail); exact I. }
    destruct (alive (advance pl dt eff)) eqn:Hal; cbn [filter length].
    + rewrite Hal, (Ha eq_refl). cbn [length].
      split; [ lia | constructor; assumption ].
    + destruct (alive eff); cbn [length]; split; try lia; exact H2.
Qed.

Lemma run_shots (frames : list (Player.t * R)) :
  forall es eng,
    Forall isShot (effects eng) ->
    (length (snd (runEngine frames es eng)) <= live (effects eng))%nat.
Proof.
  induction frames as [ | [pl dt] rest IH ]; intros es eng Hn; cbn [runEngine].
  - cbn. lia.
  - unfold update.
    destruct (survivors_shots pl dt (effects eng) Hn) as (H1 & H2).
    destruct (checkHits_shots _ es H2) as [H3 H4].
    destruct (_checkHits (filter alive (map (advance pl dt) (effects eng))) es)
      as [[effs1 es1] c1]. cbn [fst snd] in *.
    specialize (IH es1 (mk effs1) H4).
    destruct (runEngine rest es1 (mk effs1)) as [[eng2 es2] c2]. cbn [fst snd effects] in *.
    rewrite length_app. lia.
Qed.

(** X3.  Projectiles and fairy bolts do not pierce: over any run of the
    engine, a pool of projectiles and fairy bolts makes at most one call of
    [takeDamage] for each of them that is alive at the start, whatever the
    roster. *)
Theorem projectiles_strike_one_enemy_at_most (frames : list (Player.t * R))
    (enemies : list Enemy.t) (eng : EffectEngine.t) :
  Forall isShot (effects eng) ->
  (length (snd (runEngine frames enemies eng)) <= live (effects eng))%nat /\
  (live (effects eng) <= length (effects eng))%nat.
Proof.
  intros Hn. split; [ apply run_shots; exact Hn | apply filter_length_le ].
Qed.

(** A swing and a fire burst on one shambler, and a bolt flying at it. *)
Definition bystander : Enemy.t :=
  Enemy.new 7 Constants.ENEMY_TYPES.shambler 40 0 1 0 0 0 0.
Definition threeFrames : list (Player.t * R) :=
  repeat (AbilityFacts.mage, 3 / 100) 3.

Lemma each_effect_strikes_an_enemy_at_most_once_witness :
  (length (callsFor 7
             (snd (runEngine threeFrames [bystander]
                     (mk [swing (Swing.new 0 0 0 60 2 20 (2 / 10));
                          nova (Nova.new 0 0 35 60 350)]))))
   <= 2)%nat.
Proof.
  eapply Nat.le_trans.
  - apply (each_effect_strikes_an_enemy_at_most_once threeFrames [bystander]
             (mk [swing (Swing.new 0 0 0 60 2 20 (2 / 10));
                  nova (Nova.new 0 0 35 60 350)]) 7).
    cbn. repeat constructor.
  - cbn. lia.
Defined.

Lemma projectiles_strike_one_enemy_at_most_witness :
  (length (snd (runEngine threeFrames [bystander]
                  (mk [projectile (Projectile.new 0 0 400 0 10 5 2)])))
   <= 1)%nat.
Proof.
  eapply Nat.le_trans.
  - apply (projectiles_strike_one_enemy_at_most threeFrames [bystander]
             (mk [projectile (Projectile.new 0 0 400 0 10 5 2)])).
    cbn. repeat constructor.
  - cbn. lia.
Defined.

End OnceFacts.

(** ** The meteor: a warning, then one blast *)

Module MeteorFacts.

Import Weapons EffectEngine.
Import EngineFacts.

(** The enemies a blast at [(x0, y0)] of radius [radius0] reaches. *)
Definition inBlast (x0 y0 radius0 : R) (e : Enemy.t) : bool :=
  negb (Enemy.dead e)
  && (Utils.distance x0 y0 (Enemy.x e) (Enemy.y e) <? radius0 + Enemy.radius e).

Definition nonneg (f : Player.t * R) : Prop := 0 <= snd f.

(** During the warning the meteor only counts down. *)
Lemma warning_frame (pl : Player.t) (dt : R) (es : list Enemy.t)
    (x0 y0 d r dl t it : R) (hits : list nat) :
  0 < t - dt ->
  update pl dt es (mk [meteor (Meteor.mk x0 y0 d r dl t Meteor.Warning it hits true)])
  = (mk [meteor (Meteor.mk x0 y0 d r dl (t - dt) Meteor.Warning it hits true)], es, []).
Proof.
  intros Ht. unfold update, advance, updateEffect, Meteor.update. cbn.
  rewrite NumFacts.leb_false by lra. cbn. reflexivity.
Qed.

Lemma warning_run (frames : list (Player.t * R)) :
  forall (es : list Enemy.t) (x0 y0 d r dl t it : R) (hits : list nat),
    Forall nonneg frames ->
    total frames < t ->
    runEngine frames es
      (mk [meteor (Meteor.mk x0 y0 d r dl t Meteor.Warning it hits true)])
    = (mk [meteor (Meteor.mk x0 y0 d r dl (t - total frames) Meteor.Warning it hits true)],
       es, []).
Proof.
  induction frames as [ | [pl dt] rest IH ]; intros es x0 y0 d r dl t it hits Hn Ht;
    cbn [runEngine total] in *.
  - replace (t - 0) with t by ring. reflexivity.
  - inversion Hn as [ | ? ? Hdt Hrest ]; subst. unfold nonneg in Hdt. cbn in Hdt.
    assert (Hrest0 : 0 <= total rest).
    { clear -Hrest. induction rest as [ | [p q] l IHl ]; cbn; [ lra | ].
      inversion Hrest as [ | ? ? H1 H2 ]; subst. unfold nonneg in H1. cbn in H1.
      specialize (IHl H2). lra. }
    rewrite warning_frame by lra.
    rewrite IH by (try assumption; lra).
    replace (t - dt - total rest) with (t - (dt + total rest)) by ring.
    reflexivity.
Qed.

(** The blast on a roster none of whose ids is in the hit set. *)
Lemma blast (x0 y0 d r dl t it : R) (es : list Enemy.t) :
  forall hits,
    NoDup (map Enemy.id es) ->
    (forall e, In e es -> has (Enemy.id e) hits = false) ->
    snd (_checkMeteorHit (Meteor.mk x0 y0 d r dl t Meteor.Impact it hits true) es)
    = map (fun e => (Enemy.id e, d)) (filter (inBlast x0 y0 r) es).
Proof.
  unfold _checkMeteorHit. cbn [Meteor.phase].
  induction es as [ | en rest IH ]; intros hits Hnd Hfresh; [ reflexivity | ].
  cbn [forEnemies filter map] in *.
  inversion Hnd as [ | ? ? Hnotin Hnd' ]; subst.
  unfold inBlast at 1. cbn beta.
  cbn [Meteor.x Meteor.y Meteor.radius Meteor.hitEnemies Meteor.damage].
  rewrite (Hfresh en (or_introl eq_refl)).
  destruct (Enemy.dead en) eqn:Hdead; cbn [negb andb].
  - specialize (IH hits Hnd' (fun e H => Hfresh e (or_intror H))).
    destruct (forEnemies _ _ rest) as [[m1 rest1] c1]. cbn [fst snd app] in *.
    exact IH.
  - cbn [Meteor.x Meteor.y Meteor.radius Meteor.hitEnemies Meteor.damage].
    destruct (_ <? _).
    + cbn [Meteor.set_hitEnemies Meteor.x Meteor.y Meteor.damage Meteor.radius
           Meteor.delay Meteor.timer Meteor.phase Meteor.impactTimer
           Meteor.hitEnemies Meteor.alive].
      assert (Hfresh' : forall e, In e rest ->
                has (Enemy.id e) (add (Enemy.id en) hits) = false).
      { intros e He. rewrite has_add_other; [ apply Hfresh; right; exact He | ].
        intros Heq. apply Hnotin. rewrite <- Heq. apply in_map. exact He. }
      specialize (IH (add (Enemy.id en) hits) Hnd' Hfresh').
      destruct (forEnemies _ _ rest) as [[m1 rest1] c1]. cbn [fst snd app map] in *.
      rewrite IH. reflexivity.
    + specialize (IH hits Hnd' (fun e H => Hfresh e (or_intror H))).
      destruct (forEnemies _ _ rest) as [[m1 rest1] c1]. cbn [fst snd app] in *.
      exact IH.
Qed.

(** X4.  A meteor is silent while its warning lasts and strikes in the
    frame in which the delay runs out.  Alone in the pool, over frames of
    non-negative length that add up to less than the delay, it makes no
    call and leaves the roster as it is; if the next frame reaches the
    delay, the calls of the whole run are one [takeDamage] of the meteor's
    damage for each enemy of the roster (of distinct ids) that is not dead
    and strictly nearer to the impact point than the blast radius plus its
    own radius, in roster order. *)
Theorem meteor_waits_then_strikes (x0 y0 damage0 radius0 delay0 : R)
    (frames : list (Player.t * R)) (pl : Player.t) (dt : R)
    (enemies : list Enemy.t) :
  Forall nonneg frames ->
  total frames < delay0 ->
  let pool := mk [meteor (Meteor.new x0 y0 damage0 radius0 delay0)] in
  snd (runEngine frames enemies pool) = [] /\
  snd (fst (runEngine frames enemies pool)) = enemies /\
  (delay0 <= total frames + dt ->
   NoDup (map Enemy.id enemies) ->
   snd (runEngine (frames ++ [(pl, dt)]) enemies pool)
   = map (fun e => (Enemy.id e, damage0))
       (filter (inBlast x0 y0 radius0) enemies)).
Proof.
  intros Hn Ht pool. unfold pool, Meteor.new.
  rewrite warning_run by assumption. cbn [fst snd].
  split; [ reflexivity | ]. split; [ reflexivity | ].
  intros Hreach Hnd.
  assert (Happ : forall fs es eng,
            snd (runEngine (fs ++ [(pl, dt)]) es eng)
            = snd (runEngine fs es eng)
              ++ snd (update pl dt (snd (fst (runEngine fs es eng)))
                        (fst (fst (runEngine fs es eng))))).
  { induction fs as [ | [p q] l IHl ]; intros es eng; cbn [app runEngine fst snd].
    - destruct (update pl dt es eng) as [[e1 es1] c1]. cbn. rewrite app_nil_r. reflexivity.
    - destruct (update p q es eng) as [[e1 es1] c1]. specialize (IHl es1 e1).
      destruct (runEngine (l ++ [(pl, dt)]) es1 e1) as [[e2 es2] c2].
      destruct (runEngine l es1 e1) as [[e3 es3] c3]. cbn [fst snd] in *.
      rewrite IHl, app_assoc. reflexivity. }
  rewrite Happ, warning_run by assumption. cbn [fst snd app].
  unfold update, advance, updateEffect, Meteor.update.
  cbn [effects map Meteor.phase Meteor.timer Meteor.set_timer].
  rewrite NumFacts.leb_true by lra.
  cbn [Meteor.set_phase Meteor.set_timer Meteor.x Meteor.y Meteor.damage
       Meteor.radius Meteor.delay Meteor.timer Meteor.phase Meteor.impactTimer
       Meteor.hitEnemies Meteor.alive filter alive _checkHits checkHit].
  pose proof (blast x0 y0 damage0 radius0 delay0 (3 / 10) (3 / 10) enemies [] Hnd
                (fun e _ => eq_refl)) as Hb.
  destruct (_checkMeteorHit _ enemies) as [[m1 es1] c1]. cbn [fst snd] in *.
  rewrite app_nil_r. exact Hb.
Qed.

(** The mage's meteor next to a brute: two half-second frames of warning,
    then the frame that reaches the delay of 1.5 s. *)
Definition onlooker : Enemy.t :=
  Enemy.new 3 Constants.ENEMY_TYPES.brute 60 0 1 0 0 0 0.
Definition waiting : list (Player.t * R) :=
  [(AbilityFacts.mage, 1 / 2); (AbilityFacts.mage, 1 / 2)].

Lemma meteor_waits_then_strikes_witness :
  snd (runEngine waiting [onlooker] (mk [meteor (Meteor.new 0 0 80 80 (3 / 2))])) = [] /\
  snd (runEngine (waiting ++ [(AbilityFacts.mage, 1 / 2)]) [onlooker]
         (mk [meteor (Meteor.new 0 0 80 80 (3 / 2))])) = [(3%nat, 80)].
Proof.
  assert (Hn : Forall nonneg waiting).
  { unfold waiting, nonneg. repeat constructor; cbn; lra. }
  assert (Ht : total waiting < 3 / 2).
  { unfold waiting. cbn. lra. }
  destruct (meteor_waits_then_strikes 0 0 80 80 (3 / 2) waiting AbilityFacts.mage
              (1 / 2) [onlooker] Hn Ht) as (H1 & _ & H3).
  split; [ exact H1 | ].
  rewrite H3.
  - cbn [filter map]. unfold inBlast.
    cbn [onlooker Enemy.new Enemy.dead Enemy.x Enemy.y Enemy.radius Enemy.id
         Constants.def_radius Constants.ENEMY_TYPES.brute negb andb].
    rewrite ChainFacts.distance_right by lra.
    rewrite NumFacts.ltb_true by lra. reflexivity.
  - unfold waiting. cbn. lra.
  - cbn. constructor; [ intros [] | constructor ].
Defined.

End MeteorFacts.

(** ** The lightning chain and the roster *)

Module ChainRosterFacts.

Import Weapons LightningArc.
Import ChainFacts RosterFacts.

(** What the loop of [_buildChain] keeps, for the roster [es0] it was
    started on. *)
Record chainInv (es0 : list Enemy.t) (s : Loop) : Prop := mkChainInv {
  inv_nodup : NoDup (map fst (calls s));
  inv_hit : forall c, In c (calls s) -> has (fst c) (hitSet s) = true;
  inv_roster : Forall2 spared es0 (enemies s);
  inv_live : toLive es0 (calls s)
}.

Lemma mutateAt_spared (d : R) (es : list Enemy.t) :
  forall i target,
    nth_error es i = Some target ->
    Enemy.dead target = false ->
    Forall2 spared es (mutateAt i (Enemy.takeDamage d) es).
Proof.
  induction es as [ | e rest IH ]; intros i target Hn Hl.
  - destruct i; discriminate.
  - destruct i as [ | i ]; cbn in *.
    + injection Hn as ->. constructor;
        [ apply takeDamage_spared; exact Hl | apply Forall2_spared_refl ].
    + constructor; [ apply spared_refl | eapply IH; eassumption ].
Qed.

Lemma hop_inv (decay range : R) (es0 : list Enemy.t) (s s' : Loop) :
  chainInv es0 s -> hop decay range s = Some s' -> chainInv es0 s'.
Proof.
  intros [Hnd Hhit Hros Hlive] E.
  destruct (hop_some decay range s s' E)
    as (i & target & Hn & [Hl Hf] & _ & _ & _ & ->).
  constructor; cbn [calls hitSet enemies].
  - rewrite map_app. cbn [map fst].
    apply NoDup_app.
    + exact Hnd.
    + constructor; [ intros [] | constructor ].
    + intros a Ha [<- | []].
      apply in_map_iff in Ha. destruct Ha as (c & Hc & Hin).
      pose proof (Hhit c Hin) as Hh. rewrite Hc in Hh. congruence.
  - intros c Hin. apply in_app_or in Hin. destruct Hin as [Hin | [<- | []]].
    + apply EngineFacts.has_add_mono. apply Hhit. exact Hin.
    + apply EngineFacts.has_add_same.
  - eapply Forall2_spared_trans; [ exact Hros | ].
    eapply mutateAt_spared; eassumption.
  - apply toLive_app; [ exact Hlive | ].
    eapply toLive_back; [ exact Hros | ].
    intros c [<- | []]. exists target.
    split; [ eapply nth_error_In; exact Hn | split; [ reflexivity | exact Hl ] ].
Qed.

Lemma hops_inv (decay range : R) (es0 : list Enemy.t) (n : nat) :
  forall s, chainInv es0 s -> chainInv es0 (hops n decay range s).
Proof.
  induction n as [ | n IH ]; intros s Hs; cbn [hops]; [ exact Hs | ].
  destruct (hop decay range s) as [s1 | ] eqn:E; [ | exact Hs ].
  apply IH. eapply hop_inv; eassumption.
Qed.

Lemma chain_roster (x0 y0 damage0 : R) (chainCount : nat)
    (decay range : R) (es : list Enemy.t) :
  let roster := snd (fst (LightningArc.new x0 y0 damage0 chainCount decay range es)) in
  length roster = length es /\
  map Enemy.id roster = map Enemy.id es /\
  map Enemy.x roster = map Enemy.x es /\
  map Enemy.y roster = map Enemy.y es.
Proof.
  cbn zeta. unfold LightningArc.new, _buildChain. cbn [fst snd].
  assert (H0 : chainInv es (mkLoop x0 y0 damage0 [] es [] [])).
  { constructor; cbn [calls hitSet enemies].
    - constructor.
    - intros c [].
    - apply Forall2_spared_refl.
    - apply toLive_nil. }
  destruct (hops_inv decay range es (chainCount + 1) _ H0) as [_ _ Hros _].
  destruct (spared_roster _ _ Hros) as (H1 & H2 & H3 & H4 & _ & _).
  repeat split; assumption.
Qed.

(** X5.  A lightning chain strikes no enemy id twice and no enemy that was
    dead when it was cast, and it hands the roster back enemy for enemy:
    same order, ids, positions and radii, a dead enemy exactly as it was. *)
Theorem chain_strikes_each_enemy_once (x0 y0 damage0 : R) (chainCount : nat)
    (decay range : R) (es : list Enemy.t) :
  let roster := snd (fst (LightningArc.new x0 y0 damage0 chainCount decay range es)) in
  let struck := snd (LightningArc.new x0 y0 damage0 chainCount decay range es) in
  NoDup (map fst struck) /\
  (forall i amount, In (i, amount) struck ->
     exists e, In e es /\ Enemy.id e = i /\ Enemy.dead e = false) /\
  map Enemy.id roster = map Enemy.id es /\
  map Enemy.x roster = map Enemy.x es /\
  map Enemy.y roster = map Enemy.y es /\
  (forall n e, nth_error es n = Some e -> Enemy.dead e = true ->
     nth_error roster n = Some e).
Proof.
  cbn zeta. unfold LightningArc.new, _buildChain. cbn [fst snd].
  assert (H0 : chainInv es (mkLoop x0 y0 damage0 [] es [] [])).
  { constructor; cbn [calls hitSet enemies].
    - constructor.
    - intros c [].
    - apply Forall2_spared_refl.
    - apply toLive_nil. }
  destruct (hops_inv decay range es (chainCount + 1) _ H0) as [Hnd _ Hros Hlive].
  destruct (spared_roster _ _ Hros) as (_ & H2 & H3 & H4 & _ & H6).
  split; [ exact Hnd | ].
  split; [ | repeat split; assumption ].
  intros i amount Hin. destruct (Hlive (i, amount) Hin) as (e & He & Hid & Hl).
  exists e. split; [ exact He | split; [ exact Hid | exact Hl ] ].
Qed.

End ChainRosterFacts.

(** ** The enemy manager *)

Module ManagerFacts.

Import EnemyManager.

(** The player after the calls of [takeDamage] of a frame, if only the
    first of them counts. *)
Definition landed (calls : list R) (p : Player.t) : Player.t :=
  match calls with
  | [] => p
  | amount :: _ => Player.takeDamage amount p
  end.

(** A hit that follows a hit is absorbed by the window the first one
    opened (or by the one that absorbed the first). *)
Lemma takeDamage_absorbs (a b : R) (p : Player.t) :
  Player.takeDamage a (Player.takeDamage b p) = Player.takeDamage b p.
Proof.
  destruct (Rlt_dec 0 (Player.invulnTimer p)) as [Hi | Hi].
  - rewrite (PlayerFacts.takeDamage_invulnerable b) by exact Hi.
    apply PlayerFacts.takeDamage_invulnerable. exact Hi.
  - rewrite (PlayerFacts.takeDamage_vulnerable b) by lra.
    apply PlayerFacts.takeDamage_invulnerable. cbn. lra.
Qed.

Lemma landed_absorbs (a : R) (calls : list R) (p : Player.t) :
  Player.takeDamage a (landed calls p) = landed (calls ++ [a]) p.
Proof.
  destruct calls as [ | b rest ]; cbn; [ reflexivity | apply takeDamage_absorbs ].
Qed.

Lemma landed_app (c1 c2 : list R) (p : Player.t) :
  landed c2 (landed c1 p) = landed (c1 ++ c2) p.
Proof.
  destruct c1 as [ | a r1 ]; cbn; [ reflexivity | ].
  destruct c2 as [ | b r2 ]; cbn; [ reflexivity | apply takeDamage_absorbs ].
Qed.

Lemma enemy_update_landed (rnd dt : R) (p : Player.t) (e : Enemy.t) :
  snd (fst (Enemy.update rnd dt p e)) = landed (snd (Enemy.update rnd dt p e)) p.
Proof.
  destruct (Enemy.update rnd dt p e) as [[e' p'] c] eqn:E.
  destruct (EnemyFacts.update_step rnd dt p e e' p' c E) as (_ & H & _).
  cbn [fst snd]. destruct H as [[-> ->] | (-> & -> & _)]; reflexivity.
Qed.

Lemma enemyLoop_landed (rnd : nat -> R) (dt : R) (es : list Enemy.t) :
  forall k p arrows,
    snd (fst (fst (enemyLoop rnd dt k p arrows es)))
    = landed (snd (enemyLoop rnd dt k p arrows es)) p.
Proof.
  induction es as [ | e rest IH ]; intros k p arrows; cbn [enemyLoop];
    [ reflexivity | ].
  pose proof (enemy_update_landed (rnd k) dt p e) as H1.
  destruct (Enemy.update (rnd k) dt p e) as [[e1 p1] c1]. cbn [fst snd] in H1.
  destruct (match Enemy._pendingArrow e1 with
            | Some data => _ | None => _ end) as [e2 arrows2].
  set (contact := negb (Enemy.dead e2) && _ && _).
  set (p2 := if contact then _ else p1).
  specialize (IH (S k) p2 arrows2).
  destruct (enemyLoop rnd dt (S k) p2 arrows2 rest) as [[[rest3 p3] arrows3] c3].
  cbn [fst snd] in *. rewrite IH. unfold p2. rewrite H1.
  destruct contact.
  - rewrite landed_absorbs, landed_app, <- app_assoc. reflexivity.
  - cbn [app]. rewrite landed_app. reflexivity.
Qed.

Lemma arrowLoop_landed (dt : R) (arrows : list Arrow.t) :
  forall p,
    snd (fst (arrowLoop dt p arrows)) = landed (snd (arrowLoop dt p arrows)) p.
Proof.
  induction arrows as [ | a rest IH ]; intros p; cbn [arrowLoop]; [ reflexivity | ].
  set (a1 := Arrow.update dt a).
  set (hit := negb (Arrow.dead a1) && _).
  set (p1 := if hit then _ else p).
  specialize (IH p1).
  destruct (arrowLoop dt p1 rest) as [[rest2 p2] c2]. cbn [fst snd] in *.
  rewrite IH. unfold p1. destruct hit.
  - change (Player.takeDamage (Arrow.damage a1) p) with (landed [Arrow.damage a1] p).
    rewrite landed_app. reflexivity.
  - reflexivity.
Qed.

(** X6.  One frame of the enemy manager can hurt the player at most once:
    whatever the enemies and arrows do, the player after the frame is the
    player after the first [takeDamage] call of the frame alone (and the
    player as it was if there is no call), because every later call falls
    into the invulnerability window.  A player who is invulnerable when the
    frame begins comes out of it unchanged. *)
Theorem only_the_first_hit_of_a_frame_lands (rnd : nat -> R) (dt : R)
    (p : Player.t) (m : EnemyManager.t) :
  let p' := snd (fst (update rnd dt p m)) in
  let calls := snd (update rnd dt p m) in
  p' = landed calls p /\
  (Player.invulnTimer p > 0 -> p' = p).
Proof.
  cbn zeta. unfold update.
  pose proof (enemyLoop_landed rnd dt (enemies m) 0 p (projectiles m)) as H1.
  destruct (enemyLoop rnd dt 0 p (projectiles m) (enemies m))
    as [[[es1 p1] arrows1] c1].
  pose proof (arrowLoop_landed dt arrows1 p1) as H2.
  destruct (arrowLoop dt p1 arrows1) as [[arrows2 p2] c2].
  cbn [fst snd] in *.
  assert (H : p2 = landed (c1 ++ c2) p).
  { rewrite H2, H1. apply landed_app. }
  split; [ exact H | ].
  intros Hi. rewrite H. unfold landed. destruct (c1 ++ c2); [ reflexivity | ].
  apply PlayerFacts.takeDamage_invulnerable. exact Hi.
Qed.

(** *** What a frame leaves in the manager *)

Ltac all_ifs :=
  repeat (cbn; match goal with
          | |- context [if ?b then _ else _] => destruct b
          end); cbn.

Lemma updateMelee_id (dt : R) (pl : Player.t) (e : Enemy.t) :
  Enemy.id (fst (fst (Enemy._updateMelee dt pl e))) = Enemy.id e.
Proof.
  unfold Enemy._updateMelee. cbn. destruct (Enemy.meleeState e); all_ifs; reflexivity.
Qed.

Lemma updateRanged_id (rnd dt : R) (pl : Player.t) (e : Enemy.t) :
  Enemy.id (Enemy._updateRanged rnd dt pl e) = Enemy.id e.
Proof. unfold Enemy._updateRanged. all_ifs; reflexivity. Qed.

Lemma preBehavior_id (dt : R) (e : Enemy.t) :
  Enemy.id (Enemy.preBehavior dt e) = Enemy.id e.
Proof.
  unfold Enemy.preBehavior, Enemy.knockbackDecay, Enemy.slowTick.
  all_ifs; reflexivity.
Qed.

Lemma enemy_update_id (rnd dt : R) (pl : Player.t) (e : Enemy.t) :
  Enemy.id (fst (fst (Enemy.update rnd dt pl e))) = Enemy.id e.
Proof.
  unfold Enemy.update. destruct (Enemy.dead e); [ reflexivity | ].
  pose proof (preBehavior_id dt e) as Hpre.
  set (e1 := Enemy.preBehavior dt e) in *.
  destruct (Enemy.behavior e1).
  - all_ifs; exact Hpre.
  - pose proof (updateMelee_id dt pl e1) as Hm.
    destruct (Enemy._updateMelee dt pl e1) as [[e2 pl2] c2]. cbn in Hm.
    all_ifs; congruence.
  - pose proof (updateRanged_id rnd dt pl e1) as Hm.
    all_ifs; congruence.
Qed.

(** What the first loop does to one enemy of the roster. *)
Definition tended (e e' : Enemy.t) : Prop :=
  Enemy.id e' = Enemy.id e /\ Enemy.dead e' = Enemy.dead e /\
  Enemy._pendingArrow e' = None.

Lemma enemyLoop_tended (rnd : nat -> R) (dt : R) (es : list Enemy.t) :
  forall k p arrows,
    Forall2 tended es (fst (fst (fst (enemyLoop rnd dt k p arrows es)))).
Proof.
  induction es as [ | e rest IH ]; intros k p arrows; cbn [enemyLoop];
    [ constructor | ].
  pose proof (enemy_update_id (rnd k) dt p e) as Hid.
  pose proof (EnemyFacts.update_dead (rnd k) dt p e) as Hdead.
  destruct (Enemy.update (rnd k) dt p e) as [[e1 p1] c1]. cbn [fst snd] in *.
  assert (Ht : tended e (fst (match Enemy._pendingArrow e1 with
                              | Some data =>
                                  (Enemy.set__pendingArrow None e1,
                                   arrows ++ [Arrow.new data])
                              | None => (e1, arrows)
                              end))).
  { unfold tended. destruct (Enemy._pendingArrow e1) eqn:Ep; cbn; auto. }
  destruct (match Enemy._pendingArrow e1 with
            | Some data => _ | None => _ end) as [e2 arrows2].
  cbn [fst] in Ht.
  set (contact := negb (Enemy.dead e2) && _ && _).
  set (p2 := if contact then _ else p1).
  specialize (IH (S k) p2 arrows2).
  destruct (enemyLoop rnd dt (S k) p2 arrows2 rest) as [[[rest3 p3] arrows3] c3].
  cbn [fst snd] in *. constructor; assumption.
Qed.

(** An arrow that is still in flight after its update: it has time left,
    lies inside the world, and does not touch the player at [(px, py)]. *)
Definition inFlight (px py pr : R) (a : Arrow.t) : Prop :=
  Arrow.dead a = false /\ 0 < Arrow.lifetime a /\
  0 <= Arrow.x a <= Constants.WORLD.WIDTH /\
  0 <= Arrow.y a <= Constants.WORLD.HEIGHT /\
  Arrow.radius a + pr <= Utils.distance (Arrow.x a) (Arrow.y a) px py.

Lemma arrow_update_alive (dt : R) (a : Arrow.t) :
  Arrow.dead (Arrow.update dt a) = false ->
  0 < Arrow.lifetime (Arrow.update dt a) /\
  0 <= Arrow.x (Arrow.update dt a) <= Constants.WORLD.WIDTH /\
  0 <= Arrow.y (Arrow.update dt a) <= Constants.WORLD.HEIGHT.
Proof.
  unfold Arrow.update. cbn.
  repeat (cbn; cmp_step); cbn; intros Hd; try discriminate;
    cbn in *; repeat split; lra.
Qed.

Lemma landed_position (calls : list R) (p : Player.t) :
  Player.x (landed calls p) = Player.x p /\
  Player.y (landed calls p) = Player.y p /\
  Player.radius (landed calls p) = Player.radius p.
Proof.
  destruct calls as [ | a rest ]; cbn; [ tauto | ].
  destruct (Rlt_dec 0 (Player.invulnTimer p)).
  - rewrite PlayerFacts.takeDamage_invulnerable by assumption. tauto.
  - rewrite PlayerFacts.takeDamage_vulnerable by lra. cbn. tauto.
Qed.

Lemma arrowLoop_inFlight (dt : R) (arrows : list Arrow.t) :
  forall p a,
    In a (fst (fst (arrowLoop dt p arrows))) ->
    Arrow.dead a = false ->
    inFlight (Player.x p) (Player.y p) (Player.radius p) a.
Proof.
  induction arrows as [ | a0 rest IH ]; intros p a; cbn [arrowLoop];
    [ intros [] | ].
  set (a1 := Arrow.update dt a0).
  set (hit := negb (Arrow.dead a1) && _).
  set (p1 := if hit then _ else p).
  assert (Hp : Player.x p1 = Player.x p /\ Player.y p1 = Player.y p /\
               Player.radius p1 = Player.radius p).
  { unfold p1. destruct hit; [ | tauto ].
    exact (landed_position [Arrow.damage a1] p). }
  specialize (IH p1 a).
  destruct (arrowLoop dt p1 rest) as [[rest2 p2] c2]. cbn [fst snd] in *.
  intros [<- | Hin] Hd.
  - destruct hit eqn:Hh; [ discriminate | ].
    unfold hit in Hh. rewrite Hd in Hh. cbn [negb andb] in Hh.
    apply NumFacts.ltb_false_iff in Hh.
    destruct (arrow_update_alive dt a0 Hd) as (H1 & H2 & H3).
    unfold inFlight. fold a1 in H1, H2, H3. repeat split; try tauto; lra.
  - destruct Hp as (Hx & Hy & Hr). rewrite <- Hx, <- Hy, <- Hr. apply IH; assumption.
Qed.

Lemma manager_keeps_the_living_ids (rnd : nat -> R) (dt : R)
    (p : Player.t) (m : EnemyManager.t) :
  map Enemy.id (enemies (fst (fst (update rnd dt p m))))
  = map Enemy.id (filter (fun e => negb (Enemy.dead e)) (enemies m)).
Proof.
  unfold update.
  pose proof (enemyLoop_tended rnd dt (enemies m) 0 p (projectiles m)) as Ht.
  destruct (enemyLoop rnd dt 0 p (projectiles m) (enemies m))
    as [[[es1 p1] arrows1] c1].
  destruct (arrowLoop dt p1 arrows1) as [[arrows2 p2] c2].
  cbn [fst snd enemies] in *.
  induction Ht as [ | e e' l l' (Hi & Hd & _) Hl IH ]; cbn; [ reflexivity | ].
  rewrite Hd. destruct (Enemy.dead e); cbn; rewrite ?Hi, IH; reflexivity.
Qed.

(** X7.  After a frame of the enemy manager the roster holds, in their
    order, exactly the enemies that were not dead when the frame began
    ([Enemy.update] kills nobody), none of them with an arrow pending; and
    every arrow it keeps is in flight: not dead, with lifetime left, inside
    the world, and not touching the player. *)
Theorem manager_keeps_the_living (rnd : nat -> R) (dt : R)
    (p : Player.t) (m : EnemyManager.t) :
  let m' := fst (fst (update rnd dt p m)) in
  let p' := snd (fst (update rnd dt p m)) in
  map Enemy.id (enemies m')
    = map Enemy.id (filter (fun e => negb (Enemy.dead e)) (enemies m)) /\
  (forall e, In e (enemies m') ->
     Enemy.dead e = false /\ Enemy._pendingArrow e = None) /\
  (forall a, In a (projectiles m') ->
     inFlight (Player.x p') (Player.y p') (Player.radius p') a).
Proof.
  cbn zeta. unfold update.
  pose proof (enemyLoop_tended rnd dt (enemies m) 0 p (projectiles m)) as Ht.
  pose proof (enemyLoop_landed rnd dt (enemies m) 0 p (projectiles m)) as H1.
  destruct (enemyLoop rnd dt 0 p (projectiles m) (enemies m))
    as [[[es1 p1] arrows1] c1].
  pose proof (arrowLoop_landed dt arrows1 p1) as H2.
  pose proof (arrowLoop_inFlight dt arrows1 p1) as Hf.
  destruct (arrowLoop dt p1 arrows1) as [[arrows2 p2] c2].
  cbn [fst snd enemies projectiles] in *.
  split; [ | split ].
  - clear -Ht. induction Ht as [ | e e' l l' (Hi & Hd & _) Hl IH ]; cbn;
      [ reflexivity | ].
    rewrite Hd. destruct (Enemy.dead e); cbn; rewrite ?Hi, IH; reflexivity.
  - intros e Hin. apply filter_In in Hin. destruct Hin as [Hin Hd].
    apply negb_true_iff in Hd. split; [ exact Hd | ].
    clear -Ht Hin. induction Ht as [ | e0 e' l l' (_ & _ & Hp) Hl IH ];
      [ destruct Hin | ].
    destruct Hin as [<- | Hin]; [ exact Hp | apply IH; exact Hin ].
  - intros a Hin. apply filter_In in Hin. destruct Hin as [Hin Hd].
    apply negb_true_iff in Hd.
    destruct (landed_position c2 p1) as (Hx & Hy & Hr).
    rewrite H2, Hx, Hy, Hr. apply Hf; assumption.
Qed.

(** *** Enemy ids *)

(** The states a manager and the id counter can be in: a new or cleared
    manager at any value of the counter (the counter belongs to the module
    and is never reset), after spawns, after frames of its own, and after
    the player's effect engine or a lightning arc has worked on the roster
    it hands out; the counter may also move on by itself, when enemies are
    constructed elsewhere. *)
Inductive Reachable : nat -> EnemyManager.t -> Prop :=
| reach_new : forall n, Reachable n new
| reach_spawn : forall n m d x0 y0 level r1 r2 r3 r4,
    Reachable n m ->
    Reachable (snd (spawn n d x0 y0 level r1 r2 r3 r4 m))
              (fst (spawn n d x0 y0 level r1 r2 r3 r4 m))
| reach_update : forall n m rnd dt p,
    Reachable n m -> Reachable n (fst (fst (update rnd dt p m)))
| reach_clear : forall n m, Reachable n m -> Reachable n (clear m)
| reach_effects : forall n m pl dt eng,
    Reachable n m ->
    Reachable n
      (mk (snd (fst (Weapons.EffectEngine.update pl dt (getEnemies m) eng)))
          (projectiles m))
| reach_arc : forall n m x0 y0 damage0 chainCount decay range,
    Reachable n m ->
    Reachable n
      (mk (snd (fst (Weapons.LightningArc.new x0 y0 damage0 chainCount decay
                       range (getEnemies m))))
          (projectiles m))
| reach_counter : forall n n' m, Reachable n m -> (n <= n')%nat -> Reachable n' m.

Definition numbered (n : nat) (ids : list nat) : Prop :=
  NoDup ids /\ forall i, In i ids -> (i < n)%nat.

Lemma numbered_filter (n : nat) (es : list Enemy.t) (f : Enemy.t -> bool) :
  numbered n (map Enemy.id es) -> numbered n (map Enemy.id (filter f es)).
Proof.
  intros [Hnd Hlt]. induction es as [ | e rest IH ]; cbn in *;
    [ split; [ constructor | intros i [] ] | ].
  inversion Hnd as [ | ? ? Hnotin Hnd' ]; subst.
  destruct (IH Hnd' (fun i H => Hlt i (or_intror H))) as [IH1 IH2].
  destruct (f e); cbn; [ | split; assumption ].
  split.
  - constructor; [ | exact IH1 ].
    intros Hin. apply Hnotin. apply in_map_iff in Hin.
    destruct Hin as (x & Hx & Hin). apply filter_In in Hin.
    rewrite <- Hx. apply in_map. tauto.
  - intros i [<- | Hin]; [ apply Hlt; left; reflexivity | apply IH2; exact Hin ].
Qed.

(** X8.  Enemy ids are never shared: in every state the manager and the
    id counter can reach (by spawns, by the manager's own frames, by
    clearing, and by the effect engine and lightning arcs working on the
    roster), the ids of the roster are pairwise distinct and below the
    counter. *)
Theorem enemy_ids_are_distinct (n : nat) (m : EnemyManager.t) :
  Reachable n m ->
  NoDup (map Enemy.id (enemies m)) /\
  (forall e, In e (enemies m) -> (Enemy.id e < n)%nat).
Proof.
  intros Hr.
  assert (H : numbered n (map Enemy.id (enemies m))).
  { induction Hr as [ n | n m d x0 y0 level r1 r2 r3 r4 Hr IH
                    | n m rnd dt p Hr IH | n m Hr IH | n m pl dt eng Hr IH
                    | n m x0 y0 damage0 chainCount decay range Hr IH
                    | n n' m Hr IH Hle ].
    - split; [ constructor | intros i [] ].
    - destruct IH as [Hnd Hlt]. unfold spawn. cbn [fst snd enemies].
      rewrite map_app. cbn [map Enemy.new Enemy.id]. split.
      + apply NoDup_app.
        * exact Hnd.
        * constructor; [ intros [] | constructor ].
        * intros a Ha [<- | []]. specialize (Hlt _ Ha). lia.
      + intros i Hin. apply in_app_or in Hin.
        destruct Hin as [Hin | [<- | []]]; [ specialize (Hlt _ Hin) | ]; lia.
    - rewrite (manager_keeps_the_living_ids rnd dt p m). apply numbered_filter. exact IH.
    - split; [ constructor | intros i [] ].
    - cbn [enemies]. unfold getEnemies.
      destruct (RosterFacts.checkHits_ok
                  (filter Weapons.alive
                     (map (Weapons.EffectEngine.advance pl dt)
                        (Weapons.EffectEngine.effects eng))) (enemies m)) as [Hs _].
      unfold Weapons.EffectEngine.update.
      destruct (Weapons.EffectEngine._checkHits _ (enemies m)) as [[effs roster] calls].
      cbn [fst snd] in *.
      destruct (RosterFacts.spared_roster _ _ Hs) as (_ & H2 & _).
      rewrite H2. exact IH.
    - cbn [enemies]. unfold getEnemies.
      destruct (ChainRosterFacts.chain_roster x0 y0 damage0 chainCount decay range
                  (enemies m)) as (_ & H2 & _).
      rewrite H2. exact IH.
    - destruct IH as [Hnd Hlt]. split; [ exact Hnd | ].
      intros i Hin. specialize (Hlt i Hin). lia. }
  destruct H as [Hnd Hlt]. split; [ exact Hnd | ].
  intros e Hin. apply Hlt. apply in_map. exact Hin.
Qed.

Lemma enemy_ids_are_distinct_witness :
  NoDup (map Enemy.id
           (enemies
              (fst (spawn 1 Constants.ENEMY_TYPES.imp 200 100 1 0 0 0 0
                      (fst (spawn 0 Constants.ENEMY_TYPES.shambler 100 100 1 0 0 0 0
                              new)))))).
Proof.
  apply (enemy_ids_are_distinct 2
           (fst (spawn 1 Constants.ENEMY_TYPES.imp 200 100 1 0 0 0 0
                   (fst (spawn 0 Constants.ENEMY_TYPES.shambler 100 100 1 0 0 0 0
                           new))))).
  apply (reach_spawn 1 _ Constants.ENEMY_TYPES.imp 200 100 1 0 0 0 0).
  apply (reach_spawn 0 _ Constants.ENEMY_TYPES.shambler 100 100 1 0 0 0 0).
  apply reach_new.
Defined.

End ManagerFacts.

(** ** Clamping and normalising *)

Module GeometryFacts.

Import Utils.

Lemma clamp_range (v lo hi : R) : lo <= hi -> lo <= clamp v lo hi <= hi.
Proof.
  intros H. unfold clamp, Num.max, Num.min.
  unfold Rmax, Rmin. destruct (Rle_dec hi v), (Rle_dec lo _); lra.
Qed.

Lemma clamp_inside (v lo hi : R) : lo <= v <= hi -> clamp v lo hi = v.
Proof.
  intros H. unfold clamp, Num.max, Num.min.
  unfold Rmax, Rmin. destruct (Rle_dec hi v), (Rle_dec lo _); lra.
Qed.

Lemma clamp_crossed (v lo hi : R) : hi <= lo -> clamp v lo hi = lo.
Proof.
  intros H. unfold clamp, Num.max, Num.min.
  unfold Rmax, Rmin. destruct (Rle_dec hi v), (Rle_dec lo _); lra.
Qed.

(** X9.  [clamp(val, min, max)] with [min <= max] returns a value between
    the two, [val] itself when it already lies between them, the nearer
    bound otherwise, and clamping again changes nothing.  With the bounds
    crossed ([max < min]) it returns [min] whatever the value. *)
Theorem clamp_stays_within_its_bounds (v lo hi : R) :
  (lo <= hi ->
     lo <= clamp v lo hi <= hi /\
     (lo <= v <= hi -> clamp v lo hi = v) /\
     (v < lo -> clamp v lo hi = lo) /\
     (hi < v -> clamp v lo hi = hi) /\
     clamp (clamp v lo hi) lo hi = clamp v lo hi) /\
  (hi < lo -> clamp v lo hi = lo).
Proof.
  split.
  - intros H. split; [ apply clamp_range; exact H | ].
    split; [ apply clamp_inside | ].
    split; [ | split ].
    + intros Hv. unfold clamp, Num.max, Num.min.
      unfold Rmax, Rmin. destruct (Rle_dec hi v), (Rle_dec lo _); lra.
    + intros Hv. unfold clamp, Num.max, Num.min.
      unfold Rmax, Rmin. destruct (Rle_dec hi v), (Rle_dec lo _); lra.
    + apply clamp_inside, clamp_range. exact H.
  - intros H. apply clamp_crossed. lra.
Qed.

Lemma normalize_unit (x y : R) :
  x <> 0 \/ y <> 0 ->
  let len := sqrt (x * x + y * y) in
  0 < len /\
  normalize x y = mkVec (x / len) (y / len) /\
  vx (normalize x y) * vx (normalize x y)
  + vy (normalize x y) * vy (normalize x y) = 1.
Proof.
  intros H len.
  pose proof (UtilsFacts.sumsq_pos x y H) as Hpos.
  pose proof (sqrt_lt_R0 _ Hpos) as Hl. fold len in Hl.
  assert (Hsq : len * len = x * x + y * y).
  { unfold len. apply sqrt_sqrt. lra. }
  split; [ exact Hl | ].
  unfold normalize. fold len. rewrite NumFacts.eqb_false by lra.
  split; [ reflexivity | ]. cbn.
  replace (x / len * (x / len) + y / len * (y / len))
    with ((x * x + y * y) / (len * len)) by (field; lra).
  rewrite Hsq. field. lra.
Qed.

(** X10.  [normalize(x, y)] returns the zero vector for the zero vector,
    and for any other input the unit vector of the same direction: its
    length is 1 and scaling it by the input's length gives the input
    back. *)
Theorem normalize_gives_a_unit_vector_or_zero (x y : R) :
  normalize 0 0 = mkVec 0 0 /\
  (x <> 0 \/ y <> 0 ->
     sqrt (vx (normalize x y) * vx (normalize x y)
           + vy (normalize x y) * vy (normalize x y)) = 1 /\
     vx (normalize x y) * sqrt (x * x + y * y) = x /\
     vy (normalize x y) * sqrt (x * x + y * y) = y).
Proof.
  split; [ apply UtilsFacts.normalize_zero | ].
  intros H. destruct (normalize_unit x y H) as (Hl & -> & Hu). cbn in *.
  rewrite Hu, sqrt_1. repeat split; field; lra.
Qed.

End GeometryFacts.

(** ** How an enemy moves *)

Module EnemyMoveFacts.

Import Enemy.

Ltac all_ifs :=
  repeat (cbn; match goal with
          | |- context [if ?b then _ else _] => destruct b
          end); cbn.

(** The steering vector is a unit vector unless the enemy stands on the
    player. *)
Lemma wobbleDir_unit (amp : R) (pl : Player.t) (e : t) :
  Player.x pl - x e <> 0 \/ Player.y pl - y e <> 0 ->
  Utils.vx (wobbleDir amp pl e) * Utils.vx (wobbleDir amp pl e)
  + Utils.vy (wobbleDir amp pl e) * Utils.vy (wobbleDir amp pl e) = 1.
Proof.
  intros H. unfold wobbleDir.
  destruct (GeometryFacts.normalize_unit _ _ H) as (_ & _ & Hu).
  set (d := Utils.normalize (Player.x pl - x e) (Player.y pl - y e)) in *.
  cbn zeta. set (w := sin (wobblePhase e) * amp).
  apply GeometryFacts.normalize_unit.
  destruct (Req_dec (Utils.vx d + - Utils.vy d * w) 0) as [E1 | E1]; [ | left; exact E1 ].
  right. intros E2. nra.
Qed.

Lemma wobbleDir_still (amp : R) (pl : Player.t) (e : t) :
  Player.x pl - x e = 0 -> Player.y pl - y e = 0 ->
  wobbleDir amp pl e = Utils.mkVec 0 0.
Proof.
  intros Hx Hy. unfold wobbleDir. rewrite Hx, Hy, UtilsFacts.normalize_zero. cbn.
  replace (0 + -0 * (sin (wobblePhase e) * amp)) with 0 by ring.
  replace (0 + 0 * (sin (wobblePhase e) * amp)) with 0 by ring.
  apply UtilsFacts.normalize_zero.
Qed.

(** The displacement of an enemy between two of its states. *)
Definition moved (e e' : t) : R := Utils.distance (x e') (y e') (x e) (y e).

Definition atMostUnit (n : Utils.Vec) : Prop :=
  Utils.vx n * Utils.vx n + Utils.vy n * Utils.vy n <= 1.

Lemma normalize_atMostUnit (a b : R) : atMostUnit (Utils.normalize a b).
Proof.
  unfold atMostUnit.
  destruct (Req_dec a 0) as [Ha | Ha]; [ destruct (Req_dec b 0) as [Hb | Hb] | ].
  - subst. rewrite UtilsFacts.normalize_zero. cbn. lra.
  - destruct (GeometryFacts.normalize_unit a b (or_intror Hb)) as (_ & _ & Hu). lra.
  - destruct (GeometryFacts.normalize_unit a b (or_introl Ha)) as (_ & _ & Hu). lra.
Qed.

Lemma wobbleDir_atMostUnit (amp : R) (pl : Player.t) (e : t) :
  atMostUnit (wobbleDir amp pl e).
Proof. unfold wobbleDir. cbn zeta. apply normalize_atMostUnit. Qed.

(** A step of [c] along a vector of length at most 1 covers at most [c]. *)
Lemma step_bound (x0 y0 nx ny c k : R) :
  nx * nx + ny * ny <= 1 -> 0 <= c <= k ->
  Utils.distance (x0 + nx * c) (y0 + ny * c) x0 y0 <= k.
Proof.
  intros Hn [Hc Hk]. unfold Utils.distance. cbn zeta.
  replace ((x0 + nx * c - x0) * (x0 + nx * c - x0)
           + (y0 + ny * c - y0) * (y0 + ny * c - y0))
    with ((nx * nx + ny * ny) * Rsqr c) by (unfold Rsqr; ring).
  apply Rle_trans with (sqrt (Rsqr c)); [ | rewrite sqrt_Rsqr; lra ].
  apply sqrt_le_1_alt.
  pose proof (Rle_0_sqr c). nra.
Qed.

Lemma step_none (x0 y0 k : R) : 0 <= k -> Utils.distance x0 y0 x0 y0 <= k.
Proof.
  intros Hk. unfold Utils.distance. cbn zeta.
  replace ((x0 - x0) * (x0 - x0) + (y0 - y0) * (y0 - y0)) with 0 by ring.
  rewrite sqrt_0. exact Hk.
Qed.

(** X11.  The slow debuff really slows: in one step of any of the three
    behaviours, of length [dt >= 0], an enemy (speed and slow factor not
    negative, strafe direction 1 or -1) is displaced by at most
    [speed * slowFactor * dt]; a swarm enemy and a chasing melee enemy out
    of reach that do not stand exactly on the player are displaced by
    exactly that much, whatever the wobble. *)
Theorem enemies_move_at_their_slowed_speed (rnd dt : R) (pl : Player.t) (e : t) :
  0 <= dt -> 0 <= speed e -> 0 <= slowFactor e ->
  strafeDir e = 1 \/ strafeDir e = -1 ->
  let k := speed e * slowFactor e * dt in
  moved e (_updateSwarm dt pl e) <= k /\
  moved e (fst (fst (_updateMelee dt pl e))) <= k /\
  moved e (_updateRanged rnd dt pl e) <= k /\
  (Player.x pl <> x e \/ Player.y pl <> y e ->
     moved e (_updateSwarm dt pl e) = k /\
     (meleeState e = Chase ->
      attackRange e + Player.radius pl + radius e
        <= Utils.distance (x e) (y e) (Player.x pl) (Player.y pl) ->
      moved e (fst (fst (_updateMelee dt pl e))) = k)).
Proof.
  intros Hdt Hsp Hsl Hsd k.
  assert (Hk : 0 <= k)
    by (unfold k; apply Rmult_le_pos; [ apply Rmult_le_pos | ]; assumption).
  assert (Hexact : forall amp,
            Player.x pl <> x e \/ Player.y pl <> y e ->
            Utils.distance
              (x e + Utils.vx (wobbleDir amp pl e) * speed e * slowFactor e * dt)
              (y e + Utils.vy (wobbleDir amp pl e) * speed e * slowFactor e * dt)
              (x e) (y e) = k).
  { intros amp Hne.
    assert (H : Player.x pl - x e <> 0 \/ Player.y pl - y e <> 0)
      by (destruct Hne; [ left | right ]; lra).
    pose proof (wobbleDir_unit amp pl e H) as Hu.
    set (n := wobbleDir amp pl e) in *.
    unfold Utils.distance. cbn zeta.
    replace ((x e + Utils.vx n * speed e * slowFactor e * dt - x e)
             * (x e + Utils.vx n * speed e * slowFactor e * dt - x e)
             + (y e + Utils.vy n * speed e * slowFactor e * dt - y e)
               * (y e + Utils.vy n * speed e * slowFactor e * dt - y e))
      with ((Utils.vx n * Utils.vx n + Utils.vy n * Utils.vy n) * Rsqr k)
      by (unfold k, Rsqr; ring).
    rewrite Hu, Rmult_1_l. apply sqrt_Rsqr. exact Hk. }
  assert (Hwob : forall amp,
            Utils.distance
              (x e + Utils.vx (wobbleDir amp pl e) * speed e * slowFactor e * dt)
              (y e + Utils.vy (wobbleDir amp pl e) * speed e * slowFactor e * dt)
              (x e) (y e) <= k).
  { intros amp.
    replace (Utils.vx (wobbleDir amp pl e) * speed e * slowFactor e * dt)
      with (Utils.vx (wobbleDir amp pl e) * k) by (unfold k; ring).
    replace (Utils.vy (wobbleDir amp pl e) * speed e * slowFactor e * dt)
      with (Utils.vy (wobbleDir amp pl e) * k) by (unfold k; ring).
    apply step_bound; [ apply wobbleDir_atMostUnit | lra ]. }
  split; [ | split; [ | split; [ | split ] ] ].
  - unfold moved, _updateSwarm. cbn. apply Hwob.
  - unfold moved, _updateMelee. cbn.
    destruct (meleeState e); all_ifs; first [ apply Hwob | apply step_none; exact Hk ].
  - unfold moved, _updateRanged.
    pose proof (normalize_atMostUnit (Player.x pl - x e) (Player.y pl - y e)) as Hd.
    unfold atMostUnit in Hd.
    set (d := Utils.normalize (Player.x pl - x e) (Player.y pl - y e)) in *.
    all_ifs;
      match goal with
      | |- Utils.distance (?x0 + Utils.vx ?n * ?c1 * ?c2)
             (?y0 + Utils.vy ?n * _ * _) _ _ <= _ =>
          replace (x0 + Utils.vx n * c1 * c2) with (x0 + Utils.vx n * k)
            by (unfold k; ring);
          replace (y0 + Utils.vy n * c1 * c2) with (y0 + Utils.vy n * k)
            by (unfold k; ring);
          apply step_bound; [ apply wobbleDir_atMostUnit | lra ]
      | |- Utils.distance (?x0 - ?T) (?y0 - ?U) _ _ <= _ =>
          replace (x0 - T) with (x0 + (- Utils.vx d) * (k * (7 / 10)))
            by (unfold k; ring);
          replace (y0 - U) with (y0 + (- Utils.vy d) * (k * (7 / 10)))
            by (unfold k; ring);
          apply step_bound; [ nra | lra ]
      | |- Utils.distance (?x0 + - Utils.vy d * ?sd * ?c1 * ?c2 * ?c3)
             (?y0 + ?U) _ _ <= _ =>
          replace (x0 + - Utils.vy d * sd * c1 * c2 * c3)
            with (x0 + (- Utils.vy d * sd) * (k * (5 / 10)))
            by (unfold k; ring);
          replace (y0 + U) with (y0 + (Utils.vx d * sd) * (k * (5 / 10)))
            by (unfold k; ring);
          apply step_bound; [ destruct Hsd as [-> | ->]; nra | lra ]
      end.
  - unfold moved, _updateSwarm. cbn. apply Hexact. assumption.
  - intros Hs Hfar. unfold moved, _updateMelee. cbn. rewrite Hs.
    rewrite NumFacts.ltb_false by exact Hfar. all_ifs; apply Hexact; assumption.
Qed.

(** A shambler 100 to the right of the fighter, in a frame of 50 ms. *)
Definition walker : t := new 0 Constants.ENEMY_TYPES.shambler 1600 1500 1 0 0 0 0.

Lemma enemies_move_at_their_slowed_speed_witness :
  moved walker (fst (fst (_updateMelee (1 / 20) StateFacts.fighter walker)))
  <= speed walker * slowFactor walker * (1 / 20).
Proof.
  apply (enemies_move_at_their_slowed_speed 0 (1 / 20) StateFacts.fighter walker).
  - lra.
  - cbn. lra.
  - cbn. lra.
  - left. cbn. rewrite NumFacts.ltb_true by lra. reflexivity.
Defined.

(** *** The world bounds *)

Lemma updateMelee_radius (dt : R) (pl : Player.t) (e : t) :
  radius (fst (fst (_updateMelee dt pl e))) = radius e.
Proof. unfold _updateMelee. cbn. destruct (meleeState e); all_ifs; reflexivity. Qed.

Lemma updateRanged_radius (rnd dt : R) (pl : Player.t) (e : t) :
  radius (_updateRanged rnd dt pl e) = radius e.
Proof. unfold _updateRanged. all_ifs; reflexivity. Qed.

Lemma preBehavior_radius (dt : R) (e : t) : radius (preBehavior dt e) = radius e.
Proof. unfold preBehavior, knockbackDecay, slowTick. all_ifs; reflexivity. Qed.

(** X12.  [Enemy.update] never leaves a live enemy outside the world: for
    an enemy that is not dead and whose radius is at most half the world's
    side, it keeps the radius and returns a position at least one radius
    inside each border, wherever the enemy was and however far its
    behaviour and its knockback would carry it.  A dead enemy is returned
    as it is, with the player untouched and no call made. *)
Theorem enemy_update_stays_inside_the_world (rnd dt : R) (pl : Player.t) (e : t) :
  (dead e = false ->
   radius e <= Constants.WORLD.WIDTH / 2 ->
   let e' := fst (fst (update rnd dt pl e)) in
   radius e' = radius e /\
   radius e <= x e' <= Constants.WORLD.WIDTH - radius e /\
   radius e <= y e' <= Constants.WORLD.HEIGHT - radius e) /\
  (dead e = true -> update rnd dt pl e = (e, pl, [])).
Proof.
  split.
  - intros Hd Hr e'. unfold e', update. rewrite Hd.
    unfold Constants.WORLD.WIDTH, Constants.WORLD.HEIGHT in *.
    pose proof (preBehavior_radius dt e) as Hpre.
    set (e1 := preBehavior dt e) in *.
    assert (Hfin : forall (e2 : t) (pl2 : Player.t) (c2 : list R),
              radius e2 = radius e ->
              let r := (let e3 := if 0 <? flashTimer e2
                                  then set_flashTimer (flashTimer e2 - dt) e2 else e2 in
                        let e4 := set_x (Utils.clamp (x e3) (radius e3) (3000 - radius e3)) e3 in
                        let e5 := set_y (Utils.clamp (y e4) (radius e4) (3000 - radius e4)) e4 in
                        (e5, pl2, c2)) in
              radius (fst (fst r)) = radius e /\
              radius e <= x (fst (fst r)) <= 3000 - radius e /\
              radius e <= y (fst (fst r)) <= 3000 - radius e).
    { intros e2 pl2 c2 H2. cbn zeta.
      destruct (0 <? flashTimer e2); cbn; rewrite H2;
        (split; [ reflexivity | split; apply GeometryFacts.clamp_range; lra ]). }
    destruct (behavior e1).
    + apply (Hfin (_updateSwarm dt pl e1) pl []). unfold _updateSwarm. cbn. exact Hpre.
    + pose proof (updateMelee_radius dt pl e1) as Hm.
      destruct (_updateMelee dt pl e1) as [[e2 pl2] c2]. cbn [fst snd] in Hm.
      apply (Hfin e2 pl2 c2). congruence.
    + apply (Hfin (_updateRanged rnd dt pl e1) pl []).
      rewrite updateRanged_radius. exact Hpre.
  - intros Hd. unfold update. rewrite Hd. reflexivity.
Qed.

End EnemyMoveFacts.

(** ** A jump from the ground *)

Module JumpFacts.

Import Constants PlayerStateMachine.
Import StateFacts.

(** One frame of the state machine: the clock, the frame time, the
    movement input and the strafe flag. *)
Record Frame := mkFrame {
  f_now : R;
  f_dt : R;
  f_move : Utils.Vec;
  f_strafe : bool
}.

(** The frames in order; [None] if one of them throws. *)
Fixpoint run (frames : list Frame) (world : option World) (s : t)
    (p : Player.t) : option (t * Player.t) :=
  match frames with
  | [] => Some (s, p)
  | f :: rest =>
      match update (f_now f) (f_dt f) (f_move f) (f_strafe f) world s p with
      | Some (s', p') => run rest world s' p'
      | None => None
      end
  end.

(** A world without vines to grab. *)
Definition noVines (world : option World) : Prop :=
  forall w, world = Some w ->
    forall px py pr h, checkVineGrab w px py pr h = None.

(** The apex of a jump from the ground: v0^2 / (2 g). *)
Definition apex : R := 5625 / 100.

(** On the ground, or on the way of a jump from the ground. *)
Definition jumpInv (s : t) : Prop :=
  gapFalling s = false /\ fallStartZ s <= apex /\
  ((isGrounded s = true /\ z s = 0) \/
   (state s = jumping /\ 0 <= z s /\
    1600 * z s + vz s * vz s <= 90000)).

Lemma noVines_grab (world : option World) (s : t) (p : Player.t) :
  noVines world -> vineGrab world s p = None.
Proof.
  intros Hn. unfold vineGrab. destruct world as [w | ]; [ | reflexivity ].
  rewrite (Hn w eq_refl). destruct (_ <=? _); reflexivity.
Qed.

(** The height physics of one frame of a jump, in terms of the energy
    [1600 z + vz^2]: it does not grow, unless the frame ends below the
    ground. *)
Lemma integrate_jump (dt : R) (s : t) :
  0 <= dt ->
  state s = jumping -> 0 <= z s ->
  1600 * z s + vz s * vz s <= 90000 -> fallStartZ s <= apex ->
  let s' := integrate dt s in
  state s' = jumping /\ gapFalling s' = gapFalling s /\
  fallStartZ s' <= apex /\
  (z s' <= 0 \/ (0 < z s' /\ 1600 * z s' + vz s' * vz s' <= 90000)).
Proof.
  intros Hdt Hs Hz He Hf s'. unfold s'.
  split; [ rewrite integrate_state; exact Hs | ].
  split; [ apply integrate_gapFalling | ].
  unfold integrate, apex in *. cbn. rewrite Hs.
  unfold JUMP.gravity, Num.max.
  set (v1 := vz s - 800 * dt).
  assert (Hv : (Rmax v1 (-600) = v1 /\ -600 <= v1) \/ (Rmax v1 (-600) = -600 /\ v1 < -600)).
  { unfold Rmax. destruct (Rle_dec v1 (-600)); [ | left; split; lra ].
    destruct (Req_dec v1 (-600)); [ left; split; lra | right; split; lra ]. }
  set (v' := Rmax v1 (-600)) in *.
  assert (Hcases : z s + v' * dt <= 0 \/
                   (0 < z s + v' * dt /\
                    1600 * (z s + v' * dt) + v' * v' <= 90000)).
  { destruct (Rle_dec (z s + v' * dt) 0) as [Hl | Hl]; [ left; exact Hl | right ].
    split; [ lra | ].
    destruct Hv as [[-> Hge] | [Hv Hlt]].
    - unfold v1 in *. nra.
    - exfalso. rewrite Hv in Hl. unfold v1 in Hlt.
      assert (Hsq : 0 <= (vz s + 600) * (vz s + 600)) by nra.
      nra. }
  assert (Hpeak : z s + v' * dt <= 5625 / 100 \/ z s + v' * dt <= 0).
  { destruct Hcases as [Hl | [Hp Hen]]; [ right; exact Hl | left; nra ]. }
  destruct ((v' <? 0) && (fallStartZ s <? z s + v' * dt)) eqn:Hc; cbn.
  - split; [ | exact Hcases ]. destruct Hpeak; lra.
  - split; [ exact Hf | exact Hcases ].
Qed.

Lemma hangStep_passes (now dt : R) (s : t) :
  state s <> hanging -> hangStep now dt s = Some s.
Proof. unfold hangStep. destruct (state s); congruence. Qed.

(** The player but for the height the state machine copies into it. *)
Definition sameButHeight (p p' : Player.t) : Prop :=
  p' = Player.set_z (Player.z p') p.

Lemma sameButHeight_refl (p : Player.t) : sameButHeight p p.
Proof. unfold sameButHeight. destruct p; reflexivity. Qed.

Lemma sameButHeight_set (h : R) (p p' : Player.t) :
  sameButHeight p p' -> sameButHeight p (Player.set_z h p').
Proof. unfold sameButHeight. intros ->. destruct p; reflexivity. Qed.

Lemma update_jump (f : Frame) (world : option World) (s : t) (p : Player.t) :
  noVines world -> 0 <= f_dt f -> jumpInv s ->
  exists s' p',
    update (f_now f) (f_dt f) (f_move f) (f_strafe f) world s p = Some (s', p') /\
    jumpInv s' /\ sameButHeight p p' /\ Player.z p' = z s'.
Proof.
  intros Hn Hdt (Hg & Hf & [[Hgr Hz] | (Hs & Hz & He)]).
  - (* on the ground *)
    assert (Hair : forall s1, isGrounded s1 = true -> isAirborne s1 = false).
    { intros s1. unfold isGrounded, isAirborne. destruct (state s1); congruence. }
    unfold update.
    destruct (trackSafe_gapFalling world s p) as [Hg1 Hs1].
    set (s1 := trackSafe world s p) in *.
    assert (Hgr1 : isGrounded s1 = true).
    { unfold isGrounded in *. rewrite Hs1. exact Hgr. }
    assert (Hz1 : z s1 = z s /\ fallStartZ s1 = fallStartZ s).
    { unfold s1, trackSafe. break_ifs; split; reflexivity. }
    destruct Hz1 as [Hz1 Hf1].
    set (s2 := groundState (f_move f) (f_strafe f) s1).
    assert (H2 : isGrounded s2 = true /\ z s2 = z s1 /\
                 gapFalling s2 = gapFalling s1 /\ fallStartZ s2 = fallStartZ s1).
    { unfold s2, groundState. rewrite Hgr1.
      destruct (_ || _); [ destruct (f_strafe f) | ]; cbn; auto. }
    destruct H2 as (Hgr2 & Hz2 & Hg2 & Hf2).
    rewrite (Hair s2 Hgr2). unfold finish.
    rewrite hangStep_passes
      by (unfold isGrounded in Hgr2; destruct (state s2); congruence).
    eexists. eexists. split; [ reflexivity | ].
    destruct (squashDecay_fields (f_dt f) s2) as (Hs3 & Hz3 & _ & Hf3).
    split.
    + split; [ rewrite squashDecay_gapFalling; congruence | ].
      split; [ rewrite Hf3, Hf2, Hf1; exact Hf | left ].
      split; [ unfold isGrounded in *; rewrite Hs3; exact Hgr2 | congruence ].
    + split; [ apply sameButHeight_set, sameButHeight_refl | reflexivity ].
  - (* in the air *)
    assert (Ha : isAirborne s = true) by (unfold isAirborne; rewrite Hs; reflexivity).
    destruct (integrate_jump (f_dt f) s Hdt Hs Hz He Hf) as (Hs' & Hg' & Hf' & Hcase).
    destruct Hcase as [Hland | [Hup He']].
    + rewrite update_landing
        by (try assumption; apply noVines_grab; exact Hn).
      eexists. eexists. split; [ reflexivity | ].
      unfold fallDamage. rewrite NumFacts.ltb_false by (unfold apex in Hf'; lra).
      unfold touchdown.
      destruct (squashDecay_fields (f_dt f)
                  (set_state idle
                     (set_fallStartZ 0
                        (set_landSquash JUMP.landSquashDuration
                           (set_vz 0 (set_z 0 (integrate (f_dt f) s)))))))
        as (Hs3 & Hz3 & _ & Hf3).
      split.
      * split; [ rewrite squashDecay_gapFalling; cbn; congruence | ].
        split; [ rewrite Hf3; cbn; unfold apex; lra | left ].
        split; [ unfold isGrounded; rewrite Hs3; reflexivity | rewrite Hz3; reflexivity ].
      * split; [ apply sameButHeight_set, sameButHeight_refl | ].
        rewrite Hz3. reflexivity.
    + unfold update.
      rewrite (trackSafe_airborne world s p Ha),
              (groundState_airborne (f_move f) (f_strafe f) s Ha), Ha, Hg.
      rewrite (noVines_grab world _ p Hn).
      rewrite NumFacts.leb_false by lra.
      unfold finish. rewrite hangStep_passes by congruence.
      eexists. eexists. split; [ reflexivity | ].
      destruct (squashDecay_fields (f_dt f) (integrate (f_dt f) s))
        as (Hs3 & Hz3 & Hv3 & Hf3).
      split.
      * split; [ rewrite squashDecay_gapFalling; congruence | ].
        split; [ rewrite Hf3; exact Hf' | right ].
        rewrite Hs3, Hz3, Hv3. repeat split; try assumption; lra.
      * split; [ apply sameButHeight_set, sameButHeight_refl | reflexivity ].
Qed.

Lemma sameButHeight_trans (p p1 p2 : Player.t) :
  sameButHeight p p1 -> sameButHeight p1 p2 -> sameButHeight p p2.
Proof. unfold sameButHeight. intros -> ->. destruct p; reflexivity. Qed.

Lemma run_jump (frames : list Frame) (world : option World) :
  forall s p,
    noVines world -> Forall (fun f => 0 <= f_dt f) frames -> jumpInv s ->
    exists s' p',
      run frames world s p = Some (s', p') /\
      jumpInv s' /\ sameButHeight p p'.
Proof.
  induction frames as [ | f rest IH ]; intros s p Hn Hdt Hinv; cbn [run].
  - exists s, p. split; [ reflexivity | split; [ exact Hinv | apply sameButHeight_refl ] ].
  - inversion Hdt as [ | ? ? Hf Hrest ]; subst.
    destruct (update_jump f world s p Hn Hf Hinv) as (s1 & p1 & E & Hinv1 & Hsame1 & _).
    rewrite E.
    destruct (IH s1 p1 Hn Hrest Hinv1) as (s2 & p2 & E2 & Hinv2 & Hsame2).
    exists s2, p2. split; [ exact E2 | ]. split; [ exact Hinv2 | ].
    eapply sameButHeight_trans; eassumption.
Qed.

(** X13.  A jump from the ground never hurts.  Start on the ground (idle,
    moving or strafing, at height 0, not falling into a pit), call
    [requestJump], and run any number of frames of non-negative length in
    a world without vines to grab, with any movement input: no frame
    throws, the height stays between 0 and the apex 56.25 (= 300^2 / (2 *
    800)), so does the peak tracked for fall damage, which is below the
    threshold 80, and the player is never touched but for its height. *)
Theorem a_jump_from_the_ground_never_hurts (frames : list Frame)
    (world : option World) (s : t) (p : Player.t) :
  isGrounded s = true -> z s = 0 -> gapFalling s = false ->
  noVines world ->
  Forall (fun f => 0 <= f_dt f) frames ->
  snd (requestJump s) = true /\
  exists s' p',
    run frames world (fst (requestJump s)) p = Some (s', p') /\
    0 <= z s' <= apex /\ fallStartZ s' <= apex /\ apex < 80 /\
    p' = Player.set_z (Player.z p') p /\
    Player.hp p' = Player.hp p.
Proof.
  intros Hgr Hz Hg Hn Hdt.
  unfold requestJump. rewrite Hgr. cbn [negb fst snd].
  split; [ reflexivity | ].
  assert (Hinv : jumpInv (set_fallStartZ 0 (set_state jumping
                            (set_vz JUMP.initialVelocity s)))).
  { split; [ exact Hg | ]. cbn. rewrite Hz.
    unfold JUMP.initialVelocity, apex. split; [ lra | right ]. repeat split; lra. }
  destruct (run_jump frames world _ p Hn Hdt Hinv) as (s' & p' & E & Hinv' & Hsame).
  exists s', p'. split; [ exact E | ].
  destruct Hinv' as (_ & Hf' & Hcase).
  assert (Hz' : 0 <= z s' <= apex).
  { unfold apex. destruct Hcase as [[_ Hz'] | (_ & Hz' & He')]; [ lra | nra ]. }
  split; [ exact Hz' | ]. split; [ exact Hf' | ].
  split; [ unfold apex; lra | ]. split; [ exact Hsame | ].
  rewrite Hsame. reflexivity.
Qed.

(** The fighter jumps and three frames of 50 ms pass, without a world. *)
Definition hop3 : list Frame :=
  repeat (mkFrame 0 (1 / 20) (Utils.mkVec 0 0) false) 3.

Lemma a_jump_from_the_ground_never_hurts_witness :
  exists s' p',
    run hop3 None (fst (requestJump (new fighter))) fighter = Some (s', p') /\
    Player.hp p' = 120.
Proof.
  destruct (a_jump_from_the_ground_never_hurts hop3 None (new fighter) fighter)
    as (_ & s' & p' & E & _ & _ & _ & _ & Hhp).
  - reflexivity.
  - reflexivity.
  - reflexivity.
  - intros w Hw. discriminate.
  - unfold hop3. cbn. repeat constructor; cbn; lra.
  - exists s', p'. split; [ exact E | ]. rewrite Hhp. reflexivity.
Defined.

End JumpFacts.

(** ** The dodge system over time *)

Module DodgeRunFacts.

Import Constants DodgeSystem.
Import DodgeFacts.

(** The states a dodge system goes through: a new one, then calls of
    [execute] and frames of non-negative length, in any order. *)
Inductive Reached : DodgeSystem.t -> Prop :=
| reached_new : forall e, Reached (new e)
| reached_execute : forall mv fd d p,
    Reached d -> Reached (fst (fst (execute mv fd d p)))
| reached_update : forall dt d p,
    Reached d -> 0 <= dt -> Reached (fst (update dt d p)).

(** What [update] does to each field. *)
Lemma update_fields (dt : R) (d : t) (p : Player.t) :
  let d' := fst (update dt d p) in
  cooldown d' = (if cooldown d >? 0 then cooldown d - dt else cooldown d) /\
  maxCooldown d' = maxCooldown d /\
  timer d' = (if active d then timer d - dt else timer d) /\
  active d' = active d && negb (timer d - dt <=? 0) /\
  backstepTimer d' = (if backstepActive d then backstepTimer d - dt
                      else backstepTimer d) /\
  backstepActive d' = backstepActive d && negb (backstepTimer d - dt <=? 0) /\
  ((length (trail d) <= 6)%nat -> (length (trail d') <= 6)%nat) /\
  ((length (backstepTrail d) <= 4)%nat -> (length (backstepTrail d') <= 4)%nat).
Proof.
  assert (Hfade : forall rate l, (length (fade rate dt l) <= length l)%nat).
  { intros rate l. unfold fade.
    eapply Nat.le_trans; [ apply filter_length_le | ].
    rewrite length_map. apply Nat.le_refl. }
  assert (Hpush : forall n v l,
             (length l <= n)%nat -> (length (pushCapped n v l) <= n)%nat).
  { intros n v l Hl. unfold pushCapped.
    destruct (Nat.ltb n (length (l ++ [v]))) eqn:Hlt.
    - destruct l as [ | a l ]; cbn in *; rewrite ?length_app; cbn; lia.
    - apply Nat.ltb_ge in Hlt. exact Hlt. }
  cbn zeta. unfold update.
  repeat (cbn -[fade pushCapped];
          first
            [ cmp_step
            | match goal with
              | |- context [if active d then _ else _] => destruct (active d) eqn:Ha
              | |- context [if backstepActive d then _ else _] =>
                  destruct (backstepActive d) eqn:Hb
              end ]);
    cbn -[fade pushCapped];
    repeat split; try reflexivity; try intros Hl;
    try (eapply Nat.le_trans; [ apply Hfade | apply Hpush; exact Hl ]);
    try (eapply Nat.le_trans; [ apply Hfade | exact Hl ]);
    try assumption; try (exfalso; lra).
Qed.

(** What [execute] does: nothing, or one of the three internals from a
    ready system. *)
Lemma execute_fields (mv fd : Utils.Vec) (d : t) (p : Player.t) :
  (execute mv fd d p = (d, p, None)) \/
  (exists k,
     snd (execute mv fd d p) = Some k /\
     active d = false /\ backstepActive d = false /\ cooldown d <= 0 /\
     let d' := fst (fst (execute mv fd d p)) in
     cooldown d' = cooldownOf k /\ maxCooldown d' = cooldownOf k /\
     trail d' = trail d /\ backstepTrail d' = backstepTrail d /\
     active d' = (match k with Roll => true | _ => false end) /\
     backstepActive d' = (match k with Backstep => true | _ => false end) /\
     (k = Roll -> timer d' = DODGE.roll.duration) /\
     (k = Backstep -> backstepTimer d' = BACK_JUMP.duration)).
Proof.
  destruct (isReady d) eqn:Hr.
  - apply isReady_iff in Hr. destruct Hr as (Hc & Ha & Hb).
    unfold execute.
    rewrite NumFacts.ltb_false by exact Hc. rewrite Ha, Hb. cbn [orb].
    destruct ((Utils.vx mv !=? 0) || (Utils.vy mv !=? 0)).
    + destruct ((Utils.vx (Utils.normalize (Utils.vx mv) (Utils.vy mv)) =? 0) &&
                (Utils.vy (Utils.normalize (Utils.vx mv) (Utils.vy mv)) =? 0));
        [ left; reflexivity | right ].
      destruct (evadeType d); [ exists Roll | exists Blink ]; cbn;
        repeat split; try assumption; try reflexivity; try discriminate.
    + destruct ((Utils.vx (Utils.normalize (Utils.vx fd) (Utils.vy fd)) =? 0) &&
                (Utils.vy (Utils.normalize (Utils.vx fd) (Utils.vy fd)) =? 0));
        [ left; reflexivity | right ].
      exists Backstep; cbn;
        repeat split; try assumption; try reflexivity; try discriminate.
  - left. apply execute_blocked.
    unfold isReady in Hr. rewrite !andb_false_iff, !negb_false_iff in Hr.
    rewrite NumFacts.leb_false_iff in Hr. tauto.
Qed.

(** What every reached state satisfies. *)
Record steady (d : t) : Prop := mkSteady {
  st_max : 0 <= maxCooldown d;
  st_cool : cooldown d <= maxCooldown d;
  st_roll : active d = true ->
            0 < timer d /\
            cooldown d = timer d + (DODGE.roll.cooldown - DODGE.roll.duration);
  st_back : backstepActive d = true ->
            0 < backstepTimer d /\
            cooldown d = backstepTimer d + (BACK_JUMP.cooldown - BACK_JUMP.duration);
  st_trail : (length (trail d) <= 6)%nat;
  st_backTrail : (length (backstepTrail d) <= 4)%nat
}.

Lemma reached_steady (d : t) : Reached d -> steady d.
Proof.
  induction 1 as [ e | mv fd d p Hr IH | dt d p Hr IH Hdt ].
  - constructor; cbn; try lra; try lia; discriminate.
  - destruct (execute_fields mv fd d p) as [E | (k & Ek & Ha & Hb & Hc & H)].
    + rewrite E. exact IH.
    + cbn zeta in H.
      destruct H as (Hcd & Hmx & Htr & Hbt & Hact & Hbk & Htm & Hbtm).
      destruct IH as [I1 I2 I3 I4 I5 I6].
      pose proof (cooldownOf_pos k) as Hpos.
      constructor; rewrite ?Hcd, ?Hmx, ?Htr, ?Hbt, ?Hact, ?Hbk;
        try lra; try assumption.
      * destruct k; try discriminate. intros _. rewrite (Htm eq_refl). cbn.
        unfold DODGE.roll.duration, DODGE.roll.cooldown. split; lra.
      * destruct k; try discriminate. intros _. rewrite (Hbtm eq_refl). cbn.
        unfold BACK_JUMP.duration, BACK_JUMP.cooldown. split; lra.
  - destruct (update_fields dt d p) as (Hcd & Hmx & Htm & Hact & Hbtm & Hbk & Htr & Hbt).
    destruct IH as [I1 I2 I3 I4 I5 I6].
    constructor; rewrite ?Hcd, ?Hmx, ?Htm, ?Hact, ?Hbtm, ?Hbk; auto.
    + destruct (cooldown d >? 0); lra.
    + intros Ha. apply andb_true_iff in Ha. destruct Ha as [Ha Ht].
      apply negb_true_iff, NumFacts.leb_false_iff in Ht.
      destruct (I3 Ha) as [Hpos Heq]. rewrite Ha.
      rewrite NumFacts.ltb_true
        by (rewrite Heq; unfold DODGE.roll.duration, DODGE.roll.cooldown; lra).
      split; lra.
    + intros Hb. apply andb_true_iff in Hb. destruct Hb as [Hb Ht].
      apply negb_true_iff, NumFacts.leb_false_iff in Ht.
      destruct (I4 Hb) as [Hpos Heq]. rewrite Hb.
      rewrite NumFacts.ltb_true
        by (rewrite Heq; unfold BACK_JUMP.duration, BACK_JUMP.cooldown; lra).
      split; lra.
Qed.

(** X14.  In every state a dodge system reaches (a new one, then calls of
    [execute] and frames of non-negative length in any order) the cooldown
    meter [getCooldownPercent] lies between 0 and 1, a roll or backstep in
    progress is always over before the shared cooldown is, so that the
    system is ready exactly when the cooldown has run out, and the roll and
    backstep trails never hold more than 6 and 4 dots. *)
Theorem dodge_states_stay_in_range (d : t) :
  Reached d ->
  0 <= getCooldownPercent d <= 1 /\
  (isMovementLocked d = true -> 0 < cooldown d) /\
  (isReady d = true <-> cooldown d <= 0) /\
  (length (trail d) <= 6)%nat /\ (length (backstepTrail d) <= 4)%nat.
Proof.
  intros Hr. destruct (reached_steady d Hr) as [I1 I2 I3 I4 I5 I6].
  assert (Hlock : isMovementLocked d = true -> 0 < cooldown d).
  { unfold isMovementLocked. intros H. apply orb_true_iff in H.
    destruct H as [Ha | Hb].
    - destruct (I3 Ha) as [Hp ->]. unfold DODGE.roll.duration, DODGE.roll.cooldown. lra.
    - destruct (I4 Hb) as [Hp ->]. unfold BACK_JUMP.duration, BACK_JUMP.cooldown. lra. }
  split; [ | split; [ exact Hlock | split; [ | split; assumption ] ] ].
  - unfold getCooldownPercent, Num.max.
    destruct (maxCooldown d <=? 0) eqn:Hm; [ lra | ].
    apply NumFacts.leb_false_iff in Hm.
    split; [ apply Rmax_l | ].
    apply Rmax_lub; [ lra | ].
    apply Rmult_le_reg_r with (maxCooldown d); [ lra | ].
    unfold Rdiv. rewrite Rmult_assoc, Rinv_l by lra. lra.
  - rewrite isReady_iff. split; [ tauto | ].
    intros Hc. split; [ exact Hc | ].
    unfold isMovementLocked in Hlock.
    destruct (active d); [ specialize (Hlock eq_refl); lra | ].
    destruct (backstepActive d); [ specialize (Hlock eq_refl); lra | ].
    split; reflexivity.
Qed.

(** The fighter rolls, then a frame of 50 ms passes. *)
Lemma dodge_states_stay_in_range_witness :
  let d := fst (update (1 / 20)
                  (fst (fst (execute (Utils.mkVec 1 0) (Utils.mkVec 1 0) (new roll)
                               StateFacts.fighter)))
                  StateFacts.fighter) in
  0 <= getCooldownPercent d <= 1.
Proof.
  apply (dodge_states_stay_in_range
           (fst (update (1 / 20)
                   (fst (fst (execute (Utils.mkVec 1 0) (Utils.mkVec 1 0) (new roll)
                                StateFacts.fighter)))
                   StateFacts.fighter))).
  apply reached_update; [ | lra ].
  apply reached_execute. apply reached_new.
Defined.

(** *** Blink *)

(** Clamping a step from inside an interval only shortens it. *)
Lemma clamp_step (x0 a lo hi : R) :
  lo <= x0 <= hi ->
  (Utils.clamp (x0 + a) lo hi - x0) * (Utils.clamp (x0 + a) lo hi - x0) <= a * a.
Proof.
  intros Hx. unfold Utils.clamp, Num.max, Num.min, Rmax, Rmin.
  destruct (Rle_dec hi (x0 + a)), (Rle_dec lo _); nra.
Qed.

(** X15.  A blink never leaves the world and never carries further than
    its distance.  When a ready blink-type dodge system is asked to dodge
    with a movement input, it teleports: the player (radius at most half
    the world's side) ends at least one radius inside each border; a player
    who was inside ends at most 120 from where it stood, and exactly 120
    along the input direction when that point is inside; the
    invulnerability timer is raised to at least 0.15 and never lowered. *)
Theorem blink_stays_inside_the_world (mv fd : Utils.Vec) (d : t) (p : Player.t) :
  isReady d = true -> evadeType d = blink ->
  Utils.vx mv <> 0 \/ Utils.vy mv <> 0 ->
  Player.radius p <= WORLD.WIDTH / 2 ->
  let p' := snd (fst (execute mv fd d p)) in
  let dir := Utils.normalize (Utils.vx mv) (Utils.vy mv) in
  let inside (q : Player.t) :=
    Player.radius p <= Player.x q <= WORLD.WIDTH - Player.radius p /\
    Player.radius p <= Player.y q <= WORLD.HEIGHT - Player.radius p in
  snd (execute mv fd d p) = Some Blink /\
  inside p' /\
  (inside p ->
   Utils.distance (Player.x p') (Player.y p') (Player.x p) (Player.y p)
     <= DODGE.blink.distance) /\
  (inside (Player.set_y (Player.y p + Utils.vy dir * DODGE.blink.distance)
             (Player.set_x (Player.x p + Utils.vx dir * DODGE.blink.distance) p)) ->
   Player.x p' = Player.x p + Utils.vx dir * DODGE.blink.distance /\
   Player.y p' = Player.y p + Utils.vy dir * DODGE.blink.distance) /\
  Player.invulnTimer p' = Rmax (Player.invulnTimer p) DODGE.blink.iframes /\
  Player.hp p' = Player.hp p.
Proof.
  intros Hr Ht Hmv Hrad p' dir inside.
  apply isReady_iff in Hr. destruct Hr as (Hc & Ha & Hb).
  assert (E : execute mv fd d p
              = (fst (_triggerBlink dir d p), snd (_triggerBlink dir d p), Some Blink)).
  { unfold execute.
    rewrite NumFacts.ltb_false by exact Hc. rewrite Ha, Hb. cbn [orb].
    rewrite (proj2 (hasInput_iff mv) Hmv).
    rewrite (zero_test _ (UtilsFacts.normalize_nonzero _ _ Hmv)).
    rewrite Ht. fold dir. destruct (_triggerBlink dir d p). reflexivity. }
  unfold p'. rewrite E. cbn [fst snd].
  unfold inside, _triggerBlink. cbn.
  unfold WORLD.WIDTH, WORLD.HEIGHT, DODGE.blink.distance in *.
  split; [ reflexivity | ].
  split; [ split; apply GeometryFacts.clamp_range; lra | ].
  split; [ | split; [ | split; reflexivity ] ].
  - intros [Hx Hy]. unfold Utils.distance. cbn zeta.
    destruct (GeometryFacts.normalize_unit _ _ Hmv) as (_ & _ & Hu). fold dir in Hu.
    pose proof (clamp_step (Player.x p) (Utils.vx dir * 120) (Player.radius p)
                  (3000 - Player.radius p) Hx) as Bx.
    pose proof (clamp_step (Player.y p) (Utils.vy dir * 120) (Player.radius p)
                  (3000 - Player.radius p) Hy) as By.
    apply Rle_trans with (sqrt (Rsqr 120)); [ | rewrite sqrt_Rsqr; lra ].
    apply sqrt_le_1_alt. unfold Rsqr. nra.
  - intros [Hx Hy]. split; apply GeometryFacts.clamp_inside; assumption.
Qed.

(** The mage blinks to the right from the middle of the world. *)
Lemma blink_stays_inside_the_world_witness :
  snd (execute (Utils.mkVec 1 0) (Utils.mkVec 1 0) (new blink) AbilityFacts.mage)
  = Some Blink.
Proof.
  apply (blink_stays_inside_the_world (Utils.mkVec 1 0) (Utils.mkVec 1 0)
           (new blink) AbilityFacts.mage).
  - apply isReady_iff. cbn. repeat split; try reflexivity; lra.
  - reflexivity.
  - left. cbn. lra.
  - cbn. unfold PLAYER_RADIUS, WORLD.WIDTH. lra.
Defined.

End DodgeRunFacts.

(** ** The camera *)

Module CameraFacts.

Import Constants Camera.

(** X16.  After [follow] a camera whose view is no larger than the world
    shows only world: its corner lies between 0 and the world's size less
    the view's.  A target inside the world is then on screen, its screen
    coordinates between 0 and the view's size, and [isVisible] with the
    default margin holds of it.  A view wider (higher) than the world
    keeps the camera at 0 on that axis. *)
Theorem camera_follow_keeps_the_target_on_screen (tx ty : R) (c : t) :
  let c' := follow tx ty c in
  width c' = width c /\ height c' = height c /\
  (width c <= WORLD.WIDTH -> 0 <= x c' <= WORLD.WIDTH - width c) /\
  (height c <= WORLD.HEIGHT -> 0 <= y c' <= WORLD.HEIGHT - height c) /\
  (0 <= width c <= WORLD.WIDTH -> 0 <= height c <= WORLD.HEIGHT ->
   0 <= tx <= WORLD.WIDTH -> 0 <= ty <= WORLD.HEIGHT ->
   0 <= Utils.vx (worldToScreen tx ty c') <= width c /\
   0 <= Utils.vy (worldToScreen tx ty c') <= height c /\
   isVisible tx ty None c' = true) /\
  (WORLD.WIDTH < width c -> x c' = 0) /\
  (WORLD.HEIGHT < height c -> y c' = 0).
Proof.
  cbn zeta. unfold follow, worldToScreen, isVisible. cbn.
  unfold WORLD.WIDTH, WORLD.HEIGHT.
  split; [ reflexivity | ]. split; [ reflexivity | ].
  split; [ intros H; apply GeometryFacts.clamp_range; lra | ].
  split; [ intros H; apply GeometryFacts.clamp_range; lra | ].
  split.
  - intros Hw Hh Hx Hy.
    assert (Bx : 0 <= tx - Utils.clamp (tx - width c / 2) 0 (3000 - width c) <= width c).
    { unfold Utils.clamp, Num.max, Num.min, Rmax, Rmin.
      destruct (Rle_dec (3000 - width c) (tx - width c / 2)), (Rle_dec 0 _); lra. }
    assert (By : 0 <= ty - Utils.clamp (ty - height c / 2) 0 (3000 - height c) <= height c).
    { unfold Utils.clamp, Num.max, Num.min, Rmax, Rmin.
      destruct (Rle_dec (3000 - height c) (ty - height c / 2)), (Rle_dec 0 _); lra. }
    split; [ exact Bx | ]. split; [ exact By | ].
    rewrite !NumFacts.ltb_true by lra. reflexivity.
  - split; intros H; apply GeometryFacts.clamp_crossed; lra.
Qed.

End CameraFacts.

(** ** Acquiring a lock-on target *)

Module LockOnFacts.

Import LockOnSystem.

Definition reach (p : Player.t) (e : Enemy.t) : R :=
  Utils.distance (Player.x p) (Player.y p) (Enemy.x e) (Enemy.y e).

(** The loop returns the candidate it was given if no live enemy of the
    rest is strictly nearer than [bd]; otherwise a live enemy of the rest
    that is strictly nearer than [bd], at least as near as every other live
    one and strictly nearer than the live ones before it. *)
Lemma nearestLoop_spec (px py : R) (es : list Enemy.t) :
  forall best bd,
    (nearestLoop px py es best bd = best /\
     forall e, In e es -> Enemy.dead e = false ->
       bd <= Utils.distance px py (Enemy.x e) (Enemy.y e)) \/
    (exists pre e post,
       es = pre ++ e :: post /\
       nearestLoop px py es best bd = Some e /\
       Enemy.dead e = false /\
       Utils.distance px py (Enemy.x e) (Enemy.y e) < bd /\
       (forall e', In e' pre -> Enemy.dead e' = false ->
          Utils.distance px py (Enemy.x e) (Enemy.y e)
          < Utils.distance px py (Enemy.x e') (Enemy.y e')) /\
       (forall e', In e' post -> Enemy.dead e' = false ->
          Utils.distance px py (Enemy.x e) (Enemy.y e)
          <= Utils.distance px py (Enemy.x e') (Enemy.y e'))).
Proof.
  induction es as [ | e0 rest IH ]; intros best bd; cbn [nearestLoop].
  - left. split; [ reflexivity | intros e [] ].
  - destruct (Enemy.dead e0) eqn:Hd.
    + destruct (IH best bd) as [[E Hall] | (pre & e & post & -> & E & Hl & Hlt & Hpre & Hpost)].
      * left. split; [ exact E | ].
        intros e [<- | Hin] Hlive; [ congruence | apply Hall; assumption ].
      * right. exists (e0 :: pre), e, post. split; [ reflexivity | ].
        split; [ exact E | ]. split; [ exact Hl | ]. split; [ exact Hlt | ].
        split; [ | exact Hpost ].
        intros e' [<- | Hin] Hlive; [ congruence | apply Hpre; assumption ].
    + set (d0 := Utils.distance px py (Enemy.x e0) (Enemy.y e0)).
      destruct (d0 <? bd) eqn:Hcmp.
      * apply NumFacts.ltb_true_iff in Hcmp.
        destruct (IH (Some e0) d0)
          as [[E Hall] | (pre & e & post & -> & E & Hl & Hlt & Hpre & Hpost)].
        -- right. exists [], e0, rest. split; [ reflexivity | ].
           split; [ exact E | ]. split; [ exact Hd | ]. split; [ exact Hcmp | ].
           split; [ intros e' [] | exact Hall ].
        -- right. exists (e0 :: pre), e, post. split; [ reflexivity | ].
           split; [ exact E | ]. split; [ exact Hl | ]. split; [ lra | ].
           split; [ | exact Hpost ].
           intros e' [<- | Hin] Hlive; [ exact Hlt | apply Hpre; assumption ].
      * apply NumFacts.ltb_false_iff in Hcmp.
        destruct (IH best bd)
          as [[E Hall] | (pre & e & post & -> & E & Hl & Hlt & Hpre & Hpost)].
        -- left. split; [ exact E | ].
           intros e [<- | Hin] Hlive; [ exact Hcmp | apply Hall; assumption ].
        -- right. exists (e0 :: pre), e, post. split; [ reflexivity | ].
           split; [ exact E | ]. split; [ exact Hl | ]. split; [ exact Hlt | ].
           split; [ | exact Hpost ].
           intros e' [<- | Hin] Hlive; [ fold d0; lra | apply Hpre; assumption ].
Qed.

(** X17.  [_findNearest] returns [null] exactly when no enemy of the
    roster is both alive and strictly nearer to the player than the
    acquire range 400.  Otherwise it returns an enemy of the roster that is
    alive, strictly within the range, at least as near as every live
    enemy, and strictly nearer than the live enemies listed before it: of
    equally near enemies the first wins.  [toggle] releases a held lock
    and acquires that enemy when it holds none. *)
Theorem lock_on_acquires_the_nearest_live_enemy (p : Player.t)
    (es : list Enemy.t) :
  (_findNearest p es = None <->
   forall e, In e es -> Enemy.dead e = false -> ACQUIRE_RANGE <= reach p e) /\
  (forall e, _findNearest p es = Some e ->
     exists pre post,
       es = pre ++ e :: post /\
       Enemy.dead e = false /\ reach p e < ACQUIRE_RANGE /\
       (forall e', In e' es -> Enemy.dead e' = false -> reach p e <= reach p e') /\
       (forall e', In e' pre -> Enemy.dead e' = false -> reach p e < reach p e')) /\
  (forall l held, target l = Some held -> toggle p es l = mk None) /\
  (forall l, target l = None -> toggle p es l = mk (_findNearest p es)).
Proof.
  assert (Htoggle :
            (forall l held, target l = Some held -> toggle p es l = mk None) /\
            (forall l, target l = None -> toggle p es l = mk (_findNearest p es))).
  { split; intros l; unfold toggle; [ intros held -> | intros -> ]; reflexivity. }
  revert Htoggle. unfold _findNearest, reach.
  destruct (nearestLoop_spec (Player.x p) (Player.y p) es None ACQUIRE_RANGE)
    as [[E Hall] | (pre & e & post & Hes & E & Hl & Hlt & Hpre & Hpost)];
    rewrite E; intros Htoggle.
  - split; [ split; [ intros _; exact Hall | reflexivity ] | ].
    split; [ discriminate | exact Htoggle ].
  - split.
    + split; [ discriminate | ]. intros Hall. exfalso.
      assert (Hin : In e es) by (rewrite Hes; apply in_elt).
      pose proof (Hall e Hin Hl). lra.
    + split; [ | exact Htoggle ].
      intros e1 He1. injection He1 as <-. exists pre, post.
      split; [ exact Hes | ]. split; [ exact Hl | ]. split; [ exact Hlt | ].
      split; [ | exact Hpre ].
      intros e' Hin Hlive. rewrite Hes in Hin. apply in_app_or in Hin.
      destruct Hin as [Hin | [<- | Hin]];
        [ apply Rlt_le, Hpre; assumption | lra | apply Hpost; assumption ].
Qed.

End LockOnFacts.

(** ** Upgrades *)

Module UpgradeFacts.

Import UpgradeSystem.

(** The player but for its stats and its hp. *)
Definition sameButStats (p p' : Player.t) : Prop :=
  p' = Player.set_hp (Player.hp p') (set_stats (Player.stats p') p).

Lemma sameButStats_refl (p : Player.t) : sameButStats p p.
Proof. unfold sameButStats. destruct p; reflexivity. Qed.

(** X18.  Every entry of the [UPGRADES] table applies without producing a
    NaN, touches nothing of the player but its stats and hp, lowers no
    stat of a player whose stats are not negative, and never costs health:
    for a player with [0 <= maxHp] and [hp <= maxHp], the hp does not drop
    and stays at most the (new) maximum.  The heal entry sets hp to
    [min(maxHp, hp + 0.4 * maxHp)]; the max-hp entry raises maximum and hp
    by 25 alike, so the missing health stays the same. *)
Theorem table_upgrades_never_cost_health :
  Forall
    (fun u =>
       forall p,
         exists p',
           _apply p u = Some p' /\ sameButStats p p' /\
           (0 <= Player.maxHp (Player.stats p) ->
            Player.hp p <= Player.maxHp (Player.stats p) ->
            Player.hp p <= Player.hp p' <= Player.maxHp (Player.stats p')) /\
           (forall k, 0 <= getStat k (Player.stats p) ->
                      getStat k (Player.stats p) <= getStat k (Player.stats p')) /\
           (special u = Some heal ->
            Player.hp p'
            = Rmin (Player.maxHp (Player.stats p))
                (Player.hp p + Player.maxHp (Player.stats p) * (4 / 10))) /\
           (stat u = Some maxHp ->
            Player.maxHp (Player.stats p') = Player.maxHp (Player.stats p) + 25 /\
            Player.maxHp (Player.stats p') - Player.hp p'
            = Player.maxHp (Player.stats p) - Player.hp p))
    UPGRADES.
Proof.
  unfold UPGRADES.
  repeat (apply Forall_cons; [ | ]); try apply Forall_nil;
    intros p; unfold _apply; cbn.
  all: try (rewrite (proj2 (NumFacts.neqb_true_iff _ _)) by lra; cbn).
  all: eexists; (split; [ reflexivity | ]);
    (split; [ unfold sameButStats; destruct p; reflexivity | ]); cbn.
  all: (split; [ intros H0 H1; unfold Num.min, Rmin;
                 try destruct (Rle_dec _ _); lra | ]).
  all: (split; [ intros k Hk; destruct k; cbn in *; lra | ]).
  all: split; [ try discriminate; intros _; reflexivity
              | try discriminate; intros _; split; lra ].
Qed.

(** The upgrade chosen [n] times in a row. *)
Fixpoint applyTimes (n : nat) (u : Upgrade) (p : Player.t) : option Player.t :=
  match n with
  | O => Some p
  | S m =>
      match _apply p u with
      | Some p' => applyTimes m u p'
      | None => None
      end
  end.

(** The "+10% Defense" entry of the table. *)
Definition defenseUp : Upgrade := mkUpgrade None (Some defense) (Some (1 / 10)) None.

Lemma apply_defense (p : Player.t) :
  exists q,
    _apply p defenseUp = Some q /\
    Player.defense (Player.stats q) = Player.defense (Player.stats p) + 1 / 10 /\
    Player.hp q = Player.hp p /\
    Player.invulnTimer q = Player.invulnTimer p.
Proof.
  eexists. split; [ reflexivity | ]. cbn. repeat split; reflexivity.
Qed.

Lemma applyTimes_defense (n : nat) :
  forall p,
    exists p',
      applyTimes n defenseUp p = Some p' /\
      Player.defense (Player.stats p') = Player.defense (Player.stats p) + INR n / 10 /\
      Player.hp p' = Player.hp p /\
      Player.invulnTimer p' = Player.invulnTimer p.
Proof.
  induction n as [ | n IH ]; intros p.
  - exists p. cbn. repeat split; lra.
  - destruct (apply_defense p) as (q & Eq & Hd1 & Hh1 & Hi1).
    destruct (IH q) as (p' & E & Hd & Hh & Hi).
    exists p'. cbn [applyTimes]. rewrite Eq.
    split; [ exact E | ]. rewrite Hd, Hh, Hi, Hd1, Hh1, Hi1, S_INR.
    repeat split; lra.
Qed.

(** X19.  Defense has no cap: the "+10% Defense" entry of the table,
    chosen [n] times, adds [n / 10] to the player's defense and changes
    neither hp nor the invulnerability timer.  Once the defense has
    reached 1, a hit of any non-negative amount no longer lowers the hp
    (at exactly 1 it leaves a non-negative hp as it is). *)
Theorem defense_upgrades_stack_without_a_cap (n : nat) (p : Player.t) :
  In defenseUp UPGRADES /\
  exists p',
    applyTimes n defenseUp p = Some p' /\
    Player.defense (Player.stats p') = Player.defense (Player.stats p) + INR n / 10 /\
    Player.hp p' = Player.hp p /\
    (1 <= Player.defense (Player.stats p') ->
     forall amount, 0 <= amount ->
       Player.hp p' <= Player.hp (Player.takeDamage amount p')) /\
    (Player.defense (Player.stats p') = 1 ->
     0 <= Player.hp p' ->
     forall amount, Player.hp (Player.takeDamage amount p') = Player.hp p').
Proof.
  split; [ unfold UPGRADES, defenseUp; cbn; tauto | ].
  destruct (applyTimes_defense n p) as (p' & E & Hd & Hh & _).
  exists p'. split; [ exact E | ]. split; [ exact Hd | ]. split; [ exact Hh | ].
  split.
  - intros H1 amount Ha.
    destruct (Rlt_dec 0 (Player.invulnTimer p')) as [Hi | Hi].
    + rewrite PlayerFacts.takeDamage_invulnerable by exact Hi. lra.
    + rewrite PlayerFacts.takeDamage_vulnerable by lra. cbn.
      eapply Rle_trans; [ | apply Rmax_r ]. nra.
  - intros H1 H0 amount.
    destruct (Rlt_dec 0 (Player.invulnTimer p')) as [Hi | Hi].
    + rewrite PlayerFacts.takeDamage_invulnerable by exact Hi. reflexivity.
    + rewrite PlayerFacts.takeDamage_vulnerable by lra. cbn.
      rewrite H1. replace (Player.hp p' - amount * (1 - 1)) with (Player.hp p') by ring.
      apply Rmax_right. exact H0.
Qed.

End UpgradeFacts.

(** ** Collisions with the world *)

Module WorldFacts.

Import WorldManager.

(** Scaling a vector by a positive factor scales its length. *)
Lemma scaled_length (dx dy k : R) :
  0 <= k ->
  sqrt ((dx * k) * (dx * k) + (dy * k) * (dy * k)) = k * sqrt (dx * dx + dy * dy).
Proof.
  intros Hk.
  replace ((dx * k) * (dx * k) + (dy * k) * (dy * k))
    with (Rsqr k * (dx * dx + dy * dy)) by (unfold Rsqr; ring).
  rewrite sqrt_mult; [ | apply Rle_0_sqr | nra ].
  rewrite sqrt_Rsqr by exact Hk. reflexivity.
Qed.

(** X20.  [_pushFromCircle] answers exactly when the player's circle
    overlaps the obstacle's and their centres are more than 0.001 apart,
    and then it puts the player on the line from the obstacle's centre
    through its old position, at the distance at which the two circles
    touch. *)
Theorem push_from_circle_leaves_the_circles_touching
    (px py pr ox oy radius0 : R) :
  let dist := Utils.distance px py ox oy in
  (_pushFromCircle px py pr ox oy radius0 = None <->
   pr + radius0 <= dist \/ dist <= 1 / 1000) /\
  (forall v, _pushFromCircle px py pr ox oy radius0 = Some v ->
     Utils.distance (Utils.vx v) (Utils.vy v) ox oy = pr + radius0 /\
     (Utils.vx v - ox) * dist = (px - ox) * (pr + radius0) /\
     (Utils.vy v - oy) * dist = (py - oy) * (pr + radius0)).
Proof.
  cbn zeta. unfold _pushFromCircle, Utils.distance. cbn zeta.
  set (dx := px - ox). set (dy := py - oy).
  set (dist := sqrt (dx * dx + dy * dy)).
  destruct (dist <? pr + radius0) eqn:H1; cbn [andb].
  - apply NumFacts.ltb_true_iff in H1.
    destruct (1 / 1000 <? dist) eqn:H2.
    + apply NumFacts.ltb_true_iff in H2. split.
      * split; [ discriminate | intros [H | H]; lra ].
      * intros v Hv. injection Hv as <-. cbn [Utils.vx Utils.vy].
        assert (Hk : 0 <= (pr + radius0) / dist).
        { apply Rmult_le_pos; [ lra | ]. apply Rlt_le, Rinv_0_lt_compat. lra. }
        split; [ | split; unfold dx, dy; field; lra ].
        replace (px + dx / dist * (pr + radius0 - dist) - ox)
          with (dx * ((pr + radius0) / dist)) by (unfold dx; field; lra).
        replace (py + dy / dist * (pr + radius0 - dist) - oy)
          with (dy * ((pr + radius0) / dist)) by (unfold dy; field; lra).
        rewrite scaled_length by exact Hk. fold dist. field. lra.
    + apply NumFacts.ltb_false_iff in H2. split.
      * split; [ intros _; right; exact H2 | reflexivity ].
      * discriminate.
  - apply NumFacts.ltb_false_iff in H1. split.
    + split; [ intros _; left; exact H1 | reflexivity ].
    + discriminate.
Qed.

(** The distance from a point to a rectangle: to the nearest point of
    it. *)
Definition rectDistance (px py ox oy w0 h0 : R) : R :=
  Utils.distance px py (Utils.clamp px ox (ox + w0)) (Utils.clamp py oy (oy + h0)).

(** Moving away from the nearest point along one axis keeps it nearest. *)
Lemma clamp_below (p lo hi : R) :
  lo <= hi -> p <= lo -> Utils.clamp p lo hi = lo.
Proof.
  intros Hlh Hp. unfold Utils.clamp, Num.max, Num.min, Rmax, Rmin.
  destruct (Rle_dec hi p), (Rle_dec lo _); lra.
Qed.

Lemma clamp_above (p lo hi : R) :
  lo <= hi -> hi <= p -> Utils.clamp p lo hi = hi.
Proof.
  intros Hlh Hp. unfold Utils.clamp, Num.max, Num.min, Rmax, Rmin.
  destruct (Rle_dec hi p), (Rle_dec lo _); lra.
Qed.

Lemma clamp_pushed (p lo hi k : R) :
  lo <= hi -> 1 <= k ->
  Utils.clamp (Utils.clamp p lo hi + (p - Utils.clamp p lo hi) * k) lo hi
  = Utils.clamp p lo hi.
Proof.
  intros Hlh Hk.
  destruct (Rle_dec p lo) as [Hlo | Hlo].
  - rewrite (clamp_below p) by assumption.
    apply clamp_below; [ exact Hlh | nra ].
  - destruct (Rle_dec hi p) as [Hhi | Hhi].
    + rewrite (clamp_above p) by assumption.
      apply clamp_above; [ exact Hlh | nra ].
    + rewrite (GeometryFacts.clamp_inside p) by lra.
      replace (p + (p - p) * k) with p by ring.
      apply GeometryFacts.clamp_inside. lra.
Qed.

(** [d] is the distance from a point inside the rectangle to a side
    nearest to it. *)
Definition nearestSide (px py ox oy w0 h0 d : R) : Prop :=
  d <= px - ox /\ d <= ox + w0 - px /\ d <= py - oy /\ d <= oy + h0 - py.

Lemma min4_le (a b c d : R) :
  let m := Num.min (Num.min (Num.min a b) c) d in
  m <= a /\ m <= b /\ m <= c /\ m <= d.
Proof.
  cbn zeta. unfold Num.min, Rmin.
  destruct (Rle_dec a b); destruct (Rle_dec _ c); destruct (Rle_dec _ d);
    repeat split; lra.
Qed.

Lemma length_along_x (a : R) : sqrt (a * a + 0 * 0) = Rabs a.
Proof.
  replace (a * a + 0 * 0) with (Rsqr a) by (unfold Rsqr; ring).
  apply sqrt_Rsqr_abs.
Qed.

Lemma length_along_y (a : R) : sqrt (0 * 0 + a * a) = Rabs a.
Proof.
  replace (0 * 0 + a * a) with (Rsqr a) by (unfold Rsqr; ring).
  apply sqrt_Rsqr_abs.
Qed.

(** X21.  [_pushFromRect] answers exactly when the player's circle
    overlaps the rectangle (of non-negative width and height).  If the
    centre is more than 0.001 outside the rectangle, or inside it, the
    answer puts the player at distance exactly [pr] from the rectangle, so
    that the circle touches it: from outside the nearest point of the
    rectangle stays the same, from inside the player leaves through a side
    that is nearest to it. *)
Theorem push_from_rect_leaves_the_circle_touching
    (px py pr ox oy w0 h0 : R) :
  0 <= w0 -> 0 <= h0 ->
  (_pushFromRect px py pr ox oy w0 h0 = None <->
   pr <= rectDistance px py ox oy w0 h0) /\
  (forall v, _pushFromRect px py pr ox oy w0 h0 = Some v ->
     (1 / 1000 < rectDistance px py ox oy w0 h0 ->
      rectDistance (Utils.vx v) (Utils.vy v) ox oy w0 h0 = pr /\
      Utils.clamp (Utils.vx v) ox (ox + w0) = Utils.clamp px ox (ox + w0) /\
      Utils.clamp (Utils.vy v) oy (oy + h0) = Utils.clamp py oy (oy + h0)) /\
     (ox <= px <= ox + w0 -> oy <= py <= oy + h0 ->
      rectDistance (Utils.vx v) (Utils.vy v) ox oy w0 h0 = pr /\
      (v = Utils.mkVec (ox - pr) py /\
         nearestSide px py ox oy w0 h0 (px - ox) \/
       v = Utils.mkVec (ox + w0 + pr) py /\
         nearestSide px py ox oy w0 h0 (ox + w0 - px) \/
       v = Utils.mkVec px (oy - pr) /\
         nearestSide px py ox oy w0 h0 (py - oy) \/
       v = Utils.mkVec px (oy + h0 + pr) /\
         nearestSide px py ox oy w0 h0 (oy + h0 - py)))).
Proof.
  intros Hw Hh. unfold _pushFromRect, rectDistance, Utils.distance. cbn zeta.
  set (nx := Utils.clamp px ox (ox + w0)).
  set (ny := Utils.clamp py oy (oy + h0)).
  set (dx := px - nx). set (dy := py - ny).
  set (dist := sqrt (dx * dx + dy * dy)).
  destruct (dist <? pr) eqn:H1.
  - apply NumFacts.ltb_true_iff in H1.
    assert (Hd0 : 0 <= dist) by apply sqrt_pos.
    split; [ split; [ | intros H; lra ] | ].
    { destruct (1 / 1000 <? dist); [ discriminate | ].
      repeat match goal with
             | |- context [if ?b then _ else _] => destruct b
             end; discriminate. }
    intros v Hv. split.
    + intros Hout. rewrite NumFacts.ltb_true in Hv by exact Hout.
      injection Hv as <-. cbn [Utils.vx Utils.vy].
      assert (Hk : 1 <= pr / dist).
      { apply Rmult_le_reg_r with dist; [ lra | ].
        unfold Rdiv. rewrite Rmult_assoc, Rinv_l by lra. lra. }
      assert (Ex : px + dx / dist * (pr - dist) = nx + (px - nx) * (pr / dist))
        by (unfold dx; field; lra).
      assert (Ey : py + dy / dist * (pr - dist) = ny + (py - ny) * (pr / dist))
        by (unfold dy; field; lra).
      rewrite Ex, Ey.
      assert (Cx : Utils.clamp (nx + (px - nx) * (pr / dist)) ox (ox + w0) = nx)
        by (unfold nx; apply clamp_pushed; lra).
      assert (Cy : Utils.clamp (ny + (py - ny) * (pr / dist)) oy (oy + h0) = ny)
        by (unfold ny; apply clamp_pushed; lra).
      rewrite Cx, Cy.
      split; [ | split; reflexivity ].
      replace (nx + (px - nx) * (pr / dist) - nx) with (dx * (pr / dist))
        by (unfold dx; ring).
      replace (ny + (py - ny) * (pr / dist) - ny) with (dy * (pr / dist))
        by (unfold dy; ring).
      rewrite scaled_length by lra. fold dist. field. lra.
    + intros Hx Hy.
      assert (Enx : nx = px) by (apply GeometryFacts.clamp_inside; exact Hx).
      assert (Eny : ny = py) by (apply GeometryFacts.clamp_inside; exact Hy).
      assert (Edist : dist = 0).
      { unfold dist, dx, dy. rewrite Enx, Eny.
        replace ((px - px) * (px - px) + (py - py) * (py - py)) with 0 by ring.
        apply sqrt_0. }
      rewrite NumFacts.ltb_false in Hv by lra.
      assert (Hpr : 0 < pr) by lra.
      pose proof (min4_le (px - ox) (ox + w0 - px) (py - oy) (oy + h0 - py))
        as Hmin. cbn zeta in Hmin.
      set (m := Num.min (Num.min (Num.min (px - ox) (ox + w0 - px)) (py - oy))
                  (oy + h0 - py)) in *.
      assert (Hnear : forall d, m = d -> nearestSide px py ox oy w0 h0 d).
      { intros d <-. exact Hmin. }
      assert (Hlast : m <> px - ox -> m <> ox + w0 - px -> m <> py - oy ->
                      m = oy + h0 - py).
      { unfold m, Num.min, Rmin.
        destruct (Rle_dec (px - ox) (ox + w0 - px)); destruct (Rle_dec _ (py - oy));
          destruct (Rle_dec _ (oy + h0 - py)); intros; lra. }
      destruct (m =? px - ox) eqn:E1;
        [ apply NumFacts.eqb_true_iff in E1
        | apply NumFacts.eqb_false_iff in E1;
          destruct (m =? ox + w0 - px) eqn:E2;
          [ apply NumFacts.eqb_true_iff in E2
          | apply NumFacts.eqb_false_iff in E2;
            destruct (m =? py - oy) eqn:E3;
            [ apply NumFacts.eqb_true_iff in E3
            | apply NumFacts.eqb_false_iff in E3 ] ] ];
        injection Hv as <-; cbn [Utils.vx Utils.vy].
      * split; [ | left; split; [ reflexivity | apply Hnear, E1 ] ].
        rewrite (GeometryFacts.clamp_inside py) by exact Hy.
        rewrite (clamp_below (ox - pr)) by lra.
        replace (py - py) with 0 by ring. rewrite length_along_x.
        rewrite Rabs_left by lra. ring.
      * split; [ | right; left; split; [ reflexivity | apply Hnear, E2 ] ].
        rewrite (GeometryFacts.clamp_inside py) by exact Hy.
        rewrite (clamp_above (ox + w0 + pr)) by lra.
        replace (py - py) with 0 by ring. rewrite length_along_x.
        rewrite Rabs_right by lra. ring.
      * split; [ | right; right; left; split; [ reflexivity | apply Hnear, E3 ] ].
        rewrite (GeometryFacts.clamp_inside px) by exact Hx.
        rewrite (clamp_below (oy - pr)) by lra.
        replace (px - px) with 0 by ring. rewrite length_along_y.
        rewrite Rabs_left by lra. ring.
      * split; [ | right; right; right; split;
                   [ reflexivity | apply Hnear, Hlast; assumption ] ].
        rewrite (GeometryFacts.clamp_inside px) by exact Hx.
        rewrite (clamp_above (oy + h0 + pr)) by lra.
        replace (px - px) with 0 by ring. rewrite length_along_y.
        rewrite Rabs_right by lra. ring.
  - apply NumFacts.ltb_false_iff in H1.
    split; [ split; [ intros _; exact H1 | reflexivity ] | discriminate ].
Qed.

(** A player standing inside a wall block of 40 by 40. *)
Example push_from_rect_leaves_the_circle_touching_witness :
  (_pushFromRect 10 5 14 0 0 40 40 = None <->
   14 <= rectDistance 10 5 0 0 40 40) /\
  (forall v, _pushFromRect 10 5 14 0 0 40 40 = Some v ->
     (1 / 1000 < rectDistance 10 5 0 0 40 40 ->
      rectDistance (Utils.vx v) (Utils.vy v) 0 0 40 40 = 14 /\
      Utils.clamp (Utils.vx v) 0 (0 + 40) = Utils.clamp 10 0 (0 + 40) /\
      Utils.clamp (Utils.vy v) 0 (0 + 40) = Utils.clamp 5 0 (0 + 40)) /\
     (0 <= 10 <= 0 + 40 -> 0 <= 5 <= 0 + 40 ->
      rectDistance (Utils.vx v) (Utils.vy v) 0 0 40 40 = 14 /\
      (v = Utils.mkVec (0 - 14) 5 /\ nearestSide 10 5 0 0 40 40 (10 - 0) \/
       v = Utils.mkVec (0 + 40 + 14) 5 /\
         nearestSide 10 5 0 0 40 40 (0 + 40 - 10) \/
       v = Utils.mkVec 10 (0 - 14) /\ nearestSide 10 5 0 0 40 40 (5 - 0) \/
       v = Utils.mkVec 10 (0 + 40 + 14) /\
         nearestSide 10 5 0 0 40 40 (0 + 40 - 5)))).
Proof.
  apply (push_from_rect_leaves_the_circle_touching 10 5 14 0 0 40 40); lra.
Defined.

(** An obstacle that [resolveCollision] treats as solid. *)
Definition solid (o : Obstacle) : bool := negb (isGap o || isVine o).

Lemma resolveLoop_airborne (obs : list Obstacle) :
  forall px py pr a b, resolveLoop px py pr a obs = resolveLoop px py pr b obs.
Proof.
  induction obs as [| o rest IH]; intros px py pr a b; cbn [resolveLoop].
  - reflexivity.
  - destruct (isGap o), (isVine o), a, b; cbn [andb];
      try apply IH; destruct (pushFrom px py pr o); apply IH.
Qed.

Lemma resolveLoop_solid (obs : list Obstacle) :
  forall px py pr a,
    resolveLoop px py pr a obs = resolveLoop px py pr a (filter solid obs).
Proof.
  induction obs as [| o rest IH]; intros px py pr a; cbn [resolveLoop filter].
  - reflexivity.
  - unfold solid at 1.
    destruct (isGap o) eqn:Eg, (isVine o) eqn:Ev, a;
      cbn [andb orb negb resolveLoop]; rewrite ?Eg, ?Ev; cbn [andb];
      try apply IH; destruct (pushFrom px py pr o); apply IH.
Qed.

Lemma resolveLoop_clear (obs : list Obstacle) (px py pr : R) (a : bool) :
  (forall o, In o obs -> solid o = true -> pushFrom px py pr o = None) ->
  resolveLoop px py pr a obs = Utils.mkVec px py.
Proof.
  induction obs as [| o rest IH]; intros Hclear; cbn [resolveLoop].
  - reflexivity.
  - assert (Hrest : resolveLoop px py pr a rest = Utils.mkVec px py).
    { apply IH. intros o' Hin. apply Hclear. right. exact Hin. }
    pose proof (Hclear o (or_introl eq_refl)) as Ho. unfold solid in Ho.
    destruct (isGap o), (isVine o), a; cbn [andb orb negb] in *;
      try exact Hrest; rewrite Ho by reflexivity; exact Hrest.
Qed.

(** X22.  [resolveCollision] never lets a gap or a vine push the player,
    whether the player is airborne or not: the [isAirborne] argument has
    no effect on the answer, which is the one for the map with the gaps
    and vines taken out, and a position that no solid obstacle pushes is
    returned as it is. *)
Theorem gaps_and_vines_never_push (px py pr : R) (m : t) :
  (forall a b, resolveCollision px py pr a m = resolveCollision px py pr b m) /\
  (forall a, resolveCollision px py pr a m
             = resolveCollision px py pr a (mk (filter solid (obstacles m)))) /\
  (forall a,
     (forall o, In o (obstacles m) -> solid o = true ->
                pushFrom px py pr o = None) ->
     resolveCollision px py pr a m = Utils.mkVec px py).
Proof.
  unfold resolveCollision. cbn [obstacles]. repeat split.
  - intros a b. apply resolveLoop_airborne.
  - intros a. apply resolveLoop_solid.
  - intros a Hclear. apply resolveLoop_clear. exact Hclear.
Qed.

(** The overlap test of [checkGap] and [checkVineGrab] compares squared
    lengths; for a radius that is not negative it is the test of
    [_pushFromRect]. *)
Lemma overlaps_rect (px py pr : R) (o : Obstacle) (w0 h0 : R) :
  0 <= pr -> shape o = rect w0 h0 ->
  overlaps px py pr o = true <-> rectDistance px py (x o) (y o) w0 h0 < pr.
Proof.
  intros Hpr Hs. unfold overlaps, rectDistance, Utils.distance, Utils.clamp.
  rewrite Hs. cbn zeta. unfold Num.min. rewrite (Rmin_comm px), (Rmin_comm py).
  set (dx := px - _). set (dy := py - _).
  rewrite NumFacts.ltb_true_iff.
  assert (H0 : 0 <= dx * dx + dy * dy) by nra.
  assert (Epr : sqrt (pr * pr) = pr) by (apply sqrt_square; exact Hpr).
  split; intros H.
  - rewrite <- Epr. apply sqrt_lt_1; [ exact H0 | nra | exact H ].
  - rewrite <- Epr in H. apply sqrt_lt_0 in H; [ exact H | exact H0 | nra ].
Qed.

(** The player's circle stays clear of the obstacle, if it is a rectangle
    of the given type. *)
Definition clearOf (ty : ObsType) (px py pr : R) (o : Obstacle) : Prop :=
  type o = ty -> forall w0 h0,
  shape o = rect w0 h0 -> pr <= rectDistance px py (x o) (y o) w0 h0.

Lemma isGap_type (o : Obstacle) : isGap o = true <-> type o = gap.
Proof. unfold isGap. destruct (type o); split; congruence. Qed.

Lemma isVine_type (o : Obstacle) : isVine o = true <-> type o = vine.
Proof. unfold isVine. destruct (type o); split; congruence. Qed.

Lemma overlaps_clear (ty : ObsType) (px py pr : R) (o : Obstacle) :
  0 <= pr -> overlaps px py pr o = false -> clearOf ty px py pr o.
Proof.
  intros Hpr Hov _ w0 h0 Hs.
  destruct (Rle_dec pr (rectDistance px py (x o) (y o) w0 h0)) as [H | H];
    [ exact H | ].
  apply Rnot_le_lt in H. apply (overlaps_rect px py pr o w0 h0 Hpr Hs) in H.
  congruence.
Qed.

Lemma overlaps_shape (px py pr : R) (o : Obstacle) :
  overlaps px py pr o = true -> exists w0 h0, shape o = rect w0 h0.
Proof.
  unfold overlaps. destruct (shape o) as [r | w0 h0]; [ discriminate | ].
  intros _. exists w0, h0. reflexivity.
Qed.

(** X23.  For a radius that is not negative, [checkGap] returns the first
    gap of the map whose rectangle the player's circle overlaps, in the
    sense in which [_pushFromRect] tests it, and [null] when the circle is
    clear of every rectangular gap; [checkVineGrab] returns in the same way
    the first vine that is overlapped and whose grab height [z] has
    reached, so that a vine with a grab height is passed only if the
    circle is clear of it or [z] is below that height. *)
Theorem gap_and_vine_checks_find_the_first_overlap
    (px py pr z : R) (m : t) :
  0 <= pr ->
  match checkGap px py pr m with
  | Some g =>
      exists before after w0 h0,
        obstacles m = before ++ g :: after /\
        type g = gap /\ shape g = rect w0 h0 /\
        rectDistance px py (x g) (y g) w0 h0 < pr /\
        Forall (clearOf gap px py pr) before
  | None => Forall (clearOf gap px py pr) (obstacles m)
  end /\
  match checkVineGrab px py pr z m with
  | Some v =>
      exists before after w0 h0 gh,
        obstacles m = before ++ v :: after /\
        type v = vine /\ shape v = rect w0 h0 /\
        rectDistance px py (x v) (y v) w0 h0 < pr /\
        grabHeight v = Some gh /\ gh <= z /\
        Forall (fun o => forall gh', grabHeight o = Some gh' ->
                         clearOf vine px py pr o \/ z < gh') before
  | None =>
      Forall (fun o => forall gh', grabHeight o = Some gh' ->
                       clearOf vine px py pr o \/ z < gh') (obstacles m)
  end.
Proof.
  intros Hpr. unfold checkGap, checkVineGrab. split.
  - induction (obstacles m) as [| o rest IH]; cbn [gapLoop].
    + constructor.
    + destruct (isGap o) eqn:Eg; cbn [negb].
      * destruct (overlaps px py pr o) eqn:Eo.
        -- destruct (overlaps_shape _ _ _ _ Eo) as (w0 & h0 & Hs).
           exists [], rest, w0, h0. repeat split.
           ++ apply isGap_type, Eg.
           ++ exact Hs.
           ++ apply (overlaps_rect px py pr o w0 h0 Hpr Hs), Eo.
           ++ constructor.
        -- assert (Ho : clearOf gap px py pr o)
             by (apply overlaps_clear; assumption).
           destruct (gapLoop px py pr rest) as [g |].
           ++ destruct IH as (before & after & w0 & h0 & -> & Ht & Hs & Hd & Hb).
              exists (o :: before), after, w0, h0.
              repeat split; try assumption. constructor; assumption.
           ++ constructor; assumption.
      * assert (Ho : clearOf gap px py pr o).
        { intros Ht. apply isGap_type in Ht. congruence. }
        destruct (gapLoop px py pr rest) as [g |].
        -- destruct IH as (before & after & w0 & h0 & -> & Ht & Hs & Hd & Hb).
           exists (o :: before), after, w0, h0.
           repeat split; try assumption. constructor; assumption.
        -- constructor; assumption.
  - induction (obstacles m) as [| o rest IH]; cbn [vineLoop].
    + constructor.
    + assert (Hstep :
        forall P : Obstacle -> Prop, P o ->
          match vineLoop px py pr z rest with
          | Some v =>
              exists before after w0 h0 gh,
                rest = before ++ v :: after /\
                type v = vine /\ shape v = rect w0 h0 /\
                rectDistance px py (x v) (y v) w0 h0 < pr /\
                grabHeight v = Some gh /\ gh <= z /\ Forall P before
          | None => Forall P rest
          end ->
          match vineLoop px py pr z rest with
          | Some v =>
              exists before after w0 h0 gh,
                o :: rest = before ++ v :: after /\
                type v = vine /\ shape v = rect w0 h0 /\
                rectDistance px py (x v) (y v) w0 h0 < pr /\
                grabHeight v = Some gh /\ gh <= z /\ Forall P before
          | None => Forall P (o :: rest)
          end).
      { intros P Ho H. destruct (vineLoop px py pr z rest) as [v |].
        - destruct H as (before & after & w0 & h0 & gh & -> & Ht & Hs & Hd
                         & Hg & Hz & Hb).
          exists (o :: before), after, w0, h0, gh.
          repeat split; try assumption. constructor; assumption.
        - constructor; assumption. }
      destruct (isVine o) eqn:Ev; cbn [negb].
      * destruct (overlaps px py pr o) eqn:Eo; cbn [andb].
        -- destruct (grabHeight o) as [gh |] eqn:Eh.
           ++ destruct (z >=? gh) eqn:Ez.
              ** destruct (overlaps_shape _ _ _ _ Eo) as (w0 & h0 & Hs).
                 exists [], rest, w0, h0, gh. repeat split.
                 --- apply isVine_type, Ev.
                 --- exact Hs.
                 --- apply (overlaps_rect px py pr o w0 h0 Hpr Hs), Eo.
                 --- exact Eh.
                 --- apply NumFacts.leb_true_iff in Ez. exact Ez.
                 --- constructor.
              ** apply Hstep; [ | exact IH ].
                 intros gh' Hgh. right. rewrite Eh in Hgh. injection Hgh as <-.
                 apply NumFacts.leb_false_iff in Ez. lra.
           ++ apply Hstep; [ | exact IH ]. intros gh' Hgh. rewrite Eh in Hgh. discriminate.
        -- apply Hstep; [ | exact IH ].
           intros gh' _. left. apply overlaps_clear; assumption.
      * apply Hstep; [ | exact IH ].
        intros gh' _. left. intros Ht. apply isVine_type in Ht. congruence.
Qed.

(** A gap with a vine hanging over it. *)
Definition canyon : t :=
  mk [mkObstacle (rect 200 60) gap 100 100 None;
      mkObstacle (rect 20 60) vine 190 100 (Some 30)].

Example gap_and_vine_checks_find_the_first_overlap_witness :
  match checkGap 200 130 14 canyon with
  | Some g =>
      exists before after w0 h0,
        obstacles canyon = before ++ g :: after /\
        type g = gap /\ shape g = rect w0 h0 /\
        rectDistance 200 130 (x g) (y g) w0 h0 < 14 /\
        Forall (clearOf gap 200 130 14) before
  | None => Forall (clearOf gap 200 130 14) (obstacles canyon)
  end /\
  match checkVineGrab 200 130 14 40 canyon with
  | Some v =>
      exists before after w0 h0 gh,
        obstacles canyon = before ++ v :: after /\
        type v = vine /\ shape v = rect w0 h0 /\
        rectDistance 200 130 (x v) (y v) w0 h0 < 14 /\
        grabHeight v = Some gh /\ gh <= 40 /\
        Forall (fun o => forall gh', grabHeight o = Some gh' ->
                         clearOf vine 200 130 14 o \/ 40 < gh') before
  | None =>
      Forall (fun o => forall gh', grabHeight o = Some gh' ->
                       clearOf vine 200 130 14 o \/ 40 < gh') (obstacles canyon)
  end.
Proof.
  apply (gap_and_vine_checks_find_the_first_overlap 200 130 14 40 canyon). lra.
Defined.

End WorldFacts.

(** ** MP regeneration *)

Module RegenFacts.

Import Player.

(** The players differ in [mp] and [mpRegenTimer] at most. *)
Definition sameButMp (p q : t) : Prop :=
  q = set_mpRegenTimer (mpRegenTimer q) (set_mp (mp q) p).

Lemma sameButMp_refl (p : t) : sameButMp p p.
Proof. unfold sameButMp. destruct p. reflexivity. Qed.

Lemma regenInterval_value : regenInterval = 2.
Proof. unfold regenInterval, Constants.MP_CONFIG.mpRegen. field. Qed.

(** The MP after [k] rounds of the loop. *)
Definition regenerated (k : nat) (p : t) : R :=
  if mp p <? maxMp p then Rmin (mp p + INR k) (maxMp p) else mp p.

Lemma regenLoop_rest (n : nat) (p : t) :
  0 <= mpRegenTimer p < 2 ->
  exists k p',
    (k <= n)%nat /\
    (forall fuel, (k <= fuel)%nat -> regenLoop fuel p = Some p') /\
    mpRegenTimer p = mpRegenTimer p' + 2 * INR k /\
    0 <= mpRegenTimer p' < 2 /\
    mp p' = regenerated k p /\
    sameButMp p p'.
Proof.
  intros H. exists 0%nat, p. cbn [INR].
  split; [ lia | ]. split.
  { intros fuel _. destruct fuel; cbn [regenLoop];
      rewrite regenInterval_value, NumFacts.leb_false by lra; reflexivity. }
  split; [ lra | ]. split; [ lra | ]. split; [ | apply sameButMp_refl ].
  unfold regenerated. cbn [INR].
  destruct (mp p <? maxMp p) eqn:E; [ | reflexivity ].
  apply NumFacts.ltb_true_iff in E. rewrite Rmin_left by lra. lra.
Qed.

Lemma regenLoop_spec (n : nat) :
  forall p,
    0 <= mpRegenTimer p -> mpRegenTimer p < 2 * (INR n + 1) ->
    exists k p',
      (k <= n)%nat /\
      (forall fuel, (k <= fuel)%nat -> regenLoop fuel p = Some p') /\
      mpRegenTimer p = mpRegenTimer p' + 2 * INR k /\
      0 <= mpRegenTimer p' < 2 /\
      mp p' = regenerated k p /\
      sameButMp p p'.
Proof.
  induction n as [| n IH]; intros p H0 Hn.
  - apply regenLoop_rest. cbn [INR] in Hn. lra.
  - destruct (Rlt_dec (mpRegenTimer p) 2) as [Hlt | Hge].
    + apply regenLoop_rest. lra.
    + apply Rnot_lt_le in Hge. rewrite S_INR in Hn.
      set (q0 := set_mpRegenTimer (mpRegenTimer p - regenInterval) p).
      set (q := if mp q0 <? maxMp q0
                then set_mp (Num.min (mp q0 + 1) (maxMp q0)) q0 else q0).
      assert (Hq : mpRegenTimer q = mpRegenTimer p - 2 /\ maxMp q = maxMp p /\
                   mp q = (if mp p <? maxMp p then Rmin (mp p + 1) (maxMp p)
                           else mp p) /\
                   sameButMp p q).
      { unfold q, q0. rewrite regenInterval_value. cbn [mp maxMp set_mpRegenTimer].
        destruct (mp p <? maxMp p); unfold sameButMp; destruct p; cbn;
          repeat split; reflexivity. }
      destruct Hq as (Hqt & Hqm & Hqmp & Hqs).
      destruct (IH q) as (k & p' & Hk & Hrun & Ht & Hr & Hmp & Hs);
        [ lra | lra | ].
      exists (S k), p'. split; [ lia | ]. split.
      { intros fuel Hf. destruct fuel as [| fuel]; [ lia | ].
        cbn [regenLoop].
        rewrite regenInterval_value, NumFacts.leb_true by lra.
        rewrite <- regenInterval_value. fold q0. fold q.
        apply Hrun. lia. }
      split; [ rewrite S_INR; lra | ]. split; [ exact Hr | ]. split.
      * rewrite Hmp. unfold regenerated. rewrite Hqm, Hqmp, S_INR.
        pose proof (pos_INR k) as Hk0.
        destruct (mp p <? maxMp p) eqn:E.
        -- apply NumFacts.ltb_true_iff in E.
           destruct (Rle_dec (mp p + 1) (maxMp p)) as [H1 | H1].
           ++ rewrite (Rmin_left (mp p + 1) (maxMp p)) by exact H1.
              destruct (Rlt_dec (mp p + 1) (maxMp p)) as [H2 | H2].
              ** rewrite NumFacts.ltb_true by exact H2. f_equal. ring.
              ** rewrite NumFacts.ltb_false by lra.
                 rewrite Rmin_right by lra. lra.
           ++ rewrite (Rmin_right (mp p + 1) (maxMp p)) by lra.
              rewrite NumFacts.ltb_false by lra.
              rewrite Rmin_right by lra. reflexivity.
        -- rewrite E. reflexivity.
      * unfold sameButMp in *. rewrite Hs. rewrite Hqs.
        destruct p, q, p'. reflexivity.
Qed.

(** X24.  The MP regeneration of [Player.update] always terminates: with
    a timer that is not negative and a frame of length [dt >= 0], the loop
    makes a number [k] of rounds with
    [mpRegenTimer + dt = mpRegenTimer' + 2 k] and leaves the timer in
    [[0, 2)], so one round is made for every two seconds that have passed.
    A player below its maximum gains [k] MP, capped at [maxMp]; a player at
    or above its maximum keeps its MP; nothing else of the player
    changes. *)
Theorem mp_regenerates_one_point_every_two_seconds (dt : R) (p : t) :
  0 <= mpRegenTimer p -> 0 <= dt ->
  exists k p',
    (forall fuel, (k <= fuel)%nat -> regenMp fuel dt p = Some p') /\
    mpRegenTimer p + dt = mpRegenTimer p' + 2 * INR k /\
    0 <= mpRegenTimer p' < 2 /\
    mp p' = (if mp p <? maxMp p then Rmin (mp p + INR k) (maxMp p) else mp p) /\
    sameButMp p p'.
Proof.
  intros H0 Hdt. unfold regenMp.
  set (q := set_mpRegenTimer (mpRegenTimer p + dt) p).
  set (r := (mpRegenTimer p + dt) / 2).
  destruct (archimed r) as [Hup _].
  assert (Hr0 : 0 <= r) by (unfold r; lra).
  assert (Hz : (0 < up r)%Z) by (apply lt_IZR; lra).
  set (n := Z.to_nat (up r)).
  assert (Hn : INR n = IZR (up r)).
  { unfold n. rewrite INR_IZR_INZ, Z2Nat.id by lia. reflexivity. }
  destruct (regenLoop_spec n q) as (k & p' & _ & Hrun & Ht & Hr & Hmp & Hs).
  - unfold q. cbn [mpRegenTimer set_mpRegenTimer]. lra.
  - unfold q. cbn [mpRegenTimer set_mpRegenTimer]. rewrite Hn.
    generalize dependent (IZR (up r)). intros u Hu _. unfold r in Hu. lra.
  - exists k, p'. split; [ exact Hrun | ].
    split; [ unfold q in Ht; cbn [mpRegenTimer set_mpRegenTimer] in Ht; exact Ht | ].
    split; [ exact Hr | ]. split.
    + rewrite Hmp. unfold regenerated, q. reflexivity.
    + unfold sameButMp in *. rewrite Hs. unfold q. destruct p, p'. reflexivity.
Qed.

(** Five seconds at 3 MP of 5, with the timer at zero: two rounds, and
    one second left on the timer. *)
Definition tired : t :=
  set_mp 3 (Player.new 100 150 1 1).

Example mp_regenerates_one_point_every_two_seconds_witness :
  exists k p',
    (forall fuel, (k <= fuel)%nat -> regenMp fuel 5 tired = Some p') /\
    mpRegenTimer tired + 5 = mpRegenTimer p' + 2 * INR k /\
    0 <= mpRegenTimer p' < 2 /\
    mp p' = (if mp tired <? maxMp tired then Rmin (mp tired + INR k) (maxMp tired)
             else mp tired) /\
    sameButMp tired p'.
Proof.
  apply (mp_regenerates_one_point_every_two_seconds 5 tired); cbn; lra.
Defined.

End RegenFacts.

(** ** What a call adds to the pool of effects *)

Module CastFacts.

Import Weapons.

(** The effects that were added to the pool between two of its states;
    [addEffect] appends. *)
Definition added (eng eng' : EffectEngine.t) : list Effect :=
  skipn (length (EffectEngine.effects eng)) (EffectEngine.effects eng').

Lemma added_none (eng : EffectEngine.t) : added eng eng = [].
Proof. unfold added. apply skipn_all. Qed.

Lemma added_one (e : Effect) (eng : EffectEngine.t) :
  added eng (EffectEngine.addEffect e eng) = [e].
Proof.
  unfold added, EffectEngine.addEffect. cbn [EffectEngine.effects].
  rewrite skipn_app, skipn_all, Nat.sub_diag. reflexivity.
Qed.

End CastFacts.

(** ** Sums of frame times, rounded as doubles are *)

Module RoundingFacts.

(** An example of a rounding: to the nearest multiple of 2^-52, which is
    the spacing of the doubles between 1 and 2. *)
Definition grid (x : R) : R :=
  IZR (up (x * 4503599627370496 - 1 / 2)) / 4503599627370496.

Lemma grid_error (x : R) : Rabs (grid x - x) <= / 9007199254740992.
Proof.
  unfold grid.
  destruct (archimed (x * 4503599627370496 - 1 / 2)) as [Hlo Hhi].
  set (n := IZR (up (x * 4503599627370496 - 1 / 2))) in *.
  apply Rabs_le. split.
  - apply Rmult_le_reg_r with 4503599627370496; [ lra | ].
    replace ((n / 4503599627370496 - x) * 4503599627370496)
      with (n - x * 4503599627370496) by (field; lra).
    lra.
  - apply Rmult_le_reg_r with 4503599627370496; [ lra | ].
    replace ((n / 4503599627370496 - x) * 4503599627370496)
      with (n - x * 4503599627370496) by (field; lra).
    lra.
Qed.

Lemma abs_bound (a b : R) : Rabs a <= b -> - b <= a <= b.
Proof.
  intros H. pose proof (Rle_abs a) as H1. pose proof (Rle_abs (- a)) as H2.
  rewrite Rabs_Ropp in H2. lra.
Qed.

(** A rounded result that is off by at most [eps], added to what [k]
    roundings before it were off by. *)
Lemma error_step (fl : R -> R) (eps lo hi : R) (k : nat) (v e : R) :
  (forall x, lo <= x <= hi -> Rabs (fl x - x) <= eps) ->
  lo <= v <= hi -> Rabs (v - e) <= INR k * eps ->
  Rabs (fl v - e) <= INR (S k) * eps.
Proof.
  intros Hfl Hv He. rewrite S_INR.
  pose proof (abs_bound _ _ (Hfl v Hv)) as H1.
  pose proof (abs_bound _ _ He) as H2.
  apply Rabs_le. lra.
Qed.

Lemma slack_nonneg (n : nat) (eps : R) : 0 <= eps -> 0 <= INR n * eps.
Proof. intros H. apply Rmult_le_pos; [ apply pos_INR | exact H ]. Qed.

End RoundingFacts.

(** ** The fighter's charge, shield bash and spin *)

Module FighterFacts.

Import Constants Weapons FighterAbilities CastFacts RoundingFacts.

(** What the game does to a fighter's ability set, and [outside] for what
    the rest of the game does meanwhile to the player and to the pool of
    effects. *)
Inductive Event :=
| pressed (action : Action)
| released (action : Action)
| held (action : Action) (dt : R)
| tick (dt : R)
| dodge (moveDir : Utils.Vec)
| outside (p' : Player.t) (eng' : EffectEngine.t).

Definition State := (t * Player.t * EffectEngine.t)%type.

(** One event, with [fl] the rounding of the two sums of frame times. *)
Definition step (fl : R -> R) (ev : Event) (s : State) : State :=
  let '(a, p, eng) := s in
  match ev with
  | pressed action => onActionPressed action a p eng
  | released action => onActionReleased action a p eng
  | held action dt => (onActionHeld fl action dt a, p, eng)
  | tick dt => (update fl dt a, p, eng)
  | dodge moveDir => fst (onDodge moveDir a p eng)
  | outside p' eng' => (a, p', eng')
  end.

Definition run (fl : R -> R) (evs : list Event) (s : State) : State :=
  fold_left (fun s ev => step fl ev s) evs s.

(** The time for which the attack button was held. *)
Fixpoint heldTime (evs : list Event) : R :=
  match evs with
  | [] => 0
  | held attack dt :: rest => dt + heldTime rest
  | _ :: rest => heldTime rest
  end.

(** That time as the frames add it up from [T] on, each sum rounded. *)
Fixpoint heldSum (fl : R -> R) (T : R) (evs : list Event) : R :=
  match evs with
  | [] => T
  | held attack dt :: rest => heldSum fl (fl (T + dt)) rest
  | _ :: rest => heldSum fl T rest
  end.

(** The frames in which the attack button was held. *)
Fixpoint heldFrames (evs : list Event) : nat :=
  match evs with
  | [] => 0
  | held attack _ :: rest => S (heldFrames rest)
  | _ :: rest => heldFrames rest
  end.

Definition holdsForward (evs : list Event) : Prop :=
  forall dt, In (held attack dt) evs -> 0 <= dt.

(** The seconds of [update] that passed, and the calls of it. *)
Fixpoint ticked (evs : list Event) : R :=
  match evs with
  | [] => 0
  | tick dt :: rest => dt + ticked rest
  | _ :: rest => ticked rest
  end.

Fixpoint tickFrames (evs : list Event) : nat :=
  match evs with
  | [] => 0
  | tick _ :: rest => S (tickFrames rest)
  | _ :: rest => tickFrames rest
  end.

(** No frame runs backwards or lasts more than a second (the game caps a
    frame at 0.05 s). *)
Definition ticksCapped (evs : list Event) : Prop :=
  forall dt, In (tick dt) evs -> 0 <= dt <= 1.

(** Events that leave a charge running: with the attack button down there
    is no second press and no release of it, and no dodge. *)
Definition keepsCharge (ev : Event) : bool :=
  match ev with
  | pressed attack | released attack | dodge _ => false
  | _ => true
  end.

(** The damage of the tier that a charge time of [T] seconds reaches. *)
Definition chargeDamage (T : R) : R :=
  if T >=? 3 then 70 else if T >=? 2 then 40 else 20.

Definition tierOf (T : R) : nat :=
  if T >=? 3 then 3 else if T >=? 2 then 2 else if T >=? 1 then 1 else 0.

Lemma castWind_charge (a : t) (p : Player.t) (eng : EffectEngine.t) :
  fst (fst (_castWind a p eng)) = a.
Proof. unfold _castWind. destruct (negb _); reflexivity. Qed.

Lemma castSpin_charge (a : t) (p : Player.t) (eng : EffectEngine.t) :
  let a' := fst (fst (_castSpin a p eng)) in
  charging a' = charging a /\ chargeTime a' = chargeTime a /\
  chargeTier a' = chargeTier a.
Proof. unfold _castSpin. destruct (_ <? _); cbn; repeat split. Qed.

(** While the button stays down the set is charging, the charge time is
    the rounded sum of the frames held so far, and the tier is the one of
    that sum. *)
Lemma run_charge (fl : R -> R) (evs : list Event) :
  forall (a : t) (p : Player.t) (eng : EffectEngine.t) (T : R),
    forallb keepsCharge evs = true ->
    charging a = true -> chargeTime a = T -> chargeTier a = tierOf T ->
    let a' := fst (fst (run fl evs (a, p, eng))) in
    charging a' = true /\ chargeTime a' = heldSum fl T evs /\
    chargeTier a' = tierOf (heldSum fl T evs).
Proof.
  induction evs as [| ev rest IH]; intros a p eng T Hk Hc Ht Hr.
  - cbn. repeat split; assumption.
  - cbn [forallb] in Hk. apply andb_true_iff in Hk. destruct Hk as [Hev Hk].
    unfold run. cbn [fold_left]. fold (run fl rest (step fl ev (a, p, eng))).
    destruct ev as [action | action | action dt | dt | moveDir | p' eng'].
    + destruct action; [ discriminate | | ]; cbn [step onActionPressed heldSum].
      * pose proof (castWind_charge a p eng) as E.
        destruct (_castWind a p eng) as [[a1 p1] eng1]. cbn [fst] in E. subst a1.
        apply IH; assumption.
      * pose proof (castSpin_charge a p eng) as E. cbn zeta in E.
        destruct (_castSpin a p eng) as [[a1 p1] eng1]. cbn [fst] in E.
        destruct E as (E1 & E2 & E3).
        apply IH; [ exact Hk | congruence | congruence | congruence ].
    + destruct action; [ discriminate | | ];
        cbn [step onActionReleased heldSum]; apply IH; assumption.
    + destruct action; cbn [step onActionHeld heldSum];
        [ | apply IH; assumption | apply IH; assumption ].
      rewrite Hc.
      apply IH; [ exact Hk | reflexivity | cbn; congruence | ].
      unfold _updateChargeTier, tierOf. cbn.
      unfold FIGHTER_ABILITIES.charge.tier3.time,
        FIGHTER_ABILITIES.charge.tier2.time, FIGHTER_ABILITIES.charge.tier1.time.
      rewrite Ht. reflexivity.
    + cbn [step heldSum]. unfold update.
      destruct (_ <? _); apply IH; assumption.
    + discriminate.
    + cbn [step heldSum]. apply IH; assumption.
Qed.

Lemma chargeHeld_nonneg (evs : list Event) : holdsForward evs -> 0 <= heldTime evs.
Proof.
  induction evs as [| e rest IH]; intros Hf; cbn [heldTime]; [ lra | ].
  assert (H : 0 <= heldTime rest).
  { apply IH. intros dt Hin. apply Hf. right. exact Hin. }
  destruct e as [| | action dt | | |]; try exact H.
  destruct action; try exact H.
  pose proof (Hf dt (or_introl eq_refl)). lra.
Qed.

(** The rounded sum stays within one rounding error per frame of the
    exact one. *)
Lemma heldSum_error (fl : R -> R) (eps B : R) :
  (forall x, -1 <= x <= B + 1 -> Rabs (fl x - x) <= eps) ->
  forall (evs : list Event) (k : nat) (T E : R),
    holdsForward evs -> Rabs (T - E) <= INR k * eps -> 0 <= E ->
    E + heldTime evs <= B -> INR (k + heldFrames evs) * eps <= 1 ->
    Rabs (heldSum fl T evs - (E + heldTime evs))
    <= INR (k + heldFrames evs) * eps.
Proof.
  intros Hfl.
  induction evs as [| ev rest IH]; intros k T E Hf HT HE HB Hn.
  - cbn [heldSum heldTime heldFrames]. rewrite Nat.add_0_r, Rplus_0_r. exact HT.
  - assert (Hf' : holdsForward rest).
    { intros dt Hin. apply Hf. right. exact Hin. }
    pose proof (chargeHeld_nonneg rest Hf') as Hrest.
    assert (Heps : 0 <= eps).
    { pose proof (chargeHeld_nonneg _ Hf) as Hall.
      assert (H0 : -1 <= 0 <= B + 1) by lra.
      pose proof (Hfl 0 H0) as H. pose proof (Rabs_pos (fl 0 - 0)). lra. }
    destruct ev as [action | action | action dt | dt | moveDir | p' eng'];
      try (cbn [heldSum heldTime heldFrames] in *; apply IH; assumption).
    destruct action;
      try (cbn [heldSum heldTime heldFrames] in *; apply IH; assumption).
    cbn [heldSum heldTime heldFrames] in *.
    pose proof (Hf dt (or_introl eq_refl)) as Hdt.
    replace (k + S (heldFrames rest))%nat with (S k + heldFrames rest)%nat in * by lia.
    replace (E + (dt + heldTime rest)) with ((E + dt) + heldTime rest) in * by ring.
    assert (Hk : INR k * eps <= 1).
    { pose proof (slack_nonneg (heldFrames rest) eps Heps).
      rewrite plus_INR, S_INR in Hn. lra. }
    apply IH; [ exact Hf' | | lra | lra | exact Hn ].
    apply (error_step fl eps (-1) (B + 1)); [ exact Hfl | | ].
    + pose proof (abs_bound _ _ HT). lra.
    + replace (T + dt - (E + dt)) with (T - E) by ring. exact HT.
Qed.

(** X25.  The damage of a charge attack depends only on how long the
    attack button was held.  Press attack, let any frames pass that hold
    the button, tick the cooldown or cast the wind spell or the spin, while
    the rest of the game does what it likes to the player and the pool,
    then release: the charge time is then the sum of the held frames'
    times as the code adds them up, each sum rounded to a double, and the
    release adds exactly one swing at the player's position, towards the
    attack direction.  Its damage is [stats.damage] times 70, 40 or 20 for
    a charge time of at least 3, at least 2, or less than 2 seconds, so
    that a quick tap deals the tier-1 damage; it lasts 0.35 s at tier 3 and
    0.2 s otherwise.  The release ends the charge.  When no rounding is off
    by more than [eps], the charge time is within [eps] per held frame of
    the exact time held, however the hold was cut into frames, so that the
    damage is that of the exact time held unless that time is within this
    distance of 2 or 3 seconds. *)
Theorem charge_damage_depends_on_the_time_held
    (fl : R -> R) (evs : list Event)
    (a : t) (p : Player.t) (eng : EffectEngine.t) :
  forallb keepsCharge evs = true ->
  let '(a2, p2, eng2) := run fl evs (step fl (pressed attack) (a, p, eng)) in
  let T := heldSum fl 0 evs in
  let slack eps := INR (heldFrames evs) * eps in
  chargeTime a2 = T /\
  step fl (released attack) (a2, p2, eng2)
  = (mk false 0 0 (spinCooldown a2), p2,
     EffectEngine.addEffect
       (swing
          (Swing.new (Player.x p2) (Player.y p2)
             (Utils.atan2 (Utils.vy (Player.attackDir p2))
                (Utils.vx (Player.attackDir p2)))
             (60 * Player.weaponSize (Player.stats p2)) (PI * 2 / 3)
             (chargeDamage T * Player.damage (Player.stats p2))
             (2 / 10 + (if T >=? 3 then 15 / 100 else 0)))) eng2) /\
  (forall eps B : R,
     (forall x, -1 <= x <= B + 1 -> Rabs (fl x - x) <= eps) ->
     holdsForward evs -> heldTime evs <= B -> slack eps <= 1 ->
     Rabs (T - heldTime evs) <= slack eps /\
     (3 + slack eps <= heldTime evs -> chargeDamage T = 70) /\
     (2 + slack eps <= heldTime evs < 3 - slack eps -> chargeDamage T = 40) /\
     (heldTime evs < 2 - slack eps -> chargeDamage T = 20)).
Proof.
  intros Hk. cbn [step onActionPressed].
  pose proof (run_charge fl evs (mk true 0 0 (spinCooldown a)) p eng 0 Hk
                eq_refl eq_refl) as H.
  cbn zeta in H.
  destruct (run fl evs (mk true 0 0 (spinCooldown a), p, eng)) as [[a2 p2] eng2].
  cbn [fst] in H. destruct H as (Hc & Ht & Hr).
  { unfold tierOf. cbn. rewrite !NumFacts.leb_false by lra. reflexivity. }
  cbn zeta. split; [ exact Ht | ]. split.
  - cbn [step onActionReleased]. rewrite Hc. unfold _releaseCharge.
    cbn [chargeTier chargeTime charging spinCooldown]. rewrite Hr.
    unfold tierOf, chargeDamage,
      FIGHTER_ABILITIES.charge.tier3.damage, FIGHTER_ABILITIES.charge.tier2.damage,
      FIGHTER_ABILITIES.charge.tier1.damage, FIGHTER_ABILITIES.charge.range,
      FIGHTER_ABILITIES.charge.arc.
    destruct (heldSum fl 0 evs >=? 3); [ reflexivity | ].
    destruct (heldSum fl 0 evs >=? 2); [ reflexivity | ].
    destruct (heldSum fl 0 evs >=? 1); reflexivity.
  - intros eps B Hfl Hf HB Hn.
    pose proof (heldSum_error fl eps B Hfl evs 0 0 0 Hf) as He.
    cbn [Nat.add INR] in He. rewrite Rplus_0_l in He.
    assert (He' : Rabs (heldSum fl 0 evs - heldTime evs)
                  <= INR (heldFrames evs) * eps).
    { apply He; [ rewrite Rminus_diag, Rabs_R0; lra | lra | exact HB | exact Hn ]. }
    split; [ exact He' | ].
    apply abs_bound in He'. unfold chargeDamage.
    split; [ intros H; rewrite NumFacts.leb_true by lra; reflexivity | ].
    split; intros H.
    + rewrite NumFacts.leb_false, NumFacts.leb_true by lra. reflexivity.
    + rewrite !NumFacts.leb_false by lra. reflexivity.
Qed.

(** A hold of two and a half seconds in three frames, with a wind spell
    cast on the way, on the grid of 2^-52. *)
Definition heavySlash : list Event :=
  [held attack 1; tick 1; pressed magic; held attack 1; held attack (1 / 2)].

Example charge_damage_depends_on_the_time_held_witness :
  let '(a2, p2, eng2) :=
    run grid heavySlash
      (step grid (pressed attack)
         (FighterAbilities.new, Player.new 120 150 1 1, EffectEngine.mk [])) in
  let T := heldSum grid 0 heavySlash in
  let slack eps := INR (heldFrames heavySlash) * eps in
  chargeTime a2 = T /\
  step grid (released attack) (a2, p2, eng2)
  = (mk false 0 0 (spinCooldown a2), p2,
     EffectEngine.addEffect
       (swing
          (Swing.new (Player.x p2) (Player.y p2)
             (Utils.atan2 (Utils.vy (Player.attackDir p2))
                (Utils.vx (Player.attackDir p2)))
             (60 * Player.weaponSize (Player.stats p2)) (PI * 2 / 3)
             (chargeDamage T * Player.damage (Player.stats p2))
             (2 / 10 + (if T >=? 3 then 15 / 100 else 0)))) eng2) /\
  (forall eps B : R,
     (forall x, -1 <= x <= B + 1 -> Rabs (grid x - x) <= eps) ->
     holdsForward heavySlash -> heldTime heavySlash <= B -> slack eps <= 1 ->
     Rabs (T - heldTime heavySlash) <= slack eps /\
     (3 + slack eps <= heldTime heavySlash -> chargeDamage T = 70) /\
     (2 + slack eps <= heldTime heavySlash < 3 - slack eps ->
      chargeDamage T = 40) /\
     (heldTime heavySlash < 2 - slack eps -> chargeDamage T = 20)).
Proof.
  apply (charge_damage_depends_on_the_time_held grid heavySlash
           FighterAbilities.new (Player.new 120 150 1 1) (EffectEngine.mk [])).
  reflexivity.
Defined.

(** A step of 50 units along the input. *)
Lemma bash_geometry (mx my px py : R) :
  mx <> 0 \/ my <> 0 ->
  let len := sqrt (mx * mx + my * my) in
  let n := Utils.normalize mx my in
  px + mx / len * 50 = px + 50 * Utils.vx n /\
  py + my / len * 50 = py + 50 * Utils.vy n /\
  Utils.distance (px + mx / len * 50) (py + my / len * 50) px py = 50.
Proof.
  intros H. cbn zeta.
  destruct (GeometryFacts.normalize_unit mx my H) as (Hlen & En & Hunit).
  rewrite En in *. cbn [Utils.vx Utils.vy] in *.
  set (len := sqrt (mx * mx + my * my)) in *.
  split; [ ring | ]. split; [ ring | ].
  unfold Utils.distance. cbn zeta.
  replace (px + mx / len * 50 - px) with ((mx / len) * 50) by ring.
  replace (py + my / len * 50 - py) with ((my / len) * 50) by ring.
  rewrite WorldFacts.scaled_length by lra. rewrite Hunit, sqrt_1. ring.
Qed.

(** The bash itself, for an input that is not zero. *)
Ltac bash mx my p Hm :=
  let Gx := fresh "Gx" in
  let Gy := fresh "Gy" in
  let Gd := fresh "Gd" in
  destruct (bash_geometry mx my (Player.x p) (Player.y p) Hm) as (Gx & Gy & Gd);
  cbn zeta in Gx, Gy, Gd;
  split; [ split; [ intros _; split; [ reflexivity | exact Hm ] | reflexivity ] | ];
  split; [ discriminate | intros _ ];
  split; [ exact Gx | ]; split; [ exact Gy | ]; split; [ exact Gd | ];
  repeat split.

(** X26.  [onDodge] turns a dodge into a shield bash exactly when the
    fighter is charging and the movement input is not zero; otherwise it
    returns [false] and changes nothing.  The bash moves the player by
    exactly 50 units along the normalised input, whatever the input's
    length, raises the invulnerability timer to at least 0.1 s, leaves the
    hp alone, adds one swing of [15 * stats.damage] from where the player
    stood, and uses the charge up: the release of the attack button that
    follows adds no swing. *)
Theorem shield_bash_dashes_fifty_units_and_ends_the_charge
    (fl : R -> R) (moveDir : Utils.Vec)
    (a : t) (p : Player.t) (eng : EffectEngine.t) :
  let '(a', p', eng', r) := onDodge moveDir a p eng in
  let n := Utils.normalize (Utils.vx moveDir) (Utils.vy moveDir) in
  (r = true <->
   charging a = true /\ (Utils.vx moveDir <> 0 \/ Utils.vy moveDir <> 0)) /\
  (r = false -> (a', p', eng') = (a, p, eng)) /\
  (r = true ->
   Player.x p' = Player.x p + 50 * Utils.vx n /\
   Player.y p' = Player.y p + 50 * Utils.vy n /\
   Utils.distance (Player.x p') (Player.y p') (Player.x p) (Player.y p) = 50 /\
   Player.invulnTimer p' = Rmax (Player.invulnTimer p) (1 / 10) /\
   Player.hp p' = Player.hp p /\
   eng' = EffectEngine.addEffect
            (swing
               (Swing.new (Player.x p) (Player.y p)
                  (Utils.atan2 (Utils.vy moveDir) (Utils.vx moveDir))
                  (45 * Player.weaponSize (Player.stats p)) (PI / 2)
                  (15 * Player.damage (Player.stats p)) (15 / 100))) eng /\
   a' = mk false 0 0 (spinCooldown a) /\
   forall p2 eng2, step fl (released attack) (a', p2, eng2) = (a', p2, eng2)).
Proof.
  unfold onDodge. destruct moveDir as [mx my]. cbn [Utils.vx Utils.vy].
  destruct (charging a) eqn:Hc; cbn [negb].
  2: { split; [ split; [ discriminate | intros [H _]; discriminate ] | ].
       split; [ reflexivity | discriminate ]. }
  destruct (mx =? 0) eqn:Ex; cbn [andb].
  - apply NumFacts.eqb_true_iff in Ex.
    destruct (my =? 0) eqn:Ey.
    + apply NumFacts.eqb_true_iff in Ey.
      split; [ split; [ discriminate | intros [_ [H | H]]; contradiction ] | ].
      split; [ reflexivity | discriminate ].
    + apply NumFacts.eqb_false_iff in Ey. bash mx my p (@or_intror (mx <> 0) _ Ey).
  - apply NumFacts.eqb_false_iff in Ex. bash mx my p (@or_introl _ (my <> 0) Ex).
Qed.

(** The effects that an event makes the ability set add to the pool. *)
Definition cast (fl : R -> R) (ev : Event) (s : State) : list Effect :=
  match ev with
  | outside _ _ => []
  | _ => added (snd s) (snd (step fl ev s))
  end.

Fixpoint casts (fl : R -> R) (evs : list Event) (s : State) : list Effect :=
  match evs with
  | [] => []
  | ev :: rest => cast fl ev s ++ casts fl rest (step fl ev s)
  end.

Definition isSpin (e : Effect) : bool :=
  match e with spin _ => true | _ => false end.
Definition spins (l : list Effect) : nat := length (filter isSpin l).

(** Every event but a spin that is cast keeps the cooldown, or ticks it,
    and adds no spin. *)
Lemma step_cooldown (fl : R -> R) (ev : Event)
    (a : t) (p : Player.t) (eng : EffectEngine.t) :
  let a' := fst (fst (step fl ev (a, p, eng))) in
  (0 < spinCooldown a ->
   spins (cast fl ev (a, p, eng)) = 0%nat /\
   spinCooldown a'
   = match ev with
     | tick dt => fl (spinCooldown a - dt)
     | _ => spinCooldown a
     end) /\
  (ev <> pressed ability -> spinCooldown a <= 0 ->
   spinCooldown a' = spinCooldown a).
Proof.
  destruct ev as [action | action | action dt | dt | moveDir | p' eng'];
    unfold cast; cbn [step snd].
  - destruct action; cbn [onActionPressed].
    + rewrite added_none. cbn. split; [ intros _; split; reflexivity | reflexivity ].
    + unfold _castWind. destruct (negb _); cbn [fst snd].
      * rewrite added_none. split; [ intros _; split; reflexivity | reflexivity ].
      * rewrite added_one. split; [ intros _; split; reflexivity | reflexivity ].
    + unfold _castSpin. destruct (spinCooldown a >? 0) eqn:E; cbn [fst snd].
      * rewrite added_none. split; [ intros _; split; reflexivity | reflexivity ].
      * apply NumFacts.ltb_false_iff in E.
        split; [ intros H; lra | intros Hne; exfalso; apply Hne; reflexivity ].
  - destruct action; cbn [onActionReleased fst snd];
      try (rewrite added_none;
           split; [ intros _; split; reflexivity | reflexivity ]).
    destruct (charging a); cbn [fst snd].
    + unfold _releaseCharge. cbn [fst snd]. rewrite added_one.
      split; [ intros _; split; reflexivity | reflexivity ].
    + rewrite added_none. split; [ intros _; split; reflexivity | reflexivity ].
  - rewrite added_none.
    destruct action; cbn [onActionHeld fst];
      try (split; [ intros _; split; reflexivity | reflexivity ]).
    destruct (charging a);
      split; try (intros _; split); reflexivity.
  - rewrite added_none. unfold update. cbn [fst]. split.
    + intros H. rewrite NumFacts.ltb_true by exact H. split; reflexivity.
    + intros _ H. rewrite NumFacts.ltb_false by lra. reflexivity.
  - unfold onDodge.
    destruct (negb (charging a)); cbn [fst snd];
      [ rewrite added_none;
        split; [ intros _; split; reflexivity | reflexivity ] | ].
    destruct (_ && _); cbn [fst snd];
      [ rewrite added_none;
        split; [ intros _; split; reflexivity | reflexivity ] | ].
    rewrite added_one. split; [ intros _; split; reflexivity | reflexivity ].
  - cbn. split; [ intros _; split; reflexivity | reflexivity ].
Qed.

Lemma ticked_nonneg (evs : list Event) : ticksCapped evs -> 0 <= ticked evs.
Proof.
  induction evs as [| e rest IH]; intros Hf; cbn [ticked]; [ lra | ].
  assert (H : 0 <= ticked rest).
  { apply IH. intros dt Hin. apply Hf. right. exact Hin. }
  destruct e; try exact H.
  pose proof (Hf dt (or_introl eq_refl)). lra.
Qed.

(** While the exact time left exceeds what the roundings can be off by,
    the cooldown runs, within that error of the exact time left, and no
    spin is added. *)
Lemma run_cooling (fl : R -> R) (eps : R) :
  (forall x, -1 <= x <= 5 -> Rabs (fl x - x) <= eps) ->
  forall (evs : list Event) a p eng (k : nat) (E : R),
    ticksCapped evs ->
    Rabs (spinCooldown a - E) <= INR k * eps -> E <= 4 ->
    INR (k + tickFrames evs) * eps <= 1 ->
    ticked evs + INR (k + tickFrames evs) * eps < E ->
    spins (casts fl evs (a, p, eng)) = 0%nat /\
    Rabs (spinCooldown (fst (fst (run fl evs (a, p, eng)))) - (E - ticked evs))
    <= INR (k + tickFrames evs) * eps.
Proof.
  intros Hfl.
  assert (Heps : 0 <= eps).
  { assert (H0 : -1 <= 0 <= 5) by lra.
    pose proof (Hfl 0 H0) as H. pose proof (Rabs_pos (fl 0 - 0)). lra. }
  induction evs as [| ev rest IH]; intros a p eng k E Hf Hc HE Hn Ht.
  - cbn [casts run fold_left fst ticked tickFrames] in *.
    rewrite Nat.add_0_r, Rminus_0_r in *. split; [ reflexivity | exact Hc ].
  - unfold run. cbn [fold_left casts].
    fold (run fl rest (step fl ev (a, p, eng))).
    assert (Hf' : ticksCapped rest).
    { intros dt Hin. apply Hf. right. exact Hin. }
    pose proof (ticked_nonneg rest Hf') as Hrest.
    pose proof (ticked_nonneg _ Hf) as Hall.
    pose proof (abs_bound _ _ Hc) as Hc'.
    pose proof (slack_nonneg k eps Heps) as Hk0.
    pose proof (slack_nonneg (tickFrames (ev :: rest)) eps Heps) as Hn0.
    assert (Hsplit : INR (k + tickFrames (ev :: rest)) * eps
                     = INR k * eps + INR (tickFrames (ev :: rest)) * eps)
      by (rewrite plus_INR; ring).
    assert (Hpos : 0 < spinCooldown a) by lra.
    pose proof (step_cooldown fl ev a p eng) as Hstep. cbn zeta in Hstep.
    destruct Hstep as [Hstep _]. destruct (Hstep Hpos) as [Hs Hc1].
    destruct (step fl ev (a, p, eng)) as [[a1 p1] eng1]. cbn [fst] in Hc1.
    unfold spins in *. rewrite filter_app, length_app, Hs. cbn [Nat.add].
    destruct ev as [action | action | action dt | dt | moveDir | p' eng'];
      try (cbn [ticked tickFrames] in *; apply IH;
           [ exact Hf' | rewrite Hc1; exact Hc | exact HE | exact Hn | exact Ht ]).
    cbn [ticked tickFrames] in *.
    pose proof (Hf dt (or_introl eq_refl)) as Hdt.
    replace (k + S (tickFrames rest))%nat with (S k + tickFrames rest)%nat in * by lia.
    replace (E - (dt + ticked rest)) with ((E - dt) - ticked rest) by ring.
    apply IH; [ exact Hf' | | lra | exact Hn | lra ].
    rewrite Hc1. apply (error_step fl eps (-1) 5); [ exact Hfl | lra | ].
    replace (spinCooldown a - dt - (E - dt)) with (spinCooldown a - E) by ring.
    exact Hc.
Qed.

(** Without a spin cast, a cooldown that is over stays over. *)
Lemma run_idle (fl : R -> R) (evs : list Event) :
  forall a p eng,
    ~ In (pressed ability) evs -> spinCooldown a <= 0 ->
    spinCooldown (fst (fst (run fl evs (a, p, eng)))) <= 0.
Proof.
  induction evs as [| ev rest IH]; intros a p eng Hn Hc.
  - exact Hc.
  - unfold run. cbn [fold_left]. fold (run fl rest (step fl ev (a, p, eng))).
    assert (Hev : ev <> pressed ability).
    { intros ->. apply Hn. left. reflexivity. }
    pose proof (step_cooldown fl ev a p eng) as Hstep. cbn zeta in Hstep.
    destruct (step fl ev (a, p, eng)) as [[a1 p1] eng1]. cbn [fst] in Hstep.
    destruct Hstep as [_ Hidle].
    apply IH; [ intros Hin; apply Hn; right; exact Hin | ].
    rewrite (Hidle Hev Hc). exact Hc.
Qed.

(** Once the frames add up to the exact time left and to what the
    roundings can be off by, the cooldown is over. *)
Lemma run_recovered (fl : R -> R) (eps : R) :
  (forall x, -1 <= x <= 5 -> Rabs (fl x - x) <= eps) ->
  forall (evs : list Event) a p eng (k : nat) (E : R),
    ticksCapped evs -> ~ In (pressed ability) evs ->
    Rabs (spinCooldown a - E) <= INR k * eps -> E <= 4 ->
    INR (k + tickFrames evs) * eps <= 1 ->
    E + INR (k + tickFrames evs) * eps <= ticked evs ->
    spinCooldown (fst (fst (run fl evs (a, p, eng)))) <= 0.
Proof.
  intros Hfl.
  assert (Heps : 0 <= eps).
  { assert (H0 : -1 <= 0 <= 5) by lra.
    pose proof (Hfl 0 H0) as H. pose proof (Rabs_pos (fl 0 - 0)). lra. }
  induction evs as [| ev rest IH]; intros a p eng k E Hf Hno Hc HE Hn Ht.
  - cbn [run fold_left fst ticked tickFrames] in *.
    rewrite Nat.add_0_r in *. apply abs_bound in Hc. lra.
  - destruct (Rle_dec (spinCooldown a) 0) as [Hover | Hrun];
      [ apply run_idle; assumption | ].
    apply Rnot_le_lt in Hrun.
    unfold run. cbn [fold_left]. fold (run fl rest (step fl ev (a, p, eng))).
    assert (Hf' : ticksCapped rest).
    { intros dt Hin. apply Hf. right. exact Hin. }
    assert (Hno' : ~ In (pressed ability) rest).
    { intros Hin. apply Hno. right. exact Hin. }
    pose proof (abs_bound _ _ Hc) as Hc'.
    pose proof (slack_nonneg k eps Heps) as Hk0.
    pose proof (slack_nonneg (tickFrames (ev :: rest)) eps Heps) as Hn0.
    assert (Hsplit : INR (k + tickFrames (ev :: rest)) * eps
                     = INR k * eps + INR (tickFrames (ev :: rest)) * eps)
      by (rewrite plus_INR; ring).
    pose proof (step_cooldown fl ev a p eng) as Hstep. cbn zeta in Hstep.
    destruct Hstep as [Hstep _]. destruct (Hstep Hrun) as [_ Hc1].
    destruct (step fl ev (a, p, eng)) as [[a1 p1] eng1]. cbn [fst] in Hc1.
    destruct ev as [action | action | action dt | dt | moveDir | p' eng'];
      try (cbn [ticked tickFrames] in *; apply (IH a1 p1 eng1 k E);
           [ exact Hf' | exact Hno' | rewrite Hc1; exact Hc | exact HE
           | exact Hn | exact Ht ]).
    cbn [ticked tickFrames] in *.
    pose proof (Hf dt (or_introl eq_refl)) as Hdt.
    replace (k + S (tickFrames rest))%nat with (S k + tickFrames rest)%nat in * by lia.
    apply (IH a1 p1 eng1 (S k) (E - dt)); [ exact Hf' | exact Hno' | | lra | exact Hn | lra ].
    rewrite Hc1. apply (error_step fl eps (-1) 5); [ exact Hfl | lra | ].
    replace (spinCooldown a - dt - (E - dt)) with (spinCooldown a - E) by ring.
    exact Hc.
Qed.

(** X27.  A spin needs four seconds of [update] to recover.  When the
    spin is ready, pressing the ability button adds one spin to the pool
    and sets the cooldown to 4.  Each [update] takes the frame's time off
    and rounds the result to a double; let no rounding be off by more than
    [eps], and [slack] be [eps] times the number of updates.  After the
    cast, whatever the player presses, holds, releases or dodges and
    whatever the rest of the game does to the player and the pool, the
    ability set adds no further spin while the frames that passed (none
    negative or longer than a second) add up to less than 4 seconds less
    the slack, and the cooldown left is within the slack of 4 less the time
    passed.  Once they add up to 4 seconds and the slack, without a press
    of the ability button, the spin is ready again. *)
Theorem spin_recovers_in_four_seconds
    (fl : R -> R) (eps : R) (evs : list Event)
    (a : t) (p : Player.t) (eng : EffectEngine.t) :
  spinCooldown a <= 0 -> ticksCapped evs ->
  (forall x, -1 <= x <= 5 -> Rabs (fl x - x) <= eps) ->
  INR (tickFrames evs) * eps <= 1 ->
  let s1 := step fl (pressed ability) (a, p, eng) in
  let '(a2, p2, eng2) := run fl evs s1 in
  let slack := INR (tickFrames evs) * eps in
  spins (cast fl (pressed ability) (a, p, eng)) = 1%nat /\
  spinCooldown (fst (fst s1)) = 4 /\
  (ticked evs + slack < 4 ->
   spins (casts fl evs s1) = 0%nat /\
   Rabs (spinCooldown a2 - (4 - ticked evs)) <= slack /\
   step fl (pressed ability) (a2, p2, eng2) = (a2, p2, eng2)) /\
  (4 + slack <= ticked evs -> ~ In (pressed ability) evs ->
   spinCooldown a2 <= 0 /\
   spins (cast fl (pressed ability) (a2, p2, eng2)) = 1%nat).
Proof.
  intros Hready Hf Hfl Hn. unfold cast. cbn [step onActionPressed snd].
  unfold _castSpin at 1 2 3 4.
  rewrite NumFacts.ltb_false by lra. cbn [fst snd].
  set (a1 := mk (charging a) (chargeTime a) (chargeTier a)
               FIGHTER_ABILITIES.spin.cooldown).
  set (eng1 := EffectEngine.addEffect _ eng).
  assert (Hc1 : Rabs (spinCooldown a1 - 4) <= INR 0 * eps).
  { cbn. unfold FIGHTER_ABILITIES.spin.cooldown.
    rewrite Rminus_diag, Rabs_R0. lra. }
  pose proof (run_cooling fl eps Hfl evs a1 p eng1 0 4 Hf Hc1) as Hcool.
  pose proof (run_recovered fl eps Hfl evs a1 p eng1 0 4 Hf) as Hrec.
  cbn [Nat.add] in Hcool, Hrec.
  destruct (run fl evs (a1, p, eng1)) as [[a2 p2] eng2]. cbn [fst] in Hrec, Hcool.
  cbn zeta.
  split; [ unfold eng1; rewrite added_one; reflexivity | ].
  split; [ reflexivity | ].
  split.
  - intros Ht. destruct Hcool as [Hs Hc]; [ lra | exact Hn | lra | ].
    split; [ exact Hs | ]. split; [ exact Hc | ].
    apply abs_bound in Hc.
    unfold _castSpin. rewrite NumFacts.ltb_true by lra. reflexivity.
  - intros Ht Hno.
    assert (H0 : spinCooldown a2 <= 0)
      by (apply Hrec; [ exact Hno | exact Hc1 | lra | exact Hn | lra ]).
    split; [ exact H0 | ].
    unfold _castSpin. rewrite NumFacts.ltb_false by lra. cbn [snd].
    rewrite added_one. reflexivity.
Qed.

(** A fighter who spins, then charges and releases a swing over three
    seconds while mashing the ability button, on the grid of 2^-52. *)
Definition mashing : list Event :=
  [pressed ability; tick 1; pressed attack; held attack 1; tick 1;
   pressed ability; released attack; tick 1; pressed ability].

Example spin_recovers_in_four_seconds_witness :
  let s0 := (FighterAbilities.new, Player.new 120 150 1 1, EffectEngine.mk []) in
  let s1 := step grid (pressed ability) s0 in
  let '(a2, p2, eng2) := run grid mashing s1 in
  let slack := INR (tickFrames mashing) * / 9007199254740992 in
  spins (cast grid (pressed ability) s0) = 1%nat /\
  spinCooldown (fst (fst s1)) = 4 /\
  (ticked mashing + slack < 4 ->
   spins (casts grid mashing s1) = 0%nat /\
   Rabs (spinCooldown a2 - (4 - ticked mashing)) <= slack /\
   step grid (pressed ability) (a2, p2, eng2) = (a2, p2, eng2)) /\
  (4 + slack <= ticked mashing -> ~ In (pressed ability) mashing ->
   spinCooldown a2 <= 0 /\
   spins (cast grid (pressed ability) (a2, p2, eng2)) = 1%nat).
Proof.
  apply (spin_recovers_in_four_seconds grid (/ 9007199254740992) mashing
           FighterAbilities.new (Player.new 120 150 1 1) (EffectEngine.mk [])).
  - cbn. lra.
  - intros dt Hin. cbn in Hin.
    repeat (destruct Hin as [Hin | Hin];
            [ try discriminate Hin; injection Hin as <-; lra | ]).
    contradiction.
  - intros x _. apply grid_error.
  - cbn. lra.
Defined.

End FighterFacts.

(** ** The mage's attack button: fire burst or meteor *)

Module MageFacts.

Import Constants Weapons MageAbilities CastFacts.

(** What the game does to a mage's ability set, and [outside] for what
    the rest of the game does meanwhile to the player, to the pool of
    effects and to the enemies of the stored roster. *)
Inductive Event :=
| pressed (action : Action)
| released (action : Action)
| held (action : Action) (dt : R)
| tick (dt : R) (enemies : list Enemy.t)
| outside (p' : Player.t) (eng' : EffectEngine.t)
    (_enemies' : option (list Enemy.t)).

Definition State :=
  (t * Player.t * EffectEngine.t * option (list Enemy.t))%type.

Definition pool (s : State) : EffectEngine.t := snd (fst s).
Definition abilities (s : State) : t := fst (fst (fst s)).
Definition player (s : State) : Player.t := snd (fst (fst s)).

(** The nova of a fire burst cast by [p]. *)
Definition fireBurstOf (p : Player.t) : Effect :=
  nova
    (Nova.new (Player.x p + Utils.vx (Player.attackDir p) * 150)
       (Player.y p + Utils.vy (Player.attackDir p) * 150)
       (35 * Player.damage (Player.stats p))
       (60 * Player.weaponSize (Player.stats p)) 350).

Definition step (ev : Event) (s : State) : State :=
  let '(a, p, eng, _enemies) := s in
  match ev with
  | pressed action => fst (onActionPressed action a p eng _enemies)
  | released action => (onActionReleased action a p eng, _enemies)
  | held action dt => (onActionHeld action dt a p eng, _enemies)
  | tick dt enemies => (fst (update dt enemies a), p, eng, snd (update dt enemies a))
  | outside p' eng' _enemies' => (a, p', eng', _enemies')
  end.

Definition run (evs : list Event) (s : State) : State :=
  fold_left (fun s ev => step ev s) evs s.

(** The effects that an event makes the ability set add to the pool. *)
Definition cast (ev : Event) (s : State) : list Effect :=
  match ev with
  | outside _ _ _ => []
  | _ => added (pool s) (pool (step ev s))
  end.

Fixpoint casts (evs : list Event) (s : State) : list Effect :=
  match evs with
  | [] => []
  | ev :: rest => cast ev s ++ casts rest (step ev s)
  end.

(** The time for which the attack button was held. *)
Fixpoint heldTime (evs : list Event) : R :=
  match evs with
  | [] => 0
  | held attack dt :: rest => dt + heldTime rest
  | _ :: rest => heldTime rest
  end.

Definition holdsForward (evs : list Event) : Prop :=
  forall dt, In (held attack dt) evs -> 0 <= dt.

(** Events with the attack button down: no second press and no release
    of it. *)
Definition keepsHold (ev : Event) : bool :=
  match ev with
  | pressed attack | released attack => false
  | _ => true
  end.

Definition isMeteor (e : Effect) : bool :=
  match e with meteor _ => true | _ => false end.
Definition isNova (e : Effect) : bool :=
  match e with nova _ => true | _ => false end.
Definition count (f : Effect -> bool) (l : list Effect) : nat :=
  length (filter f l).

Lemma count_app (f : Effect -> bool) (l l' : list Effect) :
  count f (l ++ l') = (count f l + count f l')%nat.
Proof. unfold count. rewrite filter_app, length_app. reflexivity. Qed.

Ltac settle :=
  unfold pool, abilities; cbn [fst snd]; cbn zeta; cbn [fst snd];
  rewrite ?added_none, ?added_one, ?Rplus_0_r; cbn;
  repeat split; try assumption; try discriminate; try tauto.

(** What one event with the button down does to the hold, and what it
    casts: no fire burst, and a meteor only when none was cast in this
    hold and the button was held for 1.5 s. *)
Lemma step_hold (ev : Event) (s : State) :
  keepsHold ev = true -> holdingAttack (abilities s) = true ->
  let a := abilities s in
  let a' := abilities (step ev s) in
  let dt := match ev with held attack dt => dt | _ => 0 end in
  holdingAttack a' = true /\
  holdTime a' = holdTime a + dt /\
  count isNova (cast ev s) = 0%nat /\
  (meteorCast a = true ->
   meteorCast a' = true /\ count isMeteor (cast ev s) = 0%nat) /\
  (meteorCast a = false ->
   (meteorCast a' = false /\ count isMeteor (cast ev s) = 0%nat) \/
   (meteorCast a' = true /\ count isMeteor (cast ev s) = 1%nat /\
    3 / 2 <= holdTime a + dt)).
Proof.
  destruct s as [[[a p] eng] es]. unfold abilities, pool, cast.
  cbn [fst snd]. intros Hk Hh.
  destruct ev as [action | action | action dt | dt enemies | p' eng' es'];
    cbn [step fst snd pool].
  - destruct action; [ discriminate | | ]; cbn [onActionPressed].
    + unfold _castFrostRing.
      destruct (_ <? _); [ | destruct (negb _) ]; settle.
    + unfold _castLightningArc.
      destruct (_ <? _); [ settle | ].
      destruct (LightningArc.new _ _ _ _ _ _ _) as [[arc es'] calls]. settle.
  - destruct action; [ discriminate | | ]; cbn [onActionReleased]; settle.
  - destruct action; cbn [onActionHeld]; [ | settle | settle ].
    unfold onAttackHeld. rewrite Hh. cbn [meteorCast holdTime].
    destruct (meteorCast a) eqn:Em; cbn [negb andb]; [ settle | ].
    destruct (holdTime a + dt >=? MAGE_ABILITIES.meteor.holdTime) eqn:Et;
      [ | settle; left; split; reflexivity ].
    apply NumFacts.leb_true_iff in Et.
    unfold MAGE_ABILITIES.meteor.holdTime in Et.
    unfold _castMeteor. cbn [meteorCooldown].
    destruct (_ <? _); [ | destruct (negb _) ]; settle.
    intros _. right. repeat split. lra.
  - unfold update. settle.
  - settle.
Qed.

Lemma heldTime_nonneg (evs : list Event) : holdsForward evs -> 0 <= heldTime evs.
Proof.
  induction evs as [| e rest IH]; intros Hf; cbn [heldTime]; [ lra | ].
  assert (H : 0 <= heldTime rest).
  { apply IH. intros dt Hin. apply Hf. right. exact Hin. }
  destruct e as [ | | action dt | | ]; try exact H.
  destruct action; try exact H.
  pose proof (Hf dt (or_introl eq_refl)). lra.
Qed.

(** A hold as a whole: no fire burst, and at most one meteor, cast after
    1.5 s of holding. *)
Lemma run_hold (evs : list Event) :
  forall s,
    forallb keepsHold evs = true -> holdingAttack (abilities s) = true ->
    let a := abilities s in
    let a' := abilities (run evs s) in
    holdingAttack a' = true /\
    holdTime a' = holdTime a + heldTime evs /\
    count isNova (casts evs s) = 0%nat /\
    (meteorCast a = true ->
     meteorCast a' = true /\ count isMeteor (casts evs s) = 0%nat) /\
    (meteorCast a = false ->
     (meteorCast a' = false /\ count isMeteor (casts evs s) = 0%nat) \/
     (meteorCast a' = true /\ count isMeteor (casts evs s) = 1%nat /\
      (holdsForward evs -> 3 / 2 <= holdTime a + heldTime evs))).
Proof.
  induction evs as [| ev rest IH]; intros s Hk Hh; cbn zeta.
  - cbn. rewrite Rplus_0_r. repeat split; try assumption; tauto.
  - cbn [forallb] in Hk. apply andb_true_iff in Hk. destruct Hk as [Hev Hk].
    unfold run. cbn [fold_left casts]. fold (run rest (step ev s)).
    destruct (step_hold ev s Hev Hh) as (Hh1 & Ht1 & Hn1 & Hm1 & Hf1).
    destruct (IH (step ev s) Hk Hh1) as (Hh2 & Ht2 & Hn2 & Hm2 & Hf2).
    rewrite !count_app, Hn1, Hn2, Ht2, Ht1.
    assert (Etime : heldTime (ev :: rest)
                    = match ev with held attack dt => dt | _ => 0 end
                      + heldTime rest).
    { destruct ev as [ | | action dt | | ]; cbn [heldTime]; try ring.
      destruct action; ring. }
    rewrite Etime.
    split; [ exact Hh2 | ]. split; [ ring | ]. split; [ reflexivity | ].
    split.
    + intros Hm. destruct (Hm1 Hm) as [Hc1 Hz1]. destruct (Hm2 Hc1) as [Hc2 Hz2].
      split; [ exact Hc2 | lia ].
    + intros Hm. destruct (Hf1 Hm) as [[Hc1 Hz1] | (Hc1 & Hz1 & Hlate)].
      * destruct (Hf2 Hc1) as [[Hc2 Hz2] | (Hc2 & Hz2 & Hlate)].
        -- left. split; [ exact Hc2 | lia ].
        -- right. split; [ exact Hc2 | ]. split; [ lia | ].
           intros Hfw. rewrite Ht1 in Hlate.
           assert (H : 3 / 2 <= holdTime (abilities s)
                              + match ev with held attack dt => dt | _ => 0 end
                              + heldTime rest).
           { apply Hlate. intros dt Hin. apply Hfw. right. exact Hin. }
           lra.
      * destruct (Hm2 Hc1) as [Hc2 Hz2].
        right. split; [ exact Hc2 | ]. split; [ lia | ].
        intros Hfw.
        assert (H0 : 0 <= heldTime rest).
        { apply heldTime_nonneg. intros dt Hin. apply Hfw. right. exact Hin. }
        lra.
Qed.

(** X28.  One hold of the mage's attack button casts a fire burst or a
    meteor, never both.  From the press to the release, with any frames
    in between that hold the button, tick the cooldowns or cast the frost
    ring or the lightning, and whatever the rest of the game does to the
    player, the pool and the roster: no fire burst is cast while the
    button is down and at most one meteor, none if the button was held
    for less than 1.5 s; the release casts nothing but at most one fire
    burst, and casts it exactly when no meteor was cast in this hold and
    the fire burst has cooled down: then the release adds the one nova of
    the fire burst, 150 units from the player in the attack direction, and
    otherwise it adds nothing at all. *)
Theorem one_hold_casts_a_fire_burst_or_a_meteor
    (evs : list Event) (s : State) :
  forallb keepsHold evs = true ->
  let s1 := step (pressed attack) s in
  let s2 := run evs s1 in
  let during := cast (pressed attack) s ++ casts evs s1 in
  let atRelease := cast (released attack) s2 in
  count isNova during = 0%nat /\
  (count isMeteor during + length atRelease <= 1)%nat /\
  (holdsForward evs -> heldTime evs < 3 / 2 -> count isMeteor during = 0%nat) /\
  (count isNova atRelease = 1%nat <->
   count isMeteor during = 0%nat /\ fireBurstCooldown (abilities s2) <= 0) /\
  holdingAttack (abilities (step (released attack) s2)) = false /\
  (count isMeteor during = 0%nat -> fireBurstCooldown (abilities s2) <= 0 ->
   atRelease = [fireBurstOf (player s2)]) /\
  (count isMeteor during <> 0%nat \/ 0 < fireBurstCooldown (abilities s2) ->
   atRelease = []).
Proof.
  intros Hk. cbn zeta.
  destruct s as [[[a p] eng] es].
  assert (Epress : cast (pressed attack) (a, p, eng, es) = []).
  { unfold cast, pool. cbn. apply added_none. }
  rewrite Epress. cbn [app].
  set (s1 := step (pressed attack) (a, p, eng, es)).
  assert (Hh1 : holdingAttack (abilities s1) = true) by reflexivity.
  assert (Hm1 : meteorCast (abilities s1) = false) by reflexivity.
  assert (Ht1 : holdTime (abilities s1) = 0) by reflexivity.
  destruct (run_hold evs s1 Hk Hh1) as (Hh2 & Ht2 & Hn2 & _ & Hf2).
  specialize (Hf2 Hm1). rewrite Ht1, Rplus_0_l in Hf2, Ht2.
  destruct (run evs s1) as [[[a2 p2] eng2] es2] eqn:Erun.
  unfold cast, abilities, pool, player in *. cbn [fst snd] in *.
  cbn [step onActionReleased fst snd]. rewrite Hh2.
  split; [ exact Hn2 | ].
  destruct Hf2 as [[Hc Hz] | (Hc & Hz & Hlate)]; rewrite Hc, Hz; cbn [negb].
  - unfold _castFireBurst.
    destruct (fireBurstCooldown a2 >? 0) eqn:Ecd;
      cbn [fst snd]; cbn zeta; cbn [fst snd].
    + apply NumFacts.ltb_true_iff in Ecd. rewrite added_none. cbn.
      split; [ lia | ]. split; [ reflexivity | ].
      split; [ split; [ discriminate | intros [_ H]; lra ] | ].
      split; [ reflexivity | ].
      split; [ intros _ H; lra | reflexivity ].
    + apply NumFacts.ltb_false_iff in Ecd. rewrite added_one. cbn.
      split; [ lia | ]. split; [ reflexivity | ].
      split; [ split; [ intros _; split; [ reflexivity | exact Ecd ]
                      | reflexivity ] | ].
      split; [ reflexivity | ].
      split; [ reflexivity | intros [H | H]; [ contradiction | lra ] ].
  - rewrite added_none. cbn.
    split; [ lia | ]. split; [ intros Hfw Hlt; specialize (Hlate Hfw); lra | ].
    split; [ split; [ discriminate | intros [H _]; discriminate ] | ].
    split; [ reflexivity | ].
    split; [ discriminate | reflexivity ].
Qed.

(** A hold of two seconds by a mage with full MP, who casts a frost ring
    on the way. *)
Definition longHold : list Event :=
  [held attack 1; tick 1 []; pressed magic; held attack 1; tick 1 []].

Example one_hold_casts_a_fire_burst_or_a_meteor_witness :
  let s := (MageAbilities.new, Player.new 80 160 1 1, EffectEngine.mk [],
            @None (list Enemy.t)) in
  let s1 := step (pressed attack) s in
  let s2 := run longHold s1 in
  let during := cast (pressed attack) s ++ casts longHold s1 in
  let atRelease := cast (released attack) s2 in
  count isNova during = 0%nat /\
  (count isMeteor during + length atRelease <= 1)%nat /\
  (holdsForward longHold -> heldTime longHold < 3 / 2 ->
   count isMeteor during = 0%nat) /\
  (count isNova atRelease = 1%nat <->
   count isMeteor during = 0%nat /\ fireBurstCooldown (abilities s2) <= 0) /\
  holdingAttack (abilities (step (released attack) s2)) = false /\
  (count isMeteor during = 0%nat -> fireBurstCooldown (abilities s2) <= 0 ->
   atRelease = [fireBurstOf (player s2)]) /\
  (count isMeteor during <> 0%nat \/ 0 < fireBurstCooldown (abilities s2) ->
   atRelease = []).
Proof.
  apply (one_hold_casts_a_fire_burst_or_a_meteor longHold
           (MageAbilities.new, Player.new 80 160 1 1, EffectEngine.mk [],
            @None (list Enemy.t))).
  reflexivity.
Defined.

End MageFacts.

(** ** The celestial's fairy, heal and spirit dash *)

Module CelestialFacts.

Import Constants Weapons CelestialAbilities.

(** A cooldown after a frame. *)
Definition cooled (dt c : R) : R := if c >? 0 then c - dt else c.

(** The enemy that the fairy aims at. *)
Definition aim (p : Player.t) (enemies : list Enemy.t) : option Enemy.t :=
  FairyCompanion.nearestLoop p enemies None CELESTIAL_ABILITIES.fairy.boltRange.

Lemma fairy_nearestLoop (p : Player.t) (enemies : list Enemy.t) :
  forall best bd,
    FairyCompanion.nearestLoop p enemies best bd
    = LockOnSystem.nearestLoop (Player.x p) (Player.y p) enemies best bd.
Proof.
  induction enemies as [| e rest IH]; intros best bd;
    cbn [FairyCompanion.nearestLoop LockOnSystem.nearestLoop]; [ reflexivity | ].
  destruct (Enemy.dead e); [ apply IH | ].
  cbn zeta. destruct (_ <? _); apply IH.
Qed.

(** For a positive maximum the fairy's test is "below half". *)
Lemma hpBelow_half (hp maxHp : R) :
  0 < maxHp ->
  FairyCompanion.hpBelow hp maxHp CELESTIAL_ABILITIES.fairy.healThreshold = true
  <-> hp < maxHp / 2.
Proof.
  intros Hmax. unfold FairyCompanion.hpBelow, CELESTIAL_ABILITIES.fairy.healThreshold.
  rewrite NumFacts.eqb_false by lra. rewrite NumFacts.ltb_true_iff.
  split; intros H.
  - apply (Rmult_lt_compat_r maxHp) in H; [ | lra ].
    unfold Rdiv in H. rewrite Rmult_assoc, Rinv_l, Rmult_1_r in H by lra. lra.
  - apply (Rmult_lt_reg_r maxHp); [ lra | ].
    unfold Rdiv. rewrite Rmult_assoc, Rinv_l, Rmult_1_r by lra. lra.
Qed.

(** The fairy leaves the player as it is, or heals it. *)
Lemma fairy_update_player
    (dt : R) (enemies : list Enemy.t) (f : FairyCompanion.t) (p : Player.t)
    (eng : EffectEngine.t) :
  let p' := snd (fst (FairyCompanion.update dt enemies f p eng)) in
  p' = p \/
  p' = Player.set_hp
         (Num.min (Player.hp p + CELESTIAL_ABILITIES.fairy.healAmount)
            (Player.maxHp (Player.stats p))) p.
Proof.
  unfold FairyCompanion.update.
  destruct (_ && _);
    [ | destruct (FairyCompanion.nearestLoop _ _ _ _);
        [ destruct (_ <=? 0) | ] ];
    cbn; auto.
Qed.

(** The bolt that the fairy fires at an enemy. *)
Definition boltAt (f : FairyCompanion.t) (e : Enemy.t) : Effect :=
  fairyBolt
    (FairyBolt.new (FairyCompanion.x f) (FairyCompanion.y f)
       (Enemy.x e) (Enemy.y e) 5 300 4).

(** X29.  In a frame the fairy heals or shoots, never both, and touches
    nothing of the player but the hp.  For a player with a positive
    maximum, it heals exactly when the hp is below half of the maximum and
    its heal cooldown has run out: the hp rises, by 15 or up to the maximum
    if that is nearer, and the next heal is 2 s away.  Otherwise the hp
    stays, and it fires one bolt exactly when its bolt cooldown has run out
    and a live enemy stands less than 150 from the player: the bolt leaves
    from where the fairy is towards the nearest such enemy (the first of
    the roster among equally near ones), and the next bolt is 1.2 s
    away. *)
Theorem fairy_heals_or_shoots
    (dt : R) (enemies : list Enemy.t) (f : FairyCompanion.t) (p : Player.t)
    (eng : EffectEngine.t) :
  let '(f', p', eng') := FairyCompanion.update dt enemies f p eng in
  let healCd := cooled dt (FairyCompanion.healCooldown f) in
  let boltCd := cooled dt (FairyCompanion.boltCooldown f) in
  let maxHp := Player.maxHp (Player.stats p) in
  p' = Player.set_hp (Player.hp p') p /\
  (0 < maxHp ->
   (Player.hp p < maxHp / 2 /\ healCd <= 0 ->
    Player.hp p' = Rmin (Player.hp p + 15) maxHp /\
    Player.hp p < Player.hp p' <= maxHp /\
    FairyCompanion.healCooldown f' = 2 /\
    FairyCompanion.boltCooldown f' = boltCd /\ eng' = eng) /\
   (~ (Player.hp p < maxHp / 2 /\ healCd <= 0) ->
    Player.hp p' = Player.hp p /\
    FairyCompanion.healCooldown f' = healCd /\
    match aim p enemies with
    | Some e =>
        if boltCd <=? 0
        then eng' = EffectEngine.addEffect (boltAt f e) eng /\
             FairyCompanion.boltCooldown f' = 12 / 10
        else eng' = eng /\ FairyCompanion.boltCooldown f' = boltCd
    | None => eng' = eng /\ FairyCompanion.boltCooldown f' = boltCd
    end)) /\
  (aim p enemies = None <->
   forall e, In e enemies -> Enemy.dead e = false ->
             150 <= LockOnFacts.reach p e) /\
  (forall e, aim p enemies = Some e ->
     exists pre post,
       enemies = pre ++ e :: post /\
       Enemy.dead e = false /\ LockOnFacts.reach p e < 150 /\
       (forall e', In e' enemies -> Enemy.dead e' = false ->
          LockOnFacts.reach p e <= LockOnFacts.reach p e') /\
       (forall e', In e' pre -> Enemy.dead e' = false ->
          LockOnFacts.reach p e < LockOnFacts.reach p e')).
Proof.
  assert (Haim :
    (aim p enemies = None <->
     forall e, In e enemies -> Enemy.dead e = false ->
               150 <= LockOnFacts.reach p e) /\
    (forall e, aim p enemies = Some e ->
       exists pre post,
         enemies = pre ++ e :: post /\
         Enemy.dead e = false /\ LockOnFacts.reach p e < 150 /\
         (forall e', In e' enemies -> Enemy.dead e' = false ->
            LockOnFacts.reach p e <= LockOnFacts.reach p e') /\
         (forall e', In e' pre -> Enemy.dead e' = false ->
            LockOnFacts.reach p e < LockOnFacts.reach p e'))).
  { unfold aim, LockOnFacts.reach, CELESTIAL_ABILITIES.fairy.boltRange.
    rewrite fairy_nearestLoop.
    destruct (LockOnFacts.nearestLoop_spec (Player.x p) (Player.y p) enemies
                None 150)
      as [[E Hall] | (pre & e & post & Hes & E & Hl & Hlt & Hpre & Hpost)];
      rewrite E.
    - split; [ split; [ intros _; exact Hall | reflexivity ] | discriminate ].
    - split.
      + split; [ discriminate | ]. intros Hall. exfalso.
        assert (Hin : In e enemies) by (rewrite Hes; apply in_elt).
        pose proof (Hall e Hin Hl). lra.
      + intros e1 He1. injection He1 as <-. exists pre, post.
        split; [ exact Hes | ]. split; [ exact Hl | ]. split; [ exact Hlt | ].
        split; [ | exact Hpre ].
        intros e' Hin Hlive. rewrite Hes in Hin. apply in_app_or in Hin.
        destruct Hin as [Hin | [<- | Hin]];
          [ apply Rlt_le, Hpre; assumption | lra | apply Hpost; assumption ]. }
  unfold FairyCompanion.update. fold (aim p enemies).
  cbn [FairyCompanion.healCooldown FairyCompanion.boltCooldown
         FairyCompanion.x FairyCompanion.y FairyCompanion.state
         FairyCompanion.orbitAngle FairyCompanion.trail].
  fold (cooled dt (FairyCompanion.healCooldown f)).
  fold (cooled dt (FairyCompanion.boltCooldown f)).
  set (healCd := cooled dt (FairyCompanion.healCooldown f)).
  set (boltCd := cooled dt (FairyCompanion.boltCooldown f)).
  pose proof (hpBelow_half (Player.hp p) (Player.maxHp (Player.stats p)))
    as Hhalf.
  destruct (FairyCompanion.hpBelow _ _ _) eqn:Eh; cbn [andb].
  - destruct (healCd <=? 0) eqn:Ec.
    + apply NumFacts.leb_true_iff in Ec.
      cbn. split; [ destruct p; reflexivity | ]. split; [ | exact Haim ].
      intros Hmax. pose proof (proj1 (Hhalf Hmax) eq_refl) as Hlow.
      split; [ | intros Hn; exfalso; apply Hn; split; assumption ].
      intros _. unfold Num.min, CELESTIAL_ABILITIES.fairy.healAmount,
                  CELESTIAL_ABILITIES.fairy.healCooldown.
      split; [ reflexivity | ].
      split; [ unfold Rmin; destruct (Rle_dec _ _); lra | ].
      repeat split; reflexivity.
    + apply NumFacts.leb_false_iff in Ec.
      destruct (aim p enemies) as [e |]; [ destruct (boltCd <=? 0) eqn:Eb | ];
        cbn; (split; [ destruct p; reflexivity | ]); (split; [ | exact Haim ]);
        intros _; (split; [ intros [_ H]; lra | ]); intros _;
        rewrite ?Eb; repeat split; reflexivity.
  - destruct (aim p enemies) as [e |]; [ destruct (boltCd <=? 0) eqn:Eb | ];
      cbn; (split; [ destruct p; reflexivity | ]); (split; [ | exact Haim ]);
      intros Hmax;
      (split; [ intros [H _]; apply (Hhalf Hmax) in H; discriminate | ]);
      intros _; rewrite ?Eb; repeat split; reflexivity.
Qed.

(** The calls that the game makes on a celestial's ability set. *)
Inductive Event :=
| pressed (action : Action)
| tick (dt : R) (enemies : list Enemy.t).

Definition State :=
  (t * Companion * Player.t * EffectEngine.t)%type.

Definition step (ev : Event) (s : State) : State :=
  let '(a, c, p, eng) := s in
  match ev with
  | pressed action => onActionPressed action a c p eng
  | tick dt enemies => update dt enemies a c p eng
  end.

Definition run (evs : list Event) (s : State) : State :=
  fold_left (fun s ev => step ev s) evs s.

Definition player (s : State) : Player.t := snd (fst s).

(** A player in good order: the hp at most the maximum, the MP not
    negative, and the body inside the borders of the world. *)
Record sound (p : Player.t) : Prop := mkSound {
  sound_maxHp : 0 <= Player.maxHp (Player.stats p);
  sound_hp : Player.hp p <= Player.maxHp (Player.stats p);
  sound_mp : 0 <= Player.mp p;
  sound_radius : Player.radius p <= 1500;
  sound_x : Player.radius p <= Player.x p <= 3000 - Player.radius p;
  sound_y : Player.radius p <= Player.y p <= 3000 - Player.radius p
}.

(** What the ability set may do to the player: heal, spend MP, move
    inside the world, and lengthen the invulnerability. *)
Record helped (p p' : Player.t) : Prop := mkHelped {
  helped_hp : Player.hp p <= Player.hp p';
  helped_mp : Player.mp p' <= Player.mp p;
  helped_invuln : Player.invulnTimer p <= Player.invulnTimer p';
  helped_stats : Player.stats p' = Player.stats p;
  helped_radius : Player.radius p' = Player.radius p;
  helped_maxMp : Player.maxMp p' = Player.maxMp p
}.

Lemma helped_refl (p : Player.t) : helped p p.
Proof. constructor; first [ reflexivity | lra ]. Qed.

Lemma helped_trans (p q r : Player.t) : helped p q -> helped q r -> helped p r.
Proof.
  intros [] []. constructor; first [ lra | congruence ].
Qed.

Lemma clamp_world (r v : R) :
  r <= 1500 -> r <= Num.max r (Num.min (3000 - r) v) <= 3000 - r.
Proof.
  intros Hr. unfold Num.max, Num.min, Rmax, Rmin.
  destruct (Rle_dec (3000 - r) v), (Rle_dec r _); lra.
Qed.

Lemma step_sound (ev : Event) (s : State) :
  sound (player s) ->
  sound (player (step ev s)) /\ helped (player s) (player (step ev s)).
Proof.
  destruct s as [[[a c] p] eng]. unfold player. cbn [fst snd].
  intros [Hmax Hhp Hmp Hr Hx Hy].
  destruct ev as [action | dt enemies]; cbn [step].
  - destruct action; cbn [onActionPressed].
    + unfold _castPulse. destruct (_ <? _); cbn [fst snd];
        (split; [ constructor; assumption | apply helped_refl ]).
    + unfold _castMinorHeal.
      destruct (_ <? _); [ | destruct (negb _) eqn:Emp ]; cbn [fst snd];
        try (split; [ constructor; assumption | apply helped_refl ]).
      apply negb_false_iff, NumFacts.leb_true_iff in Emp.
      unfold Player.spendMp, CELESTIAL_ABILITIES.minorHeal.mpCost in *.
      rewrite NumFacts.ltb_false by lra. cbn.
      unfold CELESTIAL_ABILITIES.minorHeal.healPercent, Num.min, Rmin.
      destruct (Rle_dec _ _); split; constructor; cbn; try assumption;
        try reflexivity; try lra; try nra.
    + unfold _castSpiritDash. destruct (_ <? _); cbn [fst snd];
        [ split; [ constructor; assumption | apply helped_refl ] | ].
      cbn.
      pose proof (clamp_world (Player.radius p)
                    (Player.x p + Utils.vx (Player.facing p)
                                  * CELESTIAL_ABILITIES.spiritDash.distance) Hr).
      pose proof (clamp_world (Player.radius p)
                    (Player.y p + Utils.vy (Player.facing p)
                                  * CELESTIAL_ABILITIES.spiritDash.distance) Hr).
      split; constructor; cbn; try assumption; try reflexivity; try lra.
      unfold Num.max. apply Rmax_l.
  - unfold update.
    pose proof (fairy_update_player dt enemies (fairy c) p eng) as Hf.
    cbn zeta in Hf.
    destruct (FairyCompanion.update dt enemies (fairy c) p eng) as [[f' p'] eng'].
    cbn [fst snd] in *. destruct Hf as [-> | ->].
    + split; [ constructor; assumption | apply helped_refl ].
    + unfold Num.min, Rmin, CELESTIAL_ABILITIES.fairy.healAmount.
      destruct (Rle_dec _ _); split; constructor; cbn; try assumption;
        try reflexivity; lra.
Qed.

(** X30.  The celestial's abilities only ever help.  Over any run of
    button presses and frames of the ability set, with its fairy, on a
    player in good order (the hp at most a maximum that is not negative,
    the MP not negative, the body inside the world's borders): the hp
    never drops and never passes the maximum, the MP is spent but never
    overdrawn, the invulnerability timer is never shortened, the stats are
    untouched, and the spirit dash leaves the player inside the borders of
    the world. *)
Theorem celestial_abilities_only_help (evs : list Event) (s : State) :
  sound (player s) ->
  sound (player (run evs s)) /\ helped (player s) (player (run evs s)).
Proof.
  revert s. induction evs as [| ev rest IH]; intros s Hs.
  - cbn. split; [ exact Hs | apply helped_refl ].
  - unfold run. cbn [fold_left]. fold (run rest (step ev s)).
    destruct (step_sound ev s Hs) as [Hs1 Hh1].
    destruct (IH (step ev s) Hs1) as [Hs2 Hh2].
    split; [ exact Hs2 | eapply helped_trans; eassumption ].
Qed.

(** A hurt celestial near the border of the world, who heals, dashes
    towards the border and lets the fairy work for a while. *)
Definition hurt : State :=
  let p := Player.set_x 2950 (Player.set_hp 30 (Player.new 90 170 1 1)) in
  (CelestialAbilities.new, newCompanion p, p, EffectEngine.mk []).

Example celestial_abilities_only_help_witness :
  sound (player (run [pressed magic; pressed ability; tick (1 / 10) []] hurt)) /\
  helped (player hurt)
    (player (run [pressed magic; pressed ability; tick (1 / 10) []] hurt)).
Proof.
  apply (celestial_abilities_only_help
           [pressed magic; pressed ability; tick (1 / 10) []] hurt).
  constructor; cbn;
    unfold Constants.WORLD.HEIGHT, Constants.PLAYER_RADIUS, Constants.MP_CONFIG.maxMp;
    lra.
Defined.

End CelestialFacts.
